(** * fsl::Skiplist: a shallow embedding of src/skiplist/Skiplist.hpp

    The container is a stack of sorted, doubly linked lists threaded
    through a left column of dummy nodes.  The embedding keeps the lists
    themselves: [m_head] is the graph hanging off the top dummy, one list
    of nodes per level from the top list down to the bottom list, each
    without its dummy.  A node is recognised by the list it lives in and
    by the [SLPair] it points to (all the nodes of one column share one
    [KeyValPair] pointer), so [Next]/[Prev] are read off the position in a
    list and [Up]/[Down] off the presence of the same pair in the list
    above/below.

    Integers: [int] and [size_t] are unbounded naturals here; the source
    itself notes that the level count cannot reach the width of an int. *)

From Stdlib Require Import List Bool Arith PeanoNat Lia Sorted Permutation PArith.
Import ListNotations.

Set Implicit Arguments.

(** ** The pseudo-random source

    [chooseLevel] only looks at the drawn double through
    [random == 0] and [static_cast<int>(log(random) / log(0.5) + 1)];
    a draw is therefore recorded as either zero or the truncated
    logarithm.  A seeded mt19937_64 is a fixed stream and a cursor. *)

Inductive Random : Type :=
| RandomZero
| RandomLog (t : nat).

Record Rng : Type := mkRng { rng_stream : nat -> Random; rng_pos : nat }.

Definition rng_draw (g : Rng) : Random * Rng :=
  (rng_stream g (rng_pos g), mkRng (rng_stream g) (S (rng_pos g))).

(** std::uniform_real_distribution<double>: only its two bounds. *)
Record Distribution : Type := mkDistribution { dist_a : nat; dist_b : nat }.

Definition default_distribution : Distribution := mkDistribution 0 1.

(** StartLocation of the balancing iterator. *)
Inductive StartLocation : Type := BEGINNING | END | UNKNOWN.

Section SkiplistModel.

Variables KEY VAL : Type.

(** Template parameters [MULTIMAP] and [COMPARE]. *)
Variable MULTIMAP : bool.
Variable m_keyCompare : KEY -> KEY -> bool.

(** SLPair<KEY, VAL>, heap allocated: [ptr] is its address. *)
Record Pair : Type := mkPair { ptr : nat; first : KEY; second : VAL }.

(** value_compare *)
Definition m_pairCompare (left right : Pair) : bool :=
  m_keyCompare (first left) (first right).

(** A [Node*] seen from inside one horizontal list: null, the list's
    dummy, or the node that points to pair [p]. *)
Inductive NodePtr : Type :=
| nullptr
| dummy
| node (p : Pair).

(** Pointer equality of two nodes of one list. *)
Definition same (a b : Pair) : bool := ptr a =? ptr b.

Definition same_ptr (a b : NodePtr) : bool :=
  match a, b with
  | nullptr, nullptr => true
  | dummy, dummy => true
  | node p, node q => same p q
  | _, _ => false
  end.

Definition same_opt (a b : option Pair) : bool :=
  match a, b with
  | None, None => true
  | Some p, Some q => same p q
  | _, _ => false
  end.

(** [memb p l]: pair [p] has a node in list [l]. *)
Definition memb (p : Pair) (l : list Pair) : bool := existsb (same p) l.

(** Nodes reached from a node by following [Next]. *)
Fixpoint right_of_node (p : Pair) (l : list Pair) : list Pair :=
  match l with
  | [] => []
  | x :: l' => if same x p then l' else right_of_node p l'
  end.

Definition right_of (head : NodePtr) (l : list Pair) : list Pair :=
  match head with
  | nullptr => []
  | dummy => l
  | node p => right_of_node p l
  end.

(** Nodes between the dummy and a node, in list order. *)
Fixpoint before_node (p : Pair) (l : list Pair) : list Pair :=
  match l with
  | [] => []
  | x :: l' => if same x p then [] else x :: before_node p l'
  end.

(** The last node of [l], or [head] when [l] is empty. *)
Fixpoint last_node (head : NodePtr) (l : list Pair) : NodePtr :=
  match l with
  | [] => head
  | x :: l' => last_node (node x) l'
  end.

(** [p->Prev] for the node of [p] in list [l]. *)
Definition Prev_of (p : Pair) (l : list Pair) : NodePtr :=
  last_node dummy (before_node p l).

(** Link a new node for [p] right after [prev]. *)
Fixpoint insert_after_node (q p : Pair) (l : list Pair) : list Pair :=
  match l with
  | [] => []
  | x :: l' => if same x q then x :: p :: l' else x :: insert_after_node q p l'
  end.

Definition insert_after (prev : NodePtr) (p : Pair) (l : list Pair) : list Pair :=
  match prev with
  | nullptr => l
  | dummy => p :: l
  | node q => insert_after_node q p l
  end.

(** Unlink the node of [p]. *)
Definition unlink (p : Pair) (l : list Pair) : list Pair :=
  filter (fun x => negb (same x p)) l.

(** ** Container state *)

Record Skiplist : Type := mkSkiplist {
  m_levelCount : nat;
  m_count : nat;
  m_head : list (list Pair);
  m_begin : option Pair;
  m_tail : NodePtr;
  m_countMin : nat;
  m_countMax : nat;
  m_balanced : bool;
  m_rng : Rng;
  m_distribution : Distribution
}.

(** Default constructor; the seed comes from the clock. *)
Definition Skiplist_new (seed : Rng) : Skiplist :=
  mkSkiplist 0 0 [] None nullptr 0 0 true seed default_distribution.

Definition set_levelCount (v : nat) (s : Skiplist) : Skiplist :=
  mkSkiplist v (m_count s) (m_head s) (m_begin s) (m_tail s) (m_countMin s)
    (m_countMax s) (m_balanced s) (m_rng s) (m_distribution s).
Definition set_count (v : nat) (s : Skiplist) : Skiplist :=
  mkSkiplist (m_levelCount s) v (m_head s) (m_begin s) (m_tail s) (m_countMin s)
    (m_countMax s) (m_balanced s) (m_rng s) (m_distribution s).
Definition set_head (v : list (list Pair)) (s : Skiplist) : Skiplist :=
  mkSkiplist (m_levelCount s) (m_count s) v (m_begin s) (m_tail s) (m_countMin s)
    (m_countMax s) (m_balanced s) (m_rng s) (m_distribution s).
Definition set_begin (v : option Pair) (s : Skiplist) : Skiplist :=
  mkSkiplist (m_levelCount s) (m_count s) (m_head s) v (m_tail s) (m_countMin s)
    (m_countMax s) (m_balanced s) (m_rng s) (m_distribution s).
Definition set_tail (v : NodePtr) (s : Skiplist) : Skiplist :=
  mkSkiplist (m_levelCount s) (m_count s) (m_head s) (m_begin s) v (m_countMin s)
    (m_countMax s) (m_balanced s) (m_rng s) (m_distribution s).
Definition set_countMin (v : nat) (s : Skiplist) : Skiplist :=
  mkSkiplist (m_levelCount s) (m_count s) (m_head s) (m_begin s) (m_tail s) v
    (m_countMax s) (m_balanced s) (m_rng s) (m_distribution s).
Definition set_countMax (v : nat) (s : Skiplist) : Skiplist :=
  mkSkiplist (m_levelCount s) (m_count s) (m_head s) (m_begin s) (m_tail s)
    (m_countMin s) v (m_balanced s) (m_rng s) (m_distribution s).
Definition set_balanced (v : bool) (s : Skiplist) : Skiplist :=
  mkSkiplist (m_levelCount s) (m_count s) (m_head s) (m_begin s) (m_tail s)
    (m_countMin s) (m_countMax s) v (m_rng s) (m_distribution s).
Definition set_rng (v : Rng) (s : Skiplist) : Skiplist :=
  mkSkiplist (m_levelCount s) (m_count s) (m_head s) (m_begin s) (m_tail s)
    (m_countMin s) (m_countMax s) (m_balanced s) v (m_distribution s).
Definition set_distribution (v : Distribution) (s : Skiplist) : Skiplist :=
  mkSkiplist (m_levelCount s) (m_count s) (m_head s) (m_begin s) (m_tail s)
    (m_countMin s) (m_countMax s) (m_balanced s) (m_rng s) v.

(** The top dummy, as a pointer into the top list. *)
Definition head_ptr (s : Skiplist) : NodePtr :=
  match m_head s with [] => nullptr | _ :: _ => dummy end.

(** The bottom list (every element lives there). *)
Definition bottom (lists : list (list Pair)) : list Pair := last lists [].

Definition size (s : Skiplist) : nat := m_count s.
Definition empty (s : Skiplist) : bool := m_count s =? 0.
Definition is_balanced (s : Skiplist) : bool := m_balanced s.

(** ** Level manager *)

(** [pow(2.0, m_levelCount - 1)] is 0.5 at level count 0, which the cast
    to size_type truncates to 0. *)
Definition updateMinMax (s : Skiplist) : Skiplist :=
  set_countMax (2 ^ m_levelCount s - 1)
    (set_countMin (if m_levelCount s =? 0 then 0 else 2 ^ (m_levelCount s - 1)) s).

Definition chooseLevel (s : Skiplist) : nat * Skiplist :=
  let (random, g) := rng_draw (m_rng s) in
  let s := set_rng g s in
  match random with
  | RandomZero => (m_levelCount s, s)
  | RandomLog t =>
      let level := t + 1 in
      if m_levelCount s <? level then (m_levelCount s, s) else (level, s)
  end.

Definition addLevel (s : Skiplist) : Skiplist :=
  let s := set_levelCount (S (m_levelCount s)) s in
  let s := updateMinMax s in
  set_head ([] :: m_head s) s.

Definition removeLevel (s : Skiplist) : Skiplist :=
  let s := set_levelCount (m_levelCount s - 1) s in
  let s := updateMinMax s in
  set_head (tl (m_head s)) s.

(** Member-wise swap. *)
Definition swap (left right : Skiplist) : Skiplist * Skiplist :=
  (mkSkiplist (m_levelCount right) (m_count right) (m_head right) (m_begin right)
     (m_tail right) (m_countMin right) (m_countMax right) (m_balanced right)
     (m_rng right) (m_distribution right),
   mkSkiplist (m_levelCount left) (m_count left) (m_head left) (m_begin left)
     (m_tail left) (m_countMin left) (m_countMax left) (m_balanced left)
     (m_rng left) (m_distribution left)).

(** [clear]: [seed] is what the clock gives the temporary. *)
Definition clear (seed : Rng) (s : Skiplist) : Skiplist :=
  let newSkiplist := Skiplist_new seed in
  (* keep rng and distribution *)
  let '(s, newSkiplist) :=
    (set_rng (m_rng newSkiplist) s, set_rng (m_rng s) newSkiplist) in
  let '(s, newSkiplist) :=
    (set_distribution (m_distribution newSkiplist) s,
     set_distribution (m_distribution s) newSkiplist) in
  (* swap the rest *)
  fst (swap s newSkiplist).

(** ** Point query (find / contains / at) *)

(** One horizontal stretch of [findRecursive(head, key)]: [rest] are the
    nodes right of [head].  [inl n]: the match [n] is returned;
    [inr h]: the search went too far after [h] and continues at
    [h->Down]. *)
Fixpoint findRecursive_next (key : KEY) (head : NodePtr) (rest : list Pair)
  : Pair + NodePtr :=
  match rest with
  | [] => inr head
  | next :: rest' =>
      if m_keyCompare key (first next) then inr head
      else if negb (m_keyCompare (first next) key) then inl next
      else findRecursive_next key (node next) rest'
  end.

(** [findRecursive(head, key)]; [lists] is the list of [head] followed by
    the lists below it.  The answer is the matching node, given by the
    number of lists below the one it is in and by its pair. *)
Fixpoint findRecursive (lists : list (list Pair)) (head : NodePtr) (key : KEY)
  : option (nat * Pair) :=
  match lists with
  | [] => None
  | l :: below =>
      match findRecursive_next key head (right_of head l) with
      | inl next => Some (length below, next)
      | inr h => findRecursive below h key
      end
  end.

(** The horizontal stretch of the comparator-driven descent shared by
    [findRecursive(head, key, compare)] and [insertTopDownRecursive]:
    advance while [compare(key, next->key)] is false.  Returns the node
    where the walk stops and the nodes right of it. *)
Fixpoint walk (compare : KEY -> KEY -> bool) (key : KEY) (head : NodePtr)
  (rest : list Pair) : NodePtr * list Pair :=
  match rest with
  | [] => (head, [])
  | next :: rest' =>
      if compare key (first next) then (head, rest)
      else walk compare key (node next) rest'
  end.

(** [findRecursive(head, key, compare)]: always ends in the bottom list. *)
Fixpoint findRecursiveCompare (lists : list (list Pair)) (head : NodePtr)
  (key : KEY) (compare : KEY -> KEY -> bool) : option Pair :=
  match lists with
  | [] => None
  | l :: below =>
      let (h, rest) := walk compare key head (right_of head l) in
      match below with
      | _ :: _ => findRecursiveCompare below h key compare
      | [] => hd_error rest
      end
  end.

(** The lambda of [lower_bound] and of the forward bad hint. *)
Definition negated_compare (searchKey nodeKey : KEY) : bool :=
  negb (m_keyCompare nodeKey searchKey).

(** ** Iterators *)

Record const_iterator : Type := mkConstIterator { c_currentNode : option Pair }.

Record iterator : Type := mkIterator {
  m_currentNode : option Pair;
  m_index : nat;
  m_dontBalance : bool;
  m_startLocation : StartLocation
}.

(** [startNode->Prev->Prev == nullptr] for a bottom node. *)
Definition is_first (s : Skiplist) (p : Pair) : bool :=
  same_ptr (Prev_of p (bottom (m_head s))) dummy.

(** SkiplistBalancingIterator(container, startNode, startNodeIndex) *)
Definition iterator_indexed (s : Skiplist) (startNode : option Pair)
  (startNodeIndex : nat) : iterator :=
  mkIterator startNode startNodeIndex (is_balanced s)
    match startNode with
    | None => END
    | Some p => if is_first s p then BEGINNING else UNKNOWN
    end.

(** SkiplistBalancingIterator(container, startNode) *)
Definition iterator_at (s : Skiplist) (startNode : option Pair) : iterator :=
  match startNode with
  | None => mkIterator None (size s) false END
  | Some p =>
      if is_first s p then mkIterator startNode 0 false BEGINNING
      else mkIterator startNode 0 true UNKNOWN
  end.

Definition end_ (s : Skiplist) : iterator := iterator_indexed s None (m_count s).

Definition begin_ (s : Skiplist) : iterator :=
  match m_head s with
  | [] => end_ s
  | _ :: _ => iterator_indexed s (m_begin s) 0
  end.

Definition cend (s : Skiplist) : const_iterator := mkConstIterator None.

(** operator== of two balancing iterators of one container. *)
Definition iterator_eq (left right : iterator) : bool :=
  same_opt (m_currentNode left) (m_currentNode right).

(** [find(key)]: the node found is followed down to the bottom list,
    where it is known by the same pair. *)
Definition find (s : Skiplist) (key : KEY) : iterator :=
  match findRecursive (m_head s) (head_ptr s) key with
  | None => end_ s
  | Some (_, p) => iterator_at s (Some p)
  end.

(** [at(key)]: [inr] carries the std::out_of_range message. *)
Definition at_ (s : Skiplist) (key : KEY) : VAL + unit :=
  match findRecursive (m_head s) (head_ptr s) key with
  | None => inr tt
  | Some (_, p) => inl (second p)
  end.

Definition contains (s : Skiplist) (key : KEY) : bool :=
  match findRecursive (m_head s) (head_ptr s) key with
  | None => false
  | Some _ => true
  end.

Definition lower_bound (s : Skiplist) (key : KEY) : iterator :=
  iterator_at s (findRecursiveCompare (m_head s) (head_ptr s) key negated_compare).

Definition upper_bound (s : Skiplist) (key : KEY) : iterator :=
  iterator_at s (findRecursiveCompare (m_head s) (head_ptr s) key m_keyCompare).

Fixpoint count_loop (key : KEY) (current : list Pair) (count : nat) : nat :=
  match current with
  | [] => count
  | c :: next =>
      if negb (m_keyCompare key (first c)) then count_loop key next (S count)
      else count
  end.

Definition count (s : Skiplist) (key : KEY) : nat :=
  match m_currentNode (lower_bound s key) with
  | None => 0
  | Some p => count_loop key (p :: right_of_node p (bottom (m_head s))) 0
  end.

(** ** Probabilistic insert (top-down) *)

(** A node allocated by [insertTopDownRecursive]: not yet linked in, but
    its own [Prev] and [Next] already point to its place. *)
Record NewNode : Type := mkNewNode { Prev : NodePtr; Next : option Pair }.

Definition to_node (n : NodePtr) : option Pair :=
  match n with
  | node p => Some p
  | _ => None
  end.

(** [insertTopDownRecursive]; [out_node] is the column allocated so far,
    lowest node first ([Up] of a node is the rest of the list).
    [inl column]: returned true; [inr blocking]: returned false, the
    column was deleted and [out_node] points to the blocking node. *)
Fixpoint insertTopDownRecursive (lists : list (list Pair)) (head : NodePtr)
  (key : KEY) (compare : KEY -> KEY -> bool) (currentLevel targetLevel : nat)
  (out_node : list NewNode) : list NewNode + NodePtr :=
  match lists with
  | [] => inr head
  | l :: below =>
      let (h, rest) := walk compare key head (right_of head l) in
      (* this is the place to insert *)
      let out_node :=
        if currentLevel <=? targetLevel
        then mkNewNode h (hd_error rest) :: out_node
        else out_node in
      match below with
      | _ :: _ =>
          insertTopDownRecursive below h key compare (currentLevel - 1)
            targetLevel out_node
      | [] =>
          if MULTIMAP then inl out_node
          else
            match h with
            | node q => if compare (first q) key then inl out_node else inr h
            | _ => inl out_node
            end
      end
  end.

(** "Zip" the nodes: [ups] are the lists from the bottom one upwards. *)
Fixpoint zip (out_node : list NewNode) (pNewPair : Pair)
  (ups : list (list Pair)) : list (list Pair) :=
  match out_node, ups with
  | n :: up, l :: ups' => insert_after (Prev n) pNewPair l :: zip up pNewPair ups'
  | _, _ => ups
  end.

(** [insertTopDown(key, compare, getAllocatedPair)]; [pNewPair] is what
    the allocating callable returns. *)
Definition insertTopDown (s : Skiplist) (key : KEY)
  (compare : KEY -> KEY -> bool) (pNewPair : Pair)
  : (NodePtr * bool) * Skiplist :=
  let (level, s) := chooseLevel s in
  let (level, s) :=
    if m_countMax s <? m_count s + 1
    then let s := addLevel s in (m_levelCount s, s)
    else (level, s) in
  match insertTopDownRecursive (m_head s) (head_ptr s) key compare
          (m_levelCount s) level [] with
  | inl out_node =>
      let lowest := hd (mkNewNode nullptr None) out_node in
      let s := if same_opt (Next lowest) (m_begin s)
               then set_begin (Some pNewPair) s else s in
      let s := match Next lowest with
               | None => set_tail (node pNewPair) s
               | Some _ => s
               end in
      let s := set_head (rev (zip out_node pNewPair (rev (m_head s)))) s in
      let s := set_count (m_count s + 1) s in
      let s := set_balanced false s in
      ((node pNewPair, true), s)
  | inr blocking =>
      let s := if m_count s <? m_countMin s then removeLevel s else s in
      ((blocking, false), s)
  end.

(** [insert(keyValPair)] with [insertReturnConvert]; a multimap drops
    the flag. *)
Definition insert (s : Skiplist) (keyValPair : Pair)
  : (iterator * bool) * Skiplist :=
  let '((n, success), s) :=
    insertTopDown s (first keyValPair) m_keyCompare keyValPair in
  ((iterator_at s (to_node n), success), s).

(** ** Hinted insert (bottom-up) *)

(** [current->Up != nullptr], where [above] are the lists over the one
    [current] is in. *)
Definition has_up (current : NodePtr) (above : list (list Pair)) : bool :=
  match above with
  | [] => false
  | u :: _ =>
      match current with
      | nullptr => false
      | dummy => true
      | node q => memb q u
      end
  end.

(** Traverse left until a node can take us up; [left] are the nodes left
    of the start, nearest first.  [None]: reached the very top. *)
Fixpoint climb_left (left : list Pair) (above : list (list Pair))
  : option NodePtr :=
  match left with
  | [] => if has_up dummy above then Some dummy else None
  | q :: left' =>
      if has_up (node q) above then Some (node q) else climb_left left' above
  end.

Definition climb (current : NodePtr) (here : list Pair)
  (above : list (list Pair)) : option NodePtr :=
  match current with
  | nullptr => None
  | dummy => climb_left [] above
  | node q => climb_left (q :: rev (before_node q here)) above
  end.

(** [insertAbove(current, maxDepth, lowerNode)]: [here] is the list of
    [lowerNode], [above] the lists over it; returns the new [above]. *)
Fixpoint insertAbove (maxDepth : nat) (current : NodePtr) (lowerNode : Pair)
  (here : list Pair) (above : list (list Pair)) : list (list Pair) :=
  match maxDepth with
  | 0 => above
  | S maxDepth' =>
      match current with
      | nullptr => above
      | _ =>
          if same_ptr current (node lowerNode) && has_up (node lowerNode) above
          then
            match above with
            | u :: above' =>
                u :: insertAbove maxDepth' (node lowerNode) lowerNode u above'
            | [] => above
            end
          else
            match climb current here above with
            | None => above
            | Some c =>
                match above with
                | u :: above' =>
                    let u' := insert_after c lowerNode u in
                    u' :: insertAbove maxDepth' c lowerNode u' above'
                | [] => above
                end
            end
      end
  end.

(** [insertBottomUp(previous, pKeyValPair)] *)
Definition insertBottomUp (s : Skiplist) (previous : NodePtr)
  (pKeyValPair : Pair) : iterator * Skiplist :=
  let s := set_count (m_count s + 1) s in
  let s := set_balanced false s in
  let (level, s) := chooseLevel s in
  let (level, s) :=
    if m_countMax s <? m_count s
    then let s := addLevel s in (m_levelCount s, s)
    else (level, s) in
  match previous with
  | nullptr =>
      (* previous = m_head: the top dummy, which has no Up *)
      match m_head s with
      | top :: below =>
          let s := match top with [] => set_tail (node pKeyValPair) s | _ => s end in
          let s := set_head ((pKeyValPair :: top) :: below) s in
          let s := set_begin (Some pKeyValPair) s in
          (iterator_at s (Some pKeyValPair), s)
      | [] => (iterator_at s (Some pKeyValPair), s)
      end
  | _ =>
      match rev (m_head s) with
      | here :: above =>
          let s := match right_of previous here with
                   | [] => set_tail (node pKeyValPair) s
                   | _ => s
                   end in
          let here := insert_after previous pKeyValPair here in
          let s := if same_ptr previous dummy
                   then set_begin (Some pKeyValPair) s else s in
          let above :=
            if 1 <? level
            then insertAbove (level - 1) previous pKeyValPair here above
            else above in
          let s := set_head (rev (here :: above)) s in
          (iterator_at s (Some pKeyValPair), s)
      | [] => (iterator_at s (Some pKeyValPair), s)
      end
  end.

(** [a = b ? b->Prev : m_tail] *)
Definition hint_prev (s : Skiplist) (b : option Pair) : NodePtr :=
  match b with
  | Some bn => Prev_of bn (bottom (m_head s))
  | None => m_tail s
  end.

Definition insertWithHintMap (s : Skiplist) (hint : const_iterator) (key : KEY)
  (pNewPair : Pair) : iterator * Skiplist :=
  let b := c_currentNode hint in
  let a := hint_prev s b in
  if match b with None => true | Some bn => m_keyCompare key (first bn) end
  then
    if match a with node an => m_keyCompare (first an) key | _ => true end
    then insertBottomUp s a pNewPair
    else
      if match a with node an => m_keyCompare key (first an) | _ => false end
      then
        let '((n, _), s) := insertTopDown s key m_keyCompare pNewPair in
        (iterator_at s (to_node n), s)
      else (iterator_at s (to_node a), s)
  else
    if match b with None => false | Some bn => m_keyCompare (first bn) key end
    then
      let '((n, _), s) := insertTopDown s key m_keyCompare pNewPair in
      (iterator_at s (to_node n), s)
    else (iterator_at s b, s).

Definition insertWithHintMultimap (s : Skiplist) (hint : const_iterator)
  (key : KEY) (pNewPair : Pair) : iterator * Skiplist :=
  let b := c_currentNode hint in
  let a := hint_prev s b in
  if match b with None => false | Some bn => m_keyCompare (first bn) key end
  then
    (* b < x: insert at the lower bound *)
    let '((n, _), s) := insertTopDown s key negated_compare pNewPair in
    (iterator_at s (to_node n), s)
  else
    if match a with node an => m_keyCompare key (first an) | _ => false end
    then
      (* x < a: insert at the upper bound *)
      let '((n, _), s) := insertTopDown s key m_keyCompare pNewPair in
      (iterator_at s (to_node n), s)
    else insertBottomUp s a pNewPair.

(** insert(hint, keyValPair) through [insertWithHintDispatch]. *)
Definition insert_hint (s : Skiplist) (hint : const_iterator)
  (keyValPair : Pair) : iterator * Skiplist :=
  if MULTIMAP then insertWithHintMultimap s hint (first keyValPair) keyValPair
  else insertWithHintMap s hint (first keyValPair) keyValPair.

(** ** Erase *)

(** [while (m_count < m_countMin) removeLevel()]: every pass lowers the
    level count, so [fuel] = level count + 1 passes are enough. *)
Fixpoint removeLevel_while (fuel : nat) (s : Skiplist) : Skiplist :=
  match fuel with
  | 0 => s
  | S fuel' =>
      if m_count s <? m_countMin s then removeLevel_while fuel' (removeLevel s)
      else s
  end.

(** First loop of [eraseKeyRecursive]: [left] are the nodes left of
    [toRemove], nearest first.  Returns what stays and how many went. *)
Fixpoint erase_left (kvPair : Pair) (left : list Pair) : list Pair * nat :=
  match left with
  | [] => ([], 0)
  | prev :: left' =>
      if negb (m_pairCompare prev kvPair)
      then let (stay, n) := erase_left kvPair left' in (stay, S n)
      else (left, 0)
  end.

(** Second loop: [right] are the nodes right of [toRemove]. *)
Fixpoint erase_right (kvPair : Pair) (right : list Pair) : list Pair * nat :=
  match right with
  | [] => ([], 0)
  | next :: right' =>
      if negb (m_pairCompare kvPair next)
      then let (stay, n) := erase_right kvPair right' in (stay, S n)
      else (right, 0)
  end.

(** [eraseKeyRecursive(toRemove)]: [lists] is the list of [toRemove]
    followed by the lists below it. *)
Fixpoint eraseKeyRecursive (lists : list (list Pair)) (toRemove : Pair)
  (s : Skiplist) : nat * list (list Pair) * Skiplist :=
  match lists with
  | [] => (0, [], s)
  | l :: below =>
      let kvPair := toRemove in
      let (left, nl) := erase_left kvPair (rev (before_node toRemove l)) in
      let (right, nr) := erase_right kvPair (right_of_node toRemove l) in
      let l' := rev left ++ right in
      match below with
      | _ :: _ =>
          let '(numRemoved, below', s) := eraseKeyRecursive below toRemove s in
          (numRemoved, l' :: below', s)
      | [] =>
          let numRemoved := nl + nr + 1 in
          let s := match left with
                   | [] => set_begin (hd_error right) s
                   | _ => s
                   end in
          let s := match right with
                   | [] => set_tail (last_node dummy (rev left)) s
                   | _ => s
                   end in
          (numRemoved, [l'], s)
      end
  end.

(** erase(const KEY&) *)
Definition erase (s : Skiplist) (key : KEY) : nat * Skiplist :=
  match findRecursive (m_head s) (head_ptr s) key with
  | None => (0, s)
  | Some (below, toRemove) =>
      let over := length (m_head s) - S below in
      let '(numRemoved, lists', s) :=
        eraseKeyRecursive (skipn over (m_head s)) toRemove s in
      let s := set_head (firstn over (m_head s) ++ lists') s in
      let s := set_count (m_count s - numRemoved) s in
      let s := if m_count s =? 0 then set_tail nullptr s else s in
      let s := set_balanced false s in
      let s := removeLevel_while (S (m_levelCount s)) s in
      (numRemoved, s)
  end.

(** [eraseAbove(current)]: [above] are the lists over the list of
    [current]. *)
Fixpoint eraseAbove (current : Pair) (above : list (list Pair))
  : list (list Pair) :=
  match above with
  | [] => []
  | u :: above' =>
      if memb current u then unlink current u :: eraseAbove current above'
      else above
  end.

(** erase(const_iterator pos) *)
Definition erase_pos (s : Skiplist) (pos : const_iterator) : iterator * Skiplist :=
  match c_currentNode pos with
  | None => (end_ s, s)
  | Some current =>
      match rev (m_head s) with
      | [] => (end_ s, s)
      | here :: above =>
          let next := hd_error (right_of_node current here) in
          let retVal := iterator_at s next in
          let above := eraseAbove current above in
          let s := match next with
                   | Some _ => s
                   | None => set_tail (Prev_of current here) s
                   end in
          let s := if same_opt (Some current) (m_begin s)
                   then set_begin next s else s in
          let s := set_head (rev (unlink current here :: above)) s in
          let s := set_count (m_count s - 1) s in
          let s := if m_count s =? 0 then set_tail nullptr s else s in
          let s := set_balanced false s in
          let s := if m_count s <? m_countMin s then removeLevel s else s in
          (retVal, s)
      end
  end.

Definition const_iterator_eq (left right : const_iterator) : bool :=
  same_opt (c_currentNode left) (c_currentNode right).

(** [while (first != last) erase(first++)] *)
Fixpoint erase_range_loop (fuel : nat) (s : Skiplist)
  (first_ last_ : const_iterator) : const_iterator * Skiplist :=
  match fuel with
  | 0 => (first_, s)
  | S fuel' =>
      if const_iterator_eq first_ last_ then (first_, s)
      else
        match c_currentNode first_ with
        | None => (first_, s)
        | Some current =>
            let next :=
              mkConstIterator
                (hd_error (right_of_node current (bottom (m_head s)))) in
            erase_range_loop fuel' (snd (erase_pos s first_)) next last_
        end
  end.

(** erase(const_iterator first, const_iterator last) *)
Definition erase_range (s : Skiplist) (first_ last_ : const_iterator)
  : iterator * Skiplist :=
  let (first_, s) := erase_range_loop (S (m_count s)) s first_ last_ in
  (iterator_at s (c_currentNode first_), s).

Definition cbegin (s : Skiplist) : const_iterator :=
  match m_head s with
  | [] => cend s
  | _ :: _ => mkConstIterator (m_begin s)
  end.

(** pop_front(): [None] where [assert(false)] is reached, on a container
    without a head. *)
Definition pop_front (s : Skiplist) : option Skiplist :=
  match m_head s with
  | [] => None
  | _ :: _ => Some (snd (erase_pos s (cbegin s)))
  end.

(** pop_back(): [None] where [assert(false)] is reached, on a container
    without a tail, or where [assert(m_tail->KeyValPair)] fails. *)
Definition pop_back (s : Skiplist) : option Skiplist :=
  match m_tail s with
  | node t => Some (snd (erase_pos s (mkConstIterator (Some t))))
  | _ => None
  end.

(** ** Deterministic balance *)

(** The loop of [calcBalancedLevel]; [fuel] bounds the halvings. *)
Fixpoint calcBalancedLevel_loop (fuel nodeIndex level : nat) : nat :=
  match fuel with
  | 0 => level
  | S fuel' =>
      if nodeIndex mod 2 =? 0
      then calcBalancedLevel_loop fuel' (nodeIndex / 2) (S level)
      else level
  end.

Definition calcBalancedLevel (s : Skiplist) (nodeIndex : nat) : nat :=
  if nodeIndex =? 0 then m_levelCount s
  else calcBalancedLevel_loop nodeIndex nodeIndex 1.

(** The inner [for (i = level - 2; i >= 0; --i)] of [balanceWorker]:
    [tails] are the lists above the bottom one, lowest first, and the new
    column takes its first [n] = level - 1 entries. *)
Fixpoint append_column (current : Pair) (n : nat) (tails : list (list Pair))
  : list (list Pair) :=
  match n, tails with
  | S n', t :: tails' => (t ++ [current]) :: append_column current n' tails'
  | _, _ => tails
  end.

(** The [while (current)] loop of [balanceWorker]. *)
Fixpoint balance_loop (s : Skiplist) (current : list Pair) (nodeCount : nat)
  (tails : list (list Pair)) : list (list Pair) :=
  match current with
  | [] => tails
  | c :: next =>
      let level := calcBalancedLevel s nodeCount in
      balance_loop s next (S nodeCount) (append_column c (level - 1) tails)
  end.

(** [balanceWorker] with the do-nothing functor of [balance]. *)
Definition balanceWorker (s : Skiplist) : Skiplist :=
  if m_balanced s then s
  else
    let s := set_balanced true s in
    match rev (m_head s) with
    | [] => s
    | lowest :: uppers =>
        (* erase all nodes from every level except lowest, keep the heads *)
        let tails := map (fun _ : list Pair => []) uppers in
        let tails := balance_loop s lowest 1 tails in
        set_head (rev (lowest :: tails)) s
    end.

Definition balance (s : Skiplist) : Skiplist := balanceWorker s.

(** ** Balancing iterator *)

(** The column walk of [SkiplistBalancingIterator::balance]: [here] is
    the list of [current], [above] the lists over it. *)
Fixpoint balance_column (p : Pair) (height desiredHeight : nat)
  (here : list Pair) (above : list (list Pair)) : list (list Pair) :=
  match above with
  | u :: above' =>
      if memb p u
      then
        if height =? desiredHeight
        then eraseAbove p above
        else u :: balance_column p (S height) desiredHeight u above'
      else
        if height <? desiredHeight
        then insertAbove (desiredHeight - height) (node p) p here above
        else above
  | [] =>
      if height <? desiredHeight
      then insertAbove (desiredHeight - height) (node p) p here above
      else above
  end.

Definition iterator_balance (s : Skiplist) (it : iterator) : Skiplist :=
  match m_currentNode it with
  | None => s
  | Some p =>
      let desiredHeight := calcBalancedLevel s (m_index it + 1) in
      match rev (m_head s) with
      | [] => s
      | here :: above =>
          set_head (rev (here :: balance_column p 1 desiredHeight here above)) s
      end
  end.

(** operator++ *)
Definition iterator_incr (s : Skiplist) (it : iterator) : Skiplist * iterator :=
  let s := if negb (m_dontBalance it) then iterator_balance s it else s in
  let next :=
    match m_currentNode it with
    | Some p => hd_error (right_of_node p (bottom (m_head s)))
    | None => None
    end in
  let it := mkIterator next (S (m_index it)) (m_dontBalance it)
              (m_startLocation it) in
  match next, m_dontBalance it, m_startLocation it with
  | None, false, BEGINNING =>
      (set_balanced true s,
       mkIterator next (m_index it) true (m_startLocation it))
  | _, _, _ => (s, it)
  end.

(** operator-- *)
Definition iterator_decr (s : Skiplist) (it : iterator) : Skiplist * iterator :=
  let it :=
    match m_currentNode it with
    | None =>
        mkIterator (to_node (m_tail s)) (m_index it - 1) (m_dontBalance it)
          (m_startLocation it)
    | Some p =>
        match Prev_of p (bottom (m_head s)) with
        | node q =>
            mkIterator (Some q) (m_index it - 1) (m_dontBalance it)
              (m_startLocation it)
        | _ => it
        end
    end in
  if negb (m_dontBalance it)
  then
    let s := iterator_balance s it in
    match m_currentNode it, m_startLocation it with
    | Some p, END =>
        if is_first s p
        then (set_balanced true s,
              mkIterator (m_currentNode it) (m_index it) true (m_startLocation it))
        else (s, it)
    | _, _ => (s, it)
    end
  else (s, it).

(** [n] applications of operator++ / operator--. *)
Fixpoint incr_n (n : nat) (s : Skiplist) (it : iterator) : Skiplist * iterator :=
  match n with
  | 0 => (s, it)
  | S n' => let (s, it) := iterator_incr s it in incr_n n' s it
  end.

Fixpoint decr_n (n : nat) (s : Skiplist) (it : iterator) : Skiplist * iterator :=
  match n with
  | 0 => (s, it)
  | S n' => let (s, it) := iterator_decr s it in decr_n n' s it
  end.

(** ** What the claims talk about *)

(** Two keys are equivalent if neither compares less than the other. *)
Definition equivalent (a b : KEY) : bool :=
  negb (m_keyCompare a b) && negb (m_keyCompare b a).

(** The requirement on COMPARE: a strict weak ordering. *)
Record StrictWeakOrder : Prop := mkStrictWeakOrder {
  swo_irrefl : forall a, m_keyCompare a a = false;
  swo_trans : forall a b c,
    m_keyCompare a b = true -> m_keyCompare b c = true -> m_keyCompare a c = true;
  swo_equiv : forall a b c,
    equivalent a b = true -> equivalent b c = true -> equivalent a c = true
}.

(** Order of two neighbours of the bottom list: never descending, and
    strictly ascending when duplicate keys are not allowed. *)
Definition ordered (a b : Pair) : Prop :=
  m_keyCompare (first b) (first a) = false /\
  (MULTIMAP = false -> m_keyCompare (first a) (first b) = true).

(** Vertical consistency: each list holds, in the same order, exactly
    those nodes of the list below whose column reaches it. *)
Inductive stacked : list (list Pair) -> Prop :=
| stacked_nil : stacked []
| stacked_bottom : forall l, stacked [l]
| stacked_cons : forall u l below,
    u = filter (fun p => memb p u) l ->
    stacked (l :: below) ->
    stacked (u :: l :: below).

(** Height of the column of [p]: the number of lists it has a node in. *)
Definition column_height (p : Pair) (lists : list (list Pair)) : nat :=
  length (filter (memb p) lists).

(** What the validator checks when [is_balanced()] holds. *)
Definition balanced_shape (s : Skiplist) : Prop :=
  forall i p, nth_error (bottom (m_head s)) i = Some p ->
    column_height p (m_head s) = calcBalancedLevel s (S i).

(** The invariants that hold between public operations. *)
Record wf (s : Skiplist) : Prop := mkWf {
  wf_levels : length (m_head s) = m_levelCount s;
  wf_count : length (bottom (m_head s)) = m_count s;
  wf_min : m_countMin s =
           (if m_levelCount s =? 0 then 0 else 2 ^ (m_levelCount s - 1));
  wf_max : m_countMax s = 2 ^ m_levelCount s - 1;
  wf_range : m_countMin s <= m_count s <= m_countMax s;
  wf_ptrs : NoDup (map ptr (bottom (m_head s)));
  wf_sorted : Sorted ordered (bottom (m_head s));
  wf_stacked : stacked (m_head s);
  wf_begin : m_begin s = hd_error (bottom (m_head s));
  wf_tail : m_tail s = last_node nullptr (bottom (m_head s));
  wf_balanced : m_balanced s = true -> balanced_shape s
}.

(** The invariants without the one on the balanced shape: those of the
    container with its flag cleared.  They say nothing about the heights
    of the columns, whatever [is_balanced()] answers. *)
Definition wf_structure (s : Skiplist) : Prop := wf (set_balanced false s).

(** A pair just returned by [new]: no node of the container points to it. *)
Definition fresh (p : Pair) (s : Skiplist) : Prop :=
  ~ In (ptr p) (map ptr (bottom (m_head s))).

(** A head from which a walk may start in list [l]: the dummy, or a node
    of [l] the walk would have passed. *)
Definition valid_head (f : Pair -> bool) (h : NodePtr) (l : list Pair) : Prop :=
  match h with
  | nullptr => False
  | dummy => True
  | node q => In q l /\ f q = false
  end.

(** Keys of two nodes of a sorted list, the left one first. *)
Definition le_key (a b : Pair) : Prop := m_keyCompare (first b) (first a) = false.

(** What the proofs need of the lists: vertical consistency, and every
    list free of repeated pairs and sorted. *)
Definition lists_ok (lists : list (list Pair)) : Prop :=
  stacked lists /\
  Forall (fun l => NoDup (map ptr l) /\ StronglySorted le_key l) lists.

(** The node [insertTopDownRecursive] allocates for list [l], and the
    list once that node is zipped in; [stop] is the test [compare(key, .)]
    of the descent. *)
Definition place (stop : Pair -> bool) (l : list Pair) : NewNode :=
  mkNewNode (last_node dummy (filter (fun n => negb (stop n)) l))
    (hd_error (filter stop l)).

Definition spliced (stop : Pair -> bool) (p : Pair) (l : list Pair) : list Pair :=
  filter (fun n => negb (stop n)) l ++ p :: filter stop l.

(** The verdict of the duplicate check at the bottom of the descent. *)
Definition blocked (compare : KEY -> KEY -> bool) (key : KEY) (l : list Pair) : bool :=
  negb MULTIMAP &&
  match last_node dummy (filter (fun n => negb (compare key (first n))) l) with
  | node q => negb (compare (first q) key)
  | _ => false
  end.

(** The comparators [insertTopDown] is called with: the key comparator,
    or its negation for the forward bad hint of a multimap. *)
Definition insert_compare (compare : KEY -> KEY -> bool) : Prop :=
  compare = m_keyCompare \/ (MULTIMAP = true /\ compare = negated_compare).

(** The state in which an insertion links its column in: the level is
    chosen, a level was added if the new count [n] called for it, and the
    lists still hold the [n - 1] old elements. *)
Record ready (s : Skiplist) (level n : nat) : Prop := mkReady {
  rd_levels : length (m_head s) = m_levelCount s;
  rd_level : 1 <= level <= m_levelCount s;
  rd_count : S (length (bottom (m_head s))) = n;
  rd_min : m_countMin s =
           (if m_levelCount s =? 0 then 0 else 2 ^ (m_levelCount s - 1));
  rd_max : m_countMax s = 2 ^ m_levelCount s - 1;
  rd_range : m_countMin s <= n <= m_countMax s;
  rd_ptrs : NoDup (map ptr (bottom (m_head s)));
  rd_sorted : Sorted ordered (bottom (m_head s));
  rd_stacked : stacked (m_head s);
  rd_begin : m_begin s = hd_error (bottom (m_head s));
  rd_tail : m_tail s = last_node nullptr (bottom (m_head s))
}.

(** The success branch of [insertTopDown]: the container once the
    allocated column [out_node] is zipped in. *)
Definition linked (s : Skiplist) (out_node : list NewNode) (pNewPair : Pair)
  : Skiplist :=
  let lowest := hd (mkNewNode nullptr None) out_node in
  let s := if same_opt (Next lowest) (m_begin s)
           then set_begin (Some pNewPair) s else s in
  let s := match Next lowest with
           | None => set_tail (node pNewPair) s
           | Some _ => s
           end in
  let s := set_head (rev (zip out_node pNewPair (rev (m_head s)))) s in
  let s := set_count (m_count s + 1) s in
  set_balanced false s.

(** The elements an erase by key keeps: those not equivalent to the key. *)
Definition not_equivalent (key : KEY) (n : Pair) : bool :=
  negb (equivalent key (first n)).

(** [m_begin] and [m_tail] as [eraseKeyRecursive] leaves them after its
    pass over the bottom list [l]. *)
Definition erased_ends (s : Skiplist) (toRemove : Pair) (l : list Pair) : Skiplist :=
  let B := filter (not_equivalent (first toRemove)) (before_node toRemove l) in
  let R := filter (not_equivalent (first toRemove)) (right_of_node toRemove l) in
  let s := match B with
           | [] => set_begin (hd_error R) s
           | _ => s
           end in
  match R with
  | [] => set_tail (last_node dummy B) s
  | _ => s
  end.

(** The state an erase leaves before it removes levels: everything an
    invariant asks for except the lower threshold. *)
Record shrinkable (s : Skiplist) : Prop := mkShrinkable {
  sh_levels : length (m_head s) = m_levelCount s;
  sh_count : length (bottom (m_head s)) = m_count s;
  sh_min : m_countMin s =
           (if m_levelCount s =? 0 then 0 else 2 ^ (m_levelCount s - 1));
  sh_max : m_countMax s = 2 ^ m_levelCount s - 1;
  sh_range : m_count s <= m_countMax s;
  sh_ptrs : NoDup (map ptr (bottom (m_head s)));
  sh_sorted : Sorted ordered (bottom (m_head s));
  sh_stacked : stacked (m_head s);
  sh_begin : m_begin s = hd_error (bottom (m_head s));
  sh_tail : m_tail s = last_node nullptr (bottom (m_head s));
  sh_balanced : m_balanced s = false
}.

(** The elements of [cur] whose index, counted from [nc], passes [g]. *)
Fixpoint pick (g : nat -> bool) (cur : list Pair) (nc : nat) : list Pair :=
  match cur with
  | [] => []
  | c :: next =>
      if g nc then c :: pick g next (S nc) else pick g next (S nc)
  end.

(** The [n] lists a balance pass builds over the bottom list [lowest],
    lowest first: list [j] takes the elements of a level above [j + 1]. *)
Definition balanced_tails (s : Skiplist) (lowest : list Pair) (n : nat)
  : list (list Pair) :=
  map (fun j => pick (fun i => j <? calcBalancedLevel s i - 1) lowest 1)
    (seq 0 n).

Definition balanced_lists (s : Skiplist) : list (list Pair) :=
  match rev (m_head s) with
  | [] => []
  | lowest :: uppers => rev (lowest :: balanced_tails s lowest (length uppers))
  end.

(** Vertical consistency read upwards: [above] are the lists over
    [here], the nearest first. *)
Fixpoint tower (here : list Pair) (above : list (list Pair)) : Prop :=
  match above with
  | [] => True
  | u :: above' => u = filter (fun x => memb x u) here /\ tower u above'
  end.

(** The rest of [insertBottomUp] once the level is chosen and a level
    was added if the new count called for it. *)
Definition linkedBottomUp (s : Skiplist) (level : nat) (previous : NodePtr)
  (pKeyValPair : Pair) : iterator * Skiplist :=
  match previous with
  | nullptr =>
      match m_head s with
      | top :: below =>
          let s := match top with [] => set_tail (node pKeyValPair) s | _ => s end in
          let s := set_head ((pKeyValPair :: top) :: below) s in
          let s := set_begin (Some pKeyValPair) s in
          (iterator_at s (Some pKeyValPair), s)
      | [] => (iterator_at s (Some pKeyValPair), s)
      end
  | _ =>
      match rev (m_head s) with
      | here :: above =>
          let s := match right_of previous here with
                   | [] => set_tail (node pKeyValPair) s
                   | _ => s
                   end in
          let here := insert_after previous pKeyValPair here in
          let s := if same_ptr previous dummy
                   then set_begin (Some pKeyValPair) s else s in
          let above :=
            if 1 <? level
            then insertAbove (level - 1) previous pKeyValPair here above
            else above in
          let s := set_head (rev (here :: above)) s in
          (iterator_at s (Some pKeyValPair), s)
      | [] => (iterator_at s (Some pKeyValPair), s)
      end
  end.

(** The bottom list around a hint [b]: the nodes before it, and the
    nodes from it on ([b = None] is the past-the-end hint). *)
Definition hint_before (b : option Pair) (l : list Pair) : list Pair :=
  match b with
  | Some bn => before_node bn l
  | None => l
  end.

Definition hint_from (b : option Pair) (l : list Pair) : list Pair :=
  match b with
  | Some bn => bn :: right_of_node bn l
  | None => []
  end.

Definition hint_stop (b : option Pair) (l : list Pair) (x : Pair) : bool :=
  memb x (hint_from b l).

(** A hint is good for [key] if the key fits between [a] and [b]. *)
Definition good_hint (a : NodePtr) (b : option Pair) (key : KEY) : bool :=
  match a with
  | node an => negb (m_keyCompare key (first an))
  | _ => true
  end &&
  match b with
  | Some bn => negb (m_keyCompare (first bn) key)
  | None => true
  end.

(** The lists over a bottom list [base] written by column heights: list
    [j] (counted from [c]) holds the elements whose column has more than
    [j] nodes over the bottom one. *)
Definition levels (hgt : Pair -> nat) (base : list Pair) (c n : nat)
  : list (list Pair) :=
  map (fun j => filter (fun x => j <? hgt x) base) (seq c n).

(** Nodes the balanced column of [x] has over its bottom node. *)
Definition balanced_height (s : Skiplist) (base : list Pair) (x : Pair) : nat :=
  calcBalancedLevel s (S (length (before_node x base))) - 1.

(** The container [s] with the lists over its bottom list [base] given
    by column heights. *)
Definition with_levels (s : Skiplist) (base : list Pair) (n : nat)
  (hgt : Pair -> nat) : Skiplist :=
  set_head (rev (base :: levels hgt base 0 n)) s.

(** ** Further members *)

(** emplace_hint(hint, args...): the pair is built from the arguments
    before the insertion; the [delete] of a pair that was not linked in is
    outside the model. *)
Definition emplace_hint (s : Skiplist) (hint : const_iterator) (pNewPair : Pair)
  : iterator * Skiplist :=
  if MULTIMAP then insertWithHintMultimap s hint (first pNewPair) pNewPair
  else insertWithHintMap s hint (first pNewPair) pNewPair.

(** The [while (first != last)] loop of insert(first, last); [range] are
    the pairs the loop allocates, in order. *)
Fixpoint insert_range_loop (hint : const_iterator) (s : Skiplist)
  (range : list Pair) : Skiplist :=
  match range with
  | [] => s
  | x :: rest => insert_range_loop hint (snd (emplace_hint s hint x)) rest
  end.

(** insert(first, last), and insert(initList) which forwards to it. *)
Definition insert_range (s : Skiplist) (range : list Pair) : Skiplist :=
  let hint := cend s in
  insert_range_loop hint s range.

(** try_emplace(hint, key, args...) through [insertWithHintDispatch];
    [pNewPair] is the pair the allocating functor returns if it is called. *)
Definition try_emplace_hint (s : Skiplist) (hint : const_iterator) (key : KEY)
  (pNewPair : Pair) : iterator * Skiplist :=
  if MULTIMAP then insertWithHintMultimap s hint key pNewPair
  else insertWithHintMap s hint key pNewPair.

(** operator[](key); [pNewPair] is the pair of [key] and a
    value-initialised [VAL].  [None]: [->second] on the end iterator. *)
Definition subscript (s : Skiplist) (key : KEY) (pNewPair : Pair)
  : option VAL * Skiplist :=
  let hint := mkConstIterator (m_currentNode (lower_bound s key)) in
  let (it, s) := try_emplace_hint s hint key pNewPair in
  (option_map (fun p : Pair => second p) (m_currentNode it), s).

(** equal_range(key) *)
Definition equal_range (s : Skiplist) (key : KEY) : iterator * iterator :=
  (lower_bound s key, upper_bound s key).

(** front(): [None] where [assert(m_head)] fails. *)
Definition front (s : Skiplist) : option Pair :=
  match m_head s with
  | [] => None
  | _ :: _ => c_currentNode (cbegin s)
  end.

(** back(): [None] where [assert(m_tail && m_tail->KeyValPair)] fails. *)
Definition back (s : Skiplist) : option Pair := to_node (m_tail s).

(** ** for_each

    The functor is given as a step [functor acc pair] over a record
    [acc] of what it has seen so far; it reads the pairs and does not
    change them. *)

(** The loop [while (iter != stop) functor( *iter++)] of the non-const
    [for_each_no_balance]; [fuel] bounds the number of passes. *)
Fixpoint for_each_loop (A : Type) (functor : A -> Pair -> A) (fuel : nat)
  (s : Skiplist) (iter stop : iterator) (acc : A) : A * Skiplist :=
  match fuel with
  | 0 => (acc, s)
  | S fuel' =>
      if iterator_eq iter stop then (acc, s)
      else
        match m_currentNode iter with
        | None => (acc, s)
        | Some p =>
            let (s, next) := iterator_incr s iter in
            for_each_loop functor fuel' s next stop (functor acc p)
        end
  end.

(** for_each_no_balance(functor), non-const version: one pass per
    element and one more to meet [stop]. *)
Definition for_each_no_balance (A : Type) (functor : A -> Pair -> A)
  (s : Skiplist) (acc : A) : A * Skiplist :=
  let iter := begin_ s in
  let stop := end_ s in
  let iter := mkIterator (m_currentNode iter) (m_index iter) true
                (m_startLocation iter) in
  for_each_loop functor (S (m_count s)) s iter stop acc.

(** The [while (current)] loop of [balanceWorker] with its functor. *)
Fixpoint balance_loop_with (A : Type) (functor : A -> Pair -> A) (s : Skiplist)
  (current : list Pair) (nodeCount : nat) (tails : list (list Pair)) (acc : A)
  : list (list Pair) * A :=
  match current with
  | [] => (tails, acc)
  | c :: next =>
      let level := calcBalancedLevel s nodeCount in
      balance_loop_with functor s next (S nodeCount)
        (append_column c (level - 1) tails) (functor acc c)
  end.

(** balanceWorker(functor) *)
Definition balanceWorker_with (A : Type) (functor : A -> Pair -> A)
  (s : Skiplist) (acc : A) : A * Skiplist :=
  if m_balanced s then (acc, s)
  else
    let s := set_balanced true s in
    match rev (m_head s) with
    | [] => (acc, s)
    | lowest :: uppers =>
        let tails := map (fun _ : list Pair => []) uppers in
        let (tails, acc) := balance_loop_with functor s lowest 1 tails acc in
        (acc, set_head (rev (lowest :: tails)) s)
    end.

(** for_each(functor), non-const version *)
Definition for_each (A : Type) (functor : A -> Pair -> A) (s : Skiplist)
  (acc : A) : A * Skiplist :=
  if m_balanced s then for_each_no_balance functor s acc
  else balanceWorker_with functor s acc.

(** ** Comparison of two containers *)

(** What a non-balancing iterator started at [it] walks over with
    operator++ until it is past the end. *)
Definition walk_from (s : Skiplist) (it : const_iterator) : list Pair :=
  match c_currentNode it with
  | None => []
  | Some p => p :: right_of_node p (bottom (m_head s))
  end.

(** The loop of operator==, [compare] being std::equal_to on the
    pairs.  The loop tests the left iterator only: [None] is the
    dereference of the past-the-end iterator of [right]. *)
Fixpoint equal_loop (compare : Pair -> Pair -> bool) (left right : list Pair)
  : option bool :=
  match left with
  | [] => Some true
  | a :: left' =>
      match right with
      | [] => None
      | b :: right' =>
          if negb (compare a b) then Some false
          else equal_loop compare left' right'
      end
  end.

(** operator==(left, right) *)
Definition skiplist_equal (compare : Pair -> Pair -> bool)
  (left right : Skiplist) : option bool :=
  if negb (size left =? size right) then Some false
  else equal_loop compare (walk_from left (cbegin left))
         (walk_from right (cbegin right)).

(** operator!=(left, right) *)
Definition skiplist_not_equal (compare : Pair -> Pair -> bool)
  (left right : Skiplist) : option bool :=
  option_map negb (skiplist_equal compare left right).

(** Nodes over the bottom node in the column that a cursor whose index
    runs [d] ahead of the position gives the element [x] of [base]. *)
Definition shifted_height (s : Skiplist) (base : list Pair) (d : nat) (x : Pair)
  : nat :=
  calcBalancedLevel s (S (length (before_node x base)) + d) - 1.

(** ** The containers a program can build

    The public mutators applied, one after the other, to an empty
    container.  A new pair gets an address no node holds ([fresh]); a
    hint, a position and a range are taken from the container they are
    used on; a cursor is taken from [begin()] or [end()] and moved while
    nothing else changes the container. *)
Inductive reachable : Skiplist -> Prop :=
| reach_new : forall seed, reachable (Skiplist_new seed)
| reach_insert : forall s p,
    reachable s -> fresh p s -> reachable (snd (insert s p))
| reach_insert_hint : forall s b p,
    reachable s -> fresh p s ->
    (forall bn, b = Some bn -> In bn (bottom (m_head s))) ->
    reachable (snd (insert_hint s (mkConstIterator b) p))
| reach_erase : forall s key, reachable s -> reachable (snd (erase s key))
| reach_erase_pos : forall s p,
    reachable s -> In p (bottom (m_head s)) ->
    reachable (snd (erase_pos s (mkConstIterator (Some p))))
| reach_erase_range : forall s A M Z,
    reachable s -> bottom (m_head s) = A ++ M ++ Z ->
    reachable (snd (erase_range s (mkConstIterator (hd_error (M ++ Z)))
                      (mkConstIterator (hd_error Z))))
| reach_pop_front : forall s s',
    reachable s -> pop_front s = Some s' -> reachable s'
| reach_pop_back : forall s s',
    reachable s -> pop_back s = Some s' -> reachable s'
| reach_clear : forall seed s, reachable s -> reachable (clear seed s)
| reach_balance : forall s, reachable s -> reachable (balance s)
| reach_incr : forall s k,
    reachable s -> k <= size s -> reachable (fst (incr_n k s (begin_ s)))
| reach_decr : forall s k,
    reachable s -> k <= size s -> reachable (fst (decr_n k s (end_ s)))
| reach_insert_range : forall s (range : list Pair),
    reachable s -> NoDup (map (fun p => ptr p) range) ->
    Forall (fun p => fresh p s) range ->
    reachable (insert_range s range)
| reach_subscript : forall s key p,
    reachable s -> fresh p s -> first p = key ->
    reachable (snd (subscript s key p))
| reach_for_each : forall (A : Type) (functor : A -> Pair -> A) s acc,
    reachable s -> reachable (snd (for_each functor s acc)).

End SkiplistModel.

Arguments nullptr {KEY VAL}.
Arguments dummy {KEY VAL}.

(** Number of trailing zeros of the binary representation. *)
Fixpoint trailing_zeros (p : positive) : nat :=
  match p with
  | xO p' => S (trailing_zeros p')
  | _ => 0
  end.

Definition v2 (i : nat) : nat := trailing_zeros (Pos.of_nat i).

(** * Concrete containers

    [Skiplist<nat, nat>] with [std::less]; used to run the definitions
    and to instantiate the theorems. *)

Definition P (address key val : nat) : Pair nat nat := mkPair address key val.

(** A source that always draws a double above one half. *)
Definition rng0 : Rng := mkRng (fun _ => RandomLog 0) 0.

Definition rng3 : Rng := mkRng (fun _ => RandomLog 0) 3.

(** A map holding 10, 20, 30; the column of 20 is two nodes high. *)
Definition map3 : Skiplist nat nat :=
  mkSkiplist 2 3 [[P 2 20 200]; [P 1 10 100; P 2 20 200; P 3 30 300]]
    (Some (P 1 10 100)) (node (P 3 30 300)) 2 3 false rng3 default_distribution.

(** The same map after [balance()]. *)
Definition map3_balanced : Skiplist nat nat :=
  mkSkiplist 2 3 [[P 2 20 200]; [P 1 10 100; P 2 20 200; P 3 30 300]]
    (Some (P 1 10 100)) (node (P 3 30 300)) 2 3 true rng3 default_distribution.

(** A multimap holding 10, 20, 20, 30. *)
Definition multimap4 : Skiplist nat nat :=
  mkSkiplist 3 4
    [[P 2 20 200]; [P 2 20 200; P 4 30 300];
     [P 1 10 100; P 2 20 200; P 3 20 201; P 4 30 300]]
    (Some (P 1 10 100)) (node (P 4 30 300)) 4 7 false rng0 default_distribution.

(** Four inserts into an empty multimap, [erase] at the last element,
    and the iterator that [erase] returned decremented to the first
    element. *)
Definition built4 : Skiplist nat nat :=
  fold_left (fun s p => snd (insert true Nat.ltb s p))
    [P 1 10 100; P 2 20 200; P 3 20 201; P 4 30 300] (Skiplist_new nat nat rng0).

Definition stale3 : Skiplist nat nat :=
  let r := erase_pos built4 (mkConstIterator (Some (P 4 30 300))) in
  fst (decr_n (size (snd r)) (snd r) (fst r)).

(** * Proofs *)

Unset Implicit Arguments.

Section SkiplistProofs.

Variables KEY VAL : Type.
Variable MULTIMAP : bool.
Variable cmp : KEY -> KEY -> bool.

Local Abbreviation Pair := (Pair KEY VAL).
Local Abbreviation NodePtr := (NodePtr KEY VAL).
Local Abbreviation Skiplist := (Skiplist KEY VAL).
Local Abbreviation ptrs := (map (@ptr KEY VAL)).

Local Abbreviation lek := (@le_key KEY VAL cmp).

Hypothesis cmp_swo : StrictWeakOrder cmp.

(** ** Pointers and positions in one list *)

Lemma same_true_iff (a b : Pair) : same a b = true <-> ptr a = ptr b.
Proof. unfold same. apply Nat.eqb_eq. Qed.

Lemma same_false_iff (a b : Pair) : same a b = false <-> ptr a <> ptr b.
Proof. unfold same. apply Nat.eqb_neq. Qed.

Lemma same_refl (a : Pair) : same a a = true.
Proof. apply same_true_iff. reflexivity. Qed.

Lemma same_sym (a b : Pair) : same a b = same b a.
Proof. unfold same. apply Nat.eqb_sym. Qed.

Lemma memb_true_iff (p : Pair) l :
  memb p l = true <-> exists x, In x l /\ ptr x = ptr p.
Proof.
  unfold memb. rewrite existsb_exists. split; intros [x [Hin Hs]]; exists x; split; auto.
  - apply same_true_iff in Hs. congruence.
  - apply same_true_iff. congruence.
Qed.

Lemma memb_false_iff (p : Pair) l :
  memb p l = false <-> ~ In (ptr p) (ptrs l).
Proof.
  split; intros H.
  - intros Hin. apply in_map_iff in Hin. destruct Hin as [x [Hx Hin]].
    assert (memb p l = true) by (apply memb_true_iff; eauto). congruence.
  - destruct (memb p l) eqn:E; auto. apply memb_true_iff in E.
    destruct E as [x [Hin Hx]]. exfalso. apply H. rewrite <- Hx. now apply in_map.
Qed.

Lemma memb_In (p : Pair) l : In p l -> memb p l = true.
Proof. intros H. apply memb_true_iff. eauto. Qed.

Lemma ptr_inj (l : list Pair) x y :
  NoDup (ptrs l) -> In x l -> In y l -> ptr x = ptr y -> x = y.
Proof.
  induction l as [|a l IH]; simpl; intros Hnd Hx Hy Heq; [contradiction|].
  inversion Hnd as [|? ? Hnot Hnd']; subst.
  destruct Hx as [Hx|Hx], Hy as [Hy|Hy]; subst; auto.
  - exfalso. apply Hnot. rewrite Heq. now apply in_map.
  - exfalso. apply Hnot. rewrite <- Heq. now apply in_map.
Qed.

Lemma memb_In_sub (big l : list Pair) p :
  NoDup (ptrs big) -> incl l big -> In p big -> memb p l = true -> In p l.
Proof.
  intros Hnd Hincl Hp Hm. apply memb_true_iff in Hm. destruct Hm as [x [Hx Hptr]].
  assert (x = p) by (eapply ptr_inj; eauto). now subst.
Qed.

Lemma split_at_node (l : list Pair) p :
  NoDup (ptrs l) -> In p l ->
  l = before_node p l ++ p :: right_of_node p l.
Proof.
  induction l as [|a l IH]; simpl; intros Hnd Hin; [contradiction|].
  inversion Hnd as [|? ? Hnot Hnd']; subst.
  destruct (same a p) eqn:E.
  - apply same_true_iff in E. simpl. f_equal.
    destruct Hin as [|Hin]; auto. exfalso. apply Hnot. rewrite E. now apply in_map.
  - destruct Hin as [->|Hin]; [rewrite same_refl in E; discriminate|].
    simpl. f_equal. auto.
Qed.

Lemma before_node_app (l1 l2 : list Pair) p :
  ~ In (ptr p) (ptrs l1) ->
  before_node p (l1 ++ p :: l2) = l1.
Proof.
  induction l1 as [|a l1 IH]; simpl; intros Hn.
  - now rewrite same_refl.
  - destruct (same a p) eqn:E.
    + apply same_true_iff in E. exfalso. apply Hn. now left.
    + f_equal. apply IH. intros H. apply Hn. now right.
Qed.

Lemma right_of_node_app (l1 l2 : list Pair) p :
  ~ In (ptr p) (ptrs l1) ->
  right_of_node p (l1 ++ p :: l2) = l2.
Proof.
  induction l1 as [|a l1 IH]; simpl; intros Hn.
  - now rewrite same_refl.
  - destruct (same a p) eqn:E.
    + apply same_true_iff in E. exfalso. apply Hn. now left.
    + apply IH. intros H. apply Hn. now right.
Qed.

Lemma insert_after_node_app (l1 l2 : list Pair) q p :
  ~ In (ptr q) (ptrs l1) ->
  insert_after_node q p (l1 ++ q :: l2) = l1 ++ q :: p :: l2.
Proof.
  induction l1 as [|a l1 IH]; simpl; intros Hn.
  - now rewrite same_refl.
  - destruct (same a q) eqn:E.
    + apply same_true_iff in E. exfalso. apply Hn. now left.
    + f_equal. apply IH. intros H. apply Hn. now right.
Qed.

Lemma last_node_app (h : NodePtr) l x : last_node h (l ++ [x]) = node x.
Proof. revert h. induction l as [|a l IH]; simpl; intros h; auto. Qed.

Lemma last_node_cons (h : NodePtr) x l : last_node h (x :: l) = last_node (node x) l.
Proof. reflexivity. Qed.

Lemma last_node_nonempty (h h' : NodePtr) l : l <> [] -> last_node h l = last_node h' l.
Proof. destruct l; [congruence|]. reflexivity. Qed.

Lemma NoDup_map_app_l (l1 l2 : list Pair) :
  NoDup (ptrs (l1 ++ l2)) -> NoDup (ptrs l1).
Proof. rewrite map_app. apply NoDup_app_remove_r. Qed.

Lemma NoDup_map_app_notin (l1 l2 : list Pair) x :
  NoDup (ptrs (l1 ++ x :: l2)) -> ~ In (ptr x) (ptrs l1).
Proof.
  rewrite map_app. simpl. intros H Hin.
  apply NoDup_remove_2 in H. apply H. apply in_or_app. now left.
Qed.

(** ** Lists split by a monotone test *)

Local Abbreviation mono f :=
  (StronglySorted (fun a b : Pair => f a = true -> f b = true)).

Lemma filter_all (f : Pair -> bool) l :
  Forall (fun x => f x = true) l -> filter f l = l.
Proof.
  induction 1 as [|a l Ha _ IH]; simpl; auto. rewrite Ha. now f_equal.
Qed.

Lemma filter_none (f : Pair -> bool) l :
  Forall (fun x => f x = false) l -> filter f l = [].
Proof.
  induction 1 as [|a l Ha _ IH]; simpl; auto. now rewrite Ha.
Qed.

Lemma StronglySorted_filter (R : Pair -> Pair -> Prop) (g : Pair -> bool) l :
  StronglySorted R l -> StronglySorted R (filter g l).
Proof.
  induction 1 as [|a l Hs IH Hall]; simpl; [constructor|].
  destruct (g a); auto. constructor; auto.
  rewrite Forall_forall in *. intros x Hx. apply filter_In in Hx. now apply Hall.
Qed.

Lemma StronglySorted_app_inv (R : Pair -> Pair -> Prop) l1 l2 :
  StronglySorted R (l1 ++ l2) ->
  StronglySorted R l1 /\ StronglySorted R l2 /\
  (forall x y, In x l1 -> In y l2 -> R x y).
Proof.
  induction l1 as [|a l1 IH]; simpl; intros H.
  - repeat split; auto. constructor. intros x y [].
  - inversion H as [|? ? Hs Hall]; subst. destruct (IH Hs) as [H1 [H2 H3]].
    rewrite Forall_forall in Hall. repeat split; auto.
    + constructor; auto. rewrite Forall_forall. intros x Hx. apply Hall.
      apply in_or_app. now left.
    + intros x y [->|Hx] Hy; auto. apply Hall. apply in_or_app. now right.
Qed.

Lemma StronglySorted_app (R : Pair -> Pair -> Prop) l1 l2 :
  StronglySorted R l1 -> StronglySorted R l2 ->
  (forall x y, In x l1 -> In y l2 -> R x y) ->
  StronglySorted R (l1 ++ l2).
Proof.
  induction 1 as [|a l1 Hs IH Hall]; simpl; intros H2 H3; auto.
  constructor.
  - apply IH; auto.
  - rewrite Forall_forall in *. intros x Hx. apply in_app_or in Hx.
    destruct Hx as [Hx|Hx]; auto.
Qed.

Lemma mono_true_tail (f : Pair -> bool) a l :
  mono f (a :: l) -> f a = true -> Forall (fun x => f x = true) l.
Proof.
  intros H Ha. inversion H as [|? ? _ Hall]; subst.
  rewrite Forall_forall in *. intros x Hx. now apply Hall.
Qed.

Lemma mono_false_front (f : Pair -> bool) l1 q l2 :
  mono f (l1 ++ q :: l2) -> f q = false -> Forall (fun x => f x = false) l1.
Proof.
  intros H Hq. apply StronglySorted_app_inv in H. destruct H as [_ [_ H]].
  rewrite Forall_forall. intros x Hx. destruct (f x) eqn:E; auto.
  rewrite (H x q Hx (or_introl eq_refl) E) in Hq. discriminate.
Qed.

Lemma mono_split (f : Pair -> bool) l :
  mono f l -> l = filter (fun x => negb (f x)) l ++ filter f l.
Proof.
  induction l as [|a l IH]; intros H; auto. simpl.
  destruct (f a) eqn:Ha; simpl.
  - pose proof (mono_true_tail f _ _ H Ha) as Hall.
    rewrite (filter_all _ _ Hall). rewrite filter_none; auto.
    rewrite Forall_forall in *. intros x Hx. now rewrite (Hall x Hx).
  - f_equal. apply IH. now inversion H.
Qed.

Lemma last_node_app_cons (h : NodePtr) l1 q l2 :
  last_node h (l1 ++ q :: l2) = last_node (node q) l2.
Proof. revert h. induction l1 as [|a l1 IH]; simpl; intros h; auto. Qed.

Lemma walk_fold compare (key : KEY) (h : NodePtr) l :
  mono (fun n => compare key (first n)) l ->
  walk compare key h l =
  (last_node h (filter (fun n => negb (compare key (first n))) l),
   filter (fun n => compare key (first n)) l).
Proof.
  revert h. induction l as [|a l IH]; intros h H; simpl; auto.
  destruct (compare key (first a)) eqn:Ha; simpl.
  - pose proof (mono_true_tail (fun n => compare key (first n)) _ _ H Ha) as Hall.
    rewrite (filter_all _ _ Hall). rewrite filter_none; auto.
    rewrite Forall_forall in *. intros x Hx. now rewrite (Hall x Hx).
  - apply IH. now inversion H.
Qed.

Lemma walk_right_of compare (key : KEY) (h : NodePtr) l :
  mono (fun n => compare key (first n)) l ->
  NoDup (ptrs l) ->
  valid_head (fun n => compare key (first n)) h l ->
  walk compare key h (right_of h l) =
  (last_node dummy (filter (fun n => negb (compare key (first n))) l),
   filter (fun n => compare key (first n)) l).
Proof.
  intros Hm Hnd Hv. destruct h as [| |q]; simpl in *; [contradiction| |].
  - now apply walk_fold.
  - destruct Hv as [Hin Hq].
    pose proof (split_at_node _ _ Hnd Hin) as Hsplit.
    remember (before_node q l) as B. remember (right_of_node q l) as R.
    clear HeqB HeqR. subst l.
    pose proof (mono_false_front _ _ _ _ Hm Hq) as HB.
    apply StronglySorted_app_inv in Hm. destruct Hm as [_ [Hm _]].
    inversion Hm as [|? ? HmR _]; subst.
    rewrite walk_fold; auto.
    rewrite !filter_app. simpl. rewrite Hq. simpl.
    rewrite last_node_app_cons. f_equal.
    rewrite (filter_none _ _ HB). reflexivity.
Qed.

(** ** The comparator *)

Lemma swo_asym a b : cmp a b = true -> cmp b a = false.
Proof.
  intros H. destruct (cmp b a) eqn:E; auto.
  pose proof (swo_trans cmp_swo _ _ _ H E) as H1.
  rewrite (swo_irrefl cmp_swo) in H1. discriminate.
Qed.

Lemma swo_neg_trans a b c : cmp a b = true -> cmp a c = true \/ cmp c b = true.
Proof.
  intros Hab. destruct (cmp a c) eqn:Hac; auto. destruct (cmp c b) eqn:Hcb; auto.
  exfalso.
  assert (Hca : cmp c a = false).
  { destruct (cmp c a) eqn:E; auto.
    rewrite (swo_trans cmp_swo _ _ _ E Hab) in Hcb. discriminate. }
  assert (Hbc : cmp b c = false).
  { destruct (cmp b c) eqn:E; auto.
    rewrite (swo_trans cmp_swo _ _ _ Hab E) in Hac. discriminate. }
  assert (He : equivalent cmp a b = true).
  { apply (swo_equiv cmp_swo a c b); unfold equivalent.
    - now rewrite Hac, Hca.
    - now rewrite Hcb, Hbc. }
  unfold equivalent in He. rewrite Hab in He. discriminate.
Qed.

Lemma le_key_trans (a b c : Pair) :
  lek a b -> lek b c -> lek a c.
Proof.
  unfold le_key. intros Hab Hbc. destruct (cmp (first c) (first a)) eqn:E; auto.
  destruct (swo_neg_trans _ _ (first b) E) as [H|H]; congruence.
Qed.

Lemma StronglySorted_impl (R R' : Pair -> Pair -> Prop) l :
  (forall a b, R a b -> R' a b) -> StronglySorted R l -> StronglySorted R' l.
Proof.
  intros HR. induction 1 as [|a l Hs IH Hall]; constructor; auto.
  rewrite Forall_forall in *. auto.
Qed.

Lemma Sorted_ordered_le_key l :
  Sorted (ordered MULTIMAP cmp) l -> StronglySorted lek l.
Proof.
  induction 1 as [|a l Hs IH Hhd]; constructor; auto.
  destruct Hhd as [|b l' Hab]; [constructor|].
  inversion IH as [|? ? Hs' Hall]; subst.
  constructor; [apply Hab|].
  rewrite Forall_forall in *. intros x Hx.
  eapply le_key_trans; [apply Hab|]. now apply Hall.
Qed.

Lemma sorted_mono_upper key l :
  StronglySorted lek l -> mono (fun n => cmp key (first n)) l.
Proof.
  apply StronglySorted_impl. unfold le_key. intros a b Hab Ha.
  destruct (swo_neg_trans _ _ (first b) Ha) as [H|H]; congruence.
Qed.

Lemma sorted_mono_lower key l :
  StronglySorted lek l ->
  mono (fun n => negated_compare cmp key (first n)) l.
Proof.
  apply StronglySorted_impl. unfold le_key, negated_compare. intros a b Hab Ha.
  destruct (cmp (first b) key) eqn:E; auto.
  destruct (swo_neg_trans _ _ (first a) E) as [H|H].
  - congruence.
  - rewrite H in Ha. discriminate.
Qed.

(** ** Stacked lists *)

Lemma NoDup_ptrs_filter (g : Pair -> bool) l :
  NoDup (ptrs l) -> NoDup (ptrs (filter g l)).
Proof.
  induction l as [|a l IH]; simpl; intros H; auto.
  inversion H as [|? ? Hn Hnd]; subst.
  destruct (g a); simpl; auto. constructor; auto.
  intros Hin. apply Hn. apply in_map_iff in Hin. destruct Hin as [x [Hx Hin]].
  apply filter_In in Hin. apply in_map_iff. exists x. tauto.
Qed.

Lemma bottom_cons (u l : list Pair) below :
  bottom (u :: l :: below) = bottom (l :: below).
Proof. reflexivity. Qed.

Lemma stacked_tail (u : list Pair) lists : stacked (u :: lists) -> stacked lists.
Proof. inversion 1; subst; auto. constructor. Qed.

Lemma lists_ok_tail (u : list Pair) lists : lists_ok cmp (u :: lists) -> lists_ok cmp lists.
Proof.
  intros [Hs Hf]. split; [eapply stacked_tail; eauto|]. now inversion Hf.
Qed.

Lemma stacked_lists_ok lists :
  stacked lists ->
  NoDup (ptrs (bottom lists)) -> StronglySorted lek (bottom lists) ->
  lists_ok cmp lists.
Proof.
  intros Hs Hnd Hso. split; auto. revert Hnd Hso.
  intros Hnd Hso.
  induction Hs as [|l|u l below Hu Hs IH].
  - constructor.
  - constructor; [split; assumption|constructor].
  - rewrite bottom_cons in *. specialize (IH Hnd Hso).
    constructor; auto. inversion IH as [|? ? [Hnd' Hso'] _]; subst.
    rewrite Hu. split.
    + now apply NoDup_ptrs_filter.
    + now apply StronglySorted_filter.
Qed.

Lemma wf_lists_ok (s : Skiplist) : wf MULTIMAP cmp s -> lists_ok cmp (m_head s).
Proof.
  intros H. apply stacked_lists_ok.
  - apply (wf_stacked H).
  - apply (wf_ptrs H).
  - apply Sorted_ordered_le_key. apply (wf_sorted H).
Qed.

Lemma last_node_dummy_cases (l : list Pair) :
  (l = [] /\ last_node dummy l = dummy) \/
  (exists q, In q l /\ last_node dummy l = node q).
Proof.
  destruct l as [|a l]; [left; auto|right].
  destruct (exists_last (l:=a :: l)) as [l' [x Hx]]; [discriminate|].
  rewrite Hx. exists x. split.
  - apply in_or_app. right. now left.
  - apply last_node_app.
Qed.

Lemma valid_head_down (f : Pair -> bool) (u l : list Pair) :
  u = filter (fun p => memb p u) l ->
  valid_head f (last_node dummy (filter (fun n => negb (f n)) u)) l.
Proof.
  intros Hu.
  destruct (last_node_dummy_cases (filter (fun n => negb (f n)) u)) as [[_ ->]|[q [Hin ->]]];
    simpl; auto.
  apply filter_In in Hin. destruct Hin as [Hin Hq]. split.
  - rewrite Hu in Hin. apply filter_In in Hin. tauto.
  - now apply negb_true_iff.
Qed.

Lemma find_filter (f : Pair -> bool) l : List.find f l = hd_error (filter f l).
Proof. induction l as [|a l IH]; simpl; auto. destruct (f a); auto. Qed.

(** ** The comparator-driven descent *)

Lemma findRecursiveCompare_spec lists h key compare :
  lists <> [] ->
  stacked lists ->
  Forall (fun l => NoDup (ptrs l) /\ mono (fun n => compare key (first n)) l) lists ->
  valid_head (fun n => compare key (first n)) h (hd [] lists) ->
  findRecursiveCompare lists h key compare =
  List.find (fun n => compare key (first n)) (bottom lists).
Proof.
  intros Hne Hs. revert h. clear Hne.
  induction Hs as [|l|u l below Hu Hs IH]; intros h Hf Hv.
  - simpl in Hv. simpl. destruct h; reflexivity.
  - inversion Hf as [|? ? [Hnd Hm] _]; subst. simpl in *.
    rewrite walk_right_of; auto. now rewrite find_filter.
  - inversion Hf as [|? ? [Hnd Hm] Hf']; subst.
    change (findRecursiveCompare (u :: l :: below) h key compare) with
      (let (h', rest) := walk compare key h (right_of h u) in
       findRecursiveCompare (l :: below) h' key compare).
    simpl in Hv. rewrite walk_right_of; auto.
    rewrite bottom_cons. apply IH; auto.
    simpl. now apply valid_head_down.
Qed.

Lemma iterator_at_node (s : Skiplist) (n : option Pair) :
  m_currentNode (iterator_at s n) = n.
Proof.
  unfold iterator_at. destruct n as [p|]; auto. destruct (is_first s p); auto.
Qed.

Lemma lists_ok_mono (lists : list (list Pair)) (f : Pair -> bool) :
  (forall l, StronglySorted lek l -> mono f l) ->
  lists_ok cmp lists ->
  Forall (fun l => NoDup (ptrs l) /\ mono f l) lists.
Proof.
  intros Hf [_ H]. rewrite Forall_forall in *. intros l Hl.
  destruct (H l Hl). split; auto.
Qed.

Lemma descent_bound (s : Skiplist) key compare :
  wf MULTIMAP cmp s ->
  (forall l, StronglySorted lek l -> mono (fun n => compare key (first n)) l) ->
  findRecursiveCompare (m_head s) (head_ptr s) key compare =
  List.find (fun n => compare key (first n)) (bottom (m_head s)).
Proof.
  intros Hwf Hm. pose proof (wf_lists_ok s Hwf) as Hok.
  unfold head_ptr. destruct (m_head s) as [|l below] eqn:E; [reflexivity|].
  apply findRecursiveCompare_spec; try discriminate.
  - apply Hok.
  - now apply lists_ok_mono.
  - exact I.
Qed.

(** C2: on every well-formed container, [upper_bound(k)] is the leftmost
    element of the bottom list whose key is strictly greater than [k]
    ([cmp(k, key)] holds), and [lower_bound(k)], the same descent with the
    reversed test [!cmp(key, k)], is the leftmost element whose key is not
    less than [k]; [None] is the end iterator. *)
Theorem bounds_leftmost (s : Skiplist) (key : KEY) :
  wf MULTIMAP cmp s ->
  m_currentNode (upper_bound cmp s key) =
    List.find (fun n => cmp key (first n)) (bottom (m_head s)) /\
  m_currentNode (lower_bound cmp s key) =
    List.find (fun n => negb (cmp (first n) key)) (bottom (m_head s)).
Proof.
  intros Hwf. unfold upper_bound, lower_bound. rewrite !iterator_at_node. split.
  - apply descent_bound; auto. intros l. apply sorted_mono_upper.
  - apply (descent_bound s key (negated_compare cmp)); auto.
    intros l. apply sorted_mono_lower.
Qed.

(** ** Point query *)

Lemma right_of_node_incl (p : Pair) l x : In x (right_of_node p l) -> In x l.
Proof.
  induction l as [|a l IH]; simpl; auto. destruct (same a p); auto.
Qed.

Lemma right_of_incl (h : NodePtr) l x : In x (right_of h l) -> In x l.
Proof.
  destruct h; simpl; auto; [contradiction|apply right_of_node_incl].
Qed.

Lemma stacked_In_bottom (lists : list (list Pair)) :
  stacked lists -> forall u x, In u lists -> In x u -> In x (bottom lists).
Proof.
  induction 1 as [|l|u l below Hu Hs IH]; intros v x Hv Hx.
  - destruct Hv.
  - destruct Hv as [<-|[]]. exact Hx.
  - rewrite bottom_cons. destruct Hv as [<-|Hv].
    + apply (IH l); [now left|]. rewrite Hu in Hx. apply filter_In in Hx. tauto.
    + now apply (IH v).
Qed.

Lemma In_bottom_lists (lists : list (list Pair)) :
  lists <> [] -> In (bottom lists) lists.
Proof.
  induction lists as [|l lists IH]; [congruence|]. intros _.
  destruct lists as [|l' lists]; [now left|].
  rewrite bottom_cons. right. apply IH. discriminate.
Qed.

Lemma findRecursive_next_inl key (h : NodePtr) rest n :
  findRecursive_next cmp key h rest = inl n ->
  In n rest /\ equivalent cmp key (first n) = true.
Proof.
  revert h. induction rest as [|a rest IH]; simpl; intros h H; [discriminate|].
  destruct (cmp key (first a)) eqn:E1; [discriminate|].
  destruct (cmp (first a) key) eqn:E2; simpl in H.
  - destruct (IH _ H). auto.
  - inversion H; subst. split; auto. unfold equivalent. now rewrite E1, E2.
Qed.

Lemma findRecursive_sound lists (h : NodePtr) key d p :
  findRecursive cmp lists h key = Some (d, p) ->
  d < length lists /\
  In p (nth (length lists - 1 - d) lists []) /\
  equivalent cmp key (first p) = true.
Proof.
  revert h. induction lists as [|l below IH]; cbn [findRecursive length];
    intros h H; [discriminate|].
  destruct (findRecursive_next cmp key h (right_of h l)) as [n|h'] eqn:E.
  - inversion H; subst. apply findRecursive_next_inl in E. destruct E as [Hin He].
    replace (S (length below) - 1 - length below) with 0 by lia.
    repeat split; auto. simpl. eapply right_of_incl; eauto.
  - destruct (IH _ H) as [Hd [Hin He]]. split; [lia|]. split; auto.
    replace (S (length below) - 1 - d) with (S (length below - 1 - d)) by lia.
    exact Hin.
Qed.

Lemma findRecursive_next_walk key (h : NodePtr) rest :
  findRecursive_next cmp key h rest =
  let (h', rest') := walk (negated_compare cmp) key h rest in
  match rest' with
  | [] => inr h'
  | next :: _ => if cmp key (first next) then inr h' else inl next
  end.
Proof.
  revert h. induction rest as [|a rest IH]; simpl; intros h; auto.
  unfold negated_compare at 1.
  destruct (cmp key (first a)) eqn:E1.
  - rewrite (swo_asym _ _ E1). simpl. now rewrite E1.
  - destruct (cmp (first a) key) eqn:E2; simpl.
    + apply IH.
    + now rewrite E1.
Qed.

(** No node left of a node with an equivalent key is greater than the
    key. *)
Lemma first_not_less_is_equivalent key (l : list Pair) x n rest :
  StronglySorted lek l ->
  In x l -> equivalent cmp key (first x) = true ->
  filter (fun n => negated_compare cmp key (first n)) l = n :: rest ->
  cmp key (first n) = false.
Proof.
  intros Hso Hx He Hf.
  unfold equivalent in He. apply andb_true_iff in He. destruct He as [He1 He2].
  apply negb_true_iff in He1, He2.
  assert (Hxin : In x (n :: rest)).
  { rewrite <- Hf. apply filter_In. split; auto. unfold negated_compare. now rewrite He2. }
  destruct Hxin as [->|Hxin]; auto.
  assert (Hso' : StronglySorted lek (n :: rest)).
  { rewrite <- Hf. now apply StronglySorted_filter. }
  inversion Hso' as [|? ? _ Hall]; subst. rewrite Forall_forall in Hall.
  specialize (Hall x Hxin). unfold le_key in Hall.
  destruct (cmp key (first n)) eqn:E; auto.
  destruct (swo_neg_trans _ _ (first x) E) as [H|H]; congruence.
Qed.

Lemma findRecursive_complete lists (h : NodePtr) key x :
  lists_ok cmp lists ->
  valid_head (fun n => negated_compare cmp key (first n)) h (hd [] lists) ->
  In x (bottom lists) -> equivalent cmp key (first x) = true ->
  exists d p, findRecursive cmp lists h key = Some (d, p).
Proof.
  intros [Hs Hf]. revert h Hf.
  induction Hs as [|l|u l below Hu Hs IH]; intros h Hf Hv Hx He.
  - destruct Hx.
  - inversion Hf as [|? ? [Hnd Hso] _]; subst. simpl in *.
    rewrite findRecursive_next_walk, walk_right_of; auto using sorted_mono_lower.
    destruct (filter _ l) as [|n rest] eqn:E.
    + exfalso. assert (Hin : In x []); [|destruct Hin].
      rewrite <- E. apply filter_In. split; auto.
      unfold equivalent in He. apply andb_true_iff in He. apply He.
    + rewrite (first_not_less_is_equivalent key l x n rest); eauto.
  - inversion Hf as [|? ? [Hnd Hso] Hf']; subst.
    change (findRecursive cmp (u :: l :: below) h key) with
      (match findRecursive_next cmp key h (right_of h u) with
       | inl next => Some (length (l :: below), next)
       | inr h' => findRecursive cmp (l :: below) h' key
       end).
    simpl in Hv.
    rewrite findRecursive_next_walk, walk_right_of; auto using sorted_mono_lower.
    rewrite bottom_cons in Hx.
    assert (Hdown : exists d p,
      findRecursive cmp (l :: below)
        (last_node dummy
           (filter (fun n => negb (negated_compare cmp key (first n))) u)) key = Some (d, p)).
    { apply IH; auto. simpl. now apply valid_head_down. }
    destruct (filter (fun n => negated_compare cmp key (first n)) u) as [|n rest]; auto.
    destruct (cmp key (first n)); eauto.
Qed.

Lemma findRecursive_none lists (h : NodePtr) key :
  (forall u x, In u lists -> In x u -> equivalent cmp key (first x) = false) ->
  findRecursive cmp lists h key = None.
Proof.
  intros H. destruct (findRecursive cmp lists h key) as [[d p]|] eqn:E; auto.
  apply findRecursive_sound in E. destruct E as [Hd [Hin He]].
  rewrite (H (nth (length lists - 1 - d) lists []) p) in He; auto; [discriminate|].
  apply nth_In. lia.
Qed.

Lemma find_in_container (s : Skiplist) key :
  wf MULTIMAP cmp s ->
  match findRecursive cmp (m_head s) (head_ptr s) key with
  | Some (_, p) => In p (bottom (m_head s)) /\ equivalent cmp key (first p) = true
  | None => forall x, In x (bottom (m_head s)) -> equivalent cmp key (first x) = false
  end.
Proof.
  intros Hwf. pose proof (wf_lists_ok s Hwf) as Hok.
  destruct (findRecursive cmp (m_head s) (head_ptr s) key) as [[d p]|] eqn:E.
  - apply findRecursive_sound in E. destruct E as [Hd [Hin He]]. split; auto.
    eapply stacked_In_bottom; [apply Hok| |exact Hin]. apply nth_In. lia.
  - intros x Hx. destruct (equivalent cmp key (first x)) eqn:He; auto.
    destruct (findRecursive_complete (m_head s) (head_ptr s) key x) as [d [p Hp]]; auto.
    + unfold head_ptr. destruct (m_head s); [destruct Hx|exact I].
    + congruence.
Qed.

(** C9: [at(k)] raises the key-not-found error exactly when no element of
    the container has a key equivalent to [k]; otherwise it returns the
    mapped value of such an element ([at] is a query: it yields no new
    container state); [contains(k)] is true iff such an element is
    present. *)
Theorem at_contains_correct (s : Skiplist) (key : KEY) :
  wf MULTIMAP cmp s ->
  (at_ cmp s key = inr tt <->
   forall x, In x (bottom (m_head s)) -> equivalent cmp key (first x) = false) /\
  (forall v, at_ cmp s key = inl v ->
   exists p, In p (bottom (m_head s)) /\ equivalent cmp key (first p) = true /\
             v = second p) /\
  (contains cmp s key = true <->
   exists p, In p (bottom (m_head s)) /\ equivalent cmp key (first p) = true).
Proof.
  intros Hwf. pose proof (find_in_container s key Hwf) as H.
  unfold at_, contains.
  destruct (findRecursive cmp (m_head s) (head_ptr s) key) as [[d p]|].
  - destruct H as [Hin He]. repeat split.
    + discriminate.
    + intros Hall. rewrite (Hall p Hin) in He. discriminate.
    + intros v Hv. inversion Hv; subst. eauto.
    + eauto.
  - repeat split; auto.
    + discriminate.
    + discriminate.
    + intros [p [Hin He]]. rewrite (H p Hin) in He. discriminate.
Qed.

(** ** Fields the level manager leaves alone *)

Lemma chooseLevel_fields (s : Skiplist) :
  let s' := snd (chooseLevel s) in
  m_levelCount s' = m_levelCount s /\ m_count s' = m_count s /\
  m_head s' = m_head s /\ m_begin s' = m_begin s /\ m_tail s' = m_tail s /\
  m_countMin s' = m_countMin s /\ m_countMax s' = m_countMax s /\
  m_balanced s' = m_balanced s /\ m_distribution s' = m_distribution s.
Proof.
  unfold chooseLevel. destruct (rng_draw (m_rng s)) as [r g].
  destruct r as [|t]; simpl; [tauto|].
  destruct (m_levelCount s <? t + 1); simpl; tauto.
Qed.

Lemma chooseLevel_eq (s : Skiplist) :
  snd (chooseLevel s) = set_rng (m_rng (snd (chooseLevel s))) s.
Proof.
  unfold chooseLevel. destruct (rng_draw (m_rng s)) as [r g].
  destruct r as [|t]; simpl; [reflexivity|].
  destruct (m_levelCount s <? t + 1); reflexivity.
Qed.

(** C10: [clear()] leaves the container in the default-constructed state
    (no levels, no elements, no nodes, thresholds 0, balanced) except for
    the pseudo-random source and its distribution, which are the ones the
    container had before the call, whatever seed the temporary drew. *)
Theorem clear_keeps_rng (seed : Rng) (s : Skiplist) :
  clear seed s =
  mkSkiplist 0 0 [] None nullptr 0 0 true (m_rng s) (m_distribution s).
Proof. reflexivity. Qed.

(** ** Top-down insertion: the lists *)

Lemma insert_after_spliced (stop : Pair -> bool) (p : Pair) l :
  NoDup (ptrs l) -> mono stop l ->
  insert_after (last_node dummy (filter (fun n => negb (stop n)) l)) p l =
  spliced stop p l.
Proof.
  intros Hnd Hm. unfold spliced. pose proof (mono_split stop l Hm) as Hsplit.
  destruct (filter (fun n => negb (stop n)) l) as [|a A] eqn:E.
  - simpl in *. now rewrite <- Hsplit.
  - destruct (exists_last (l:=a :: A)) as [A' [q Hq]]; [discriminate|].
    rewrite Hq in *. rewrite last_node_app. simpl.
    rewrite Hsplit at 1. rewrite <- app_assoc. simpl.
    rewrite insert_after_node_app; [now rewrite <- app_assoc|].
    rewrite Hsplit in Hnd. rewrite <- app_assoc in Hnd. simpl in Hnd.
    eapply NoDup_map_app_notin; eauto.
Qed.

Lemma zip_places (stop : Pair -> bool) (p : Pair) ls rest :
  Forall (fun l => NoDup (ptrs l) /\ mono stop l) ls ->
  zip (map (place stop) ls) p (ls ++ rest) = map (spliced stop p) ls ++ rest.
Proof.
  induction 1 as [|l ls [Hnd Hm] _ IH]; simpl.
  - destruct rest; reflexivity.
  - rewrite insert_after_spliced; auto. now f_equal.
Qed.

Lemma insertTopDownRecursive_spec lists (h : NodePtr) key compare target out :
  stacked lists -> lists <> [] ->
  Forall (fun l => NoDup (ptrs l) /\ mono (fun n => compare key (first n)) l) lists ->
  valid_head (fun n => compare key (first n)) h (hd [] lists) ->
  insertTopDownRecursive MULTIMAP lists h key compare (length lists) target out =
  if blocked MULTIMAP compare key (bottom lists)
  then inr (last_node dummy
              (filter (fun n => negb (compare key (first n))) (bottom lists)))
  else inl (rev (map (place (fun n => compare key (first n)))
                   (skipn (length lists - target) lists)) ++ out).
Proof.
  intros Hs. revert h out.
  induction Hs as [|l|u l below Hu Hs IH]; intros h out Hne Hf Hv; [congruence| |].
  - inversion Hf as [|? ? [Hnd Hm] _]; subst. simpl in Hv.
    cbn [insertTopDownRecursive]. rewrite walk_right_of; auto.
    unfold blocked. cbn [bottom last length].
    assert (Hout : (if 1 <=? target
                    then mkNewNode
                           (last_node dummy (filter (fun n => negb (compare key (first n))) l))
                           (hd_error (filter (fun n => compare key (first n)) l)) :: out
                    else out) =
                   rev (map (place (fun n => compare key (first n))) (skipn (1 - target) [l])) ++ out).
    { destruct target as [|t]; simpl; auto. }
    rewrite Hout. destruct MULTIMAP; simpl; auto.
    destruct (last_node dummy _) as [| |q]; auto.
    destruct (compare (first q) key); auto.
  - inversion Hf as [|? ? [Hnd Hm] Hf']; subst. simpl in Hv.
    change (insertTopDownRecursive MULTIMAP (u :: l :: below) h key compare
              (length (u :: l :: below)) target out) with
      (let (h', rest) := walk compare key h (right_of h u) in
       insertTopDownRecursive MULTIMAP (l :: below) h' key compare
         (length (u :: l :: below) - 1) target
         (if length (u :: l :: below) <=? target
          then mkNewNode h' (hd_error rest) :: out else out)).
    rewrite walk_right_of; auto.
    replace (length (u :: l :: below) - 1) with (length (l :: below))
      by (cbn [length]; lia).
    rewrite IH; auto; [|discriminate|simpl; now apply valid_head_down].
    rewrite bottom_cons. destruct (blocked MULTIMAP compare key (bottom (l :: below))); auto.
    f_equal.
    destruct (length (u :: l :: below) <=? target) eqn:E.
    + apply Nat.leb_le in E.
      replace (length (u :: l :: below) - target) with 0 by lia.
      replace (length (l :: below) - target) with 0
        by (cbn [length] in *; lia).
      change (skipn 0 (u :: l :: below)) with (u :: l :: below).
      change (skipn 0 (l :: below)) with (l :: below).
      clear. remember (l :: below) as rest. simpl. rewrite <- app_assoc. reflexivity.
    + apply Nat.leb_gt in E.
      replace (length (u :: l :: below) - target) with (S (length (l :: below) - target))
        by (cbn [length] in *; lia).
      reflexivity.
Qed.

Lemma In_skipn_lists (A : Type) (k : nat) (l : list A) x : In x (skipn k l) -> In x l.
Proof.
  intros H. rewrite <- (firstn_skipn k l). apply in_or_app. now right.
Qed.

Lemma In_firstn_lists (A : Type) (k : nat) (l : list A) x : In x (firstn k l) -> In x l.
Proof.
  intros H. rewrite <- (firstn_skipn k l). apply in_or_app. now left.
Qed.

(** The lists after the zip. *)
Lemma zip_spec (stop : Pair -> bool) (p : Pair) lists k :
  Forall (fun l => NoDup (ptrs l) /\ mono stop l) lists ->
  rev (zip (rev (map (place stop) (skipn k lists)) ++ []) p (rev lists)) =
  firstn k lists ++ map (spliced stop p) (skipn k lists).
Proof.
  intros Hf. rewrite app_nil_r.
  rewrite <- (firstn_skipn k lists) at 2. rewrite rev_app_distr.
  rewrite <- map_rev. rewrite zip_places.
  - rewrite rev_app_distr, rev_involutive. rewrite map_rev, rev_involutive. reflexivity.
  - rewrite Forall_forall in *. intros l Hl. apply Hf.
    apply in_rev in Hl. eapply In_skipn_lists; eauto.
Qed.

Lemma memb_app (x : Pair) l1 l2 : memb x (l1 ++ l2) = memb x l1 || memb x l2.
Proof. unfold memb. apply existsb_app. Qed.

Lemma memb_filter_split (f : Pair -> bool) (x : Pair) l :
  memb x l = memb x (filter (fun n => negb (f n)) l) || memb x (filter f l).
Proof.
  induction l as [|a l IH]; simpl; auto.
  destruct (f a); simpl; rewrite IH;
    destruct (same x a), (memb x (filter (fun n => negb (f n)) l)),
      (memb x (filter f l)); reflexivity.
Qed.

Lemma filter_comm (f g : Pair -> bool) l :
  filter f (filter g l) = filter g (filter f l).
Proof.
  induction l as [|a l IH]; simpl; auto.
  destruct (g a) eqn:Eg, (f a) eqn:Ef; simpl; rewrite ?Eg, ?Ef, IH; auto.
Qed.

Lemma same_fresh (x p : Pair) l :
  In x l -> ~ In (ptr p) (ptrs l) -> same x p = false.
Proof.
  intros Hx Hp. apply same_false_iff. intros E. apply Hp. rewrite <- E.
  now apply in_map.
Qed.

Lemma spliced_stacked_both (stop : Pair -> bool) (p : Pair) u l :
  u = filter (fun x => memb x u) l ->
  ~ In (ptr p) (ptrs l) ->
  spliced stop p u =
  filter (fun x => memb x (spliced stop p u)) (spliced stop p l).
Proof.
  intros Hu Hp. unfold spliced at 1 3. rewrite filter_app. simpl.
  assert (Hpp : memb p (spliced stop p u) = true).
  { apply memb_In. unfold spliced. apply in_or_app. right. now left. }
  rewrite Hpp.
  assert (Hext : forall (f : Pair -> bool),
    filter (fun x => memb x (spliced stop p u)) (filter f l) = filter f u).
  { intros f. rewrite (filter_ext_in (fun x => memb x (spliced stop p u))
                         (fun x => memb x u)).
    - rewrite filter_comm. now rewrite <- Hu.
    - intros x Hx. apply filter_In in Hx. destruct Hx as [Hx _].
      unfold spliced. rewrite memb_app. simpl.
      rewrite (same_fresh x p l Hx Hp). simpl.
      symmetry. apply memb_filter_split. }
  now rewrite !Hext.
Qed.

Lemma spliced_stacked_lower (stop : Pair -> bool) (p : Pair) u l :
  u = filter (fun x => memb x u) l ->
  mono stop l ->
  memb p u = false ->
  u = filter (fun x => memb x u) (spliced stop p l).
Proof.
  intros Hu Hm Hp. unfold spliced. rewrite filter_app. simpl. rewrite Hp.
  rewrite <- filter_app. now rewrite <- (mono_split stop l Hm).
Qed.

Lemma stacked_splice (stop : Pair -> bool) (p : Pair) lists k :
  stacked lists ->
  Forall (fun l => NoDup (ptrs l) /\ mono stop l) lists ->
  (forall l, In l lists -> ~ In (ptr p) (ptrs l)) ->
  stacked (firstn k lists ++ map (spliced stop p) (skipn k lists)).
Proof.
  intros Hs. revert k.
  induction Hs as [|l|u l below Hu Hs IH]; intros k Hf Hp.
  - destruct k; constructor.
  - destruct k as [|k]; simpl; [constructor|]. destruct k; constructor.
  - inversion Hf as [|? ? [Hnd Hm] Hf']; subst.
    inversion Hf' as [|? ? [Hndl Hml] _]; subst.
    assert (Hp' : forall l0, In l0 (l :: below) -> ~ In (ptr p) (ptrs l0)).
    { intros l0 Hl0. apply Hp. now right. }
    destruct k as [|k].
    + specialize (IH 0 Hf' Hp'). simpl in *. constructor; auto.
      apply spliced_stacked_both; auto.
    + specialize (IH k Hf' Hp').
      change (firstn (S k) (u :: l :: below) ++
              map (spliced stop p) (skipn (S k) (u :: l :: below)))
        with (u :: (firstn k (l :: below) ++
                    map (spliced stop p) (skipn k (l :: below)))).
      destruct k as [|k]; simpl in *.
      * constructor; auto. apply spliced_stacked_lower; auto.
        apply memb_false_iff. apply Hp. now left.
      * constructor; auto.
Qed.

Lemma bottom_app (lists : list (list Pair)) l : bottom (lists ++ [l]) = l.
Proof. unfold bottom. apply last_last. Qed.

Lemma bottom_splice (stop : Pair -> bool) (p : Pair) lists k :
  lists <> [] -> k < length lists ->
  bottom (firstn k lists ++ map (spliced stop p) (skipn k lists)) =
  spliced stop p (bottom lists).
Proof.
  intros Hne Hk.
  destruct (exists_last Hne) as [front [l Hl]]. subst lists.
  rewrite bottom_app. rewrite length_app in Hk. simpl in Hk.
  rewrite skipn_app. replace (k - length front) with 0 by lia. simpl.
  rewrite map_app. simpl. rewrite app_assoc. apply bottom_app.
Qed.

Lemma length_splice (stop : Pair -> bool) (p : Pair) (lists : list (list Pair)) k :
  length (firstn k lists ++ map (spliced stop p) (skipn k lists)) = length lists.
Proof.
  rewrite length_app, length_map, <- length_app, firstn_skipn. reflexivity.
Qed.

Lemma spliced_length (stop : Pair -> bool) (p : Pair) l :
  mono stop l -> length (spliced stop p l) = S (length l).
Proof.
  intros Hm. unfold spliced. rewrite (mono_split stop l Hm) at 3.
  rewrite !length_app. simpl. lia.
Qed.

(** ** Top-down insertion: the bottom list *)

Lemma NoDup_spliced (stop : Pair -> bool) (p : Pair) l :
  NoDup (ptrs l) -> mono stop l -> ~ In (ptr p) (ptrs l) ->
  NoDup (ptrs (spliced stop p l)).
Proof.
  intros Hnd Hm Hp. unfold spliced. rewrite map_app. simpl.
  apply (Permutation_NoDup (l := ptr p :: ptrs (filter (fun n => negb (stop n)) l ++ filter stop l))).
  - rewrite map_app. apply Permutation_middle.
  - rewrite <- (mono_split stop l Hm). now constructor.
Qed.

Lemma Sorted_app_l (R : Pair -> Pair -> Prop) l1 l2 :
  Sorted R (l1 ++ l2) -> Sorted R l2.
Proof.
  induction l1 as [|a l1 IH]; simpl; auto. intros H. apply IH. now inversion H.
Qed.

Lemma Sorted_insert_mid (R : Pair -> Pair -> Prop) l1 l2 (p : Pair) :
  Sorted R (l1 ++ l2) ->
  (forall x, last_node dummy l1 = node x -> R x p) ->
  HdRel R p l2 ->
  Sorted R (l1 ++ p :: l2).
Proof.
  induction l1 as [|a l1 IH]; simpl; intros Hs Hl Hr.
  - constructor; auto.
  - inversion Hs as [|? ? Hs' Hhd]; subst. constructor.
    + apply IH; auto. intros x Hx. apply Hl.
      destruct l1; [discriminate|exact Hx].
    + destruct l1 as [|b l1]; simpl in *.
      * constructor. now apply Hl.
      * inversion Hhd; subst. now constructor.
Qed.

Lemma compare_mono compare key (l : list Pair) :
  insert_compare MULTIMAP cmp compare ->
  StronglySorted lek l -> mono (fun n => compare key (first n)) l.
Proof.
  intros [->|[_ ->]]; [apply sorted_mono_upper|apply sorted_mono_lower].
Qed.

Lemma compare_left compare (x p : Pair) :
  insert_compare MULTIMAP cmp compare ->
  compare (first p) (first x) = false ->
  (MULTIMAP = false -> compare (first x) (first p) = true) ->
  ordered MULTIMAP cmp x p.
Proof.
  intros [->|[Hmm ->]] H1 H2; split; auto.
  - unfold negated_compare in H1. apply negb_false_iff in H1. now apply swo_asym.
  - intros E. congruence.
Qed.

Lemma compare_right compare (p y : Pair) :
  insert_compare MULTIMAP cmp compare ->
  compare (first p) (first y) = true ->
  ordered MULTIMAP cmp p y.
Proof.
  intros [->|[Hmm ->]] H1; split; auto.
  - now apply swo_asym.
  - unfold negated_compare in H1. now apply negb_true_iff in H1.
  - intros E. congruence.
Qed.

Lemma blocked_false compare key (l : list Pair) x :
  blocked MULTIMAP compare key l = false ->
  last_node dummy (filter (fun n => negb (compare key (first n))) l) = node x ->
  MULTIMAP = false -> compare (first x) key = true.
Proof.
  unfold blocked. intros Hb Hx Hm. rewrite Hx, Hm in Hb. simpl in Hb.
  now apply negb_false_iff in Hb.
Qed.

Lemma last_node_In (h : NodePtr) l x : last_node h l = node x -> h = node x \/ In x l.
Proof.
  revert h. induction l as [|a l IH]; simpl; intros h H; auto.
  destruct (IH _ H) as [E|E]; auto. inversion E; auto.
Qed.

Lemma Sorted_spliced compare (p : Pair) l :
  insert_compare MULTIMAP cmp compare ->
  Sorted (ordered MULTIMAP cmp) l ->
  blocked MULTIMAP compare (first p) l = false ->
  Sorted (ordered MULTIMAP cmp) (spliced (fun n => compare (first p) (first n)) p l).
Proof.
  intros Hc Hs Hb.
  pose proof (compare_mono compare (first p) l Hc (Sorted_ordered_le_key l Hs)) as Hm.
  unfold spliced. apply Sorted_insert_mid.
  - now rewrite <- (mono_split _ l Hm).
  - intros x Hx. apply (compare_left compare); auto.
    + apply last_node_In in Hx. destruct Hx as [Hx|Hx]; [discriminate|].
      apply filter_In in Hx. now apply negb_true_iff.
    + now apply (blocked_false compare (first p) l x).
  - destruct (filter (fun n => compare (first p) (first n)) l) as [|y L2] eqn:E;
      constructor.
    apply (compare_right compare); auto.
    assert (Hy : In y (y :: L2)) by now left.
    rewrite <- E in Hy. apply filter_In in Hy. tauto.
Qed.

Lemma same_opt_refl (x : option Pair) : same_opt x x = true.
Proof. destruct x; simpl; auto using same_refl. Qed.

Lemma begin_spliced (stop : Pair -> bool) (p : Pair) l :
  NoDup (ptrs l) -> mono stop l ->
  (if same_opt (hd_error (filter stop l)) (hd_error l) then Some p else hd_error l) =
  hd_error (spliced stop p l).
Proof.
  intros Hnd Hm. unfold spliced. pose proof (mono_split stop l Hm) as Hsplit.
  destruct (filter (fun n => negb (stop n)) l) as [|a A] eqn:E1.
  - simpl in *. rewrite <- Hsplit. now rewrite same_opt_refl.
  - destruct (filter stop l) as [|y L2] eqn:E2; rewrite Hsplit; simpl; auto.
    rewrite Hsplit in Hnd. simpl in Hnd. inversion Hnd as [|? ? Hn _]; subst.
    destruct (same y a) eqn:Es; auto. apply same_true_iff in Es.
    exfalso. apply Hn. rewrite <- Es. rewrite map_app. apply in_or_app. right. now left.
Qed.

Lemma tail_spliced (stop : Pair -> bool) (p : Pair) l :
  mono stop l ->
  match hd_error (filter stop l) with
  | None => node p
  | Some _ => last_node nullptr l
  end = last_node nullptr (spliced stop p l).
Proof.
  intros Hm. unfold spliced. pose proof (mono_split stop l Hm) as Hsplit.
  remember (filter (fun n => negb (stop n)) l) as L1.
  remember (filter stop l) as L2. clear HeqL1 HeqL2 Hm. subst l.
  destruct L2 as [|y L2]; simpl.
  - now rewrite last_node_app.
  - now rewrite !last_node_app_cons.
Qed.

(** ** Making room for one more element *)

Lemma pow2_pos n : 1 <= 2 ^ n.
Proof. induction n; simpl; lia. Qed.

Lemma chooseLevel_range (s : Skiplist) :
  fst (chooseLevel s) <= m_levelCount s /\
  (1 <= m_levelCount s -> 1 <= fst (chooseLevel s)).
Proof.
  unfold chooseLevel. destruct (rng_draw (m_rng s)) as [r g].
  destruct r as [|t]; simpl; [lia|].
  destruct (m_levelCount s <? t + 1) eqn:E; simpl.
  - lia.
  - apply Nat.ltb_ge in E. lia.
Qed.

Lemma bottom_cons_nil (lists : list (list Pair)) : bottom ([] :: lists) = bottom lists.
Proof. destruct lists; reflexivity. Qed.

Lemma filter_memb_nil (l : list Pair) : [] = filter (fun p => memb p []) l.
Proof. induction l; simpl; auto. Qed.

Lemma stacked_addLevel (lists : list (list Pair)) : stacked lists -> stacked ([] :: lists).
Proof.
  intros H. destruct lists as [|l below]; constructor; auto. apply filter_memb_nil.
Qed.

Lemma room_ready (s1 : Skiplist) (level n : nat) :
  length (m_head s1) = m_levelCount s1 ->
  fst (chooseLevel s1) = level \/ (level <= m_levelCount s1 /\ (1 <= m_levelCount s1 -> 1 <= level)) ->
  S (length (bottom (m_head s1))) = n ->
  m_countMin s1 = (if m_levelCount s1 =? 0 then 0 else 2 ^ (m_levelCount s1 - 1)) ->
  m_countMax s1 = 2 ^ m_levelCount s1 - 1 ->
  m_countMin s1 <= n - 1 <= m_countMax s1 ->
  NoDup (ptrs (bottom (m_head s1))) ->
  Sorted (ordered MULTIMAP cmp) (bottom (m_head s1)) ->
  stacked (m_head s1) ->
  m_begin s1 = hd_error (bottom (m_head s1)) ->
  m_tail s1 = last_node nullptr (bottom (m_head s1)) ->
  let s2 := if m_countMax s1 <? n then addLevel s1 else s1 in
  let level2 := if m_countMax s1 <? n then m_levelCount (addLevel s1) else level in
  ready MULTIMAP cmp s2 level2 n /\ bottom (m_head s2) = bottom (m_head s1).
Proof.
  intros Hlen Hlevel Hn Hmin Hmax Hrange Hnd Hso Hst Hb Ht.
  assert (Hlv : level <= m_levelCount s1 /\ (1 <= m_levelCount s1 -> 1 <= level)).
  { destruct Hlevel as [<-|H]; auto. apply chooseLevel_range. }
  pose proof (pow2_pos (m_levelCount s1)) as Hpos.
  destruct (m_countMax s1 <? n) eqn:E; cbv zeta.
  - apply Nat.ltb_lt in E. split; [|apply bottom_cons_nil].
    constructor; cbn [addLevel updateMinMax set_head set_countMax set_countMin
      set_levelCount m_head m_levelCount m_countMin m_countMax m_begin m_tail].
    + simpl. now rewrite Hlen.
    + lia.
    + now rewrite bottom_cons_nil.
    + reflexivity.
    + reflexivity.
    + cbn [Nat.eqb]. rewrite Nat.sub_succ, Nat.sub_0_r, Nat.pow_succ_r'. lia.
    + now rewrite bottom_cons_nil.
    + now rewrite bottom_cons_nil.
    + now apply stacked_addLevel.
    + now rewrite bottom_cons_nil.
    + now rewrite bottom_cons_nil.
  - apply Nat.ltb_ge in E. split; [|reflexivity].
    assert (1 <= m_levelCount s1).
    { destruct (m_levelCount s1); [simpl in Hmax; lia|lia]. }
    constructor; auto; lia.
Qed.

Lemma fresh_lists (p : Pair) (lists : list (list Pair)) :
  stacked lists -> ~ In (ptr p) (ptrs (bottom lists)) ->
  forall l, In l lists -> ~ In (ptr p) (ptrs l).
Proof.
  intros Hs Hp l Hl Hin. apply Hp. apply in_map_iff in Hin.
  destruct Hin as [x [Hx Hin]]. rewrite <- Hx. apply in_map.
  eapply stacked_In_bottom; eauto.
Qed.

Lemma mono_lists (stop : Pair -> bool) (lists : list (list Pair)) :
  stacked lists -> mono stop (bottom lists) -> Forall (mono stop) lists.
Proof.
  induction 1 as [|l|u l below Hu Hs IH]; intros Hm.
  - constructor.
  - repeat constructor. exact Hm.
  - rewrite bottom_cons in Hm. specialize (IH Hm). constructor; auto.
    inversion IH; subst. rewrite Hu. now apply StronglySorted_filter.
Qed.

Lemma NoDup_lists (lists : list (list Pair)) :
  stacked lists -> NoDup (ptrs (bottom lists)) -> Forall (fun l => NoDup (ptrs l)) lists.
Proof.
  induction 1 as [|l|u l below Hu Hs IH]; intros Hm.
  - constructor.
  - repeat constructor. exact Hm.
  - rewrite bottom_cons in Hm. specialize (IH Hm). constructor; auto.
    inversion IH; subst. rewrite Hu. now apply NoDup_ptrs_filter.
Qed.

Lemma Forall_and_lists (P Q : list Pair -> Prop) (lists : list (list Pair)) :
  Forall P lists -> Forall Q lists -> Forall (fun l => P l /\ Q l) lists.
Proof.
  intros HP HQ. rewrite Forall_forall in *. intros l Hl. split; auto.
Qed.

(** Linking a new column in, at the place a monotone test [stop] marks in
    every list, gives a well-formed container. *)
Lemma spliced_wf (s s' : Skiplist) (stop : Pair -> bool) (p : Pair) (level n : nat) :
  ready MULTIMAP cmp s level n ->
  mono stop (bottom (m_head s)) ->
  fresh p s ->
  (forall x, last_node dummy (filter (fun n => negb (stop n)) (bottom (m_head s))) = node x ->
             ordered MULTIMAP cmp x p) ->
  HdRel (ordered MULTIMAP cmp) p (filter stop (bottom (m_head s))) ->
  m_head s' = firstn (m_levelCount s - level) (m_head s) ++
              map (spliced stop p) (skipn (m_levelCount s - level) (m_head s)) ->
  m_levelCount s' = m_levelCount s ->
  m_count s' = n ->
  m_countMin s' = m_countMin s ->
  m_countMax s' = m_countMax s ->
  m_begin s' = hd_error (spliced stop p (bottom (m_head s))) ->
  m_tail s' = last_node nullptr (spliced stop p (bottom (m_head s))) ->
  m_balanced s' = false ->
  wf MULTIMAP cmp s' /\ bottom (m_head s') = spliced stop p (bottom (m_head s)).
Proof.
  intros Hr Hm Hp Hleft Hright Hhead Hlc Hc Hmin Hmax Hb Ht Hbal.
  destruct Hr as [Rlev Rlevel Rcount Rmin Rmax Rrange Rptrs Rsorted Rstacked Rbegin Rtail].
  assert (Hbot : bottom (m_head s') = spliced stop p (bottom (m_head s))).
  { rewrite Hhead. apply bottom_splice.
    - intros E. rewrite E in Rlev. simpl in Rlev. lia.
    - lia. }
  split; auto. constructor.
  - rewrite Hhead, length_splice. congruence.
  - rewrite Hbot, spliced_length; auto. congruence.
  - rewrite Hmin, Hlc. exact Rmin.
  - rewrite Hmax, Hlc. exact Rmax.
  - rewrite Hmin, Hmax, Hc. exact Rrange.
  - rewrite Hbot. apply NoDup_spliced; auto.
  - rewrite Hbot. unfold spliced. apply Sorted_insert_mid; auto.
    now rewrite <- (mono_split stop _ Hm).
  - rewrite Hhead. apply stacked_splice; auto.
    + apply Forall_and_lists; [now apply NoDup_lists|now apply mono_lists].
    + now apply fresh_lists.
  - now rewrite Hbot.
  - now rewrite Hbot.
  - rewrite Hbal. discriminate.
Qed.

(** ** Top-down insertion: the container *)

Lemma insertTopDown_unfold (s : Skiplist) key compare (p : Pair) :
  insertTopDown MULTIMAP s key compare p =
  let s1 := snd (chooseLevel s) in
  let s2 := if m_countMax s1 <? m_count s1 + 1 then addLevel s1 else s1 in
  let level2 := if m_countMax s1 <? m_count s1 + 1
                then m_levelCount (addLevel s1) else fst (chooseLevel s) in
  match insertTopDownRecursive MULTIMAP (m_head s2) (head_ptr s2) key compare
          (m_levelCount s2) level2 [] with
  | inl out_node => ((node p, true), linked s2 out_node p)
  | inr blocking =>
      ((blocking, false), if m_count s2 <? m_countMin s2 then removeLevel s2 else s2)
  end.
Proof.
  unfold insertTopDown. destruct (chooseLevel s) as [level s1]. cbn [fst snd].
  destruct (m_countMax s1 <? m_count s1 + 1); reflexivity.
Qed.

Lemma hd_rev_places (f : list Pair -> NewNode KEY VAL) (d : NewNode KEY VAL)
  (lists : list (list Pair)) k :
  k < length lists ->
  hd d (rev (map f (skipn k lists)) ++ []) = f (bottom lists).
Proof.
  intros Hk. assert (Hne : lists <> []) by (intros ->; simpl in Hk; lia).
  destruct (exists_last Hne) as [front [l Hl]]. subst lists.
  rewrite bottom_app. rewrite length_app in Hk. simpl in Hk.
  rewrite skipn_app. replace (k - length front) with 0 by lia. simpl.
  rewrite map_app. simpl. rewrite rev_app_distr. reflexivity.
Qed.

Lemma removeLevel_addLevel (s : Skiplist) :
  m_countMin s = (if m_levelCount s =? 0 then 0 else 2 ^ (m_levelCount s - 1)) ->
  m_countMax s = 2 ^ m_levelCount s - 1 ->
  removeLevel (addLevel s) = s.
Proof.
  intros Hmin Hmax. destruct s; simpl in *. subst.
  unfold removeLevel, addLevel, updateMinMax; simpl.
  rewrite Nat.sub_0_r. reflexivity.
Qed.

Lemma linked_fields (s : Skiplist) out (p : Pair) :
  let lowest := hd (mkNewNode nullptr None) out in
  m_head (linked s out p) = rev (zip out p (rev (m_head s))) /\
  m_levelCount (linked s out p) = m_levelCount s /\
  m_count (linked s out p) = m_count s + 1 /\
  m_countMin (linked s out p) = m_countMin s /\
  m_countMax (linked s out p) = m_countMax s /\
  m_balanced (linked s out p) = false /\
  m_rng (linked s out p) = m_rng s /\
  m_begin (linked s out p) =
    (if same_opt (Next lowest) (m_begin s) then Some p else m_begin s) /\
  m_tail (linked s out p) =
    match Next lowest with None => node p | Some _ => m_tail s end.
Proof.
  unfold linked. destruct (same_opt _ _), (Next _); simpl; repeat split; reflexivity.
Qed.

Lemma insert_linked (s2 : Skiplist) key compare (p : Pair) level :
  ready MULTIMAP cmp s2 level (m_count s2 + 1) ->
  fresh p s2 -> first p = key -> insert_compare MULTIMAP cmp compare ->
  let l := bottom (m_head s2) in
  let stop := fun n : Pair => compare key (first n) in
  if blocked MULTIMAP compare key l
  then insertTopDownRecursive MULTIMAP (m_head s2) (head_ptr s2) key compare
         (m_levelCount s2) level [] =
       inr (last_node dummy (filter (fun n => negb (stop n)) l))
  else exists out_node,
       insertTopDownRecursive MULTIMAP (m_head s2) (head_ptr s2) key compare
         (m_levelCount s2) level [] = inl out_node /\
       wf MULTIMAP cmp (linked s2 out_node p) /\
       bottom (m_head (linked s2 out_node p)) = spliced stop p l.
Proof.
  intros Hr Hp Hkey Hc l stop.
  pose proof Hr as [Rlev Rlevel Rcount Rmin Rmax Rrange Rptrs Rsorted Rstacked Rbegin Rtail].
  assert (Hne : m_head s2 <> []).
  { intros E. rewrite E in Rlev. simpl in Rlev. lia. }
  assert (Hmono : mono stop l).
  { apply compare_mono; auto. now apply Sorted_ordered_le_key. }
  assert (Hf : Forall (fun l => NoDup (ptrs l) /\ mono stop l) (m_head s2)).
  { apply Forall_and_lists; [now apply NoDup_lists|now apply mono_lists]. }
  pose proof (insertTopDownRecursive_spec (m_head s2) (head_ptr s2) key compare
                level [] Rstacked Hne Hf) as Hspec.
  rewrite Rlev in Hspec.
  assert (Hv : valid_head (fun n => compare key (first n)) (head_ptr s2) (hd [] (m_head s2))).
  { unfold head_ptr. destruct (m_head s2); [congruence|exact I]. }
  specialize (Hspec Hv). fold l in Hspec. fold stop in Hspec.
  destruct (blocked MULTIMAP compare key l) eqn:Hb; auto.
  eexists. split; [exact Hspec|].
  apply (spliced_wf s2 _ stop p level (m_count s2 + 1)); auto.
  - intros x Hx. apply (compare_left compare); auto.
    + rewrite Hkey. apply last_node_In in Hx. destruct Hx as [Hx|Hx]; [discriminate|].
      apply filter_In in Hx. destruct Hx as [_ Hx]. now apply negb_true_iff in Hx.
    + rewrite Hkey. now apply (blocked_false compare key l x).
  - fold l. destruct (filter stop l) as [|y L2] eqn:E; constructor.
    apply (compare_right compare); auto. rewrite Hkey.
    assert (Hy : In y (y :: L2)) by now left.
    rewrite <- E in Hy. apply filter_In in Hy. tauto.
  - rewrite (proj1 (linked_fields s2 _ p)). apply (zip_spec stop p (m_head s2) _ Hf).
  - apply (linked_fields s2 _ p).
  - apply (linked_fields s2 _ p).
  - apply (linked_fields s2 _ p).
  - apply (linked_fields s2 _ p).
  - destruct (linked_fields s2 (rev (map (place stop)
        (skipn (m_levelCount s2 - level) (m_head s2))) ++ []) p)
      as [_ [_ [_ [_ [_ [_ [_ [Hbg _]]]]]]]].
    rewrite Hbg. rewrite hd_rev_places by lia. unfold place. cbn [Next].
    rewrite Rbegin. fold l. apply (begin_spliced stop p l); auto.
  - destruct (linked_fields s2 (rev (map (place stop)
        (skipn (m_levelCount s2 - level) (m_head s2))) ++ []) p)
      as [_ [_ [_ [_ [_ [_ [_ [_ Htl]]]]]]]].
    rewrite Htl. rewrite hd_rev_places by lia. unfold place. cbn [Next].
    rewrite Rtail. fold l. apply (tail_spliced stop p l); auto.
Qed.

Lemma insertTopDown_spec (s : Skiplist) key compare (p : Pair) :
  wf MULTIMAP cmp s -> fresh p s -> first p = key ->
  insert_compare MULTIMAP cmp compare ->
  let l := bottom (m_head s) in
  let stop := fun n : Pair => compare key (first n) in
  if blocked MULTIMAP compare key l
  then insertTopDown MULTIMAP s key compare p =
       ((last_node dummy (filter (fun n => negb (stop n)) l), false),
        snd (chooseLevel s))
  else exists s', insertTopDown MULTIMAP s key compare p = ((node p, true), s') /\
       wf MULTIMAP cmp s' /\ bottom (m_head s') = spliced stop p l /\
       m_count s' = S (m_count s) /\ m_balanced s' = false.
Proof.
  intros Hwf Hp Hkey Hc l stop. rewrite insertTopDown_unfold. cbv zeta.
  pose proof (chooseLevel_fields s) as Hfl. cbv zeta in Hfl.
  pose proof (chooseLevel_range s) as Hrg.
  set (s1 := snd (chooseLevel s)) in *.
  destruct Hfl as [Hlc [Hcnt [Hhd [Hbg [Htl [Hmin [Hmax [Hbal _]]]]]]]].
  destruct Hwf as [Wlev Wcount Wmin Wmax Wrange Wptrs Wsorted Wstacked Wbegin Wtail Wbal].
  destruct (room_ready s1 (fst (chooseLevel s)) (m_count s1 + 1)) as [Hready Hbot].
  { rewrite Hhd, Hlc. exact Wlev. }
  { right. rewrite Hlc. exact Hrg. }
  { rewrite Hhd, Hcnt, Wcount. lia. }
  { rewrite Hmin, Hlc. exact Wmin. }
  { rewrite Hmax, Hlc. exact Wmax. }
  { rewrite Hmin, Hmax, Hcnt. lia. }
  { rewrite Hhd. exact Wptrs. }
  { rewrite Hhd. exact Wsorted. }
  { rewrite Hhd. exact Wstacked. }
  { rewrite Hhd, Hbg. exact Wbegin. }
  { rewrite Hhd, Htl. exact Wtail. }
  rewrite Hhd in Hbot.
  set (s2 := if m_countMax s1 <? m_count s1 + 1 then addLevel s1 else s1) in *.
  set (level2 := if m_countMax s1 <? m_count s1 + 1
                 then m_levelCount (addLevel s1) else fst (chooseLevel s)) in *.
  assert (Hcnt2 : m_count s2 = m_count s).
  { unfold s2. destruct (_ <? _); simpl; auto. }
  assert (Hready' : ready MULTIMAP cmp s2 level2 (m_count s2 + 1)).
  { rewrite Hcnt2, <- Hcnt. exact Hready. }
  assert (Hp2 : fresh p s2) by (unfold fresh; now rewrite Hbot).
  pose proof (insert_linked s2 key compare p level2 Hready' Hp2 Hkey Hc) as Hlink.
  cbv zeta in Hlink. rewrite Hbot in Hlink. fold l in Hlink. fold stop in Hlink.
  destruct (blocked MULTIMAP compare key l).
  - rewrite Hlink. f_equal. unfold s2.
    destruct (m_countMax s1 <? m_count s1 + 1) eqn:E.
    + apply Nat.ltb_lt in E. rewrite Hmax, Hcnt in E.
      assert (Hrm : removeLevel (addLevel s1) = s1).
      { apply removeLevel_addLevel; [rewrite Hmin, Hlc; exact Wmin|rewrite Hmax, Hlc; exact Wmax]. }
      replace (m_count (addLevel s1) <? m_countMin (addLevel s1)) with true; auto.
      symmetry. apply Nat.ltb_lt. simpl. rewrite Hcnt, Hlc, Nat.sub_0_r.
      pose proof (pow2_pos (m_levelCount s)). lia.
    + replace (m_count s1 <? m_countMin s1) with false; auto.
      symmetry. apply Nat.ltb_ge. rewrite Hmin, Hcnt. lia.
  - destruct Hlink as [out [Hrec [Hwf' Hbot']]]. rewrite Hrec.
    eexists. split; [reflexivity|].
    split; [exact Hwf'|]. split; [exact Hbot'|]. split.
    + destruct (linked_fields s2 out p) as [_ [_ [Hc' _]]]. rewrite Hc'. lia.
    + apply (linked_fields s2 out p).
Qed.

(** ** Maps: at most one element per key *)

Lemma equivalent_sym a b : equivalent cmp a b = equivalent cmp b a.
Proof. unfold equivalent. apply andb_comm. Qed.

Lemma equivalent_refl a : equivalent cmp a a = true.
Proof. unfold equivalent. now rewrite (swo_irrefl cmp_swo). Qed.

Lemma Sorted_ordered_strict (l : list Pair) :
  MULTIMAP = false ->
  Sorted (ordered MULTIMAP cmp) l ->
  StronglySorted (fun a b : Pair => cmp (first a) (first b) = true) l.
Proof.
  intros Hmap. induction 1 as [|a l Hs IH Hhd]; constructor; auto.
  destruct Hhd as [|b l' [_ Hab]]; [constructor|]. specialize (Hab Hmap).
  inversion IH as [|? ? Hs' Hall]; subst.
  constructor; auto.
  rewrite Forall_forall in *. intros x Hx.
  eapply (swo_trans cmp_swo); eauto.
Qed.

Lemma StronglySorted_total (R : Pair -> Pair -> Prop) l x y :
  StronglySorted R l -> In x l -> In y l -> x = y \/ R x y \/ R y x.
Proof.
  induction 1 as [|a l Hs IH Hall]; intros Hx Hy; [destruct Hx|].
  rewrite Forall_forall in Hall.
  destruct Hx as [->|Hx], Hy as [->|Hy]; auto.
Qed.

Lemma map_equivalent_unique (l : list Pair) key x y :
  MULTIMAP = false -> Sorted (ordered MULTIMAP cmp) l ->
  In x l -> In y l ->
  equivalent cmp key (first x) = true -> equivalent cmp key (first y) = true ->
  x = y.
Proof.
  intros Hmap Hs Hx Hy Ex Ey.
  assert (Exy : equivalent cmp (first x) (first y) = true).
  { apply (swo_equiv cmp_swo _ key); auto. now rewrite equivalent_sym. }
  unfold equivalent in Exy. apply andb_true_iff in Exy. destruct Exy as [E1 E2].
  apply negb_true_iff in E1, E2.
  destruct (StronglySorted_total _ l x y (Sorted_ordered_strict l Hmap Hs) Hx Hy)
    as [E|[E|E]]; auto; congruence.
Qed.

Lemma StronglySorted_last (R : Pair -> Pair -> Prop) l q x :
  StronglySorted R (l ++ [q]) -> In x l -> R x q.
Proof.
  intros H Hx. apply StronglySorted_app_inv in H. destruct H as [_ [_ H]].
  apply H; auto. now left.
Qed.

Lemma blocked_true key (l : list Pair) :
  blocked MULTIMAP cmp key l = true ->
  exists q, last_node dummy (filter (fun n => negb (cmp key (first n))) l) = node q /\
            In q l /\ equivalent cmp key (first q) = true.
Proof.
  unfold blocked. intros H. apply andb_true_iff in H. destruct H as [_ H].
  destruct (last_node dummy _) as [| |q] eqn:E; try discriminate.
  exists q. split; auto. apply last_node_In in E. destruct E as [E|E]; [discriminate|].
  apply filter_In in E. destruct E as [Hin Hq]. split; auto.
  unfold equivalent. now rewrite Hq, H.
Qed.

Lemma blocked_present key (l : list Pair) x :
  MULTIMAP = false -> StronglySorted lek l ->
  In x l -> equivalent cmp key (first x) = true ->
  blocked MULTIMAP cmp key l = true.
Proof.
  intros Hmap Hs Hx He. unfold blocked. rewrite Hmap. simpl.
  unfold equivalent in He. apply andb_true_iff in He. destruct He as [E1 E2].
  apply negb_true_iff in E2.
  assert (Hin : In x (filter (fun n => negb (cmp key (first n))) l)).
  { apply filter_In. auto. }
  pose proof (StronglySorted_filter lek (fun n => negb (cmp key (first n))) l Hs) as Hs'.
  destruct (filter (fun n => negb (cmp key (first n))) l) as [|a A] eqn:E;
    [destruct Hin|].
  destruct (exists_last (l:=a :: A)) as [A' [q Hq]]; [discriminate|].
  rewrite Hq in *. rewrite last_node_app.
  apply in_app_or in Hin. destruct Hin as [Hin|[->|[]]].
  - pose proof (StronglySorted_last _ _ _ _ Hs' Hin) as Hle. unfold le_key in Hle.
    destruct (cmp (first q) key) eqn:Eq; auto.
    destruct (swo_neg_trans _ _ (first x) Eq) as [H|H]; congruence.
  - now rewrite E2.
Qed.

Lemma iterator_at_same (s s' : Skiplist) n :
  m_head s' = m_head s -> m_count s' = m_count s ->
  iterator_at s' n = iterator_at s n.
Proof.
  intros Hh Hc. unfold iterator_at, is_first, size. now rewrite Hh, Hc.
Qed.

Lemma contains_same (s s' : Skiplist) key :
  m_head s' = m_head s -> contains cmp s' key = contains cmp s key.
Proof. intros Hh. unfold contains, head_ptr. now rewrite Hh. Qed.

(** C1: for a map, [insert(k, v)] with an element equivalent to [k]
    already present returns [(find(k), false)] and leaves the container
    as it was but for the pseudo-random source (same size, same lists,
    same answers of [contains]); with no such element the size grows by
    exactly one, [contains(k)] becomes true and the result is an iterator
    to the new element together with [true]. *)
Theorem map_insert_correct (s : Skiplist) (keyValPair : Pair) :
  MULTIMAP = false -> wf MULTIMAP cmp s -> fresh keyValPair s ->
  let r := insert MULTIMAP cmp s keyValPair in
  let key := first keyValPair in
  ((exists x, In x (bottom (m_head s)) /\ equivalent cmp key (first x) = true) ->
   fst r = (find cmp s key, false) /\
   snd r = set_rng (m_rng (snd r)) s /\
   size (snd r) = size s /\
   m_head (snd r) = m_head s /\
   (forall k, contains cmp (snd r) k = contains cmp s k)) /\
  ((forall x, In x (bottom (m_head s)) -> equivalent cmp key (first x) = false) ->
   size (snd r) = size s + 1 /\
   contains cmp (snd r) key = true /\
   fst r = (iterator_at (snd r) (Some keyValPair), true) /\
   In keyValPair (bottom (m_head (snd r))) /\
   wf MULTIMAP cmp (snd r)).
Proof.
  intros Hmap Hwf Hfresh r key.
  pose proof (insertTopDown_spec s key cmp keyValPair Hwf Hfresh eq_refl
                (or_introl eq_refl)) as Hspec.
  cbv zeta in Hspec.
  pose proof (Sorted_ordered_le_key _ (wf_sorted Hwf)) as Hso.
  unfold r, insert. fold key. split.
  - intros [x [Hx He]].
    rewrite (blocked_present key _ x Hmap Hso Hx He) in Hspec.
    destruct (blocked_true key (bottom (m_head s))) as [q [Hq [Hqin Hqe]]].
    { now apply (blocked_present key _ x). }
    rewrite Hspec, Hq. cbn [fst snd to_node].
    pose proof (chooseLevel_fields s) as Hfl. cbv zeta in Hfl.
    destruct Hfl as [_ [Hcnt [Hhd _]]].
    repeat split.
    + f_equal. rewrite (iterator_at_same s _ _ Hhd Hcnt). unfold find.
      pose proof (find_in_container s key Hwf) as Hfind.
      destruct (findRecursive cmp (m_head s) (head_ptr s) key) as [[d p']|].
      * destruct Hfind as [Hin' He']. f_equal. f_equal.
        apply (map_equivalent_unique (bottom (m_head s)) key); auto.
        apply (wf_sorted Hwf).
      * rewrite (Hfind q Hqin) in Hqe. discriminate.
    + apply chooseLevel_eq.
    + exact Hcnt.
    + exact Hhd.
    + intros k. now apply contains_same.
  - intros Hnone.
    destruct (blocked MULTIMAP cmp key (bottom (m_head s))) eqn:Hb.
    { destruct (blocked_true key _ Hb) as [q [_ [Hqin Hqe]]].
      rewrite (Hnone q Hqin) in Hqe. discriminate. }
    destruct Hspec as [s' [Hins [Hwf' [Hbot [Hcnt Hbal]]]]].
    rewrite Hins. cbn [fst snd to_node].
    assert (Hin : In keyValPair (bottom (m_head s'))).
    { rewrite Hbot. unfold spliced. apply in_or_app. right. now left. }
    split; [unfold size; lia|]. split; [|split; [reflexivity|split; [exact Hin|exact Hwf']]].
    pose proof (find_in_container s' key Hwf') as Hfind. unfold contains.
    destruct (findRecursive cmp (m_head s') (head_ptr s') key) as [[d p']|]; auto.
    specialize (Hfind keyValPair Hin). fold key in Hfind.
    rewrite equivalent_refl in Hfind. discriminate.
Qed.

(** ** Erase by key: one list *)

Lemma StronglySorted_rev (R : Pair -> Pair -> Prop) l :
  StronglySorted R l -> StronglySorted (fun a b => R b a) (rev l).
Proof.
  induction 1 as [|a l Hs IH Hall]; simpl; [constructor|].
  apply StronglySorted_app; auto.
  - repeat constructor.
  - rewrite Forall_forall in Hall. intros x y Hx [<-|[]]. apply Hall. now apply in_rev.
Qed.

Lemma erase_left_spec (p : Pair) left :
  StronglySorted (fun a b : Pair =>
    cmp (first b) (first p) = false -> cmp (first a) (first p) = false) left ->
  erase_left cmp p left =
  (filter (fun x => cmp (first x) (first p)) left,
   length (filter (fun x => negb (cmp (first x) (first p))) left)).
Proof.
  induction 1 as [|a left Hs IH Hall]; simpl; auto.
  unfold m_pairCompare. destruct (cmp (first a) (first p)) eqn:Ea; simpl.
  - rewrite Forall_forall in Hall.
    rewrite filter_all, filter_none; auto; rewrite Forall_forall; intros x Hx.
    + destruct (cmp (first x) (first p)) eqn:Ex; auto.
      discriminate (Hall x Hx Ex).
    + destruct (cmp (first x) (first p)) eqn:Ex; auto.
      discriminate (Hall x Hx Ex).
  - rewrite IH. reflexivity.
Qed.

Lemma erase_right_spec (p : Pair) right :
  StronglySorted (fun a b : Pair =>
    cmp (first p) (first a) = true -> cmp (first p) (first b) = true) right ->
  erase_right cmp p right =
  (filter (fun x => cmp (first p) (first x)) right,
   length (filter (fun x => negb (cmp (first p) (first x))) right)).
Proof.
  induction 1 as [|a right Hs IH Hall]; simpl; auto.
  unfold m_pairCompare. destruct (cmp (first p) (first a)) eqn:Ea; simpl.
  - rewrite Forall_forall in Hall.
    rewrite filter_all, filter_none; auto; rewrite Forall_forall; intros x Hx.
    + rewrite (Hall x Hx eq_refl); reflexivity.
    + rewrite (Hall x Hx eq_refl); reflexivity.
  - rewrite IH. reflexivity.
Qed.

(** Left of a node of a sorted list, "not equivalent" means "less";
    right of it, "greater". *)
Lemma not_equivalent_left (p : Pair) B R x :
  StronglySorted lek (B ++ p :: R) -> In x B ->
  not_equivalent cmp (first p) x = cmp (first x) (first p).
Proof.
  intros Hs Hx. apply StronglySorted_app_inv in Hs. destruct Hs as [_ [_ H]].
  specialize (H x p Hx (or_introl eq_refl)). unfold le_key in H.
  unfold not_equivalent, equivalent. rewrite H. simpl. apply negb_involutive.
Qed.

Lemma not_equivalent_right (p : Pair) B R x :
  StronglySorted lek (B ++ p :: R) -> In x R ->
  not_equivalent cmp (first p) x = cmp (first p) (first x).
Proof.
  intros Hs Hx. apply StronglySorted_app_inv in Hs. destruct Hs as [_ [Hs _]].
  inversion Hs as [|? ? _ Hall]; subst. rewrite Forall_forall in Hall.
  specialize (Hall x Hx). unfold le_key in Hall.
  unfold not_equivalent, equivalent. rewrite Hall. rewrite andb_true_r.
  apply negb_involutive.
Qed.

Lemma erase_left_sorted (p : Pair) B R :
  StronglySorted lek (B ++ p :: R) ->
  erase_left cmp p (rev B) =
  (rev (filter (not_equivalent cmp (first p)) B),
   length (filter (fun x => negb (not_equivalent cmp (first p) x)) B)).
Proof.
  intros Hs. rewrite erase_left_spec.
  - rewrite !filter_rev, length_rev. f_equal.
    + f_equal. apply filter_ext_in. intros x Hx. symmetry.
      eapply not_equivalent_left; eauto.
    + f_equal. apply filter_ext_in. intros x Hx.
      now rewrite (not_equivalent_left p B R x Hs Hx).
  - apply StronglySorted_app_inv in Hs. destruct Hs as [HB _].
    pose proof (StronglySorted_rev _ _ (sorted_mono_lower (first p) B HB)) as Hrev.
    revert Hrev. apply StronglySorted_impl. unfold negated_compare.
    intros a b Hab Hb. rewrite Hb in Hab. specialize (Hab eq_refl).
    now apply negb_true_iff in Hab.
Qed.

Lemma erase_right_sorted (p : Pair) B R :
  StronglySorted lek (B ++ p :: R) ->
  erase_right cmp p R =
  (filter (not_equivalent cmp (first p)) R,
   length (filter (fun x => negb (not_equivalent cmp (first p) x)) R)).
Proof.
  intros Hs. rewrite erase_right_spec.
  - f_equal.
    + apply filter_ext_in. intros x Hx. symmetry. eapply not_equivalent_right; eauto.
    + f_equal. apply filter_ext_in. intros x Hx.
      now rewrite (not_equivalent_right p B R x Hs Hx).
  - apply StronglySorted_app_inv in Hs. destruct Hs as [_ [Hs _]].
    inversion Hs; subst. now apply sorted_mono_upper.
Qed.

Lemma not_equivalent_self (p : Pair) : not_equivalent cmp (first p) p = false.
Proof. unfold not_equivalent. now rewrite equivalent_refl. Qed.

(** What one pass of [eraseKeyRecursive] leaves of a list. *)
Lemma erase_in_list (p : Pair) l :
  StronglySorted lek l -> NoDup (ptrs l) -> In p l ->
  let B := before_node p l in
  let R := right_of_node p l in
  l = B ++ p :: R /\
  erase_left cmp p (rev B) =
    (rev (filter (not_equivalent cmp (first p)) B),
     length (filter (fun x => negb (not_equivalent cmp (first p) x)) B)) /\
  erase_right cmp p R =
    (filter (not_equivalent cmp (first p)) R,
     length (filter (fun x => negb (not_equivalent cmp (first p) x)) R)) /\
  filter (not_equivalent cmp (first p)) l =
    filter (not_equivalent cmp (first p)) B ++ filter (not_equivalent cmp (first p)) R /\
  length (filter (fun x => negb (not_equivalent cmp (first p) x)) l) =
    length (filter (fun x => negb (not_equivalent cmp (first p) x)) B) +
    length (filter (fun x => negb (not_equivalent cmp (first p) x)) R) + 1.
Proof.
  intros Hs Hnd Hin B R. pose proof (split_at_node l p Hnd Hin) as Hsplit.
  fold B R in Hsplit. clearbody B R. subst l.
  split; [reflexivity|]. split; [now apply (erase_left_sorted p B R)|].
  split; [now apply (erase_right_sorted p B R)|].
  rewrite !filter_app. simpl.
  rewrite not_equivalent_self. simpl. split; auto.
  rewrite length_app. simpl. lia.
Qed.

(** ** Erase by key: all the lists *)

Lemma stacked_filter (f : Pair -> bool) (lists : list (list Pair)) :
  stacked lists -> NoDup (ptrs (bottom lists)) ->
  stacked (map (filter f) lists).
Proof.
  intros Hs Hnd. pose proof (NoDup_lists lists Hs Hnd) as Hall. clear Hnd.
  induction Hs as [|l|u l below Hu Hs IH]; simpl; try constructor.
  - inversion Hall as [|? ? _ Hall']; subst. inversion Hall' as [|? ? Hndl _]; subst.
    rewrite Hu at 1. rewrite filter_comm. apply filter_ext_in.
    intros x Hx. apply filter_In in Hx. destruct Hx as [Hx Hfx].
    destruct (memb x u) eqn:E.
    + symmetry. apply memb_In. apply filter_In. split; auto.
      apply (memb_In_sub l u x); auto.
      intros y Hy. rewrite Hu in Hy. apply filter_In in Hy. tauto.
    + symmetry. apply memb_false_iff. apply memb_false_iff in E.
      intros Hin. apply E. apply in_map_iff in Hin. destruct Hin as [y [Hy Hin]].
      apply filter_In in Hin. rewrite <- Hy. apply in_map. tauto.
  - apply IH. now inversion Hall.
Qed.

Lemma bottom_map_filter (f : Pair -> bool) (lists : list (list Pair)) :
  bottom (map (filter f) lists) = filter f (bottom lists).
Proof.
  induction lists as [|l lists IH]; auto.
  destruct lists as [|l' lists]; auto.
Qed.

(** The node [findRecursive] returns is in the highest list that holds an
    equivalent key. *)
Lemma findRecursive_highest lists (h : NodePtr) key d p :
  lists_ok cmp lists ->
  valid_head (fun n => negated_compare cmp key (first n)) h (hd [] lists) ->
  findRecursive cmp lists h key = Some (d, p) ->
  forall u x, In u (firstn (length lists - 1 - d) lists) -> In x u ->
              equivalent cmp key (first x) = false.
Proof.
  intros [Hs Hf]. revert h Hf.
  induction Hs as [|l|u l below Hu Hs IH]; intros h Hf Hv Hfind v x Hv' Hx.
  - discriminate.
  - apply findRecursive_sound in Hfind. simpl in Hfind.
    replace (length [l] - 1 - d) with 0 in Hv' by (simpl; lia).
    simpl in Hv'. destruct Hv'.
  - inversion Hf as [|? ? [Hnd Hso] Hf']; subst.
    pose proof (findRecursive_sound _ _ _ _ _ Hfind) as [Hd _].
    change (findRecursive cmp (u :: l :: below) h key) with
      (match findRecursive_next cmp key h (right_of h u) with
       | inl next => Some (length (l :: below), next)
       | inr h' => findRecursive cmp (l :: below) h' key
       end) in Hfind.
    simpl in Hv.
    rewrite findRecursive_next_walk, walk_right_of in Hfind;
      auto using sorted_mono_lower.
    assert (Hu_none : (forall n rest,
        filter (fun n => negated_compare cmp key (first n)) u = n :: rest ->
        cmp key (first n) = true) ->
        forall y, In y u -> equivalent cmp key (first y) = false).
    { intros Hhd y Hy. destruct (equivalent cmp key (first y)) eqn:Ey; auto.
      destruct (filter (fun n => negated_compare cmp key (first n)) u) as [|n rest] eqn:E.
      - exfalso. assert (Hin : In y []); [|destruct Hin].
        rewrite <- E. apply filter_In. split; auto.
        unfold equivalent in Ey. apply andb_true_iff in Ey. apply Ey.
      - specialize (Hhd n rest eq_refl).
        rewrite (first_not_less_is_equivalent key u y n rest Hso Hy Ey E) in Hhd.
        discriminate. }
    assert (Hrec : forall h',
      findRecursive cmp (l :: below) h' key = Some (d, p) ->
      valid_head (fun n => negated_compare cmp key (first n)) h' l ->
      (forall y, In y u -> equivalent cmp key (first y) = false) ->
      equivalent cmp key (first x) = false).
    { intros h' Hfind' Hv'' Hnone.
      pose proof (findRecursive_sound _ _ _ _ _ Hfind') as [Hd' _].
      replace (length (u :: l :: below) - 1 - d)
        with (S (length (l :: below) - 1 - d)) in Hv' by (cbn [length] in *; lia).
      destruct Hv' as [<-|Hv']; auto.
      apply (IH h' Hf' Hv'' Hfind' v x Hv' Hx). }
    destruct (filter (fun n => negated_compare cmp key (first n)) u) as [|n rest] eqn:E.
    + apply (Hrec _ Hfind); [simpl; now apply valid_head_down|].
      apply Hu_none. intros n rest Hn. discriminate.
    + destruct (cmp key (first n)) eqn:En.
      * apply (Hrec _ Hfind); [simpl; now apply valid_head_down|].
        apply Hu_none. intros n' rest' Hn. inversion Hn; subst. exact En.
      * assert (Hd0 : d = length (l :: below)) by (inversion Hfind; reflexivity).
        rewrite Hd0 in Hv'.
        replace (length (u :: l :: below) - 1 - length (l :: below)) with 0 in Hv'
          by (cbn [length]; lia).
        simpl in Hv'. destruct Hv'.
Qed.

Lemma rev_nil_iff (A : Type) (l : list A) : rev l = [] <-> l = [].
Proof.
  split; intros H; [|now subst].
  rewrite <- (rev_involutive l), H. reflexivity.
Qed.

Lemma eraseKeyRecursive_spec lists (p : Pair) (s : Skiplist) :
  stacked lists -> lists <> [] ->
  Forall (fun l => NoDup (ptrs l) /\ StronglySorted lek l) lists ->
  (forall l, In l lists -> In p l) ->
  eraseKeyRecursive cmp lists p s =
  (length (filter (fun x => negb (not_equivalent cmp (first p) x)) (bottom lists)),
   map (filter (not_equivalent cmp (first p))) lists,
   erased_ends cmp s p (bottom lists)).
Proof.
  intros Hs. induction Hs as [|l|u l below Hu Hs IH]; intros Hne Hf Hin; [congruence| |].
  - inversion Hf as [|? ? [Hnd Hso] _]; subst.
    destruct (erase_in_list p l Hso Hnd (Hin l (or_introl eq_refl)))
      as [Hsplit [Hl [Hr [Hfl Hlen]]]].
    cbn [eraseKeyRecursive]. rewrite Hl, Hr. cbn [bottom last map].
    rewrite Hfl, Hlen, rev_involutive. unfold erased_ends.
    destruct (filter (not_equivalent cmp (first p)) (before_node p l)) as [|b B] eqn:EB.
    + simpl. reflexivity.
    + destruct (rev (b :: B)) as [|c C] eqn:Erev.
      * apply (proj1 (rev_nil_iff _ _)) in Erev. discriminate Erev.
      * reflexivity.
  - inversion Hf as [|? ? [Hnd Hso] Hf']; subst.
    destruct (erase_in_list p u Hso Hnd (Hin u (or_introl eq_refl)))
      as [Hsplit [Hl [Hr [Hfl Hlen]]]].
    change (eraseKeyRecursive cmp (u :: l :: below) p s) with
      (let (left, nl) := erase_left cmp p (rev (before_node p u)) in
       let (right, nr) := erase_right cmp p (right_of_node p u) in
       let '(numRemoved, below', s') := eraseKeyRecursive cmp (l :: below) p s in
       (numRemoved, (rev left ++ right) :: below', s')).
    rewrite Hl, Hr, IH; auto; [|discriminate|intros l0 Hl0; apply Hin; now right].
    rewrite bottom_cons, rev_involutive, <- Hfl. reflexivity.
Qed.

(** ** Removing levels *)

Lemma shrinkable_wf (s : Skiplist) :
  shrinkable MULTIMAP cmp s -> m_countMin s <= m_count s -> wf MULTIMAP cmp s.
Proof.
  intros [] Hmin. constructor; auto. intros E. congruence.
Qed.

Lemma shrinkable_removeLevel (s : Skiplist) :
  shrinkable MULTIMAP cmp s -> m_count s < m_countMin s ->
  shrinkable MULTIMAP cmp (removeLevel s) /\
  bottom (m_head (removeLevel s)) = bottom (m_head s) /\
  m_count (removeLevel s) = m_count s /\
  m_levelCount (removeLevel s) = m_levelCount s - 1.
Proof.
  intros [Hlev Hcount Hmin Hmax Hrange Hptrs Hsorted Hstacked Hbegin Htail Hbal] Hlt.
  assert (HL : m_levelCount s <> 0 /\ m_count s < 2 ^ (m_levelCount s - 1)).
  { rewrite Hmin in Hlt. destruct (m_levelCount s =? 0) eqn:E; [lia|].
    apply Nat.eqb_neq in E. auto. }
  destruct HL as [HL Hc].
  assert (Hbot : bottom (tl (m_head s)) = bottom (m_head s)).
  { destruct (m_head s) as [|l0 rest] eqn:Eh; auto.
    destruct rest as [|l1 rest]; [|reflexivity].
    simpl in *. rewrite <- Hlev in Hc. simpl in Hc.
    destruct l0; [reflexivity|simpl in Hcount; lia]. }
  split; [|split; [exact Hbot|split; reflexivity]].
  constructor; unfold removeLevel, updateMinMax; simpl.
  - rewrite <- Hlev. destruct (m_head s); simpl; lia.
  - now rewrite Hbot.
  - reflexivity.
  - reflexivity.
  - lia.
  - now rewrite Hbot.
  - now rewrite Hbot.
  - destruct (m_head s); [constructor|]. eapply stacked_tail; eauto.
  - now rewrite Hbot.
  - now rewrite Hbot.
  - exact Hbal.
Qed.

Lemma removeLevel_while_wf (fuel : nat) (s : Skiplist) :
  shrinkable MULTIMAP cmp s -> m_levelCount s < fuel ->
  wf MULTIMAP cmp (removeLevel_while fuel s) /\
  bottom (m_head (removeLevel_while fuel s)) = bottom (m_head s) /\
  m_count (removeLevel_while fuel s) = m_count s /\
  m_balanced (removeLevel_while fuel s) = false /\
  m_rng (removeLevel_while fuel s) = m_rng s.
Proof.
  revert s. induction fuel as [|fuel IH]; intros s Hs Hf; [lia|].
  simpl. destruct (m_count s <? m_countMin s) eqn:E.
  - apply Nat.ltb_lt in E.
    destruct (shrinkable_removeLevel s Hs E) as [Hs' [Hb [Hc Hl]]].
    assert (HL : m_levelCount s <> 0).
    { rewrite (sh_min Hs) in E. destruct (m_levelCount s =? 0) eqn:E0; [lia|].
      now apply Nat.eqb_neq in E0. }
    destruct (IH (removeLevel s) Hs') as [Hwf [Hb' [Hc' [Hbal Hrng]]]]; [lia|].
    split; [exact Hwf|]. split; [congruence|]. split; [congruence|].
    split; [exact Hbal|]. rewrite Hrng. reflexivity.
  - apply Nat.ltb_ge in E. split; [now apply shrinkable_wf|].
    split; [reflexivity|]. split; [reflexivity|]. split; [apply (sh_balanced Hs)|reflexivity].
Qed.

Lemma removeLevel_once_wf (s : Skiplist) :
  shrinkable MULTIMAP cmp s -> m_countMin s <= m_count s + 1 ->
  let s' := if m_count s <? m_countMin s then removeLevel s else s in
  wf MULTIMAP cmp s' /\ bottom (m_head s') = bottom (m_head s) /\
  m_count s' = m_count s.
Proof.
  intros Hs Hmin. cbv zeta. destruct (m_count s <? m_countMin s) eqn:E.
  - apply Nat.ltb_lt in E.
    destruct (shrinkable_removeLevel s Hs E) as [Hs' [Hb [Hc Hl]]].
    split; [|auto]. apply shrinkable_wf; auto.
    rewrite (sh_min Hs'), Hl, Hc. rewrite (sh_min Hs) in E, Hmin.
    destruct (m_levelCount s) as [|[|L]]; simpl in *; try lia.
    rewrite Nat.sub_0_r in *. lia.
  - apply Nat.ltb_ge in E. split; [now apply shrinkable_wf|auto].
Qed.

Lemma ordered_trans (a b c : Pair) :
  ordered MULTIMAP cmp a b -> ordered MULTIMAP cmp b c -> ordered MULTIMAP cmp a c.
Proof.
  intros [H1 H2] [H3 H4]. split.
  - apply (le_key_trans a b c); assumption.
  - intros Hm. eapply (swo_trans cmp_swo); eauto.
Qed.

Lemma Sorted_ordered_strong (l : list Pair) :
  Sorted (ordered MULTIMAP cmp) l -> StronglySorted (ordered MULTIMAP cmp) l.
Proof.
  induction 1 as [|a l Hs IH Hhd]; constructor; auto.
  destruct Hhd as [|b l' Hab]; [constructor|].
  inversion IH as [|? ? Hs' Hall]; subst.
  constructor; auto.
  rewrite Forall_forall in *. intros x Hx.
  eapply ordered_trans; eauto.
Qed.

Lemma Sorted_ordered_filter (f : Pair -> bool) (l : list Pair) :
  Sorted (ordered MULTIMAP cmp) l -> Sorted (ordered MULTIMAP cmp) (filter f l).
Proof.
  intros H. apply StronglySorted_Sorted. apply StronglySorted_filter.
  now apply Sorted_ordered_strong.
Qed.

(** ** Erase by key: the container *)

Lemma hd_error_app_nonempty (A : Type) (l1 l2 : list A) :
  l1 <> [] -> hd_error (l1 ++ l2) = hd_error l1.
Proof. destruct l1; [congruence|reflexivity]. Qed.

Lemma last_node_app_nonempty (h h' : NodePtr) l1 l2 :
  l2 <> [] -> last_node h (l1 ++ l2) = last_node h' l2.
Proof.
  intros H. destruct l2 as [|a l2]; [congruence|].
  rewrite last_node_app_cons. reflexivity.
Qed.

Lemma erased_ends_spec (s : Skiplist) (p : Pair) l :
  StronglySorted lek l -> NoDup (ptrs l) -> In p l ->
  m_begin s = hd_error l -> m_tail s = last_node nullptr l ->
  let s' := erased_ends cmp s p l in
  m_begin s' = hd_error (filter (not_equivalent cmp (first p)) l) /\
  (filter (not_equivalent cmp (first p)) l <> [] ->
   m_tail s' = last_node nullptr (filter (not_equivalent cmp (first p)) l)) /\
  m_head s' = m_head s /\ m_levelCount s' = m_levelCount s /\
  m_count s' = m_count s /\ m_countMin s' = m_countMin s /\
  m_countMax s' = m_countMax s /\ m_balanced s' = m_balanced s /\
  m_rng s' = m_rng s.
Proof.
  intros Hso Hnd Hin Hb Ht.
  destruct (erase_in_list p l Hso Hnd Hin) as [Hsplit [_ [_ [Hfl _]]]].
  cbv zeta in *. unfold erased_ends.
  remember (before_node p l) as B eqn:EB. remember (right_of_node p l) as R eqn:ER.
  clear EB ER. rewrite Hfl. clear Hfl Hin Hnd.
  assert (HB : B = filter (not_equivalent cmp (first p)) B ++
                   filter (fun x => negb (not_equivalent cmp (first p) x)) B).
  { rewrite Hsplit in Hso.
    pose proof (proj1 (StronglySorted_app_inv _ _ _ Hso)) as HsB.
    pose proof (mono_split _ B (sorted_mono_lower (first p) B HsB)) as Hm.
    rewrite (filter_ext_in (not_equivalent cmp (first p))
               (fun x => negb (negated_compare cmp (first p) (first x)))).
    - rewrite (filter_ext_in (fun x => negb (not_equivalent cmp (first p) x))
                 (fun n => negated_compare cmp (first p) (first n))); auto.
      intros x Hx. rewrite (not_equivalent_left p B R x Hso Hx). reflexivity.
    - intros x Hx. rewrite (not_equivalent_left p B R x Hso Hx).
      unfold negated_compare. now rewrite negb_involutive. }
  assert (HR : R = filter (fun x => negb (not_equivalent cmp (first p) x)) R ++
                   filter (not_equivalent cmp (first p)) R).
  { rewrite Hsplit in Hso.
    pose proof (proj1 (proj2 (StronglySorted_app_inv _ _ _ Hso))) as HsR.
    inversion HsR as [|? ? HsR' _]; subst.
    pose proof (mono_split _ R (sorted_mono_upper (first p) R HsR')) as Hm.
    rewrite (filter_ext_in (not_equivalent cmp (first p))
               (fun n => cmp (first p) (first n))).
    - rewrite (filter_ext_in (fun x => negb (not_equivalent cmp (first p) x))
                 (fun n => negb (cmp (first p) (first n)))); auto.
      intros x Hx. now rewrite (not_equivalent_right p B R x Hso Hx).
    - intros x Hx. now rewrite (not_equivalent_right p B R x Hso Hx). }
  assert (Hbegin : filter (not_equivalent cmp (first p)) B <> [] ->
                   m_begin s = hd_error (filter (not_equivalent cmp (first p)) B)).
  { intros Hne. rewrite Hb, Hsplit, HB, <- app_assoc.
    rewrite hd_error_app_nonempty; auto. now rewrite <- HB. }
  assert (Htail : filter (not_equivalent cmp (first p)) R <> [] ->
                  m_tail s = last_node nullptr (filter (not_equivalent cmp (first p)) R)).
  { intros Hne. rewrite Ht, Hsplit, HR.
    rewrite app_comm_cons, app_assoc.
    rewrite (last_node_app_nonempty _ nullptr); auto. now rewrite <- HR. }
  clear HB HR Hsplit Hso Hb Ht.
  remember (filter (not_equivalent cmp (first p)) B) as B' eqn:EB.
  remember (filter (not_equivalent cmp (first p)) R) as R' eqn:ER.
  clear EB ER.
  destruct B' as [|b Bt], R' as [|r Rt]; simpl;
    repeat split; auto; try congruence.
  - apply Hbegin. discriminate.
  - intros _. now rewrite app_nil_r.
  - apply Hbegin. discriminate.
  - intros _. rewrite (Htail ltac:(discriminate)).
    rewrite last_node_app_cons. reflexivity.
Qed.

Lemma stacked_skipn (lists : list (list Pair)) k : stacked lists -> stacked (skipn k lists).
Proof.
  revert lists. induction k as [|k IH]; intros lists H; auto.
  destruct lists as [|u lists]; auto. simpl. apply IH. eapply stacked_tail; eauto.
Qed.

Lemma stacked_In_down (u : list Pair) lists x :
  stacked (u :: lists) -> In x u -> forall l, In l lists -> In x l.
Proof.
  revert u. induction lists as [|l lists IH]; intros u Hs Hx l' Hl'; [destruct Hl'|].
  inversion Hs as [| |? ? ? Hu Hs']; subst.
  assert (Hxl : In x l). { rewrite Hu in Hx. apply filter_In in Hx. tauto. }
  destruct Hl' as [<-|Hl']; auto. eapply IH; eauto.
Qed.

Lemma not_equivalent_congr key (p x : Pair) :
  equivalent cmp key (first p) = true ->
  not_equivalent cmp (first p) x = not_equivalent cmp key x.
Proof.
  intros He. unfold not_equivalent. f_equal.
  destruct (equivalent cmp key (first x)) eqn:E1, (equivalent cmp (first p) (first x)) eqn:E2; auto.
  - rewrite equivalent_sym in He.
    rewrite (swo_equiv cmp_swo _ _ _ He E1) in E2. discriminate.
  - rewrite (swo_equiv cmp_swo _ _ _ He E2) in E1. discriminate.
Qed.

Lemma bottom_skipn (lists : list (list Pair)) k :
  k < length lists -> bottom (skipn k lists) = bottom lists.
Proof.
  intros Hk. assert (Hne : lists <> []) by (intros ->; simpl in Hk; lia).
  destruct (exists_last Hne) as [front [l Hl]]. subst lists.
  rewrite length_app in Hk. simpl in Hk.
  rewrite skipn_app. replace (k - length front) with 0 by lia. simpl.
  now rewrite !bottom_app.
Qed.

Lemma map_filter_id (f : Pair -> bool) (lists : list (list Pair)) :
  (forall u x, In u lists -> In x u -> f x = true) ->
  map (filter f) lists = lists.
Proof.
  induction lists as [|u lists IH]; intros H; simpl; auto. f_equal.
  - apply filter_all. rewrite Forall_forall. intros x Hx. apply (H u); auto. now left.
  - apply IH. intros v x Hv Hx. apply (H v); auto. now right.
Qed.

(** The lists after [erase(key)] found a node: every list loses the
    elements equivalent to the key. *)
Lemma erase_lists (s : Skiplist) key d (p : Pair) :
  wf MULTIMAP cmp s ->
  findRecursive cmp (m_head s) (head_ptr s) key = Some (d, p) ->
  let over := length (m_head s) - S d in
  eraseKeyRecursive cmp (skipn over (m_head s)) p s =
  (length (filter (fun x => equivalent cmp key (first x)) (bottom (m_head s))),
   map (filter (not_equivalent cmp key)) (skipn over (m_head s)),
   erased_ends cmp s p (bottom (m_head s))) /\
  firstn over (m_head s) = map (filter (not_equivalent cmp key)) (firstn over (m_head s)) /\
  equivalent cmp key (first p) = true /\ In p (bottom (m_head s)).
Proof.
  intros Hwf Hfind over. pose proof (wf_lists_ok s Hwf) as Hok.
  pose proof (findRecursive_sound _ _ _ _ _ Hfind) as [Hd [Hin He]].
  assert (Hne : m_head s <> []) by (intros E; rewrite E in Hd; simpl in Hd; lia).
  assert (Hv : valid_head (fun n => negated_compare cmp key (first n))
                 (head_ptr s) (hd [] (m_head s))).
  { unfold head_ptr. destruct (m_head s); [congruence|exact I]. }
  pose proof (findRecursive_highest _ _ _ _ _ Hok Hv Hfind) as Hhigh.
  replace (length (m_head s) - 1 - d) with over in * by (unfold over; lia).
  assert (Hover : over < length (m_head s)) by (unfold over; lia).
  assert (Hskip : skipn over (m_head s) =
                  nth over (m_head s) [] :: skipn (S over) (m_head s)).
  { clear -Hover. revert Hover. generalize (m_head s) as lists.
    induction over as [|k IH]; intros [|u lists] H; simpl in *; try lia; auto.
    apply IH. lia. }
  assert (Hall : forall l, In l (skipn over (m_head s)) -> In p l).
  { intros l Hl. rewrite Hskip in Hl. destruct Hl as [<-|Hl]; auto.
    eapply (stacked_In_down (nth over (m_head s) [])); eauto.
    rewrite <- Hskip. apply stacked_skipn. apply Hok. }
  assert (Hpb : In p (bottom (m_head s))).
  { eapply stacked_In_bottom; [apply Hok| |exact Hin]. apply nth_In. lia. }
  split; [|split; [|split; auto]].
  - rewrite eraseKeyRecursive_spec.
    + rewrite bottom_skipn by lia. f_equal. f_equal.
      * f_equal. apply filter_ext. intros x.
        change (negb (not_equivalent cmp (first p) x) = equivalent cmp key (first x)).
        rewrite (not_equivalent_congr key p x He). unfold not_equivalent.
        apply negb_involutive.
      * apply map_ext. intros l. apply filter_ext. intros x.
        now apply not_equivalent_congr.
    + apply stacked_skipn. apply Hok.
    + rewrite Hskip. discriminate.
    + destruct Hok as [_ Hf]. rewrite Forall_forall in *. intros l Hl.
      apply Hf. eapply In_skipn_lists; eauto.
    + exact Hall.
  - symmetry. apply map_filter_id. intros u x Hu Hx.
    unfold not_equivalent. now rewrite (Hhigh u x Hu Hx).
Qed.

Lemma length_zero_nil (A : Type) (l : list A) : length l = 0 -> l = [].
Proof. destruct l; [reflexivity|discriminate]. Qed.

Lemma erase_spec (s : Skiplist) key :
  wf MULTIMAP cmp s ->
  let n := length (filter (fun x => equivalent cmp key (first x)) (bottom (m_head s))) in
  fst (erase cmp s key) = n /\
  wf MULTIMAP cmp (snd (erase cmp s key)) /\
  bottom (m_head (snd (erase cmp s key))) =
    filter (not_equivalent cmp key) (bottom (m_head s)) /\
  m_count (snd (erase cmp s key)) + n = m_count s /\
  m_rng (snd (erase cmp s key)) = m_rng s.
Proof.
  intros Hwf n. unfold erase.
  pose proof (find_in_container s key Hwf) as Hfind.
  pose proof (filter_length (fun x : Pair => equivalent cmp key (first x))
                (bottom (m_head s))) as Hlen.
  fold n in Hlen.
  destruct (findRecursive cmp (m_head s) (head_ptr s) key) as [[d p]|] eqn:E.
  - destruct (erase_lists s key d p Hwf E) as [Herase [Hfirst [He Hin]]].
    cbv zeta in Herase. fold n in Herase. rewrite Herase. clear Herase.
    pose proof (Sorted_ordered_le_key _ (wf_sorted Hwf)) as Hso.
    destruct (erased_ends_spec s p (bottom (m_head s)) Hso (wf_ptrs Hwf) Hin
                (wf_begin Hwf) (wf_tail Hwf))
      as [Hbg [Htl [Hhd [Hlc [Hcnt [Hmin [Hmax [Hbal Hrng]]]]]]]].
    rewrite (filter_ext _ _ (fun x => not_equivalent_congr key p x He)) in Hbg, Htl.
    set (se := erased_ends cmp s p (bottom (m_head s))) in *.
    rewrite Hhd, Hfirst, <- map_app, firstn_skipn.
    set (lists' := map (filter (not_equivalent cmp key)) (m_head s)).
    assert (Hbot : bottom lists' = filter (not_equivalent cmp key) (bottom (m_head s))).
    { apply bottom_map_filter. }
    assert (Hlen' : length (bottom lists') + n = m_count s).
    { rewrite Hbot, <- (wf_count Hwf), <- Hlen. unfold not_equivalent. lia. }
    set (s3 := set_balanced false
                 (if m_count (set_count (m_count (set_head lists' se) - n)
                                (set_head lists' se)) =? 0
                  then set_tail nullptr
                         (set_count (m_count (set_head lists' se) - n) (set_head lists' se))
                  else set_count (m_count (set_head lists' se) - n) (set_head lists' se))).
    assert (Hs3 : m_head s3 = lists' /\ m_levelCount s3 = m_levelCount s /\
                  m_count s3 = m_count s - n /\ m_countMin s3 = m_countMin s /\
                  m_countMax s3 = m_countMax s /\ m_balanced s3 = false /\
                  m_begin s3 = m_begin se /\ m_rng s3 = m_rng s /\
                  m_tail s3 = (if m_count s - n =? 0 then nullptr else m_tail se)).
    { unfold s3. simpl. rewrite Hcnt.
      destruct (m_count s - n =? 0); simpl; repeat split; auto. }
    destruct Hs3 as [H3hd [H3lc [H3cnt [H3min [H3max [H3bal [H3bg [H3rng H3tl]]]]]]]].
    assert (Hsh : shrinkable MULTIMAP cmp s3).
    { constructor.
      - rewrite H3hd, H3lc. unfold lists'. rewrite length_map. apply (wf_levels Hwf).
      - rewrite H3hd, H3cnt. lia.
      - rewrite H3min, H3lc. apply (wf_min Hwf).
      - rewrite H3max, H3lc. apply (wf_max Hwf).
      - rewrite H3max, H3cnt. pose proof (wf_range Hwf). lia.
      - rewrite H3hd, Hbot. apply NoDup_ptrs_filter. apply (wf_ptrs Hwf).
      - rewrite H3hd, Hbot. apply Sorted_ordered_filter. apply (wf_sorted Hwf).
      - rewrite H3hd. apply stacked_filter; [apply (wf_stacked Hwf)|apply (wf_ptrs Hwf)].
      - rewrite H3hd, H3bg, Hbot. exact Hbg.
      - rewrite H3hd, H3tl, Hbot. destruct (m_count s - n =? 0) eqn:E0.
        + apply Nat.eqb_eq in E0.
          rewrite (length_zero_nil _ (filter (not_equivalent cmp key) (bottom (m_head s)))).
          * reflexivity.
          * rewrite <- Hbot. lia.
        + apply Nat.eqb_neq in E0. apply Htl. intros Enil.
          rewrite <- Hbot in Enil. rewrite Enil in Hlen'. simpl in Hlen'. lia.
      - exact H3bal. }
    destruct (removeLevel_while_wf (S (m_levelCount s3)) s3 Hsh) as
      [Hwf' [Hb' [Hc' [_ Hr']]]]; [lia|].
    cbn [fst snd]. split; [reflexivity|]. split; [exact Hwf'|].
    split; [now rewrite Hb', H3hd|]. split; [rewrite Hc', H3cnt; lia|].
    now rewrite Hr'.
  - cbn [fst snd].
    assert (Hnone : filter (fun x : Pair => equivalent cmp key (first x))
                      (bottom (m_head s)) = []).
    { apply filter_none. rewrite Forall_forall. exact Hfind. }
    unfold n. rewrite Hnone. simpl.
    split; [reflexivity|]. split; [exact Hwf|]. split; [|split; [lia|reflexivity]].
    symmetry. apply filter_all. rewrite Forall_forall. intros x Hx.
    unfold not_equivalent. now rewrite (Hfind x Hx).
Qed.

Lemma length_le_one (l : list Pair) :
  (forall x y, In x l -> In y l -> x = y) -> NoDup (ptrs l) -> length l <= 1.
Proof.
  intros Heq Hnd. destruct l as [|a [|b l]]; simpl; auto.
  exfalso. assert (a = b) by (apply Heq; simpl; auto). subst.
  inversion Hnd as [|? ? Hn _]; subst. apply Hn. now left.
Qed.

(** C3: [erase(k)] returns the number of stored elements whose key is
    equivalent to [k] (0 when there is none), the size decreases by
    exactly the returned number, and for a map that number is 0 or 1; the
    elements left are the others, in their order. *)
Theorem erase_key_count (s : Skiplist) (key : KEY) :
  wf MULTIMAP cmp s ->
  let n := fst (erase cmp s key) in
  let s' := snd (erase cmp s key) in
  n = length (filter (fun x => equivalent cmp key (first x)) (bottom (m_head s))) /\
  size s' + n = size s /\
  (MULTIMAP = false -> n <= 1) /\
  bottom (m_head s') = filter (not_equivalent cmp key) (bottom (m_head s)) /\
  wf MULTIMAP cmp s'.
Proof.
  intros Hwf n s'. destruct (erase_spec s key Hwf) as [Hn [Hwf' [Hbot [Hcnt _]]]].
  fold n in Hn. fold s' in Hwf', Hbot, Hcnt. cbv zeta in Hn.
  split; [exact Hn|]. split; [unfold size; rewrite Hn; exact Hcnt|].
  split; [|split; assumption].
  intros Hmap. rewrite Hn. apply length_le_one.
  - intros x y Hx Hy. apply filter_In in Hx, Hy.
    apply (map_equivalent_unique (bottom (m_head s)) key); try tauto.
    apply (wf_sorted Hwf).
  - apply NoDup_ptrs_filter. apply (wf_ptrs Hwf).
Qed.

(** ** Deterministic balance *)

Lemma v2_even k : 0 < k -> v2 (2 * k) = S (v2 k).
Proof.
  intros Hk. unfold v2. rewrite Nat2Pos.inj_mul by lia. reflexivity.
Qed.

Lemma v2_odd k : v2 (2 * k + 1) = 0.
Proof.
  destruct k as [|k]; [reflexivity|].
  unfold v2. replace (2 * S k + 1) with (S (2 * S k)) by lia.
  rewrite Nat2Pos.inj_succ by lia. rewrite Nat2Pos.inj_mul by lia. reflexivity.
Qed.

Lemma parity_cases n :
  (n mod 2 = 0 /\ n = 2 * (n / 2)) \/ (n mod 2 = 1 /\ n = 2 * (n / 2) + 1).
Proof.
  pose proof (Nat.div_mod_eq n 2) as H.
  pose proof (Nat.mod_upper_bound n 2) as Hb.
  destruct (n mod 2) as [|[|r]] eqn:E; [left|right|]; lia.
Qed.

Lemma calcBalancedLevel_loop_spec fuel : forall n level,
  0 < n -> n <= fuel -> calcBalancedLevel_loop fuel n level = level + v2 n.
Proof.
  induction fuel as [|fuel IH]; intros n level Hn Hf; [lia|].
  cbn [calcBalancedLevel_loop].
  destruct (parity_cases n) as [[Hm Hd]|[Hm Hd]]; rewrite Hm; cbn [Nat.eqb].
  - rewrite IH by lia. rewrite Hd at 2. rewrite v2_even by lia. lia.
  - rewrite Hd. rewrite v2_odd. lia.
Qed.

Lemma calcBalancedLevel_v2 (s : Skiplist) i :
  0 < i -> calcBalancedLevel s i = 1 + v2 i.
Proof.
  intros Hi. unfold calcBalancedLevel.
  destruct (i =? 0) eqn:E; [apply Nat.eqb_eq in E; lia|].
  now apply calcBalancedLevel_loop_spec.
Qed.

Lemma pow_v2_le n : 0 < n -> 2 ^ v2 n <= n.
Proof.
  induction n as [n IH] using lt_wf_ind. intros Hn.
  destruct (parity_cases n) as [[Hm Hd]|[Hm Hd]].
  - rewrite Hd at 1. rewrite v2_even by lia.
    pose proof (IH (n / 2) ltac:(lia) ltac:(lia)) as H.
    cbn [Nat.pow]. lia.
  - rewrite Hd at 1. rewrite v2_odd. simpl. lia.
Qed.

Lemma pow2_mono a b : a <= b -> 2 ^ a <= 2 ^ b.
Proof. intros H. apply Nat.pow_le_mono_r; lia. Qed.

Lemma balanced_level_fits (s : Skiplist) i :
  0 < i -> i <= 2 ^ m_levelCount s - 1 -> calcBalancedLevel s i <= m_levelCount s.
Proof.
  intros Hi Hle. rewrite calcBalancedLevel_v2 by assumption.
  pose proof (pow_v2_le i Hi) as Hp.
  destruct (le_lt_dec (m_levelCount s) (v2 i)) as [Hge|Hlt]; [|lia].
  pose proof (pow2_mono _ _ Hge). pose proof (pow2_pos (m_levelCount s)). lia.
Qed.

Lemma append_column_seq (c : Pair) (T : nat -> list Pair) n : forall m a,
  append_column c m (map T (seq a n)) =
  map (fun j => if j <? a + m then T j ++ [c] else T j) (seq a n).
Proof.
  induction n as [|n IH]; intros m a.
  - destruct m; reflexivity.
  - destruct m as [|m].
    + cbn [append_column]. apply map_ext_in. intros j Hj. apply in_seq in Hj.
      destruct (j <? a + 0) eqn:E; [apply Nat.ltb_lt in E; lia|reflexivity].
    + cbn [seq map append_column]. rewrite IH. assert (E : (a <? a + S m) = true) by (apply Nat.ltb_lt; lia).
      rewrite E. f_equal. apply map_ext. intros j.
      now replace (S a + m) with (a + S m) by lia.
Qed.

Lemma balance_loop_seq (s : Skiplist) n : forall cur nc (T : nat -> list Pair),
  balance_loop s cur nc (map T (seq 0 n)) =
  map (fun j => T j ++ pick (fun i => j <? calcBalancedLevel s i - 1) cur nc)
    (seq 0 n).
Proof.
  induction cur as [|c cur IH]; intros nc T; cbn [balance_loop pick].
  - apply map_ext. intros j. now rewrite app_nil_r.
  - rewrite append_column_seq, IH. apply map_ext. intros j. cbn [Nat.add].
    destruct (j <? calcBalancedLevel s nc - 1); [|reflexivity].
    now rewrite <- app_assoc.
Qed.

Lemma map_const_seq (A B : Type) (b : B) (l : list A) :
  map (fun _ => b) l = map (fun _ => b) (seq 0 (length l)).
Proof.
  generalize 0. induction l as [|a l IH]; intros k; simpl; [reflexivity|].
  f_equal. apply IH.
Qed.

Lemma balance_unfold (s : Skiplist) :
  m_balanced s = false ->
  balance s = set_head (balanced_lists s) (set_balanced true s).
Proof.
  intros Hb. unfold balance, balanceWorker, balanced_lists. rewrite Hb.
  cbn [m_head set_balanced].
  destruct (rev (m_head s)) as [|lowest uppers] eqn:E.
  - destruct s. simpl in *. apply (proj1 (rev_nil_iff _ _)) in E. now subst.
  - rewrite (map_const_seq _ _ (@nil Pair) uppers), balance_loop_seq. reflexivity.
Qed.

Lemma pick_incl (g : nat -> bool) (cur : list Pair) : forall nc x,
  In x (pick g cur nc) -> In x cur.
Proof.
  induction cur as [|c cur IH]; intros nc x; simpl; auto.
  destruct (g nc); simpl; intros H; [destruct H|]; eauto.
Qed.

Lemma pick_true (cur : list Pair) : forall nc, pick (fun _ => true) cur nc = cur.
Proof. induction cur as [|c cur IH]; intros nc; simpl; [|rewrite IH]; reflexivity. Qed.

Lemma memb_pick_fresh (g : nat -> bool) (c : Pair) cur nc :
  ~ In (ptr c) (ptrs cur) -> memb c (pick g cur nc) = false.
Proof.
  intros Hn. apply memb_false_iff. intros Hin. apply Hn.
  apply in_map_iff in Hin. destruct Hin as [x [Hx Hin]].
  apply in_map_iff. exists x. split; [exact Hx|]. eapply pick_incl; eauto.
Qed.

Lemma memb_pick (g : nat -> bool) (cur : list Pair) : forall nc i p,
  NoDup (ptrs cur) -> nth_error cur i = Some p ->
  memb p (pick g cur nc) = g (nc + i).
Proof.
  induction cur as [|c cur IH]; intros nc i p Hnd Hi; [destruct i; discriminate|].
  inversion Hnd as [|? ? Hn Hnd']; subst.
  destruct i as [|i]; cbn [nth_error] in Hi.
  - injection Hi as <-. rewrite Nat.add_0_r. cbn [pick].
    destruct (g nc).
    + unfold memb. cbn [existsb]. now rewrite same_refl.
    + now apply memb_pick_fresh.
  - assert (Hs : same p c = false).
    { apply same_false_iff. intros E. apply Hn. rewrite <- E.
      apply in_map. eapply nth_error_In; eauto. }
    replace (nc + S i) with (S nc + i) by lia. rewrite <- (IH (S nc) i p Hnd' Hi).
    cbn [pick]. destruct (g nc); [|reflexivity].
    unfold memb. cbn [existsb]. now rewrite Hs.
Qed.

Lemma pick_stacked (g h : nat -> bool) (cur : list Pair) :
  (forall i, h i = true -> g i = true) -> NoDup (ptrs cur) -> forall nc,
  pick h cur nc = filter (fun p => memb p (pick h cur nc)) (pick g cur nc).
Proof.
  intros Hhg. induction cur as [|c cur IH]; intros Hnd nc; [reflexivity|].
  inversion Hnd as [|? ? Hn Hnd']; subst. cbn [pick].
  assert (Hskip : forall X, filter (fun p => memb p (c :: X)) (pick g cur (S nc)) =
                            filter (fun p => memb p X) (pick g cur (S nc))).
  { intros X. apply filter_ext_in. intros x Hx. unfold memb. cbn [existsb].
    replace (same x c) with false; [reflexivity|]. symmetry.
    apply (same_fresh x c cur); [eapply pick_incl; eauto|exact Hn]. }
  destruct (h nc) eqn:Eh.
  - rewrite (Hhg _ Eh). cbn [filter]. unfold memb at 1. cbn [existsb].
    rewrite same_refl. cbn [orb]. f_equal. rewrite Hskip. now apply IH.
  - destruct (g nc); [|now apply IH]. cbn [filter].
    rewrite (memb_pick_fresh h c cur (S nc) Hn). now apply IH.
Qed.

Lemma stacked_tails (F : nat -> list Pair) (cur : list Pair) n :
  F 0 = filter (fun p => memb p (F 0)) cur ->
  (forall j, F (S j) = filter (fun p => memb p (F (S j))) (F j)) ->
  stacked (rev (cur :: map F (seq 0 n))).
Proof.
  intros H0 HS. cbn [rev]. induction n as [|n IH]; [constructor|].
  rewrite seq_S, map_app, rev_app_distr. cbn [map rev app Nat.add].
  destruct n as [|n].
  - simpl. constructor; [exact H0|constructor].
  - rewrite seq_S, map_app, rev_app_distr in IH |- *.
    cbn [map rev app Nat.add] in IH |- *. constructor; [apply HS|exact IH].
Qed.

Lemma length_filter_map (A B : Type) (f : B -> bool) (g : A -> B) l :
  length (filter f (map g l)) = length (filter (fun a => f (g a)) l).
Proof. now rewrite filter_map_swap, length_map. Qed.

Lemma length_filter_below k n : forall a,
  length (filter (fun j => j <? a + k) (seq a n)) = Nat.min k n.
Proof.
  revert k. induction n as [|n IH]; intros k a; [now rewrite Nat.min_0_r|].
  cbn [seq filter]. destruct k as [|k].
  - replace (a <? a + 0) with false by (symmetry; apply Nat.ltb_ge; lia).
    rewrite (filter_ext_in _ (fun j => j <? S a + 0)); [now rewrite IH|].
    intros j Hj. apply in_seq in Hj.
    transitivity false; [|symmetry]; apply Nat.ltb_ge; lia.
  - assert (E : (a <? a + S k) = true) by (apply Nat.ltb_lt; lia). rewrite E.
    cbn [length Nat.min]. f_equal.
    rewrite (filter_ext _ (fun j => j <? S a + k)); [apply IH|].
    intros j. f_equal. lia.
Qed.

Lemma balanced_lists_spec (s : Skiplist) :
  wf MULTIMAP cmp s ->
  length (balanced_lists s) = m_levelCount s /\
  bottom (balanced_lists s) = bottom (m_head s) /\
  stacked (balanced_lists s) /\
  forall i p, nth_error (bottom (m_head s)) i = Some p ->
              column_height p (balanced_lists s) = 1 + v2 (S i).
Proof.
  intros Hwf. unfold balanced_lists.
  pose proof (wf_levels Hwf) as Hlev. pose proof (wf_ptrs Hwf) as Hnd.
  pose proof (wf_count Hwf) as Hcnt. pose proof (wf_range Hwf) as Hrange.
  rewrite (wf_max Hwf) in Hrange.
  assert (Hbot : bottom (m_head s) = hd [] (rev (m_head s))).
  { unfold bottom. destruct (m_head s) as [|a l] using rev_ind; [reflexivity|].
    now rewrite last_last, rev_app_distr. }
  rewrite <- length_rev in Hlev.
  destruct (rev (m_head s)) as [|lowest uppers]; cbn [hd] in Hbot.
  - split; [exact Hlev|]. split; [now rewrite Hbot|]. split; [constructor|].
    intros i p Hi. rewrite Hbot in Hi. destruct i; discriminate.
  - rewrite Hbot in *. clear Hbot. cbn [length] in Hlev.
    split; [|split; [|split]].
    + rewrite length_rev. cbn [length]. unfold balanced_tails.
      now rewrite length_map, length_seq.
    + cbn [rev]. apply bottom_app.
    + unfold balanced_tails. apply stacked_tails.
      * rewrite <- (pick_true lowest 1) at 2. apply pick_stacked; auto.
      * intros j. apply pick_stacked; auto. intros i Hi.
        apply Nat.ltb_lt in Hi. apply Nat.ltb_lt. lia.
    + intros i p Hi. unfold column_height.
      rewrite filter_rev, length_rev. cbn [filter].
      rewrite (memb_In p lowest (nth_error_In _ _ Hi)). cbn [length Nat.add]. f_equal.
      unfold balanced_tails. rewrite length_filter_map.
      rewrite (filter_ext _ (fun j => j <? 0 + (calcBalancedLevel s (S i) - 1))).
      * rewrite length_filter_below.
        assert (Hi' : i < length lowest) by (apply nth_error_Some; congruence).
        pose proof (balanced_level_fits s (S i) ltac:(lia) ltac:(lia)) as Hfit.
        rewrite calcBalancedLevel_v2 in * by lia. lia.
      * intros j. now rewrite (memb_pick _ lowest 1 i p Hnd Hi).
Qed.

Lemma wf_wf_structure (s : Skiplist) :
  wf MULTIMAP cmp s -> wf_structure MULTIMAP cmp s.
Proof.
  intros Hwf. unfold wf_structure. destruct s. destruct Hwf. simpl in *.
  constructor; simpl; auto. discriminate.
Qed.

Lemma wf_structure_unflagged (s : Skiplist) :
  wf_structure MULTIMAP cmp s -> m_balanced s = false -> wf MULTIMAP cmp s.
Proof.
  unfold wf_structure. intros Hs Hb. destruct s. simpl in Hb. subst. exact Hs.
Qed.


(** ** Bottom-up insertion: the column above the new node *)

Lemma stacked_snoc (lists : list (list Pair)) (u here : list Pair) :
  stacked (lists ++ [u; here]) <->
  stacked (lists ++ [u]) /\ u = filter (fun x => memb x u) here.
Proof.
  induction lists as [|a lists IH]; cbn [app].
  - split.
    + intros H. inversion H; subst. split; [constructor|assumption].
    + intros [_ H]. constructor; [exact H|constructor].
  - destruct lists as [|b lists]; cbn [app] in *.
    + split.
      * intros H. inversion H as [| |? ? ? Ha Hs]; subst.
        inversion Hs; subst. split; [constructor; [assumption|constructor]|assumption].
      * intros [H Hu]. inversion H; subst.
        constructor; [assumption|]. constructor; [assumption|constructor].
    + split.
      * intros H. inversion H as [| |? ? ? Ha Hs]; subst.
        apply IH in Hs. destruct Hs as [Hs Hu]. split; [constructor; assumption|assumption].
      * intros [H Hu]. inversion H as [| |? ? ? Ha Hs]; subst.
        constructor; [assumption|]. apply IH. split; assumption.
Qed.

Lemma tower_stacked (above : list (list Pair)) : forall here,
  stacked (rev (here :: above)) <-> tower here above.
Proof.
  induction above as [|u above IH]; intros here.
  - simpl. split; [trivial|constructor].
  - cbn [tower]. rewrite <- IH. cbn [rev]. rewrite <- app_assoc. cbn [app].
    rewrite stacked_snoc. tauto.
Qed.

Lemma climb_left_spec (u : list Pair) above' (B : list Pair) :
  climb_left (rev B) (u :: above') =
  Some (last_node dummy (filter (fun x => memb x u) B)).
Proof.
  induction B as [|q B IH] using rev_ind; [reflexivity|].
  rewrite rev_app_distr. cbn [rev app climb_left has_up].
  rewrite filter_app. cbn [filter].
  destruct (memb q u).
  - now rewrite last_node_app.
  - now rewrite app_nil_r.
Qed.

Lemma filter_stop_upper (stop : Pair -> bool) (u here : list Pair) :
  u = filter (fun x => memb x u) here ->
  filter (fun n => negb (stop n)) u =
  filter (fun x => memb x u) (filter (fun n => negb (stop n)) here).
Proof. intros Hu. rewrite Hu at 1. apply filter_comm. Qed.

Lemma upper_fresh (p : Pair) (u here : list Pair) :
  u = filter (fun x => memb x u) here ->
  ~ In (ptr p) (ptrs here) -> ~ In (ptr p) (ptrs u).
Proof.
  intros Hu Hp Hin. apply Hp. apply in_map_iff in Hin.
  destruct Hin as [x [Hx Hin]]. rewrite Hu in Hin. apply filter_In in Hin.
  rewrite <- Hx. apply in_map. tauto.
Qed.

Lemma climb_spliced (stop : Pair -> bool) (p : Pair) here u above' current :
  NoDup (ptrs here) -> mono stop here -> ~ In (ptr p) (ptrs here) ->
  u = filter (fun x => memb x u) here ->
  current = last_node dummy (filter (fun n => negb (stop n)) here) \/
  current = node p ->
  climb current (spliced stop p here) (u :: above') =
  Some (last_node dummy (filter (fun n => negb (stop n)) u)).
Proof.
  intros Hnd Hm Hp Hu Hcur.
  rewrite (filter_stop_upper stop u here Hu).
  pose proof (mono_split stop here Hm) as Hsplit.
  unfold spliced.
  remember (filter (fun n => negb (stop n)) here) as B eqn:EB.
  remember (filter stop here) as R eqn:ER. clear EB ER.
  assert (HpB : ~ In (ptr p) (ptrs B)).
  { intros Hin. apply Hp. rewrite Hsplit, map_app. apply in_or_app. now left. }
  destruct Hcur as [->| ->].
  - destruct B as [|b B'] using rev_ind; [reflexivity|].
    rewrite last_node_app. cbn [climb]. rewrite <- app_assoc. cbn [app].
    rewrite before_node_app.
    + rewrite <- (climb_left_spec u above' (B' ++ [b])).
      now rewrite rev_app_distr.
    + rewrite Hsplit, <- app_assoc in Hnd. cbn [app] in Hnd.
      eapply NoDup_map_app_notin; eauto.
  - cbn [climb]. rewrite before_node_app by assumption.
    cbn [climb_left has_up].
    replace (memb p u) with false; [apply climb_left_spec|].
    symmetry. apply memb_false_iff. eapply upper_fresh; eauto.
Qed.

Lemma insertAbove_spliced (stop : Pair -> bool) (p : Pair) n :
  forall here above current,
  NoDup (ptrs here) -> mono stop here -> ~ In (ptr p) (ptrs here) ->
  tower here above ->
  current = last_node dummy (filter (fun n => negb (stop n)) here) \/
  current = node p ->
  insertAbove n current p (spliced stop p here) above =
  map (spliced stop p) (firstn n above) ++ skipn n above.
Proof.
  induction n as [|n IH]; intros here above current Hnd Hm Hp Ht Hcur; [reflexivity|].
  assert (Hcases : current = dummy \/ exists q, current = node q).
  { destruct Hcur as [->| ->]; [|eauto].
    destruct (last_node_dummy_cases (filter (fun n => negb (stop n)) here))
      as [[_ ->]|[q [_ ->]]]; eauto. }
  destruct above as [|u above'].
  - destruct Hcases as [->|[q ->]]; cbn [insertAbove has_up andb same_ptr].
    + reflexivity.
    + rewrite andb_false_r. destruct (climb _ _ _); reflexivity.
  - destruct Ht as [Hu Ht].
    assert (Hpu : ~ In (ptr p) (ptrs u)) by (eapply upper_fresh; eauto).
    assert (Hup : has_up (node p) (u :: above') = false).
    { cbn [has_up]. now apply memb_false_iff. }
    assert (Hndu : NoDup (ptrs u)) by (rewrite Hu; now apply NoDup_ptrs_filter).
    assert (Hmu : mono stop u) by (rewrite Hu; now apply StronglySorted_filter).
    assert (Hstep : insertAbove (S n) current p (spliced stop p here) (u :: above') =
                    spliced stop p u ::
                    insertAbove n (last_node dummy (filter (fun n => negb (stop n)) u))
                      p (spliced stop p u) above').
    { destruct Hcases as [->|[q ->]]; cbn [insertAbove];
        rewrite Hup, andb_false_r;
        rewrite (climb_spliced stop p here u above' _ Hnd Hm Hp Hu Hcur);
        rewrite (insert_after_spliced stop p u Hndu Hmu); reflexivity. }
    rewrite Hstep. cbn [firstn skipn map app]. f_equal.
    apply IH; auto.
Qed.

(** ** Bottom-up insertion: the container *)

Lemma insertBottomUp_unfold (s : Skiplist) previous (p : Pair) :
  insertBottomUp s previous p =
  let s0 := set_balanced false (set_count (m_count s + 1) s) in
  let s1 := snd (chooseLevel s0) in
  let s2 := if m_countMax s1 <? m_count s1 then addLevel s1 else s1 in
  let level2 := if m_countMax s1 <? m_count s1
                then m_levelCount (addLevel s1) else fst (chooseLevel s0) in
  linkedBottomUp s2 level2 previous p.
Proof.
  unfold insertBottomUp, linkedBottomUp.
  destruct (chooseLevel (set_balanced false (set_count (m_count s + 1) s)))
    as [level s1]. cbn [fst snd].
  destruct (m_countMax s1 <? m_count s1); reflexivity.
Qed.

Lemma right_of_last (stop : Pair -> bool) l :
  NoDup (ptrs l) -> mono stop l ->
  right_of (last_node dummy (filter (fun n => negb (stop n)) l)) l = filter stop l.
Proof.
  intros Hnd Hm. pose proof (mono_split stop l Hm) as Hsplit.
  remember (filter (fun n => negb (stop n)) l) as B eqn:EB.
  remember (filter stop l) as R eqn:ER. clear EB ER. subst l.
  destruct B as [|b B'] using rev_ind; [reflexivity|].
  rewrite last_node_app. cbn [right_of]. rewrite <- app_assoc. cbn [app].
  apply right_of_node_app. rewrite <- app_assoc in Hnd.
  eapply NoDup_map_app_notin; eauto.
Qed.

Lemma begin_spliced_prev (stop : Pair -> bool) (p : Pair) l :
  mono stop l ->
  (if same_ptr (last_node dummy (filter (fun n => negb (stop n)) l)) dummy
   then Some p else hd_error l) = hd_error (spliced stop p l).
Proof.
  intros Hm. unfold spliced. pose proof (mono_split stop l Hm) as Hsplit.
  remember (filter (fun n => negb (stop n)) l) as B eqn:EB.
  remember (filter stop l) as R eqn:ER. clear EB ER. subst l.
  destruct B as [|b B']; [reflexivity|].
  destruct (last_node_dummy_cases (b :: B')) as [[E _]|[q [_ ->]]]; [discriminate|].
  reflexivity.
Qed.

Lemma rev_splice (A : Type) (f : A -> A) (here : A) (above : list A) level :
  1 <= level <= S (length above) ->
  rev (f here :: map f (firstn (level - 1) above) ++ skipn (level - 1) above) =
  firstn (S (length above) - level) (rev (here :: above)) ++
  map f (skipn (S (length above) - level) (rev (here :: above))).
Proof.
  intros Hl. rewrite firstn_rev, skipn_rev. cbn [length].
  replace (S (length above) - (S (length above) - level)) with (S (level - 1)) by lia.
  cbn [firstn skipn]. rewrite map_rev. cbn [map].
  change (f here :: map f (firstn (level - 1) above) ++ skipn (level - 1) above)
    with ((f here :: map f (firstn (level - 1) above)) ++ skipn (level - 1) above).
  now rewrite rev_app_distr.
Qed.

Lemma bottom_rev (lists : list (list Pair)) here above :
  rev lists = here :: above -> bottom lists = here /\ lists = rev (here :: above).
Proof.
  intros E. rewrite <- E, rev_involutive. split; [|reflexivity].
  rewrite <- (rev_involutive lists), E. cbn [rev]. apply bottom_app.
Qed.

Lemma linkedBottomUp_spec (s2 : Skiplist) (stop : Pair -> bool) (p : Pair) level n :
  ready MULTIMAP cmp s2 level n ->
  m_balanced s2 = false -> m_count s2 = n ->
  fresh p s2 ->
  mono stop (bottom (m_head s2)) ->
  (forall x, last_node dummy (filter (fun n => negb (stop n)) (bottom (m_head s2))) = node x ->
             ordered MULTIMAP cmp x p) ->
  HdRel (ordered MULTIMAP cmp) p (filter stop (bottom (m_head s2))) ->
  let previous := last_node dummy (filter (fun n => negb (stop n)) (bottom (m_head s2))) in
  exists s', linkedBottomUp s2 level previous p = (iterator_at s' (Some p), s') /\
             wf MULTIMAP cmp s' /\
             bottom (m_head s') = spliced stop p (bottom (m_head s2)) /\
             m_count s' = n /\ m_balanced s' = false /\ m_rng s' = m_rng s2.
Proof.
  intros Hr Hbal Hcnt Hp Hm Hleft Hright. cbv zeta.
  pose proof Hr as [Rlev Rlevel _ _ _ _ Rptrs _ Rstacked Rbegin Rtail].
  unfold linkedBottomUp, fresh in *.
  destruct (rev (m_head s2)) as [|here above] eqn:Erev.
  { apply (proj1 (rev_nil_iff _ _)) in Erev. rewrite Erev in Rlev. simpl in Rlev. lia. }
  destruct (bottom_rev _ _ _ Erev) as [Hbot Hlists].
  rewrite Hbot in *.
  set (previous := last_node dummy (filter (fun n => negb (stop n)) here)).
  assert (Hprev : match previous with nullptr => False | _ => True end).
  { unfold previous.
    destruct (last_node_dummy_cases (filter (fun n => negb (stop n)) here))
      as [[_ ->]|[q [_ ->]]]; exact I. }
  assert (Hlen : m_levelCount s2 = S (length above)).
  { rewrite <- Rlev, Hlists, length_rev. reflexivity. }
  assert (Htower : tower here above).
  { apply tower_stacked. now rewrite <- Hlists. }
  assert (Habove : (if 1 <? level
                    then insertAbove (level - 1) previous p
                           (insert_after previous p here) above
                    else above) =
                   map (spliced stop p) (firstn (level - 1) above) ++
                   skipn (level - 1) above).
  { unfold previous. rewrite (insert_after_spliced stop p here Rptrs Hm).
    destruct (1 <? level) eqn:E.
    - apply insertAbove_spliced; auto.
    - apply Nat.ltb_ge in E. replace (level - 1) with 0 by lia. reflexivity. }
  set (s' := set_head
               (rev (insert_after previous p here ::
                     (if 1 <? level
                      then insertAbove (level - 1) previous p
                             (insert_after previous p here) above
                      else above)))
               (if same_ptr previous dummy
                then set_begin (Some p)
                       match right_of previous here with
                       | [] => set_tail (node p) s2
                       | _ :: _ => s2
                       end
                else match right_of previous here with
                     | [] => set_tail (node p) s2
                     | _ :: _ => s2
                     end)).
  assert (Hfields : m_levelCount s' = m_levelCount s2 /\ m_count s' = m_count s2 /\
                    m_countMin s' = m_countMin s2 /\ m_countMax s' = m_countMax s2 /\
                    m_balanced s' = m_balanced s2 /\ m_rng s' = m_rng s2 /\
                    m_begin s' = (if same_ptr previous dummy then Some p else m_begin s2) /\
                    m_tail s' = match right_of previous here with
                                | [] => node p
                                | _ :: _ => m_tail s2
                                end).
  { unfold s'. destruct (same_ptr previous dummy), (right_of previous here);
      repeat split; reflexivity. }
  destruct Hfields as [Flc [Fc [Fmin [Fmax [Fbal [Frng [Fbg Ftl]]]]]]].
  assert (Hhead : m_head s' =
                  firstn (m_levelCount s2 - level) (m_head s2) ++
                  map (spliced stop p) (skipn (m_levelCount s2 - level) (m_head s2))).
  { unfold s'. cbn [m_head set_head]. rewrite Habove.
    unfold previous. rewrite (insert_after_spliced stop p here Rptrs Hm).
    rewrite Hlen, Hlists. apply rev_splice. lia. }
  destruct (spliced_wf s2 s' stop p level n Hr) as [Hwf' Hbot']; auto.
  - now rewrite Hbot.
  - unfold fresh. now rewrite Hbot.
  - now rewrite Hbot.
  - now rewrite Hbot.
  - congruence.
  - rewrite Hbot, Fbg, Rbegin. apply begin_spliced_prev. exact Hm.
  - rewrite Hbot, Ftl, Rtail. unfold previous.
    rewrite (right_of_last stop here Rptrs Hm).
    rewrite <- (tail_spliced stop p here Hm).
    destruct (filter stop here); reflexivity.
  - congruence.
  - exists s'. rewrite Hbot in Hbot'.
    split; [|split; [exact Hwf'|split; [exact Hbot'|split; [congruence|split; congruence]]]].
    destruct previous; [contradiction| |]; reflexivity.
Qed.

Lemma linkedBottomUp_first (s2 : Skiplist) level (p : Pair) :
  m_head s2 = [[]] ->
  linkedBottomUp s2 level nullptr p = linkedBottomUp s2 level dummy p.
Proof.
  intros H. unfold linkedBottomUp. rewrite H. cbn [rev app right_of insert_after same_ptr].
  assert (E : (if 1 <? level then insertAbove (level - 1) dummy p [p] [] else [])
              = @nil (list Pair)).
  { destruct (1 <? level); [|reflexivity]. destruct (level - 1); reflexivity. }
  rewrite E. destruct s2; reflexivity.
Qed.

Lemma insertBottomUp_spec (s : Skiplist) (stop : Pair -> bool) (p : Pair) previous :
  wf MULTIMAP cmp s -> fresh p s ->
  mono stop (bottom (m_head s)) ->
  (forall x, last_node dummy (filter (fun n => negb (stop n)) (bottom (m_head s))) = node x ->
             ordered MULTIMAP cmp x p) ->
  HdRel (ordered MULTIMAP cmp) p (filter stop (bottom (m_head s))) ->
  previous = last_node dummy (filter (fun n => negb (stop n)) (bottom (m_head s))) \/
  (bottom (m_head s) = [] /\ previous = nullptr) ->
  exists s', insertBottomUp s previous p = (iterator_at s' (Some p), s') /\
             wf MULTIMAP cmp s' /\
             bottom (m_head s') = spliced stop p (bottom (m_head s)) /\
             m_count s' = S (m_count s) /\ m_balanced s' = false.
Proof.
  intros Hwf Hp Hm Hleft Hright Hprev. rewrite insertBottomUp_unfold. cbv zeta.
  set (s0 := set_balanced false (set_count (m_count s + 1) s)).
  pose proof (chooseLevel_fields s0) as Hfl. cbv zeta in Hfl.
  pose proof (chooseLevel_range s0) as Hrg.
  set (s1 := snd (chooseLevel s0)) in *.
  destruct Hfl as [Hlc [Hcnt [Hhd [Hbg [Htl [Hmin [Hmax [Hbal _]]]]]]]].
  change (m_levelCount s0) with (m_levelCount s) in *.
  change (m_count s0) with (m_count s + 1) in *.
  change (m_head s0) with (m_head s) in *.
  change (m_begin s0) with (m_begin s) in *.
  change (m_tail s0) with (m_tail s) in *.
  change (m_countMin s0) with (m_countMin s) in *.
  change (m_countMax s0) with (m_countMax s) in *.
  change (m_balanced s0) with false in *.
  destruct Hwf as [Wlev Wcount Wmin Wmax Wrange Wptrs Wsorted Wstacked Wbegin Wtail Wbal].
  destruct (room_ready s1 (fst (chooseLevel s0)) (m_count s1)) as [Hready Hbot].
  { rewrite Hhd, Hlc. exact Wlev. }
  { right. rewrite Hlc. exact Hrg. }
  { rewrite Hhd, Hcnt, Wcount. lia. }
  { rewrite Hmin, Hlc. exact Wmin. }
  { rewrite Hmax, Hlc. exact Wmax. }
  { rewrite Hmin, Hmax, Hcnt. lia. }
  { rewrite Hhd. exact Wptrs. }
  { rewrite Hhd. exact Wsorted. }
  { rewrite Hhd. exact Wstacked. }
  { rewrite Hhd, Hbg. exact Wbegin. }
  { rewrite Hhd, Htl. exact Wtail. }
  rewrite Hhd in Hbot.
  assert (Hfirst : bottom (m_head s) = [] ->
                   m_head (if m_countMax s1 <? m_count s1 then addLevel s1 else s1) = [[]]).
  { intros Hnil. rewrite Hnil in Wcount. simpl in Wcount.
    assert (HL : m_levelCount s = 0).
    { destruct (m_levelCount s) as [|L]; [reflexivity|].
      cbn [Nat.eqb] in Wmin. pose proof (pow2_pos (S L - 1)). lia. }
    assert (Hnone : m_head s = []).
    { apply length_zero_nil. now rewrite Wlev. }
    replace (m_countMax s1 <? m_count s1) with true.
    - cbn [addLevel m_head set_head]. unfold updateMinMax. cbn [m_head set_countMax
        set_countMin set_levelCount]. now rewrite Hhd, Hnone.
    - symmetry. apply Nat.ltb_lt. rewrite Hmax, Wmax, HL, Hcnt. simpl. lia. }
  set (s2 := if m_countMax s1 <? m_count s1 then addLevel s1 else s1) in *.
  set (level2 := if m_countMax s1 <? m_count s1
                 then m_levelCount (addLevel s1) else fst (chooseLevel s0)) in *.
  assert (Hcnt2 : m_count s2 = m_count s1).
  { unfold s2. destruct (_ <? _); reflexivity. }
  assert (Hbal2 : m_balanced s2 = false).
  { unfold s2. destruct (_ <? _); [cbn [addLevel]; unfold updateMinMax|]; exact Hbal. }
  assert (Hlink : linkedBottomUp s2 level2 previous p =
                  linkedBottomUp s2 level2
                    (last_node dummy (filter (fun n => negb (stop n)) (bottom (m_head s2)))) p).
  { rewrite Hbot. destruct Hprev as [->|[Hnil ->]]; [reflexivity|].
    rewrite Hnil. cbn [filter last_node]. apply linkedBottomUp_first. now apply Hfirst. }
  rewrite Hlink.
  destruct (linkedBottomUp_spec s2 stop p level2 (m_count s1) Hready Hbal2 Hcnt2)
    as [s' [Hs' [Hwf' [Hbot' [Hc' [Hb' _]]]]]].
  - unfold fresh. now rewrite Hbot.
  - now rewrite Hbot.
  - now rewrite Hbot.
  - now rewrite Hbot.
  - exists s'. rewrite Hbot in Hbot'. rewrite Hcnt in Hc'.
    split; [exact Hs'|]. split; [exact Hwf'|]. split; [exact Hbot'|].
    split; [lia|exact Hb'].
Qed.

(** ** Hints *)

Lemma mono_all_true (f : Pair -> bool) l :
  Forall (fun x => f x = true) l -> mono f l.
Proof.
  induction 1 as [|a l Ha Hall IH]; constructor; auto.
  rewrite Forall_forall in *. intros x Hx _. now apply Hall.
Qed.

Lemma suffix_stop (B R : list Pair) :
  NoDup (ptrs (B ++ R)) ->
  mono (fun x => memb x R) (B ++ R) /\
  filter (fun x => negb (memb x R)) (B ++ R) = B /\
  filter (fun x => memb x R) (B ++ R) = R.
Proof.
  induction B as [|a B IH]; cbn [app]; intros Hnd.
  - assert (Hall : Forall (fun x => memb x R = true) R).
    { rewrite Forall_forall. intros x Hx. now apply memb_In. }
    split; [now apply mono_all_true|]. split; [|now apply filter_all].
    apply filter_none. rewrite Forall_forall in *. intros x Hx. now rewrite (Hall x Hx).
  - cbn [map] in Hnd. inversion Hnd as [|? ? Hn Hnd']; subst.
    destruct (IH Hnd') as [Hm [H1 H2]].
    assert (Ha : memb a R = false).
    { apply memb_false_iff. intros Hin. apply Hn. rewrite map_app.
      apply in_or_app. now right. }
    cbn [filter]. rewrite Ha. cbn [negb]. rewrite H1, H2.
    split; [|split; reflexivity].
    constructor; [exact Hm|]. rewrite Forall_forall. intros x _ E.
    rewrite Ha in E. discriminate.
Qed.

Lemma hint_split (s : Skiplist) (b : option Pair) :
  wf MULTIMAP cmp s ->
  (forall bn, b = Some bn -> In bn (bottom (m_head s))) ->
  let l := bottom (m_head s) in
  let stop := hint_stop b l in
  l = hint_before b l ++ hint_from b l /\
  mono stop l /\
  filter (fun n => negb (stop n)) l = hint_before b l /\
  filter stop l = hint_from b l /\
  (hint_prev s b = last_node dummy (hint_before b l) \/
   (l = [] /\ hint_prev s b = nullptr)).
Proof.
  intros Hwf Hb l stop.
  assert (Hsplit : l = hint_before b l ++ hint_from b l).
  { destruct b as [bn|]; cbn [hint_before hint_from].
    - apply split_at_node; [apply (wf_ptrs Hwf)|now apply Hb].
    - now rewrite app_nil_r. }
  pose proof (wf_ptrs Hwf) as Hnd. fold l in Hnd. rewrite Hsplit in Hnd.
  destruct (suffix_stop _ _ Hnd) as [Hm [H1 H2]]. rewrite <- Hsplit in Hm, H1, H2.
  split; [exact Hsplit|]. split; [exact Hm|]. split; [exact H1|]. split; [exact H2|].
  destruct b as [bn|]; cbn [hint_prev hint_before].
  - left. reflexivity.
  - rewrite (wf_tail Hwf). fold l. destruct l as [|x l']; [right; auto|left].
    reflexivity.
Qed.

Lemma split_unique (p : Pair) (l1 l2 l1' l2' : list Pair) :
  ~ In (ptr p) (ptrs l1) -> ~ In (ptr p) (ptrs l1') ->
  l1 ++ p :: l2 = l1' ++ p :: l2' -> l1 = l1' /\ l2 = l2'.
Proof.
  intros H1 H1' E. split.
  - rewrite <- (before_node_app l1 l2 p H1), E. now apply before_node_app.
  - rewrite <- (right_of_node_app l1 l2 p H1), E. now apply right_of_node_app.
Qed.

Lemma fresh_filter (p : Pair) (f : Pair -> bool) l :
  ~ In (ptr p) (ptrs l) -> ~ In (ptr p) (ptrs (filter f l)).
Proof.
  intros Hp Hin. apply Hp. apply in_map_iff in Hin. destruct Hin as [x [Hx Hin]].
  apply filter_In in Hin. rewrite <- Hx. apply in_map. tauto.
Qed.

Lemma hint_neighbours (s : Skiplist) (b : option Pair) an bn :
  wf MULTIMAP cmp s ->
  (forall bn, b = Some bn -> In bn (bottom (m_head s))) ->
  hint_prev s b = node an -> b = Some bn ->
  In an (hint_before b (bottom (m_head s))) /\ lek an bn.
Proof.
  intros Hwf Hb Ha Hbn.
  destruct (hint_split s b Hwf Hb) as [Hsplit [_ [_ [_ Hprev]]]].
  pose proof (Sorted_ordered_le_key _ (wf_sorted Hwf)) as Hso.
  assert (Hin : In an (hint_before b (bottom (m_head s)))).
  { destruct Hprev as [E|[_ E]]; [|congruence]. rewrite Ha in E.
    destruct (last_node_dummy_cases (hint_before b (bottom (m_head s))))
      as [[_ E']|[q [Hq E']]]; rewrite E' in E; [discriminate|].
    injection E as ->. exact Hq. }
  split; [exact Hin|]. rewrite Hsplit in Hso.
  apply StronglySorted_app_inv in Hso. destruct Hso as [_ [_ Hcross]].
  apply Hcross; [exact Hin|]. subst b. now left.
Qed.

(** C5: for a multimap, a hinted insert puts the new element directly
    between the hint [b] and its predecessor [a] exactly when the hint is
    good, that is [a] is absent or [!cmp(k, a.key)], and [b] is absent or
    [!cmp(b.key, k)]; with [b.key < k] the element goes to the lower bound
    of [k] (after the keys less than [k], before the others), and with
    [k < a.key] it goes to the upper bound (after the keys not greater
    than [k]).  In every case the result is an iterator to the new element
    and the size grows by one. *)
Theorem hinted_insert_multimap (s : Skiplist) (b : option Pair) (p : Pair) :
  MULTIMAP = true -> wf MULTIMAP cmp s -> fresh p s ->
  (forall bn, b = Some bn -> In bn (bottom (m_head s))) ->
  let l := bottom (m_head s) in
  let k := first p in
  let a := hint_prev s b in
  let r := insert_hint MULTIMAP cmp s (mkConstIterator b) p in
  wf MULTIMAP cmp (snd r) /\
  m_currentNode (fst r) = Some p /\
  size (snd r) = size s + 1 /\
  (good_hint cmp a b k = true <->
   bottom (m_head (snd r)) = hint_before b l ++ p :: hint_from b l) /\
  ((exists bn, b = Some bn /\ cmp (first bn) k = true) ->
   bottom (m_head (snd r)) =
   filter (fun x => cmp (first x) k) l ++ p :: filter (fun x => negb (cmp (first x) k)) l) /\
  ((exists an, a = node an /\ cmp k (first an) = true) ->
   bottom (m_head (snd r)) =
   filter (fun x => negb (cmp k (first x))) l ++ p :: filter (fun x => cmp k (first x)) l).
Proof.
  intros Hmulti Hwf Hp Hb l k a r.
  destruct (hint_split s b Hwf Hb) as [Hsplit [Hm [HB [HR Hprev]]]].
  fold l in Hsplit, Hm, HB, HR, Hprev. fold a in Hprev.
  assert (Hblk : forall compare key (l0 : list Pair),
                 blocked MULTIMAP compare key l0 = false).
  { intros. unfold blocked. now rewrite Hmulti. }
  assert (HpB : ~ In (ptr p) (ptrs (hint_before b l))).
  { rewrite <- HB. apply fresh_filter. exact Hp. }
  assert (Hr : r = insertWithHintMultimap MULTIMAP cmp s (mkConstIterator b) k p).
  { unfold r, insert_hint. now rewrite Hmulti. }
  assert (Hexcl : forall an bn, a = node an -> b = Some bn ->
                  cmp k (first an) = true -> cmp (first bn) k = true -> False).
  { intros an bn Ha Hbn H1 H2.
    destruct (hint_neighbours s b an bn Hwf Hb Ha Hbn) as [_ Hle].
    unfold le_key in Hle. rewrite (swo_trans cmp_swo _ _ _ H2 H1) in Hle. discriminate. }
  rewrite Hr. unfold insertWithHintMultimap. cbn [c_currentNode]. fold a.
  destruct (match b with None => false | Some bn => cmp (first bn) k end) eqn:T1.
  - (* b < x: lower bound *)
    destruct b as [bn|]; [|discriminate].
    pose proof (insertTopDown_spec s k (negated_compare cmp) p Hwf Hp eq_refl
                  (or_intror (conj Hmulti eq_refl))) as Hspec.
    cbv zeta in Hspec. rewrite Hblk in Hspec.
    destruct Hspec as [s' [Hins [Hwf' [Hbot' [Hcnt' _]]]]].
    rewrite Hins. cbn [fst snd to_node]. fold l in Hbot'.
    assert (Hlow : bottom (m_head s') =
                   filter (fun x => cmp (first x) k) l ++
                   p :: filter (fun x => negb (cmp (first x) k)) l).
    { rewrite Hbot'. unfold spliced, negated_compare. f_equal.
      apply filter_ext. intros x. apply negb_involutive. }
    split; [exact Hwf'|]. split; [apply iterator_at_node|].
    split; [unfold size; lia|]. split; [|split].
    + split.
      * intros Hg. unfold good_hint in Hg. rewrite T1 in Hg.
        rewrite andb_false_r in Hg. discriminate.
      * intros E. rewrite Hlow in E.
        apply split_unique in E; [|apply fresh_filter; exact Hp|exact HpB].
        destruct E as [_ E].
        assert (Hin : In bn (filter (fun x => negb (cmp (first x) k)) l)).
        { rewrite E. now left. }
        apply filter_In in Hin. rewrite T1 in Hin. destruct Hin; discriminate.
    + intros _. exact Hlow.
    + intros [an [Ha Hk]]. exfalso. exact (Hexcl an bn Ha eq_refl Hk T1).
  - destruct (match a with node an => cmp k (first an) | _ => false end) eqn:T2.
    + (* x < a: upper bound *)
      destruct a as [| |an] eqn:Ea; try discriminate.
      pose proof (insertTopDown_spec s k cmp p Hwf Hp eq_refl (or_introl eq_refl)) as Hspec.
      cbv zeta in Hspec. rewrite Hblk in Hspec.
      destruct Hspec as [s' [Hins [Hwf' [Hbot' [Hcnt' _]]]]].
      rewrite Hins. cbn [fst snd to_node]. fold l in Hbot'.
      split; [exact Hwf'|]. split; [apply iterator_at_node|].
      split; [unfold size; lia|]. split; [|split].
      * split.
        -- intros Hg. unfold good_hint in Hg. rewrite T2 in Hg. discriminate.
        -- intros E. rewrite Hbot' in E. unfold spliced in E.
           apply split_unique in E; [|apply fresh_filter; exact Hp|exact HpB].
           destruct E as [E _].
           assert (Hin : In an (filter (fun x => negb (cmp k (first x))) l)).
           { rewrite E. destruct Hprev as [E'|[_ E']]; [|discriminate].
             destruct (last_node_dummy_cases (hint_before b l))
               as [[_ E'']|[q [Hq E'']]]; rewrite E'' in E'; [discriminate|].
             injection E' as ->. exact Hq. }
           apply filter_In in Hin. rewrite T2 in Hin. destruct Hin; discriminate.
      * intros [bn [-> Hk]]. rewrite Hk in T1. discriminate.
      * intros _. exact Hbot'.
    + (* a <= x <= b: insert here *)
      destruct (insertBottomUp_spec s (hint_stop b l) p a Hwf Hp Hm)
        as [s' [Hins [Hwf' [Hbot' [Hcnt' _]]]]].
      * fold l. rewrite HB. intros x Hx.
        assert (Ea : a = node x).
        { destruct Hprev as [E|[Hnil E]]; [congruence|].
          rewrite Hsplit in Hnil. apply app_eq_nil in Hnil. destruct Hnil as [Hnil _].
          rewrite Hnil in Hx. discriminate. }
        rewrite Ea in T2. split; [exact T2|]. intros E. congruence.
      * fold l. rewrite HR. destruct b as [bn|]; cbn [hint_from]; constructor.
        split; [exact T1|]. intros E. congruence.
      * fold l. rewrite HB. exact Hprev.
      * rewrite Hins. cbn [fst snd]. fold l in Hbot'.
        unfold spliced in Hbot'. rewrite HB, HR in Hbot'.
        split; [exact Hwf'|]. split; [apply iterator_at_node|].
        split; [unfold size; lia|]. split; [|split].
        -- split; [intros _; exact Hbot'|]. intros _. unfold good_hint.
           destruct a, b; rewrite ?T1, ?T2; reflexivity.
        -- intros [bn [-> Hk]]. rewrite Hk in T1. discriminate.
        -- intros [an [Ea Hk]]. rewrite Ea in T2. rewrite Hk in T2. discriminate.
Qed.

(** ** Lists by column heights *)

Lemma memb_filter_base (F : Pair -> bool) (base : list Pair) x :
  NoDup (ptrs base) -> In x base -> memb x (filter F base) = F x.
Proof.
  intros Hnd Hx. destruct (F x) eqn:E.
  - apply memb_In. apply filter_In. auto.
  - apply memb_false_iff. intros Hin. apply in_map_iff in Hin.
    destruct Hin as [y [Hptr Hy]]. apply filter_In in Hy. destruct Hy as [Hy Fy].
    assert (y = x) by (eapply ptr_inj; eauto). subst. congruence.
Qed.

Lemma same_base (base : list Pair) x p :
  NoDup (ptrs base) -> In x base -> In p base -> same x p = true -> x = p.
Proof. intros Hnd Hx Hp Hs. apply same_true_iff in Hs. eapply ptr_inj; eauto. Qed.

Lemma filter_twice (f g : Pair -> bool) l :
  filter f (filter g l) = filter (fun x => g x && f x) l.
Proof.
  induction l as [|a l IH]; simpl; auto.
  destruct (g a) eqn:Eg; simpl; [destruct (f a)|]; now rewrite IH.
Qed.

Lemma filter_sub (G H : Pair -> bool) (base : list Pair) :
  NoDup (ptrs base) ->
  (forall x, In x base -> G x = true -> H x = true) ->
  filter G base = filter (fun x => memb x (filter G base)) (filter H base).
Proof.
  intros Hnd HGH. rewrite filter_twice. apply filter_ext_in. intros x Hx.
  rewrite (memb_filter_base G base x Hnd Hx).
  destruct (G x) eqn:E; [now rewrite (HGH x Hx E)|now rewrite andb_false_r].
Qed.

Lemma levels_S (hgt : Pair -> nat) (base : list Pair) c m :
  levels hgt base c (S m) =
  filter (fun x => c <? hgt x) base :: levels hgt base (S c) m.
Proof. reflexivity. Qed.

Lemma levels_ext (h1 h2 : Pair -> nat) (base : list Pair) c m :
  (forall j x, c <= j -> In x base -> (j <? h1 x) = (j <? h2 x)) ->
  levels h1 base c m = levels h2 base c m.
Proof.
  intros H. unfold levels. apply map_ext_in. intros j Hj. apply in_seq in Hj.
  apply filter_ext_in. intros x Hx. apply H; [lia|exact Hx].
Qed.

Lemma tower_levels_form (hgt : Pair -> nat) (base : list Pair) m :
  NoDup (ptrs base) -> forall c (H : Pair -> bool),
  (forall x, In x base -> (c <? hgt x) = true -> H x = true) ->
  tower (filter H base) (levels hgt base c m).
Proof.
  intros Hnd. induction m as [|m IH]; intros c H HcH; [exact I|].
  rewrite levels_S. cbn [tower]. split.
  - now apply filter_sub.
  - apply IH. intros x _ Hx. apply Nat.ltb_lt in Hx. apply Nat.ltb_lt. lia.
Qed.

Lemma tower_incl (above : list (list Pair)) : forall here l y,
  tower here above -> In l above -> In y l -> In y here.
Proof.
  induction above as [|u above IH]; intros here l y Ht Hl Hy; [destruct Hl|].
  destruct Ht as [Hu Ht]. destruct Hl as [<-|Hl].
  - rewrite Hu in Hy. apply filter_In in Hy. tauto.
  - assert (In y u) by (eapply IH; eauto).
    rewrite Hu in H. apply filter_In in H. tauto.
Qed.

Lemma column_height_cons (x : Pair) u (above : list (list Pair)) :
  column_height x (u :: above) =
  (if memb x u then 1 else 0) + column_height x above.
Proof. unfold column_height. cbn [filter]. destruct (memb x u); reflexivity. Qed.

Lemma column_height_outside (x : Pair) u (above : list (list Pair)) :
  tower u above -> memb x u = false -> column_height x above = 0.
Proof.
  intros Ht Hx. unfold column_height.
  destruct (filter (memb x) above) as [|l t] eqn:E; [reflexivity|exfalso].
  assert (Hl : In l (filter (memb x) above)) by (rewrite E; now left).
  apply filter_In in Hl. destruct Hl as [Hl Hm].
  apply memb_true_iff in Hm. destruct Hm as [y [Hy Hptr]].
  assert (Hyu : In y u) by (eapply tower_incl; eauto).
  assert (memb x u = true) by (apply memb_true_iff; eauto). congruence.
Qed.

Lemma tower_levels (above : list (list Pair)) : forall base,
  NoDup (ptrs base) -> tower base above ->
  above = levels (fun x => column_height x above) base 0 (length above).
Proof.
  induction above as [|u above IH]; intros base Hnd Ht; [reflexivity|].
  destruct Ht as [Hu Ht].
  assert (Hndu : NoDup (ptrs u)) by (rewrite Hu; now apply NoDup_ptrs_filter).
  assert (Hfu : forall g, filter g u = filter (fun x => memb x u && g x) base).
  { intros g. rewrite Hu at 1. apply filter_twice. }
  cbn [length]. rewrite levels_S. f_equal.
  - rewrite Hu at 1. apply filter_ext. intros x. rewrite column_height_cons.
    destruct (memb x u) eqn:E; [reflexivity|].
    now rewrite (column_height_outside x u above Ht E).
  - rewrite (IH u Hndu Ht) at 1. unfold levels.
    rewrite <- seq_shift, map_map. apply map_ext. intros j.
    rewrite Hfu. apply filter_ext. intros x. rewrite column_height_cons.
    destruct (memb x u) eqn:E; [reflexivity|].
    now rewrite (column_height_outside x u above Ht E).
Qed.

Lemma map_firstn_seq (A : Type) (f : nat -> A) (g : A -> A) m : forall c k,
  map g (firstn k (map f (seq c m))) ++ skipn k (map f (seq c m)) =
  map (fun j => if j <? c + k then g (f j) else f j) (seq c m).
Proof.
  induction m as [|m IH]; intros c k.
  - destruct k; reflexivity.
  - destruct k as [|k].
    + cbn [firstn skipn map app]. apply map_ext_in. intros j Hj. apply in_seq in Hj.
      destruct (j <? c + 0) eqn:E; [apply Nat.ltb_lt in E; lia|reflexivity].
    + cbn [seq map firstn skipn app]. rewrite IH.
      assert (E : (c <? c + S k) = true) by (apply Nat.ltb_lt; lia).
      rewrite E. f_equal. apply map_ext. intros j.
      now replace (S c + k) with (c + S k) by lia.
Qed.

Lemma filter_pick (F : Pair -> bool) (m : nat -> bool) (l : list Pair) : forall nc,
  (forall i x, nth_error l i = Some x -> F x = m (nc + i)) ->
  filter F l = pick m l nc.
Proof.
  induction l as [|a l IH]; intros nc H; [reflexivity|].
  cbn [filter pick]. rewrite (H 0 a eq_refl), Nat.add_0_r.
  rewrite (IH (S nc)); [reflexivity|].
  intros i x Hi. rewrite (H (S i) x Hi). f_equal. lia.
Qed.

Lemma before_node_nth (base : list Pair) : forall i x,
  NoDup (ptrs base) -> nth_error base i = Some x -> length (before_node x base) = i.
Proof.
  induction base as [|a base IH]; intros i x Hnd Hi; [destruct i; discriminate|].
  inversion Hnd as [|? ? Hn Hnd']; subst. cbn [before_node].
  destruct i as [|i]; cbn [nth_error] in Hi.
  - injection Hi as <-. now rewrite same_refl.
  - replace (same a x) with false.
    + cbn [length]. f_equal. now apply IH.
    + symmetry. apply same_false_iff. intros E. apply Hn. rewrite E.
      apply in_map. eapply nth_error_In; eauto.
Qed.

Lemma levels_balanced (s : Skiplist) (base : list Pair) n :
  NoDup (ptrs base) ->
  levels (balanced_height s base) base 0 n = balanced_tails s base n.
Proof.
  intros Hnd. unfold levels, balanced_tails. apply map_ext. intros j.
  apply filter_pick. intros i x Hi. unfold balanced_height.
  now rewrite (before_node_nth base i x Hnd Hi).
Qed.

(** ** One column of a balancing sweep *)

Lemma NoDup_app_disjoint (A : Type) (l1 l2 : list A) a :
  NoDup (l1 ++ l2) -> In a l1 -> ~ In a l2.
Proof.
  induction l1 as [|b l1 IH]; cbn [app]; intros Hnd Hin H2; [destruct Hin|].
  inversion Hnd as [|? ? Hn Hnd']; subst. destruct Hin as [->|Hin].
  - apply Hn. apply in_or_app. now right.
  - now apply IH.
Qed.

Lemma base_around (base : list Pair) p :
  NoDup (ptrs base) -> In p base ->
  let stop := fun x : Pair => memb x (right_of_node p base) in
  let B := before_node p base in
  let R := right_of_node p base in
  base = B ++ p :: R /\
  Forall (fun x => same x p = false /\ stop x = false) B /\
  Forall (fun x => same x p = false /\ stop x = true) R /\
  stop p = false.
Proof.
  intros Hnd Hp stop B R. pose proof (split_at_node base p Hnd Hp) as Hsplit.
  fold B R in Hsplit. rewrite Hsplit in Hnd.
  assert (HpR : ~ In (ptr p) (ptrs R)).
  { rewrite map_app in Hnd. apply NoDup_app_remove_l in Hnd.
    now inversion Hnd. }
  assert (HpB : ~ In (ptr p) (ptrs B)) by (eapply NoDup_map_app_notin; eauto).
  split; [exact Hsplit|]. split; [|split].
  - rewrite Forall_forall. intros x Hx. split.
    + eapply same_fresh; eauto.
    + apply memb_false_iff. rewrite map_app in Hnd. cbn [map] in Hnd.
      apply NoDup_remove_1 in Hnd.
      apply (NoDup_app_disjoint _ _ _ _ Hnd). now apply in_map.
  - rewrite Forall_forall. intros x Hx. split.
    + eapply same_fresh; eauto.
    + now apply memb_In.
  - now apply memb_false_iff.
Qed.

Lemma filter_agree (f g : Pair -> bool) (P : Pair -> Prop) l :
  Forall P l -> (forall x, P x -> f x = g x) -> filter f l = filter g l.
Proof.
  intros Hall H. apply filter_ext_in. intros x Hx. apply H.
  rewrite Forall_forall in Hall. now apply Hall.
Qed.

Lemma Forall_filter_keep (P : Pair -> Prop) (f : Pair -> bool) l :
  Forall P l -> Forall P (filter f l).
Proof.
  rewrite !Forall_forall. intros H x Hx. apply filter_In in Hx. apply H. tauto.
Qed.

Lemma spliced_filter_base (G : Pair -> bool) (base : list Pair) p :
  NoDup (ptrs base) -> In p base -> G p = false ->
  spliced (fun x => memb x (right_of_node p base)) p (filter G base) =
  filter (fun x => same x p || G x) base.
Proof.
  intros Hnd Hp HG.
  destruct (base_around base p Hnd Hp) as [Hsplit [HB [HR Hstop]]].
  cbv zeta in *.
  remember (before_node p base) as B eqn:EB in *.
  remember (right_of_node p base) as R eqn:ER in *.
  clear EB ER. set (stop := fun x : Pair => memb x R) in *.
  rewrite Hsplit. rewrite !filter_app. cbn [filter].
  rewrite HG, same_refl. cbn [orb].
  unfold spliced. rewrite !filter_app.
  rewrite (filter_none (fun n => negb (stop n)) (filter G R)).
  2:{ apply Forall_filter_keep with (f := G) in HR. revert HR. apply Forall_impl.
      intros x [_ Hx]. unfold stop. now rewrite Hx. }
  rewrite (filter_all (fun n => negb (stop n)) (filter G B)).
  2:{ apply Forall_filter_keep with (f := G) in HB. revert HB. apply Forall_impl.
      intros x [_ Hx]. unfold stop. now rewrite Hx. }
  rewrite (filter_none stop (filter G B)).
  2:{ apply Forall_filter_keep with (f := G) in HB. revert HB. apply Forall_impl.
      intros x [_ Hx]. exact Hx. }
  rewrite (filter_all stop (filter G R)).
  2:{ apply Forall_filter_keep with (f := G) in HR. revert HR. apply Forall_impl.
      intros x [_ Hx]. exact Hx. }
  rewrite app_nil_r. cbn [app].
  rewrite (filter_agree (fun x => same x p || G x) G _ B HB).
  2:{ intros x [Hx _]. now rewrite Hx. }
  rewrite (filter_agree (fun x => same x p || G x) G _ R HR).
  2:{ intros x [Hx _]. now rewrite Hx. }
  reflexivity.
Qed.

Lemma mono_base_around (base : list Pair) p :
  NoDup (ptrs base) -> In p base ->
  mono (fun x => memb x (right_of_node p base)) base.
Proof.
  intros Hnd Hp. pose proof (split_at_node base p Hnd Hp) as Hsplit.
  remember (right_of_node p base) as R eqn:ER. clear ER.
  rewrite Hsplit in Hnd |- *.
  replace (before_node p base ++ p :: R) with ((before_node p base ++ [p]) ++ R)
    in * by (now rewrite <- app_assoc).
  apply (suffix_stop _ _ Hnd).
Qed.

Lemma eraseAbove_levels (hgt : Pair -> nat) (base : list Pair) p c0 m :
  NoDup (ptrs base) -> In p base -> forall c, c0 <= c ->
  eraseAbove p (levels hgt base c m) =
  levels (fun x => if same x p then c0 else hgt x) base c m.
Proof.
  intros Hnd Hp. induction m as [|m IH]; intros c Hc; [reflexivity|].
  rewrite levels_S. cbn [eraseAbove].
  rewrite (memb_filter_base _ base p Hnd Hp).
  destruct (c <? hgt p) eqn:E.
  - rewrite IH by lia. rewrite levels_S. f_equal.
    unfold unlink. rewrite filter_twice. apply filter_ext_in. intros x Hx.
    destruct (same x p) eqn:Es; cbn [negb].
    + rewrite andb_false_r. symmetry. apply Nat.ltb_ge. lia.
    + now rewrite andb_true_r.
  - rewrite <- levels_S. apply levels_ext. intros j x Hj Hx.
    destruct (same x p) eqn:Es; [|reflexivity].
    rewrite (same_base base x p Hnd Hx Hp Es).
    apply Nat.ltb_ge in E.
    transitivity false; [|symmetry]; apply Nat.ltb_ge; lia.
Qed.

Lemma insertAbove_nil n current (p : Pair) here :
  insertAbove n current p here [] = [].
Proof.
  destruct n as [|n]; [reflexivity|].
  destruct current; cbn [insertAbove]; try reflexivity;
    destruct (_ && _); try reflexivity; destruct (climb _ here []); reflexivity.
Qed.

Lemma insertAbove_levels (hgt : Pair -> nat) (base : list Pair) p n m c :
  NoDup (ptrs base) -> In p base -> hgt p = c ->
  insertAbove n (node p) p (filter (fun x => c <=? hgt x) base)
    (levels hgt base c m) =
  levels (fun x => if same x p then c + n else hgt x) base c m.
Proof.
  intros Hnd Hp Hh.
  set (stop := fun x : Pair => memb x (right_of_node p base)).
  set (H := fun x : Pair => (c <=? hgt x) && negb (same x p)).
  assert (Hhere : filter (fun x => c <=? hgt x) base = spliced stop p (filter H base)).
  { unfold stop. rewrite spliced_filter_base; auto.
    - apply filter_ext_in. intros x Hx. unfold H.
      destruct (same x p) eqn:Es; cbn [negb orb].
      + rewrite (same_base base x p Hnd Hx Hp Es), Hh. apply Nat.leb_refl.
      + now rewrite andb_true_r.
    - unfold H. now rewrite same_refl, andb_false_r. }
  rewrite Hhere.
  rewrite (insertAbove_spliced stop p n (filter H base) (levels hgt base c m) (node p)).
  - unfold levels at 1 2. rewrite map_firstn_seq. unfold levels.
    apply map_ext_in. intros j Hj. apply in_seq in Hj.
    destruct (j <? c + n) eqn:E.
    + unfold stop. rewrite spliced_filter_base; auto.
      * apply filter_ext_in. intros x Hx.
        destruct (same x p) eqn:Es; cbn [orb]; [now rewrite E|reflexivity].
      * rewrite Hh. apply Nat.ltb_ge. lia.
    + apply filter_ext_in. intros x Hx.
      destruct (same x p) eqn:Es; [|reflexivity].
      rewrite (same_base base x p Hnd Hx Hp Es), Hh, E.
      apply Nat.ltb_ge. lia.
  - now apply NoDup_ptrs_filter.
  - apply StronglySorted_filter. now apply mono_base_around.
  - intros Hin. apply in_map_iff in Hin. destruct Hin as [x [Hptr Hx]].
    apply filter_In in Hx. destruct Hx as [_ Hx]. unfold H in Hx.
    apply andb_prop in Hx. destruct Hx as [_ Hx].
    assert (same x p = true) by (now apply same_true_iff).
    rewrite H0 in Hx. discriminate.
  - apply tower_levels_form; [exact Hnd|]. intros x Hx Hlt. unfold H.
    apply Nat.ltb_lt in Hlt.
    replace (c <=? hgt x) with true by (symmetry; apply Nat.leb_le; lia).
    destruct (same x p) eqn:Es; [|reflexivity].
    rewrite (same_base base x p Hnd Hx Hp Es) in Hlt. lia.
  - now right.
Qed.

Lemma balance_column_levels (hgt : Pair -> nat) (base : list Pair) p d m :
  NoDup (ptrs base) -> In p base -> forall c, c <= hgt p -> c < d ->
  balance_column p (S c) d (filter (fun x => c <=? hgt x) base)
    (levels hgt base c m) =
  levels (fun x => if same x p then d - 1 else hgt x) base c m.
Proof.
  intros Hnd Hp. induction m as [|m IH]; intros c Hc Hd.
  - cbn [levels seq map balance_column].
    destruct (S c <? d); [apply insertAbove_nil|reflexivity].
  - rewrite levels_S. cbn [balance_column].
    rewrite (memb_filter_base _ base p Hnd Hp).
    destruct (c <? hgt p) eqn:E.
    + apply Nat.ltb_lt in E. destruct (S c =? d) eqn:Ed.
      * apply Nat.eqb_eq in Ed. rewrite <- levels_S.
        rewrite (eraseAbove_levels hgt base p c (S m) Hnd Hp c (le_n c)).
        now replace (d - 1) with c by lia.
      * apply Nat.eqb_neq in Ed.
        change (filter (fun x => c <? hgt x) base)
          with (filter (fun x => S c <=? hgt x) base) at 2.
        rewrite IH by lia. rewrite levels_S. f_equal.
        apply filter_ext_in. intros x Hx. destruct (same x p) eqn:Es; [|reflexivity].
        rewrite (same_base base x p Hnd Hx Hp Es).
        transitivity true; [|symmetry]; apply Nat.ltb_lt; lia.
    + apply Nat.ltb_ge in E. assert (Hh : hgt p = c) by lia.
      rewrite <- levels_S. destruct (S c <? d) eqn:Ed.
      * apply Nat.ltb_lt in Ed.
        rewrite (insertAbove_levels hgt base p (d - S c) (S m) c Hnd Hp Hh).
        now replace (c + (d - S c)) with (d - 1) by lia.
      * apply Nat.ltb_ge in Ed. apply levels_ext. intros j x Hj Hx.
        destruct (same x p) eqn:Es; [|reflexivity].
        rewrite (same_base base x p Hnd Hx Hp Es).
        transitivity false; [|symmetry]; apply Nat.ltb_ge; lia.
Qed.

(** ** Invariant preservation: plain insert *)

Lemma wf_same_fields (s s' : Skiplist) :
  m_levelCount s' = m_levelCount s -> m_count s' = m_count s ->
  m_head s' = m_head s -> m_begin s' = m_begin s -> m_tail s' = m_tail s ->
  m_countMin s' = m_countMin s -> m_countMax s' = m_countMax s ->
  m_balanced s' = m_balanced s ->
  wf MULTIMAP cmp s -> wf MULTIMAP cmp s'.
Proof.
  intros Hlc Hc Hhd Hbg Htl Hmin Hmax Hbal Hwf.
  constructor; rewrite ?Hhd, ?Hlc, ?Hc, ?Hbg, ?Htl, ?Hmin, ?Hmax; try apply Hwf.
  rewrite Hbal. intros Hb i p Hi. rewrite Hhd in Hi |- *.
  pose proof (wf_balanced Hwf Hb) as Hshape.
  rewrite (Hshape i p Hi). unfold calcBalancedLevel. now rewrite Hlc.
Qed.

Lemma chooseLevel_wf (s : Skiplist) :
  wf MULTIMAP cmp s -> wf MULTIMAP cmp (snd (chooseLevel s)).
Proof.
  intros Hwf. pose proof (chooseLevel_fields s) as Hfl. cbv zeta in Hfl.
  destruct Hfl as [Hlc [Hcnt [Hhd [Hbg [Htl [Hmin [Hmax [Hbal _]]]]]]]].
  now apply (wf_same_fields s).
Qed.

Lemma insertTopDown_wf (s : Skiplist) key compare (p : Pair) :
  wf MULTIMAP cmp s -> fresh p s -> first p = key ->
  insert_compare MULTIMAP cmp compare ->
  wf MULTIMAP cmp (snd (insertTopDown MULTIMAP s key compare p)).
Proof.
  intros Hwf Hp Hkey Hc.
  pose proof (insertTopDown_spec s key compare p Hwf Hp Hkey Hc) as Hspec.
  cbv zeta in Hspec.
  destruct (blocked MULTIMAP compare key (bottom (m_head s))).
  - rewrite Hspec. cbn [snd]. now apply chooseLevel_wf.
  - destruct Hspec as [s' [E [Hwf' _]]]. rewrite E. exact Hwf'.
Qed.

Lemma insert_snd (s : Skiplist) (p : Pair) :
  snd (insert MULTIMAP cmp s p) = snd (insertTopDown MULTIMAP s (first p) cmp p).
Proof.
  unfold insert. destruct (insertTopDown MULTIMAP s (first p) cmp p) as [[n b] s'].
  reflexivity.
Qed.

(** ** A failed insertion *)

Lemma chooseLevel_rng (s : Skiplist) :
  m_rng (snd (chooseLevel s)) = snd (rng_draw (m_rng s)).
Proof.
  unfold chooseLevel. destruct (rng_draw (m_rng s)) as [r g].
  destruct r as [|t]; simpl; [reflexivity|].
  destruct (m_levelCount s <? t + 1); reflexivity.
Qed.

Lemma insertTopDown_failed_flag (s : Skiplist) key compare (p : Pair) :
  snd (fst (insertTopDown MULTIMAP s key compare p)) = false ->
  m_balanced (snd (insertTopDown MULTIMAP s key compare p)) = m_balanced s.
Proof.
  rewrite insertTopDown_unfold. cbv zeta.
  pose proof (chooseLevel_fields s) as Hc. cbv zeta in Hc.
  destruct Hc as [_ [_ [_ [_ [_ [_ [_ [Hb _]]]]]]]].
  set (s1 := snd (chooseLevel s)) in *.
  destruct (insertTopDownRecursive _ _ _ _ _ _ _ _) as [out|blocking];
    cbn [fst snd]; [discriminate|].
  intros _.
  destruct (m_countMax s1 <? m_count s1 + 1);
    destruct (_ <? _); rewrite <- Hb; reflexivity.
Qed.

(** C8, as the code has it: a top-down insert that fails leaves the
    [is_balanced] flag as it was before the call.  On a container that
    has its invariants the insert fails only in a map that holds an
    equivalent key; a level added for the attempt is below its minimum
    count and is removed again, and the container is the one before the
    call but for its pseudo-random source, which has drawn once. *)
Theorem failed_insert_keeps_flag (s : Skiplist) (keyValPair : Pair) :
  snd (fst (insert MULTIMAP cmp s keyValPair)) = false ->
  let s' := snd (insert MULTIMAP cmp s keyValPair) in
  let s1 := snd (chooseLevel s) in
  is_balanced s' = is_balanced s /\
  (wf MULTIMAP cmp s -> fresh keyValPair s ->
   MULTIMAP = false /\
   (exists x, In x (bottom (m_head s)) /\
              equivalent cmp (first keyValPair) (first x) = true) /\
   (m_countMax s < size s + 1 ->
    size (addLevel s1) < m_countMin (addLevel s1) /\
    s' = removeLevel (addLevel s1)) /\
   s' = set_rng (snd (rng_draw (m_rng s))) s).
Proof.
  intros Hfail s' s1.
  assert (Hfail' : snd (fst (insertTopDown MULTIMAP s (first keyValPair) cmp keyValPair))
                   = false).
  { revert Hfail. unfold insert.
    destruct (insertTopDown MULTIMAP s (first keyValPair) cmp keyValPair) as [[n b] s2].
    exact (fun H => H). }
  split.
  { unfold s', is_balanced. rewrite insert_snd.
    exact (insertTopDown_failed_flag s (first keyValPair) cmp keyValPair Hfail'). }
  intros Hwf Hp.
  pose proof (insertTopDown_spec s (first keyValPair) cmp keyValPair Hwf Hp eq_refl
                (or_introl eq_refl)) as Hspec.
  cbv zeta in Hspec.
  destruct (blocked MULTIMAP cmp (first keyValPair) (bottom (m_head s))) eqn:Hbl.
  - assert (Hs' : s' = s1).
    { unfold s'. rewrite insert_snd, Hspec. reflexivity. }
    pose proof (chooseLevel_fields s) as Hfl. cbv zeta in Hfl. fold s1 in Hfl.
    destruct Hfl as [Hlc [Hcnt [_ [_ [_ [Hmin [Hmax _]]]]]]].
    assert (Hrm : removeLevel (addLevel s1) = s1).
    { apply removeLevel_addLevel.
      - rewrite Hmin, Hlc. exact (wf_min Hwf).
      - rewrite Hmax, Hlc. exact (wf_max Hwf). }
    split.
    { unfold blocked in Hbl. apply andb_true_iff in Hbl. destruct Hbl as [Hm _].
      now apply negb_true_iff in Hm. }
    split.
    { destruct (blocked_true (first keyValPair) (bottom (m_head s)) Hbl)
        as [q [_ [Hin He]]].
      exists q. split; assumption. }
    split.
    { intros Hfull. split; [|now rewrite Hrm].
      unfold size in *. unfold addLevel, updateMinMax. simpl.
      rewrite Hcnt, Hlc.
      pose proof (wf_range Hwf) as [_ Hle]. rewrite (wf_max Hwf) in Hle, Hfull.
      rewrite Nat.sub_0_r.
      assert (Hpw : 0 < 2 ^ m_levelCount s).
      { apply Nat.neq_0_lt_0. apply Nat.pow_nonzero. discriminate. }
      lia. }
    rewrite Hs'. unfold s1. rewrite (chooseLevel_eq s) at 1.
    now rewrite chooseLevel_rng.
  - destruct Hspec as [s2 [Hins _]]. rewrite Hins in Hfail'. discriminate.
Qed.

Lemma insert_wf (s : Skiplist) (p : Pair) :
  wf MULTIMAP cmp s -> fresh p s -> wf MULTIMAP cmp (snd (insert MULTIMAP cmp s p)).
Proof.
  intros Hwf Hp. rewrite insert_snd.
  apply insertTopDown_wf; auto. now left.
Qed.

(** ** Erase at a position *)

Lemma unlink_split (B R : list Pair) p :
  NoDup (ptrs (B ++ p :: R)) -> unlink p (B ++ p :: R) = B ++ R.
Proof.
  intros Hnd.
  assert (HpB : ~ In (ptr p) (ptrs B)) by (eapply NoDup_map_app_notin; eauto).
  assert (HpR : ~ In (ptr p) (ptrs R)).
  { rewrite map_app in Hnd. apply NoDup_app_remove_l in Hnd. now inversion Hnd. }
  unfold unlink. rewrite filter_app. cbn [filter]. rewrite same_refl. cbn [negb].
  f_equal; apply filter_all; rewrite Forall_forall; intros x Hx.
  - now rewrite (same_fresh x p B Hx HpB).
  - now rewrite (same_fresh x p R Hx HpR).
Qed.

Lemma unlink_absent (p : Pair) l : memb p l = false -> unlink p l = l.
Proof.
  intros Hm. apply filter_all. rewrite Forall_forall. intros x Hx.
  apply memb_false_iff in Hm. now rewrite (same_fresh x p l Hx Hm).
Qed.

Lemma eraseAbove_tower (p : Pair) (above : list (list Pair)) : forall here,
  tower here above -> eraseAbove p above = map (unlink p) above.
Proof.
  induction above as [|u above IH]; intros here Ht; [reflexivity|].
  destruct Ht as [Hu Ht]. cbn [eraseAbove map].
  destruct (memb p u) eqn:E.
  - f_equal. now apply (IH u).
  - rewrite (unlink_absent p u E). f_equal.
    rewrite <- (map_id above) at 1. apply map_ext_in. intros l Hl.
    symmetry. apply unlink_absent.
    destruct (memb p l) eqn:El; [|reflexivity].
    apply memb_true_iff in El. destruct El as [y [Hy Hptr]].
    assert (In y u) by (eapply tower_incl; eauto).
    assert (memb p u = true) by (apply memb_true_iff; eauto). congruence.
Qed.

Lemma erase_pos_unfold (s : Skiplist) (p : Pair) here above :
  rev (m_head s) = here :: above ->
  snd (erase_pos s (mkConstIterator (Some p))) =
  let next := hd_error (right_of_node p here) in
  let s6 :=
    mkSkiplist (m_levelCount s) (m_count s - 1)
      (rev (unlink p here :: eraseAbove p above))
      (if same_opt (Some p) (m_begin s) then next else m_begin s)
      (if m_count s - 1 =? 0 then nullptr
       else match next with
            | Some _ => m_tail s
            | None => Prev_of p here
            end)
      (m_countMin s) (m_countMax s) false (m_rng s) (m_distribution s) in
  if m_count s6 <? m_countMin s6 then removeLevel s6 else s6.
Proof.
  intros E. unfold erase_pos. cbn [c_currentNode]. rewrite E. cbv zeta.
  destruct (hd_error (right_of_node p here)) as [q|];
    cbn [snd m_begin m_count m_tail m_head m_levelCount m_countMin m_countMax
         m_balanced m_rng m_distribution set_tail set_begin];
    destruct (same_opt (Some p) (m_begin s));
    cbn [snd m_begin m_count m_tail m_head m_levelCount m_countMin m_countMax
         m_balanced m_rng m_distribution set_tail set_begin set_head set_count];
    destruct (m_count s - 1 =? 0); reflexivity.
Qed.

Lemma erase_pos_spec (s : Skiplist) (p : Pair) :
  wf MULTIMAP cmp s -> In p (bottom (m_head s)) ->
  let r := erase_pos s (mkConstIterator (Some p)) in
  wf MULTIMAP cmp (snd r) /\
  bottom (m_head (snd r)) = unlink p (bottom (m_head s)) /\
  bottom (m_head s) =
    before_node p (bottom (m_head s)) ++ p :: right_of_node p (bottom (m_head s)) /\
  unlink p (bottom (m_head s)) =
    before_node p (bottom (m_head s)) ++ right_of_node p (bottom (m_head s)) /\
  m_count (snd r) + 1 = m_count s /\
  fst r = iterator_at s (hd_error (right_of_node p (bottom (m_head s)))).
Proof.
  intros Hwf Hin r.
  destruct Hwf as [Wlev Wcount Wmin Wmax Wrange Wptrs Wsorted Wstacked Wbegin Wtail Wbal].
  destruct (rev (m_head s)) as [|here above] eqn:Erev.
  { apply (proj1 (rev_nil_iff _ _)) in Erev. rewrite Erev in Hin. destruct Hin. }
  destruct (bottom_rev _ _ _ Erev) as [Hbot Hlists].
  assert (Hfst : fst r = iterator_at s (hd_error (right_of_node p (bottom (m_head s))))).
  { unfold r, erase_pos. cbn [c_currentNode]. rewrite Erev, Hbot. reflexivity. }
  assert (Hsnd : snd r = snd (erase_pos s (mkConstIterator (Some p)))) by reflexivity.
  rewrite (erase_pos_unfold s p here above Erev) in Hsnd. cbv zeta in Hsnd.
  rewrite Hbot in *.
  pose proof (split_at_node here p Wptrs Hin) as Hsplit.
  remember (before_node p here) as B eqn:EB.
  remember (right_of_node p here) as R eqn:ER.
  assert (Hunl : unlink p here = B ++ R).
  { rewrite Hsplit. apply unlink_split. now rewrite <- Hsplit. }
  assert (Htower : tower here above).
  { apply tower_stacked. now rewrite <- Hlists. }
  rewrite (eraseAbove_tower p above here Htower) in Hsnd.
  assert (Hhead : rev (unlink p here :: map (unlink p) above) =
                  map (filter (fun x => negb (same x p))) (m_head s)).
  { rewrite Hlists, map_rev. reflexivity. }
  rewrite Hhead in Hsnd.
  assert (Hprev : Prev_of p here = last_node dummy B).
  { unfold Prev_of. now rewrite <- EB. }
  assert (HpB : ~ In (ptr p) (ptrs B)).
  { rewrite Hsplit in Wptrs. eapply NoDup_map_app_notin; eauto. }
  assert (Hlen : length here = S (length (B ++ R))).
  { rewrite Hsplit at 1. rewrite !length_app. cbn [length]. lia. }
  set (s6 := mkSkiplist _ _ _ _ _ _ _ _ _ _) in Hsnd.
  assert (Hs6 : m_head s6 = map (filter (fun x => negb (same x p))) (m_head s) /\
                m_levelCount s6 = m_levelCount s /\
                m_count s6 = m_count s - 1 /\ m_countMin s6 = m_countMin s /\
                m_countMax s6 = m_countMax s /\ m_balanced s6 = false /\
                m_begin s6 = hd_error (B ++ R) /\
                m_tail s6 = last_node nullptr (B ++ R)).
  { unfold s6. cbn [m_head m_levelCount m_count m_countMin m_countMax m_balanced
                    m_begin m_tail].
    rewrite Hprev, Wbegin, Wtail. rewrite Hsplit.
    assert (Hc : m_count s - 1 = length (B ++ R)) by lia. rewrite Hc.
    split; [reflexivity|]. split; [reflexivity|]. split; [reflexivity|].
    split; [reflexivity|]. split; [reflexivity|]. split; [reflexivity|].
    destruct B as [|b B']; cbn [app hd_error same_opt].
    - rewrite same_refl. split; [reflexivity|].
      destruct R as [|c R']; [reflexivity|]. cbn [length Nat.eqb hd_error last_node].
      reflexivity.
    - replace (same p b) with false.
      2:{ symmetry. apply same_false_iff. intros E. apply HpB. rewrite E. now left. }
      split; [reflexivity|]. cbn [length Nat.eqb].
      destruct R as [|c R']; cbn [hd_error].
      + rewrite app_nil_r. reflexivity.
      + cbn [last_node]. rewrite !last_node_app_cons. reflexivity. }
  destruct Hs6 as [H6hd [H6lc [H6c [H6min [H6max [H6bal [H6bg H6tl]]]]]]].
  assert (Hbot6 : bottom (m_head s6) = B ++ R).
  { rewrite H6hd, bottom_map_filter, Hbot. exact Hunl. }
  assert (Hsh : shrinkable MULTIMAP cmp s6).
  { constructor.
    - rewrite H6hd, H6lc, length_map. exact Wlev.
    - rewrite Hbot6, H6c. lia.
    - rewrite H6min, H6lc. exact Wmin.
    - rewrite H6max, H6lc. exact Wmax.
    - rewrite H6max, H6c. lia.
    - rewrite H6hd, bottom_map_filter, Hbot. now apply NoDup_ptrs_filter.
    - rewrite H6hd, bottom_map_filter, Hbot. now apply Sorted_ordered_filter.
    - rewrite H6hd. apply stacked_filter; [exact Wstacked|now rewrite Hbot].
    - now rewrite Hbot6.
    - now rewrite Hbot6.
    - exact H6bal. }
  destruct (removeLevel_once_wf s6 Hsh) as [Hwf' [Hbot' Hc']].
  { rewrite H6min, H6c. lia. }
  cbv zeta in Hwf', Hbot', Hc'. rewrite <- Hsnd in Hwf', Hbot', Hc'.
  split; [exact Hwf'|]. split; [now rewrite Hbot', Hbot6, Hunl|].
  split; [exact Hsplit|]. split; [exact Hunl|].
  split; [rewrite Hc', H6c; lia|exact Hfst].
Qed.

Lemma wf_nonempty (s : Skiplist) :
  wf MULTIMAP cmp s -> m_head s <> [] -> bottom (m_head s) <> [].
Proof.
  intros Hwf Hne Hnil. pose proof (wf_count Hwf) as Hc. rewrite Hnil in Hc.
  pose proof (wf_range Hwf) as Hr. rewrite (wf_min Hwf) in Hr.
  pose proof (wf_levels Hwf) as Hl.
  destruct (m_levelCount s) as [|L] eqn:E.
  - apply Hne. now apply length_zero_nil.
  - cbn [Nat.eqb] in Hr. pose proof (pow2_pos (S L - 1)). simpl in Hc. lia.
Qed.

Lemma wf_empty_head (s : Skiplist) :
  wf MULTIMAP cmp s -> bottom (m_head s) = [] -> m_head s = [].
Proof.
  intros Hwf Hnil. destruct (m_head s) as [|u lists] eqn:E; [reflexivity|].
  exfalso. apply (wf_nonempty s Hwf); [rewrite E; discriminate|now rewrite E].
Qed.

Lemma erase_range_loop_spec (M : list Pair) : forall (s : Skiplist) fuel A Z,
  wf MULTIMAP cmp s -> bottom (m_head s) = A ++ M ++ Z -> length M < fuel ->
  let r := erase_range_loop fuel s (mkConstIterator (hd_error (M ++ Z)))
             (mkConstIterator (hd_error Z)) in
  fst r = mkConstIterator (hd_error Z) /\
  wf MULTIMAP cmp (snd r) /\ bottom (m_head (snd r)) = A ++ Z /\
  m_count (snd r) + length M = m_count s.
Proof.
  induction M as [|m M IH]; intros s fuel A Z Hwf Hbot Hfuel r.
  - destruct fuel as [|fuel]; [simpl in Hfuel; lia|].
    unfold r. cbn [app erase_range_loop]. unfold const_iterator_eq.
    rewrite same_opt_refl. cbn [fst snd length]. rewrite app_nil_l in Hbot.
    split; [reflexivity|]. split; [exact Hwf|]. split; [exact Hbot|lia].
  - destruct fuel as [|fuel]; [simpl in Hfuel; lia|].
    pose proof (wf_ptrs Hwf) as Hnd. rewrite Hbot in Hnd.
    assert (HmA : ~ In (ptr m) (ptrs A)).
    { cbn [app] in Hnd. eapply NoDup_map_app_notin; eauto. }
    assert (Hneq : const_iterator_eq (mkConstIterator (hd_error ((m :: M) ++ Z)))
                     (mkConstIterator (hd_error Z)) = false).
    { unfold const_iterator_eq. cbn [app hd_error c_currentNode same_opt].
      destruct Z as [|z Z']; [reflexivity|]. cbn [hd_error].
      apply same_false_iff. intros E.
      rewrite map_app in Hnd. apply NoDup_app_remove_l in Hnd.
      cbn [app map] in Hnd. inversion Hnd as [|? ? Hn _]; subst. apply Hn.
      rewrite E. rewrite map_app. apply in_or_app. right. now left. }
    assert (Hin : In m (bottom (m_head s))).
    { rewrite Hbot. apply in_or_app. right. now left. }
    destruct (erase_pos_spec s m Hwf Hin) as [Hwf' [Hbot' [_ [_ [Hc' _]]]]].
    assert (Hright : right_of_node m (bottom (m_head s)) = M ++ Z).
    { rewrite Hbot. cbn [app]. now apply right_of_node_app. }
    assert (Hunl : unlink m (bottom (m_head s)) = A ++ M ++ Z).
    { rewrite Hbot. cbn [app]. apply unlink_split. exact Hnd. }
    unfold r. cbn [erase_range_loop]. rewrite Hneq.
    cbn [app hd_error c_currentNode]. rewrite Hright.
    rewrite Hunl in Hbot'.
    destruct (IH _ fuel A Z Hwf' Hbot') as [H1 [H2 [H3 H4]]]; [simpl in Hfuel; lia|].
    cbv zeta in H1, H2, H3, H4.
    split; [exact H1|]. split; [exact H2|]. split; [exact H3|].
    cbn [length]. lia.
Qed.

(** X1: for a multimap, [insert] never fails: the new element is linked
    after every element whose key is not greater than its own (the upper
    bound), the other elements keep their order, the size grows by one,
    the result is an iterator to the new element, the balanced flag is
    cleared and the container invariants are kept. *)
Theorem insert_multimap_upper_bound (s : Skiplist) (p : Pair) :
  MULTIMAP = true -> wf MULTIMAP cmp s -> fresh p s ->
  let r := insert MULTIMAP cmp s p in
  let l := bottom (m_head s) in
  fst (fst r) = iterator_at (snd r) (Some p) /\
  bottom (m_head (snd r)) =
    filter (fun x => negb (cmp (first p) (first x))) l ++
    p :: filter (fun x => cmp (first p) (first x)) l /\
  size (snd r) = size s + 1 /\
  is_balanced (snd r) = false /\
  wf MULTIMAP cmp (snd r).
Proof.
  intros Hmulti Hwf Hp r l.
  pose proof (insertTopDown_spec s (first p) cmp p Hwf Hp eq_refl
                (or_introl eq_refl)) as Hspec.
  cbv zeta in Hspec.
  assert (Hblk : blocked MULTIMAP cmp (first p) (bottom (m_head s)) = false).
  { unfold blocked. now rewrite Hmulti. }
  rewrite Hblk in Hspec. destruct Hspec as [s' [Hins [Hwf' [Hbot' [Hcnt' Hbal']]]]].
  unfold r, insert. rewrite Hins. cbn [fst snd to_node].
  split; [reflexivity|]. split; [exact Hbot'|].
  split; [unfold size; lia|]. split; [exact Hbal'|exact Hwf'].
Qed.

(** X2: [erase(pos)] at an element of the container unlinks exactly that
    element: the elements before and after it stay, in their order, the
    size drops by one, the invariants are kept, and the result is an
    iterator on the element that followed (the end iterator if none). *)
Theorem erase_at_position (s : Skiplist) (p : Pair) :
  wf MULTIMAP cmp s -> In p (bottom (m_head s)) ->
  let l := bottom (m_head s) in
  let r := erase_pos s (mkConstIterator (Some p)) in
  l = before_node p l ++ p :: right_of_node p l /\
  bottom (m_head (snd r)) = before_node p l ++ right_of_node p l /\
  size (snd r) + 1 = size s /\
  m_currentNode (fst r) = hd_error (right_of_node p l) /\
  ~ In p (bottom (m_head (snd r))) /\
  wf MULTIMAP cmp (snd r).
Proof.
  intros Hwf Hin l r.
  destruct (erase_pos_spec s p Hwf Hin) as [Hwf' [Hbot' [Hsplit [Hunl [Hc' Hfst]]]]].
  fold l in Hbot', Hsplit, Hunl, Hfst. fold r in Hwf', Hbot', Hc', Hfst.
  split; [exact Hsplit|]. split; [now rewrite Hbot', Hunl|].
  split; [exact Hc'|]. split; [rewrite Hfst; apply iterator_at_node|].
  split; [|exact Hwf'].
  rewrite Hbot'. unfold unlink. intros H. apply filter_In in H.
  rewrite same_refl in H. destruct H; discriminate.
Qed.

(** X3: on a container that is not empty [pop_front] removes the first
    element and [pop_back] the last one, leaving the others in their
    order, lowering the size by one and keeping the invariants; on an
    empty container both reach [assert(false)]. *)
Theorem pop_front_back (s : Skiplist) :
  wf MULTIMAP cmp s ->
  match bottom (m_head s) with
  | [] => pop_front s = None /\ pop_back s = None
  | a :: rest =>
      exists sf sb,
        pop_front s = Some sf /\ pop_back s = Some sb /\
        bottom (m_head sf) = rest /\
        bottom (m_head sb) = removelast (a :: rest) /\
        size sf = size s - 1 /\ size sb = size s - 1 /\
        wf MULTIMAP cmp sf /\ wf MULTIMAP cmp sb
  end.
Proof.
  intros Hwf. pose proof (wf_count Hwf) as Hc. unfold size.
  destruct (bottom (m_head s)) as [|a l] eqn:Hbot.
  - pose proof (wf_empty_head s Hwf Hbot) as Hhd. split.
    + unfold pop_front. now rewrite Hhd.
    + unfold pop_back. rewrite (wf_tail Hwf), Hbot. reflexivity.
  - assert (Ef : pop_front s = Some (snd (erase_pos s (mkConstIterator (Some a))))).
    { pose proof (wf_begin Hwf) as Hb0. rewrite Hbot in Hb0.
      unfold pop_front, cbegin. destruct (m_head s) as [|u lists] eqn:E.
      - discriminate Hbot.
      - rewrite Hb0. reflexivity. }
    destruct (exists_last (l := a :: l)) as [front [z Hz]]; [discriminate|].
    assert (Eb : pop_back s = Some (snd (erase_pos s (mkConstIterator (Some z))))).
    { unfold pop_back. rewrite (wf_tail Hwf), Hbot, Hz, last_node_app. reflexivity. }
    assert (Ha : In a (bottom (m_head s))) by (rewrite Hbot; now left).
    assert (Hzin : In z (bottom (m_head s))).
    { rewrite Hbot, Hz. apply in_or_app. right. now left. }
    destruct (erase_pos_spec s a Hwf Ha) as [Hwf1 [Hb1 [_ [_ [Hc1 _]]]]].
    destruct (erase_pos_spec s z Hwf Hzin) as [Hwf2 [Hb2 [_ [_ [Hc2 _]]]]].
    cbv zeta in Hwf1, Hb1, Hc1, Hwf2, Hb2, Hc2.
    pose proof (wf_ptrs Hwf) as Hnd. rewrite Hbot in Hnd, Hb1, Hb2.
    simpl in Hc.
    exists (snd (erase_pos s (mkConstIterator (Some a)))),
           (snd (erase_pos s (mkConstIterator (Some z)))).
    split; [exact Ef|]. split; [exact Eb|].
    split; [|split; [|split; [lia|split; [lia|split; [exact Hwf1|exact Hwf2]]]]].
    + rewrite Hb1. apply (unlink_split [] l a). exact Hnd.
    + rewrite Hb2, Hz. rewrite removelast_last.
      rewrite (unlink_split front [] z); [apply app_nil_r|]. now rewrite <- Hz.
Qed.

(** X4: [erase(first, last)] on a range of the container removes the
    elements from [first] up to, not including, [last] and nothing else;
    it returns an iterator on [last], the size drops by the length of the
    range, and the invariants are kept. *)
Theorem erase_range_removes (s : Skiplist) (A M Z : list Pair) :
  wf MULTIMAP cmp s -> bottom (m_head s) = A ++ M ++ Z ->
  let r := erase_range s (mkConstIterator (hd_error (M ++ Z)))
             (mkConstIterator (hd_error Z)) in
  bottom (m_head (snd r)) = A ++ Z /\
  size (snd r) + length M = size s /\
  m_currentNode (fst r) = hd_error Z /\
  wf MULTIMAP cmp (snd r).
Proof.
  intros Hwf Hbot r.
  assert (Hfuel : length M < S (m_count s)).
  { rewrite <- (wf_count Hwf), Hbot, !length_app. lia. }
  destruct (erase_range_loop_spec M s (S (m_count s)) A Z Hwf Hbot Hfuel)
    as [H1 [H2 [H3 H4]]].
  cbv zeta in H1, H2, H3, H4. unfold r, erase_range.
  destruct (erase_range_loop (S (m_count s)) s
              (mkConstIterator (hd_error (M ++ Z))) (mkConstIterator (hd_error Z)))
    as [f s'].
  cbn [fst snd] in *. subst f. cbn [c_currentNode].
  split; [exact H3|]. split; [exact H4|]. split; [apply iterator_at_node|exact H2].
Qed.

(** ** Hinted insert for a map *)

Lemma absent_not_blocked key (l : list Pair) :
  (forall x, In x l -> equivalent cmp key (first x) = false) ->
  blocked MULTIMAP cmp key l = false.
Proof.
  intros Habs. destruct (blocked MULTIMAP cmp key l) eqn:E; [|reflexivity].
  destruct (blocked_true key l E) as [q [_ [Hq He]]].
  rewrite (Habs q Hq) in He. discriminate.
Qed.

Lemma insertTopDown_map (s : Skiplist) (p : Pair) :
  MULTIMAP = false -> wf MULTIMAP cmp s -> fresh p s ->
  let l := bottom (m_head s) in
  let k := first p in
  let r := insertTopDown MULTIMAP s k cmp p in
  wf MULTIMAP cmp (snd r) /\
  ((exists x, In x l /\ equivalent cmp k (first x) = true) ->
   m_head (snd r) = m_head s /\ m_count (snd r) = m_count s /\
   exists x, fst (fst r) = node x /\ In x l /\ equivalent cmp k (first x) = true) /\
  ((forall x, In x l -> equivalent cmp k (first x) = false) ->
   bottom (m_head (snd r)) = spliced (fun n => cmp k (first n)) p l /\
   m_count (snd r) = S (m_count s) /\ fst (fst r) = node p).
Proof.
  intros Hmap Hwf Hp l k r.
  pose proof (insertTopDown_wf s k cmp p Hwf Hp eq_refl (or_introl eq_refl)) as Hwf'.
  pose proof (insertTopDown_spec s k cmp p Hwf Hp eq_refl (or_introl eq_refl)) as Hspec.
  cbv zeta in Hspec. fold l in Hspec. fold r in Hwf', Hspec.
  pose proof (Sorted_ordered_le_key _ (wf_sorted Hwf)) as Hso.
  split; [exact Hwf'|]. split.
  - intros [x [Hx He]].
    pose proof (blocked_present k l x Hmap Hso Hx He) as Hb.
    rewrite Hb in Hspec. destruct (blocked_true k l Hb) as [q [Hq [Hqin Hqe]]].
    rewrite Hspec, Hq. cbn [fst snd].
    pose proof (chooseLevel_fields s) as Hfl. cbv zeta in Hfl.
    destruct Hfl as [_ [Hcnt [Hhd _]]].
    split; [exact Hhd|]. split; [exact Hcnt|]. exists q. auto.
  - intros Habs. rewrite (absent_not_blocked k l Habs) in Hspec.
    destruct Hspec as [s' [E [_ [Hbot [Hcnt _]]]]]. rewrite E. cbn [fst snd]. auto.
Qed.

Lemma strict_hint_split (B R : list Pair) key :
  StronglySorted lek (B ++ R) ->
  (forall an, last_node dummy B = node an -> cmp (first an) key = true) ->
  (forall bn, hd_error R = Some bn -> cmp key (first bn) = true) ->
  filter (fun n => negb (cmp key (first n))) (B ++ R) = B /\
  filter (fun n => cmp key (first n)) (B ++ R) = R /\
  forall x, In x (B ++ R) -> equivalent cmp key (first x) = false.
Proof.
  intros Hso Ha Hb.
  assert (HB : Forall (fun x => cmp key (first x) = false /\ cmp (first x) key = true) B).
  { destruct (last_node_dummy_cases B) as [[-> _]|[an [_ Han]]]; [constructor|].
    specialize (Ha an Han).
    destruct B as [|b0 B0] using rev_ind; [constructor|].
    rewrite last_node_app in Han. injection Han as <-.
    rewrite <- app_assoc in Hso. cbn [app] in Hso.
    apply StronglySorted_app_inv in Hso. destruct Hso as [_ [_ Hcross]].
    assert (Hle : forall x, In x (B0 ++ [b0]) -> lek x b0).
    { intros x Hx. apply in_app_or in Hx. destruct Hx as [Hx|[<-|[]]].
      - apply Hcross; [exact Hx|now left].
      - unfold le_key. apply (swo_irrefl cmp_swo). }
    rewrite Forall_forall. intros x Hx. specialize (Hle x Hx). unfold le_key in Hle.
    assert (Hxk : cmp (first x) key = true).
    { destruct (swo_neg_trans _ _ (first x) Ha) as [H|H]; [congruence|exact H]. }
    split; [|exact Hxk]. now apply swo_asym. }
  assert (HR : Forall (fun x => cmp key (first x) = true) R).
  { destruct R as [|bn R']; [constructor|]. specialize (Hb bn eq_refl).
    apply StronglySorted_app_inv in Hso. destruct Hso as [_ [HsR _]].
    inversion HsR as [|? ? _ Hall]; subst. constructor; [exact Hb|].
    rewrite Forall_forall in *. intros y Hy. specialize (Hall y Hy).
    unfold le_key in Hall.
    destruct (swo_neg_trans _ _ (first y) Hb) as [H|H]; [exact H|congruence]. }
  rewrite !filter_app. split; [|split].
  - rewrite (filter_all _ B), (filter_none _ R), app_nil_r; auto.
    + revert HR. apply Forall_impl. intros x Hx. now rewrite Hx.
    + revert HB. apply Forall_impl. intros x [Hx _]. now rewrite Hx.
  - rewrite (filter_none _ B), (filter_all _ R); auto.
    revert HB. apply Forall_impl. intros x [Hx _]. exact Hx.
  - intros x Hx. unfold equivalent. apply in_app_or in Hx.
    rewrite Forall_forall in HB, HR. destruct Hx as [Hx|Hx].
    + destruct (HB x Hx) as [_ H]. rewrite H. apply andb_false_r.
    + now rewrite (HR x Hx).
Qed.

Lemma insertWithHintMap_spec (s : Skiplist) (b : option Pair) (p : Pair) :
  MULTIMAP = false -> wf MULTIMAP cmp s -> fresh p s ->
  (forall bn, b = Some bn -> In bn (bottom (m_head s))) ->
  let l := bottom (m_head s) in
  let k := first p in
  let r := insertWithHintMap MULTIMAP cmp s (mkConstIterator b) k p in
  wf MULTIMAP cmp (snd r) /\
  ((exists x, In x l /\ equivalent cmp k (first x) = true) ->
   m_head (snd r) = m_head s /\ m_count (snd r) = m_count s /\
   exists x, m_currentNode (fst r) = Some x /\ In x l /\
             equivalent cmp k (first x) = true) /\
  ((forall x, In x l -> equivalent cmp k (first x) = false) ->
   bottom (m_head (snd r)) = spliced (fun n => cmp k (first n)) p l /\
   m_count (snd r) = S (m_count s) /\ m_currentNode (fst r) = Some p).
Proof.
  intros Hmap Hwf Hp Hb l k r.
  destruct (hint_split s b Hwf Hb) as [Hsplit [Hm [HB [HR Hprev]]]].
  fold l in Hsplit, Hm, HB, HR, Hprev.
  pose proof (Sorted_ordered_le_key _ (wf_sorted Hwf)) as Hso. fold l in Hso.
  destruct (insertTopDown_map s p Hmap Hwf Hp) as [Twf [Tpres Tabs]].
  fold l k in Twf, Tpres, Tabs.
  assert (Htop : let '((n, _), s') := insertTopDown MULTIMAP s k cmp p in
                 wf MULTIMAP cmp (snd (iterator_at s' (to_node n), s')) /\
                 ((exists x, In x l /\ equivalent cmp k (first x) = true) ->
                  m_head s' = m_head s /\ m_count s' = m_count s /\
                  exists x, m_currentNode (iterator_at s' (to_node n)) = Some x /\
                            In x l /\ equivalent cmp k (first x) = true) /\
                 ((forall x, In x l -> equivalent cmp k (first x) = false) ->
                  bottom (m_head s') = spliced (fun n => cmp k (first n)) p l /\
                  m_count s' = S (m_count s) /\
                  m_currentNode (iterator_at s' (to_node n)) = Some p)).
  { destruct (insertTopDown MULTIMAP s k cmp p) as [[n ok] s'].
    cbn [fst snd] in *. split; [exact Twf|]. split.
    - intros Hx. destruct (Tpres Hx) as [H1 [H2 [x [-> H3]]]].
      split; [exact H1|]. split; [exact H2|]. exists x.
      split; [apply iterator_at_node|exact H3].
    - intros Hx. destruct (Tabs Hx) as [H1 [H2 ->]].
      split; [exact H1|]. split; [exact H2|apply iterator_at_node]. }
  assert (Hstay : forall x, In x l -> equivalent cmp k (first x) = true ->
            wf MULTIMAP cmp (snd (iterator_at s (Some x), s)) /\
            ((exists x, In x l /\ equivalent cmp k (first x) = true) ->
             m_head s = m_head s /\ m_count s = m_count s /\
             exists x0, m_currentNode (iterator_at s (Some x)) = Some x0 /\
                        In x0 l /\ equivalent cmp k (first x0) = true) /\
            ((forall x, In x l -> equivalent cmp k (first x) = false) ->
             bottom (m_head s) = spliced (fun n => cmp k (first n)) p l /\
             m_count s = S (m_count s) /\
             m_currentNode (iterator_at s (Some x)) = Some p)).
  { intros x Hx He. split; [exact Hwf|]. split.
    - intros _. split; [reflexivity|]. split; [reflexivity|]. exists x.
      split; [apply iterator_at_node|auto].
    - intros Habs. rewrite (Habs x Hx) in He. discriminate. }
  unfold r, insertWithHintMap. cbn [c_currentNode].
  set (a := hint_prev s b) in *.
  destruct (match b with None => true | Some bn => cmp k (first bn) end) eqn:T1.
  - destruct (match a with node an => cmp (first an) k | _ => true end) eqn:T2.
    + (* a < x < b: insert here *)
      assert (Hpos : filter (fun n => negb (cmp k (first n))) l = hint_before b l /\
                     filter (fun n => cmp k (first n)) l = hint_from b l /\
                     forall x, In x l -> equivalent cmp k (first x) = false).
      { assert (Hso' : StronglySorted lek (hint_before b l ++ hint_from b l))
          by (now rewrite <- Hsplit).
        pose proof (strict_hint_split (hint_before b l) (hint_from b l) k Hso') as Hst.
        rewrite <- Hsplit in Hst. apply Hst.
        - intros an Han. destruct Hprev as [E|[Hnil E]].
          + rewrite E, Han in T2. exact T2.
          + rewrite Hsplit in Hnil. apply app_eq_nil in Hnil. destruct Hnil as [Hnil _].
            rewrite Hnil in Han. discriminate.
        - intros bn Hbn. destruct b as [b0|]; cbn [hint_from hd_error] in Hbn;
            [|discriminate]. injection Hbn as <-. exact T1. }
      destruct Hpos as [HfB [HfR Habsent]].
      destruct (insertBottomUp_spec s (hint_stop b l) p a Hwf Hp Hm)
        as [s' [Hins [Hwf' [Hbot' [Hcnt' _]]]]].
      * fold l. rewrite HB. intros x Hx.
        assert (Ea : a = node x).
        { destruct Hprev as [E|[Hnil E]]; [congruence|].
          rewrite Hsplit in Hnil. apply app_eq_nil in Hnil. destruct Hnil as [Hnil _].
          rewrite Hnil in Hx. discriminate. }
        rewrite Ea in T2. split; [now apply swo_asym|]. intros _. exact T2.
      * fold l. rewrite HR. destruct b as [bn|]; cbn [hint_from]; constructor.
        split; [now apply swo_asym|]. intros _. exact T1.
      * fold l. rewrite HB. exact Hprev.
      * rewrite Hins. cbn [fst snd]. fold l in Hbot'.
        split; [exact Hwf'|]. split.
        -- intros [x [Hx He]]. rewrite (Habsent x Hx) in He. discriminate.
        -- intros _. split; [|split; [exact Hcnt'|apply iterator_at_node]].
           rewrite Hbot'. unfold spliced. now rewrite HB, HR, HfB, HfR.
    + destruct a as [| |an] eqn:Ea; try discriminate.
      destruct (cmp k (first an)) eqn:T3.
      * revert Htop. destruct (insertTopDown MULTIMAP s k cmp p) as [[n ok] s'].
        intros Htop. exact Htop.
      * destruct (hint_split s b Hwf Hb) as [_ [_ [_ [_ Hprev']]]].
        apply (Hstay an).
        -- fold l in Hprev'. rewrite Hsplit. apply in_or_app. left.
           destruct Hprev as [E|[_ E]]; [|discriminate].
           destruct (last_node_dummy_cases (hint_before b l))
             as [[_ E']|[q [Hq E']]]; rewrite E' in E; [discriminate|].
           injection E as ->. exact Hq.
        -- unfold equivalent. now rewrite T3, T2.
  - destruct b as [bn|]; [|discriminate].
    destruct (cmp (first bn) k) eqn:T4.
    + revert Htop. destruct (insertTopDown MULTIMAP s k cmp p) as [[n ok] s'].
        intros Htop. exact Htop.
    + apply (Hstay bn); [now apply Hb|]. unfold equivalent. now rewrite T1, T4.
Qed.

(** ** Lookups read off the bottom list *)

Lemma contains_char (s : Skiplist) key :
  wf MULTIMAP cmp s ->
  contains cmp s key = existsb (fun x => equivalent cmp key (first x)) (bottom (m_head s)).
Proof.
  intros Hwf. pose proof (find_in_container s key Hwf) as H. unfold contains.
  destruct (findRecursive cmp (m_head s) (head_ptr s) key) as [[d p]|].
  - symmetry. apply existsb_exists. exists p. exact H.
  - destruct (existsb _ _) eqn:E; [|reflexivity].
    apply existsb_exists in E. destruct E as [x [Hx He]].
    rewrite (H x Hx) in He. discriminate.
Qed.

Lemma find_first_unique (l : list Pair) key x :
  MULTIMAP = false -> Sorted (ordered MULTIMAP cmp) l ->
  In x l -> equivalent cmp key (first x) = true ->
  List.find (fun y => equivalent cmp key (first y)) l = Some x.
Proof.
  intros Hmap Hso Hx He.
  destruct (List.find (fun y => equivalent cmp key (first y)) l) as [y|] eqn:E.
  - apply find_some in E. destruct E as [Hy Hey].
    f_equal. now apply (map_equivalent_unique l key y x).
  - pose proof (find_none _ _ E x Hx) as H. cbv beta in H. congruence.
Qed.

Lemma at_map_char (s : Skiplist) key :
  MULTIMAP = false -> wf MULTIMAP cmp s ->
  at_ cmp s key =
  match List.find (fun x => equivalent cmp key (first x)) (bottom (m_head s)) with
  | Some x => inl (second x)
  | None => inr tt
  end.
Proof.
  intros Hmap Hwf. pose proof (find_in_container s key Hwf) as H. unfold at_.
  destruct (findRecursive cmp (m_head s) (head_ptr s) key) as [[d p]|].
  - destruct H as [Hp He].
    now rewrite (find_first_unique _ key p Hmap (wf_sorted Hwf) Hp He).
  - destruct (List.find _ _) as [x|] eqn:E; [|reflexivity].
    apply find_some in E. destruct E as [Hx He]. rewrite (H x Hx) in He. discriminate.
Qed.

Lemma find_insert_other (f : Pair -> bool) (A Z : list Pair) p :
  f p = false -> List.find f (A ++ p :: Z) = List.find f (A ++ Z).
Proof.
  intros Hp. induction A as [|a A IH]; cbn [app List.find].
  - now rewrite Hp.
  - destruct (f a); [reflexivity|exact IH].
Qed.

Lemma find_filter_kept (f g : Pair -> bool) (l : list Pair) :
  (forall x, In x l -> f x = true -> g x = true) ->
  List.find f (filter g l) = List.find f l.
Proof.
  induction l as [|a l IH]; intros H; [reflexivity|]. cbn [filter List.find].
  assert (IH' : List.find f (filter g l) = List.find f l).
  { apply IH. intros x Hx. apply H. now right. }
  destruct (f a) eqn:Fa.
  - rewrite (H a (or_introl eq_refl) Fa). cbn [List.find]. now rewrite Fa.
  - destruct (g a); [cbn [List.find]; rewrite Fa|]; exact IH'.
Qed.

Lemma existsb_insert_other (f : Pair -> bool) (A Z : list Pair) p :
  f p = false -> existsb f (A ++ p :: Z) = existsb f (A ++ Z).
Proof.
  intros Hp. rewrite !existsb_app. cbn [existsb]. now rewrite Hp.
Qed.

Lemma existsb_filter_kept (f g : Pair -> bool) (l : list Pair) :
  (forall x, In x l -> f x = true -> g x = true) ->
  existsb f (filter g l) = existsb f l.
Proof.
  induction l as [|a l IH]; intros H; [reflexivity|]. cbn [filter existsb].
  assert (IH' : existsb f (filter g l) = existsb f l).
  { apply IH. intros x Hx. apply H. now right. }
  destruct (f a) eqn:Fa.
  - rewrite (H a (or_introl eq_refl) Fa). cbn [existsb]. now rewrite Fa.
  - destruct (g a); [cbn [existsb]; rewrite Fa|]; cbn [orb]; exact IH'.
Qed.

Lemma equivalent_other key key' x :
  equivalent cmp key' key = false -> equivalent cmp key' x = true ->
  equivalent cmp key x = false.
Proof.
  intros Hne He. destruct (equivalent cmp key x) eqn:E; [|reflexivity].
  rewrite equivalent_sym in E.
  rewrite (swo_equiv cmp_swo _ _ _ He E) in Hne. discriminate.
Qed.

(** X5: for a map, a hinted insert with any hint of the container keeps
    the invariants and leaves [contains(k)] true; if an element with an
    equivalent key is present the lists and the size stay as they were and
    the result is an iterator on that element; otherwise the size grows by
    one, the new element is linked at its sorted place (after the smaller
    keys, before the greater ones) and the result is an iterator on it. *)
Theorem hinted_insert_map (s : Skiplist) (b : option Pair) (p : Pair) :
  MULTIMAP = false -> wf MULTIMAP cmp s -> fresh p s ->
  (forall bn, b = Some bn -> In bn (bottom (m_head s))) ->
  let l := bottom (m_head s) in
  let k := first p in
  let r := insert_hint MULTIMAP cmp s (mkConstIterator b) p in
  wf MULTIMAP cmp (snd r) /\
  contains cmp (snd r) k = true /\
  ((exists x, In x l /\ equivalent cmp k (first x) = true) ->
   m_head (snd r) = m_head s /\ size (snd r) = size s /\
   exists x, m_currentNode (fst r) = Some x /\ In x l /\
             equivalent cmp k (first x) = true) /\
  ((forall x, In x l -> equivalent cmp k (first x) = false) ->
   bottom (m_head (snd r)) =
     filter (fun n => negb (cmp k (first n))) l ++
     p :: filter (fun n => cmp k (first n)) l /\
   size (snd r) = size s + 1 /\ m_currentNode (fst r) = Some p).
Proof.
  intros Hmap Hwf Hp Hb l k r.
  assert (Hr : r = insertWithHintMap MULTIMAP cmp s (mkConstIterator b) k p).
  { unfold r, insert_hint. now rewrite Hmap. }
  destruct (insertWithHintMap_spec s b p Hmap Hwf Hp Hb) as [Hwf' [Hpres Habs]].
  fold l k in Hwf', Hpres, Habs. rewrite <- Hr in Hwf', Hpres, Habs.
  split; [exact Hwf'|]. split; [|split].
  - rewrite (contains_char _ k Hwf').
    destruct (existsb (fun x => equivalent cmp k (first x)) l) eqn:E.
    + pose proof E as E'. apply existsb_exists in E'.
      destruct (Hpres E') as [Hhd _]. rewrite Hhd. exact E.
    + assert (Hnone : forall x, In x l -> equivalent cmp k (first x) = false).
      { intros x Hx. destruct (equivalent cmp k (first x)) eqn:Ex; [|reflexivity].
        assert (existsb (fun x => equivalent cmp k (first x)) l = true)
          by (apply existsb_exists; eauto). congruence. }
      destruct (Habs Hnone) as [Hbot _]. rewrite Hbot. unfold spliced.
      rewrite existsb_app. cbn [existsb]. fold k.
      rewrite (equivalent_refl k). now rewrite orb_true_r.
  - intros Hx. destruct (Hpres Hx) as [H1 [H2 H3]]. auto.
  - intros Hx. destruct (Habs Hx) as [H1 [H2 H3]].
    split; [exact H1|]. split; [unfold size; lia|exact H3].
Qed.

(** ** Round trips *)

Lemma at_same_head (s s' : Skiplist) key :
  m_head s' = m_head s -> at_ cmp s' key = at_ cmp s key.
Proof. intros Hh. unfold at_, head_ptr. now rewrite Hh. Qed.

(** X6: for a map, a successful [insert] is seen by the lookups: [at] of
    the new key returns the inserted value, and [at] and [contains] of
    every key not equivalent to it answer as before; an [insert] that
    finds the key present changes no answer of [at]. *)
Theorem map_insert_then_lookup (s : Skiplist) (p : Pair) :
  MULTIMAP = false -> wf MULTIMAP cmp s -> fresh p s ->
  let s' := snd (insert MULTIMAP cmp s p) in
  let l := bottom (m_head s) in
  ((forall x, In x l -> equivalent cmp (first p) (first x) = false) ->
   at_ cmp s' (first p) = inl (second p) /\
   forall key, equivalent cmp key (first p) = false ->
               at_ cmp s' key = at_ cmp s key /\
               contains cmp s' key = contains cmp s key) /\
  ((exists x, In x l /\ equivalent cmp (first p) (first x) = true) ->
   forall key, at_ cmp s' key = at_ cmp s key).
Proof.
  intros Hmap Hwf Hp s' l.
  destruct (insertTopDown_map s p Hmap Hwf Hp) as [Hwf' [Hpres Habs]].
  fold l in Hpres, Habs. rewrite <- insert_snd in Hwf', Hpres, Habs.
  fold s' in Hwf', Hpres, Habs.
  pose proof (Sorted_ordered_le_key _ (wf_sorted Hwf)) as Hso. fold l in Hso.
  pose proof (mono_split _ l (sorted_mono_upper (first p) l Hso)) as Hsplit.
  split.
  - intros Hx. destruct (Habs Hx) as [Hbot _]. unfold spliced in Hbot. split.
    + rewrite (at_map_char s' (first p) Hmap Hwf').
      rewrite (find_first_unique _ (first p) p Hmap (wf_sorted Hwf')); [reflexivity| |].
      * rewrite Hbot. apply in_or_app. right. now left.
      * apply equivalent_refl.
    + intros key Hkey. split.
      * rewrite (at_map_char s' key Hmap Hwf'), (at_map_char s key Hmap Hwf).
        rewrite Hbot, find_insert_other by exact Hkey. fold l. now rewrite <- Hsplit.
      * rewrite (contains_char s' key Hwf'), (contains_char s key Hwf).
        rewrite Hbot, existsb_insert_other by exact Hkey. fold l. now rewrite <- Hsplit.
  - intros Hx key. destruct (Hpres Hx) as [Hhd _]. now apply at_same_head.
Qed.

(** X7: after [erase(k)] no element with a key equivalent to [k] is left:
    [contains(k)] is false and [at(k)] raises key-not-found; [contains] of
    every key not equivalent to [k] answers as before, and for a map so
    does [at]. *)
Theorem erase_then_lookup (s : Skiplist) (k : KEY) :
  wf MULTIMAP cmp s ->
  let s' := snd (erase cmp s k) in
  contains cmp s' k = false /\
  at_ cmp s' k = inr tt /\
  (forall key, equivalent cmp key k = false ->
               contains cmp s' key = contains cmp s key) /\
  (MULTIMAP = false -> forall key, equivalent cmp key k = false ->
                                   at_ cmp s' key = at_ cmp s key).
Proof.
  intros Hwf s'. destruct (erase_spec s k Hwf) as [_ [Hwf' [Hbot _]]].
  fold s' in Hwf', Hbot.
  assert (Hgone : forall x, In x (bottom (m_head s')) ->
                            equivalent cmp k (first x) = false).
  { intros x Hx. rewrite Hbot in Hx. apply filter_In in Hx.
    destruct Hx as [_ Hx]. unfold not_equivalent in Hx.
    now destruct (equivalent cmp k (first x)). }
  assert (Hkept : forall key, equivalent cmp key k = false ->
            forall x, In x (bottom (m_head s)) ->
            equivalent cmp key (first x) = true -> not_equivalent cmp k x = true).
  { intros key Hkey x _ He. unfold not_equivalent.
    now rewrite (equivalent_other k key (first x) Hkey He). }
  pose proof (find_in_container s' k Hwf') as Hfind.
  split; [|split; [|split]].
  - unfold contains. destruct (findRecursive cmp (m_head s') (head_ptr s') k) as [[d q]|];
      [|reflexivity].
    destruct Hfind as [Hq He]. rewrite (Hgone q Hq) in He. discriminate.
  - unfold at_. destruct (findRecursive cmp (m_head s') (head_ptr s') k) as [[d q]|];
      [|reflexivity].
    destruct Hfind as [Hq He]. rewrite (Hgone q Hq) in He. discriminate.
  - intros key Hkey. rewrite (contains_char s' key Hwf'), (contains_char s key Hwf), Hbot.
    apply existsb_filter_kept. exact (Hkept key Hkey).
  - intros Hmap key Hkey.
    rewrite (at_map_char s' key Hmap Hwf'), (at_map_char s key Hmap Hwf), Hbot.
    rewrite find_filter_kept; [reflexivity|exact (Hkept key Hkey)].
Qed.

(** ** count *)

Lemma count_loop_spec key (G : list Pair) : forall c,
  mono (fun n => cmp key (first n)) G ->
  count_loop cmp key G c =
  c + length (filter (fun n => negb (cmp key (first n))) G).
Proof.
  induction G as [|g G IH]; intros c Hm; cbn [count_loop filter]; [simpl; lia|].
  destruct (cmp key (first g)) eqn:E; cbn [negb].
  - rewrite filter_none; [simpl; lia|].
    pose proof (mono_true_tail _ _ _ Hm E) as Hall.
    revert Hall. apply Forall_impl. intros x Hx. now rewrite Hx.
  - rewrite IH by (now inversion Hm). cbn [length]. lia.
Qed.

Lemma count_spec (s : Skiplist) key :
  wf MULTIMAP cmp s ->
  count cmp s key =
  length (filter (fun x => equivalent cmp key (first x)) (bottom (m_head s))).
Proof.
  intros Hwf. unfold count, lower_bound. rewrite iterator_at_node.
  pose proof (Sorted_ordered_le_key _ (wf_sorted Hwf)) as Hso.
  rewrite (descent_bound s key (negated_compare cmp) Hwf
             (fun l => sorted_mono_lower key l)).
  rewrite find_filter.
  pose proof (mono_split _ _ (sorted_mono_lower key _ Hso)) as Hsplit.
  pose proof (wf_ptrs Hwf) as Hnd.
  assert (Heq : filter (fun x => equivalent cmp key (first x)) (bottom (m_head s)) =
                filter (fun n => negb (cmp key (first n)))
                  (filter (fun n => negated_compare cmp key (first n))
                     (bottom (m_head s)))).
  { rewrite filter_twice. apply filter_ext. intros x.
    unfold equivalent, negated_compare. apply andb_comm. }
  rewrite Heq.
  assert (Hm2 : mono (fun n => cmp key (first n))
                  (filter (fun n => negated_compare cmp key (first n))
                     (bottom (m_head s)))).
  { apply StronglySorted_filter. now apply sorted_mono_upper. }
  remember (filter (fun n => negb (negated_compare cmp key (first n)))
              (bottom (m_head s))) as F1 eqn:E1.
  remember (filter (fun n => negated_compare cmp key (first n))
              (bottom (m_head s))) as F2 eqn:E2.
  clear E1 E2. destruct F2 as [|p F2']; [reflexivity|]. cbn [hd_error].
  rewrite Hsplit in Hnd |- *.
  rewrite right_of_node_app by (eapply NoDup_map_app_notin; eauto).
  now rewrite (count_loop_spec key (p :: F2') 0 Hm2).
Qed.

(** X8: [count(k)] is the number of elements whose key is equivalent to
    [k]; it is the number [erase(k)] returns, it is positive exactly when
    [contains(k)] holds, and for a map it is 0 or 1. *)
Theorem count_equivalent (s : Skiplist) (k : KEY) :
  wf MULTIMAP cmp s ->
  count cmp s k =
    length (filter (fun x => equivalent cmp k (first x)) (bottom (m_head s))) /\
  fst (erase cmp s k) = count cmp s k /\
  (0 < count cmp s k <-> contains cmp s k = true) /\
  (MULTIMAP = false -> count cmp s k <= 1).
Proof.
  intros Hwf. pose proof (count_spec s k Hwf) as Hc.
  destruct (erase_spec s k Hwf) as [He _]. cbv zeta in He.
  split; [exact Hc|]. split; [now rewrite He, Hc|]. split.
  - rewrite Hc, (contains_char s k Hwf). split.
    + intros Hpos.
      destruct (filter (fun x => equivalent cmp k (first x)) (bottom (m_head s)))
        as [|x t] eqn:E; [simpl in Hpos; lia|].
      assert (Hx : In x (filter (fun x => equivalent cmp k (first x)) (bottom (m_head s))))
        by (rewrite E; now left).
      apply filter_In in Hx. apply existsb_exists. eauto.
    + intros Hex. apply existsb_exists in Hex. destruct Hex as [x [Hx Hxe]].
      assert (Hin : In x (filter (fun x => equivalent cmp k (first x)) (bottom (m_head s))))
        by (apply filter_In; auto).
      destruct (filter (fun x => equivalent cmp k (first x)) (bottom (m_head s)));
        [destruct Hin|simpl; lia].
  - intros Hmap. rewrite Hc. apply length_le_one.
    + intros x y Hx Hy. apply filter_In in Hx, Hy.
      apply (map_equivalent_unique (bottom (m_head s)) k); try tauto.
      apply (wf_sorted Hwf).
    + apply NoDup_ptrs_filter. apply (wf_ptrs Hwf).
Qed.

(** ** Balancing sweeps *)

Lemma bottom_rev_cons (base : list Pair) (above : list (list Pair)) :
  bottom (rev (base :: above)) = base.
Proof. cbn [rev]. apply bottom_app. Qed.

Lemma balanced_height_here (s : Skiplist) (done rest : list Pair) p :
  NoDup (ptrs (done ++ p :: rest)) ->
  balanced_height s (done ++ p :: rest) p = calcBalancedLevel s (length done + 1) - 1.
Proof.
  intros Hnd. unfold balanced_height.
  rewrite before_node_app by (eapply NoDup_map_app_notin; eauto).
  now rewrite Nat.add_1_r.
Qed.

Lemma calcBalancedLevel_pos (s : Skiplist) i : 0 < i -> 0 < calcBalancedLevel s i.
Proof. intros Hi. rewrite calcBalancedLevel_v2 by exact Hi. lia. Qed.

Lemma iterator_balance_levels (s : Skiplist) (base : list Pair) hgt n p i db loc :
  NoDup (ptrs base) -> In p base ->
  m_head s = rev (base :: levels hgt base 0 n) ->
  iterator_balance s (mkIterator (Some p) i db loc) =
  set_head
    (rev (base :: levels (fun x => if same x p
                                   then calcBalancedLevel s (i + 1) - 1
                                   else hgt x) base 0 n)) s.
Proof.
  intros Hnd Hp Hhd. unfold iterator_balance. cbn [m_currentNode m_index].
  rewrite Hhd, rev_involutive.
  pose proof (balance_column_levels hgt base p (calcBalancedLevel s (i + 1)) n
                Hnd Hp 0 (Nat.le_0_l _)
                (calcBalancedLevel_pos s (i + 1) ltac:(lia))) as Hcol.
  rewrite (filter_all (fun x => 0 <=? hgt x) base) in Hcol
    by (rewrite Forall_forall; reflexivity).
  now rewrite Hcol.
Qed.

Lemma next_in_base (done rest : list Pair) p :
  NoDup (ptrs (done ++ p :: rest)) ->
  hd_error (right_of_node p (done ++ p :: rest)) = hd_error rest.
Proof.
  intros Hnd. rewrite right_of_node_app; [reflexivity|].
  eapply NoDup_map_app_notin; eauto.
Qed.

Section Sweep.

Variable s0 : Skiplist.
Variable base : list Pair.
Variable n : nat.
Hypothesis base_nodup : NoDup (ptrs base).

Local Abbreviation st := (with_levels s0 base n).
Local Abbreviation target := (balanced_height s0 base).

Lemma st_balance (hgt : Pair -> nat) p i db loc :
  In p base ->
  iterator_balance (st hgt) (mkIterator (Some p) i db loc) =
  st (fun x => if same x p then calcBalancedLevel s0 (i + 1) - 1 else hgt x).
Proof.
  intros Hp. unfold with_levels.
  rewrite (iterator_balance_levels (set_head (rev (base :: levels hgt base 0 n)) s0)
             base hgt n p i db loc base_nodup Hp eq_refl).
  reflexivity.
Qed.

Lemma st_ext (h1 h2 : Pair -> nat) :
  (forall x, In x base -> h1 x = h2 x) -> st h1 = st h2.
Proof.
  intros H. unfold with_levels. f_equal. f_equal. f_equal.
  apply levels_ext. intros j x _ Hx. now rewrite (H x Hx).
Qed.

Lemma st_bottom (hgt : Pair -> nat) : bottom (m_head (st hgt)) = base.
Proof. unfold with_levels. cbn [m_head set_head]. apply bottom_rev_cons. Qed.

Lemma step_height (hgt : Pair -> nat) done p rest x :
  base = done ++ p :: rest -> In x base ->
  (same x p = false -> hgt x = target x) ->
  (if same x p then calcBalancedLevel s0 (length done + 1) - 1 else hgt x) =
  target x.
Proof.
  intros Hb Hx Hh. assert (Hp : In p base).
  { rewrite Hb. apply in_or_app. right. now left. }
  destruct (same x p) eqn:Es; [|now apply Hh].
  rewrite (same_base base x p base_nodup Hx Hp Es). rewrite Hb.
  symmetry. apply balanced_height_here. rewrite <- Hb. exact base_nodup.
Qed.

Lemma st_incr (hgt : Pair -> nat) done p rest :
  base = done ++ p :: rest ->
  iterator_incr (st hgt) (mkIterator (Some p) (length done) false BEGINNING) =
  let s' := st (fun x => if same x p
                         then calcBalancedLevel s0 (length done + 1) - 1
                         else hgt x) in
  match rest with
  | [] => (set_balanced true s', mkIterator None (S (length done)) true BEGINNING)
  | q :: _ => (s', mkIterator (Some q) (S (length done)) false BEGINNING)
  end.
Proof.
  intros Hb. unfold iterator_incr.
  cbn [m_dontBalance negb m_currentNode m_startLocation m_index].
  assert (Hp : In p base) by (rewrite Hb; apply in_or_app; right; now left).
  rewrite (st_balance hgt p (length done) false BEGINNING Hp).
  rewrite st_bottom.
  assert (Hnext : hd_error (right_of_node p base) = hd_error rest).
  { rewrite Hb at 1. apply next_in_base. rewrite <- Hb. exact base_nodup. }
  rewrite Hnext. destruct rest; reflexivity.
Qed.

Lemma incr_sweep (rest : list Pair) : forall done hgt p,
  base = done ++ p :: rest ->
  (forall x, In x done -> hgt x = target x) ->
  incr_n (S (length rest)) (st hgt)
    (mkIterator (Some p) (length done) false BEGINNING) =
  (set_balanced true (st target), mkIterator None (length base) true BEGINNING).
Proof.
  induction rest as [|q rest IH]; intros done hgt p Hb Hh;
    cbn [length incr_n]; rewrite (st_incr hgt done p _ Hb); cbv beta iota zeta.
  - f_equal.
    + f_equal. apply st_ext. intros x Hx. apply (step_height hgt done p [] x Hb Hx).
      intros Es. apply Hh. rewrite Hb in Hx. apply in_app_or in Hx.
      destruct Hx as [Hx|[<-|[]]]; [exact Hx|].
      rewrite same_refl in Es. discriminate.
    + f_equal. rewrite Hb, length_app. cbn [length]. lia.
  - replace (S (length done)) with (length (done ++ [p]))
      by (rewrite length_app; cbn [length]; lia).
    apply IH.
    + rewrite <- app_assoc. exact Hb.
    + intros x Hx.
      assert (Hxb : In x base).
      { rewrite Hb. apply in_or_app. apply in_app_or in Hx.
        destruct Hx as [Hx|[<-|[]]]; [now left|]. right. now left. }
      apply (step_height hgt done p (q :: rest) x Hb Hxb).
      intros Es. apply Hh. apply in_app_or in Hx.
      destruct Hx as [Hx|[<-|[]]]; [exact Hx|].
      rewrite same_refl in Es. discriminate.
Qed.

Hypothesis s0_tail : m_tail s0 = last_node nullptr base.

Lemma st_decr (hgt : Pair -> nat) rest q done :
  base = (rest ++ [q]) ++ done ->
  iterator_decr (st hgt)
    (mkIterator (hd_error done) (length (rest ++ [q])) false END) =
  let s' := st (fun x => if same x q
                         then calcBalancedLevel s0 (length rest + 1) - 1
                         else hgt x) in
  match rest with
  | [] => (set_balanced true s', mkIterator (Some q) 0 true END)
  | _ :: _ => (s', mkIterator (Some q) (length rest) false END)
  end.
Proof.
  intros Hb.
  assert (Hlen : length (rest ++ [q]) - 1 = length rest).
  { rewrite length_app. cbn [length]. lia. }
  assert (Hq : In q base).
  { rewrite Hb. apply in_or_app. left. apply in_or_app. right. now left. }
  assert (Hnq : ~ In (ptr q) (ptrs rest)).
  { rewrite <- app_assoc in Hb. cbn [app] in Hb.
    eapply NoDup_map_app_notin. rewrite <- Hb. exact base_nodup. }
  assert (Hfirst : forall h, is_first (st h) q =
                             match rest with [] => true | _ :: _ => false end).
  { intros h. unfold is_first. rewrite st_bottom. unfold Prev_of.
    rewrite Hb at 1. rewrite <- app_assoc. cbn [app].
    rewrite before_node_app by exact Hnq.
    destruct rest as [|r0 rest'] using rev_ind; [reflexivity|].
    rewrite last_node_app. destruct (rest' ++ [r0]) eqn:E; [|reflexivity].
    apply app_eq_nil in E. destruct E; discriminate. }
  assert (Hmove : (match hd_error done with
                   | None => to_node (m_tail (st hgt))
                   | Some c =>
                       match Prev_of c (bottom (m_head (st hgt))) with
                       | node q' => Some q'
                       | _ => None
                       end
                   end) = Some q).
  { rewrite st_bottom. destruct done as [|c done']; cbn [hd_error].
    - unfold with_levels. cbn [m_tail set_head].
      rewrite s0_tail. rewrite Hb at 1. rewrite app_nil_r, last_node_app. reflexivity.
    - unfold Prev_of. rewrite Hb at 1. rewrite before_node_app.
      + rewrite last_node_app. reflexivity.
      + eapply NoDup_map_app_notin. rewrite <- Hb. exact base_nodup. }
  unfold iterator_decr. cbn [m_currentNode m_index m_dontBalance m_startLocation].
  rewrite Hlen.
  destruct done as [|c done']; cbn [hd_error] in Hmove |- *.
  - rewrite Hmove. cbn [m_dontBalance negb m_currentNode m_startLocation m_index].
    rewrite (st_balance hgt q (length rest) false END Hq), Hfirst.
    destruct rest; reflexivity.
  - destruct (Prev_of c (bottom (m_head (st hgt)))) as [| |q'];
      try discriminate Hmove. injection Hmove as ->.
    cbn [m_dontBalance negb m_currentNode m_startLocation m_index].
    rewrite (st_balance hgt q (length rest) false END Hq), Hfirst.
    destruct rest; reflexivity.
Qed.

Lemma decr_sweep (rest : list Pair) : forall q done hgt,
  base = (rest ++ [q]) ++ done ->
  (forall x, In x done -> hgt x = target x) ->
  decr_n (S (length rest)) (st hgt)
    (mkIterator (hd_error done) (length (rest ++ [q])) false END) =
  (set_balanced true (st target), mkIterator (hd_error base) 0 true END).
Proof.
  induction rest as [|q' rest IH] using rev_ind; intros q done hgt Hb Hh.
  - cbn [length decr_n]. rewrite (st_decr hgt [] q done Hb). cbv beta iota zeta.
    f_equal.
    + f_equal. apply st_ext. intros x Hx.
      cbn [app] in Hb.
      apply (step_height hgt [] q done x Hb Hx).
      intros Es. apply Hh. rewrite Hb in Hx. destruct Hx as [<-|Hx]; [|exact Hx].
      rewrite same_refl in Es. discriminate.
    + now rewrite Hb.
  - replace (S (length (rest ++ [q']))) with (S (S (length rest)))
      by (rewrite length_app; cbn [length]; lia).
    cbn [decr_n]. rewrite (st_decr hgt (rest ++ [q']) q done Hb). cbv zeta.
    assert (Hcase : forall (A : Type) (x y : A),
              match rest ++ [q'] with [] => x | _ :: _ => y end = y).
    { intros A x y. destruct (rest ++ [q']) eqn:E; [|reflexivity].
      apply app_eq_nil in E. destruct E; discriminate. }
    rewrite Hcase. cbv beta iota.
    assert (Hb' : base = (rest ++ [q']) ++ q :: done).
    { rewrite Hb. now rewrite <- !app_assoc. }
    replace (length (rest ++ [q'])) with (length (rest ++ [q'])) by reflexivity.
    change (Some q) with (hd_error (q :: done)).
    apply (IH q' (q :: done)).
    + exact Hb'.
    + intros x Hx.
      assert (Hxb : In x base) by (rewrite Hb'; apply in_or_app; now right).
      apply (step_height hgt (rest ++ [q']) q done x Hb' Hxb).
      intros Es. apply Hh. destruct Hx as [<-|Hx]; [|exact Hx].
      rewrite same_refl in Es. discriminate.
Qed.

End Sweep.

(** ** Iteration *)

Lemma set_head_same (s : Skiplist) : set_head (m_head s) s = s.
Proof. destruct s; reflexivity. Qed.

Lemma wf_with_levels (s : Skiplist) base above :
  wf MULTIMAP cmp s -> rev (m_head s) = base :: above ->
  bottom (m_head s) = base /\
  above = levels (fun x => column_height x above) base 0 (length above) /\
  s = with_levels s base (length above) (fun x => column_height x above) /\
  m_levelCount s = S (length above).
Proof.
  intros Hwf Erev. destruct (bottom_rev _ _ _ Erev) as [Hbot Hlists].
  assert (Htower : tower base above).
  { apply tower_stacked. rewrite <- Hlists. apply (wf_stacked Hwf). }
  pose proof (wf_ptrs Hwf) as Hnd. rewrite Hbot in Hnd.
  pose proof (tower_levels above base Hnd Htower) as Hlv.
  split; [exact Hbot|]. split; [exact Hlv|]. split.
  - unfold with_levels. rewrite <- Hlv, <- Hlists. symmetry. apply set_head_same.
  - rewrite <- (wf_levels Hwf), Hlists, length_rev. reflexivity.
Qed.

Lemma column_height_levels (base : list Pair) hgt n x :
  NoDup (ptrs base) -> In x base ->
  column_height x (rev (base :: levels hgt base 0 n)) = 1 + Nat.min (hgt x) n.
Proof.
  intros Hnd Hx. unfold column_height. rewrite filter_rev, length_rev.
  cbn [filter]. rewrite (memb_In x base Hx). cbn [length Nat.add]. f_equal.
  unfold levels. rewrite length_filter_map.
  rewrite (filter_ext _ (fun j => j <? 0 + hgt x)).
  - apply length_filter_below.
  - intros j. now rewrite (memb_filter_base _ base x Hnd Hx).
Qed.

Lemma iterator_balance_bottom (s : Skiplist) it :
  bottom (m_head (iterator_balance s it)) = bottom (m_head s) /\
  m_count (iterator_balance s it) = m_count s /\
  m_tail (iterator_balance s it) = m_tail s /\
  m_levelCount (iterator_balance s it) = m_levelCount s.
Proof.
  unfold iterator_balance. destruct (m_currentNode it) as [p|]; [|auto].
  destruct (rev (m_head s)) as [|here above] eqn:E; [auto|].
  cbn [m_head set_head m_count m_tail m_levelCount]. rewrite bottom_rev_cons.
  destruct (bottom_rev _ _ _ E) as [Hbot _]. auto.
Qed.

Lemma iterator_incr_spec (s : Skiplist) it :
  let r := iterator_incr s it in
  bottom (m_head (fst r)) = bottom (m_head s) /\ m_count (fst r) = m_count s /\
  m_tail (fst r) = m_tail s /\ m_levelCount (fst r) = m_levelCount s /\
  m_currentNode (snd r) =
    match m_currentNode it with
    | Some p => hd_error (right_of_node p (bottom (m_head s)))
    | None => None
    end.
Proof.
  cbv zeta. unfold iterator_incr.
  set (s1 := if negb (m_dontBalance it) then iterator_balance s it else s).
  assert (H1 : bottom (m_head s1) = bottom (m_head s) /\ m_count s1 = m_count s /\
               m_tail s1 = m_tail s /\ m_levelCount s1 = m_levelCount s).
  { unfold s1. destruct (negb (m_dontBalance it)); [apply iterator_balance_bottom|auto]. }
  destruct H1 as [Hb [Hc [Ht Hl]]]. rewrite Hb.
  destruct (match m_currentNode it with
            | Some p => hd_error (right_of_node p (bottom (m_head s)))
            | None => None
            end) as [q|]; cbn [fst snd m_currentNode]; [auto|].
  destruct (m_dontBalance it); cbn [fst snd m_currentNode]; [auto|].
  destruct (m_startLocation it); cbn [fst snd m_currentNode m_head set_balanced
    m_count m_tail m_levelCount]; auto.
Qed.

Lemma iterator_decr_spec (s : Skiplist) it :
  let r := iterator_decr s it in
  bottom (m_head (fst r)) = bottom (m_head s) /\ m_count (fst r) = m_count s /\
  m_tail (fst r) = m_tail s /\ m_levelCount (fst r) = m_levelCount s /\
  m_currentNode (snd r) =
    match m_currentNode it with
    | None => to_node (m_tail s)
    | Some p =>
        match Prev_of p (bottom (m_head s)) with
        | node q => Some q
        | _ => Some p
        end
    end.
Proof.
  cbv zeta. unfold iterator_decr.
  set (it1 := match m_currentNode it with
              | None => _
              | Some p => _
              end).
  assert (Hcur : m_currentNode it1 =
                 match m_currentNode it with
                 | None => to_node (m_tail s)
                 | Some p =>
                     match Prev_of p (bottom (m_head s)) with
                     | node q => Some q
                     | _ => Some p
                     end
                 end).
  { unfold it1. destruct (m_currentNode it) as [p|] eqn:E; [|reflexivity].
    destruct (Prev_of p (bottom (m_head s))); cbn [m_currentNode]; auto. }
  rewrite <- Hcur. clearbody it1.
  destruct (negb (m_dontBalance it1)); cbn [fst snd]; [|auto 6].
  pose proof (iterator_balance_bottom s it1) as [Hb [Hc [Ht Hl]]].
  destruct (m_currentNode it1) as [p|] eqn:Ecur; [|cbn [fst snd]; auto 6].
  destruct (m_startLocation it1); cbn [fst snd]; auto 6.
  destruct (is_first (iterator_balance s it1) p);
    cbn [fst snd m_currentNode m_head set_balanced m_count m_tail m_levelCount]; auto 6.
Qed.

Lemma nth_next (base : list Pair) : forall i,
  NoDup (ptrs base) ->
  match nth_error base i with
  | Some p => hd_error (right_of_node p base)
  | None => None
  end = nth_error base (S i).
Proof.
  induction base as [|a base IH]; intros i Hnd; [destruct i; reflexivity|].
  inversion Hnd as [|? ? Hn Hnd']; subst.
  destruct i as [|i].
  - cbn [nth_error right_of_node]. rewrite same_refl. destruct base; reflexivity.
  - change (nth_error (a :: base) (S i)) with (nth_error base i).
    change (nth_error (a :: base) (S (S i))) with (nth_error base (S i)).
    cbn [right_of_node]. rewrite <- (IH i Hnd'). destruct (nth_error base i) as [p|] eqn:E; [|reflexivity].
    replace (same a p) with false; [reflexivity|].
    symmetry. apply same_false_iff. intros Eq. apply Hn. rewrite Eq.
    apply in_map. eapply nth_error_In; eauto.
Qed.

Lemma nth_prev (base : list Pair) i p :
  NoDup (ptrs base) -> nth_error base (S i) = Some p ->
  exists q, Prev_of p base = node q /\ nth_error base i = Some q.
Proof.
  intros Hnd Hp. pose proof (nth_error_In _ _ Hp) as Hin.
  pose proof (split_at_node base p Hnd Hin) as Hsplit.
  pose proof (before_node_nth base (S i) p Hnd Hp) as Hlen.
  unfold Prev_of.
  destruct (before_node p base) as [|x xs]; [discriminate Hlen|].
  destruct (exists_last (l := x :: xs)) as [B [b Eb]]; [discriminate|].
  rewrite Eb in *. clear Eb x xs.
  rewrite last_node_app. exists b. split; [reflexivity|].
  rewrite length_app in Hlen. cbn [length] in Hlen.
  rewrite Hsplit, <- app_assoc. cbn [app].
  rewrite nth_error_app2 by lia. replace (i - length B) with 0 by lia. reflexivity.
Qed.

Lemma incr_n_visits (base : list Pair) : NoDup (ptrs base) ->
  forall k (s : Skiplist) it i,
  bottom (m_head s) = base -> m_currentNode it = nth_error base i ->
  bottom (m_head (fst (incr_n k s it))) = base /\
  m_count (fst (incr_n k s it)) = m_count s /\
  m_currentNode (snd (incr_n k s it)) = nth_error base (i + k).
Proof.
  intros Hnd. induction k as [|k IH]; intros s it i Hb Hc.
  - cbn [incr_n fst snd]. rewrite Nat.add_0_r. auto.
  - cbn [incr_n]. destruct (iterator_incr_spec s it) as [H1 [H2 [_ [_ H3]]]].
    destruct (iterator_incr s it) as [s1 it1]. cbn [fst snd] in *.
    destruct (IH s1 it1 (S i)) as [I1 [I2 I3]].
    + now rewrite H1.
    + rewrite H3, Hc, Hb. now apply nth_next.
    + split; [exact I1|]. split; [congruence|].
      rewrite I3. f_equal. lia.
Qed.

Lemma decr_n_visits (base : list Pair) : NoDup (ptrs base) ->
  forall k (s : Skiplist) it i,
  bottom (m_head s) = base -> m_tail s = last_node nullptr base ->
  m_currentNode it = nth_error base i -> k <= i -> i <= length base ->
  bottom (m_head (fst (decr_n k s it))) = base /\
  m_count (fst (decr_n k s it)) = m_count s /\
  m_currentNode (snd (decr_n k s it)) = nth_error base (i - k).
Proof.
  intros Hnd. induction k as [|k IH]; intros s it i Hb Ht Hc Hk Hi.
  - cbn [decr_n fst snd]. rewrite Nat.sub_0_r. auto.
  - cbn [decr_n]. destruct (iterator_decr_spec s it) as [H1 [H2 [H3 [_ H4]]]].
    destruct (iterator_decr s it) as [s1 it1]. cbn [fst snd] in *.
    destruct i as [|i]; [lia|].
    assert (Hcur : m_currentNode it1 = nth_error base i).
    { rewrite H4, Hc, Hb, Ht.
      destruct (nth_error base (S i)) as [p|] eqn:E.
      - destruct (nth_prev base i p Hnd E) as [q [Hq Hnq]]. now rewrite Hq.
      - apply nth_error_None in E. assert (Hlen : length base = S i) by lia.
        destruct base as [|b0 B] using rev_ind; [discriminate Hlen|].
        rewrite last_node_app. cbn [to_node].
        rewrite length_app in Hlen. cbn [length] in Hlen.
        rewrite nth_error_app2 by lia. replace (i - length B) with 0 by lia.
        reflexivity. }
    destruct (IH s1 it1 i) as [I1 [I2 I3]]; try lia.
    + now rewrite H1.
    + now rewrite H3.
    + exact Hcur.
    + split; [exact I1|]. split; [congruence|]. exact I3.
Qed.

Lemma incr_n_idle k : forall (s : Skiplist) it,
  m_dontBalance it = true -> fst (incr_n k s it) = s.
Proof.
  induction k as [|k IH]; intros s it Hd; [reflexivity|].
  cbn [incr_n]. unfold iterator_incr. rewrite Hd. cbn [negb].
  destruct (match m_currentNode it with
            | Some p => hd_error (right_of_node p (bottom (m_head s)))
            | None => None
            end); apply IH; reflexivity.
Qed.

Lemma decr_n_idle k : forall (s : Skiplist) it,
  m_dontBalance it = true -> fst (decr_n k s it) = s.
Proof.
  induction k as [|k IH]; intros s it Hd; [reflexivity|].
  cbn [decr_n]. unfold iterator_decr.
  set (it1 := match m_currentNode it with
              | None => _
              | Some p => _
              end).
  assert (Hd1 : m_dontBalance it1 = true).
  { unfold it1. destruct (m_currentNode it) as [p|]; [|exact Hd].
    destruct (Prev_of p (bottom (m_head s))); cbn [m_dontBalance]; exact Hd. }
  rewrite Hd1. cbn [negb]. now apply IH.
Qed.

Lemma balance_props (s : Skiplist) :
  wf MULTIMAP cmp s ->
  wf MULTIMAP cmp (balance s) /\
  m_balanced (balance s) = true /\
  bottom (m_head (balance s)) = bottom (m_head s) /\
  m_count (balance s) = m_count s /\
  forall i p, nth_error (bottom (m_head s)) i = Some p ->
              column_height p (m_head (balance s)) = 1 + v2 (S i).
Proof.
  intros Hwf. destruct (m_balanced s) eqn:Hb.
  - assert (E : balance s = s) by (unfold balance, balanceWorker; now rewrite Hb).
    rewrite E. split; [exact Hwf|]. split; [exact Hb|].
    split; [reflexivity|]. split; [reflexivity|].
    pose proof (wf_balanced Hwf Hb) as Hshape.
    intros i p Hi. rewrite (Hshape i p Hi). apply calcBalancedLevel_v2. lia.
  - destruct (balanced_lists_spec s Hwf) as [Hlen [Hbot [Hst Hcol]]].
    rewrite (balance_unfold s Hb).
    cbn [m_head set_head m_balanced set_balanced m_count].
    split; [|split; [reflexivity|split; [exact Hbot|split; [reflexivity|exact Hcol]]]].
    constructor;
      cbn [m_head set_head m_balanced set_balanced m_count m_levelCount m_countMin
           m_countMax m_begin m_tail]; rewrite ?Hbot; try apply Hwf; try assumption.
    intros _ i p Hi. cbn [m_head set_head] in Hi |- *. rewrite Hbot in Hi.
    rewrite (Hcol i p Hi). symmetry. apply calcBalancedLevel_v2. lia.
Qed.

Lemma begin_fields (s : Skiplist) :
  wf MULTIMAP cmp s ->
  m_currentNode (begin_ s) = hd_error (bottom (m_head s)) /\
  m_dontBalance (begin_ s) = m_balanced s /\
  m_index (begin_ s) = 0 + (if m_count s =? 0 then m_count s else 0) /\
  (bottom (m_head s) <> [] -> m_startLocation (begin_ s) = BEGINNING).
Proof.
  intros Hwf. unfold begin_, end_, iterator_indexed, is_balanced.
  destruct (m_head s) as [|u lists] eqn:E.
  - cbn [m_currentNode m_dontBalance m_index m_startLocation bottom last hd_error].
    pose proof (wf_count Hwf) as Hc. rewrite E in Hc. simpl in Hc. rewrite <- Hc.
    repeat split; auto. intros H. now elim H.
  - rewrite <- E. cbn [m_currentNode m_dontBalance m_index m_startLocation].
    rewrite (wf_begin Hwf).
    assert (Hne : bottom (m_head s) <> []).
    { apply (wf_nonempty s Hwf). rewrite E. discriminate. }
    pose proof (wf_count Hwf) as Hc.
    destruct (bottom (m_head s)) as [|a l] eqn:Hb; [now elim Hne|].
    cbn [hd_error]. simpl in Hc. rewrite <- Hc. cbn [Nat.eqb].
    split; [reflexivity|]. split; [reflexivity|]. split; [reflexivity|]. intros _.
    unfold is_first, Prev_of. rewrite Hb. cbn [before_node]. now rewrite same_refl.
Qed.

Lemma sweep_forward_eq (s : Skiplist) :
  wf MULTIMAP cmp s -> 0 < m_count s ->
  fst (incr_n (m_count s) s (begin_ s)) = balance s.
Proof.
  intros Hwf Hpos.
  destruct (begin_fields s Hwf) as [Hcur [Hdb [Hidx Hloc]]].
  destruct (m_balanced s) eqn:Hb.
  - rewrite (incr_n_idle (m_count s) s (begin_ s) Hdb).
    unfold balance, balanceWorker. now rewrite Hb.
  - destruct (rev (m_head s)) as [|base above] eqn:Erev.
    { apply (proj1 (rev_nil_iff _ _)) in Erev. pose proof (wf_count Hwf) as Hc.
      rewrite Erev in Hc. simpl in Hc. lia. }
    destruct (wf_with_levels s base above Hwf Erev) as [Hbase [_ [Hs _]]].
    pose proof (wf_ptrs Hwf) as Hnd. pose proof (wf_count Hwf) as Hc.
    rewrite Hbase in Hnd, Hc, Hcur, Hloc.
    destruct base as [|a rest]; [simpl in Hc; lia|].
    assert (Hit : begin_ s = mkIterator (Some a) (length (@nil Pair)) false BEGINNING).
    { destruct (begin_ s) as [c i d l]. cbn [m_currentNode m_dontBalance m_index
        m_startLocation] in *. rewrite <- Hc in Hidx. cbn [length Nat.eqb] in Hidx.
      rewrite Hcur, Hdb, Hidx, Hloc by discriminate. reflexivity. }
    rewrite Hit, <- Hc. cbn [length]. rewrite Hs at 1.
    rewrite (incr_sweep s (a :: rest) (length above) Hnd rest [] _ a eq_refl)
      by (intros x []).
    cbn [fst]. rewrite (balance_unfold s Hb). unfold balanced_lists, with_levels.
    rewrite Erev, (levels_balanced s (a :: rest) (length above) Hnd). reflexivity.
Qed.

Lemma sweep_backward_eq (s : Skiplist) :
  wf MULTIMAP cmp s -> 0 < m_count s ->
  fst (decr_n (m_count s) s (end_ s)) = balance s.
Proof.
  intros Hwf Hpos.
  destruct (m_balanced s) eqn:Hb.
  - rewrite (decr_n_idle (m_count s) s (end_ s)) by exact Hb.
    unfold balance, balanceWorker. now rewrite Hb.
  - destruct (rev (m_head s)) as [|base above] eqn:Erev.
    { apply (proj1 (rev_nil_iff _ _)) in Erev. pose proof (wf_count Hwf) as Hc.
      rewrite Erev in Hc. simpl in Hc. lia. }
    destruct (wf_with_levels s base above Hwf Erev) as [Hbase [_ [Hs _]]].
    pose proof (wf_ptrs Hwf) as Hnd. pose proof (wf_count Hwf) as Hc.
    pose proof (wf_tail Hwf) as Htl.
    rewrite Hbase in Hnd, Hc, Htl.
    destruct base as [|a0 base0]; [simpl in Hc; lia|].
    destruct (exists_last (l := a0 :: base0)) as [rest [q Eq]]; [discriminate|].
    rewrite Eq in *. clear Eq a0 base0.
    assert (Hit : end_ s = mkIterator (hd_error (@nil Pair))
                             (length (rest ++ [q])) false END).
    { unfold end_, iterator_indexed, is_balanced. now rewrite Hb, Hc. }
    assert (Hn : m_count s = S (length rest)).
    { rewrite <- Hc, length_app. cbn [length]. lia. }
    rewrite Hit, Hn. rewrite Hs at 1.
    rewrite (decr_sweep s (rest ++ [q]) (length above) Hnd Htl rest q [] _)
      by (try (now rewrite app_nil_r); intros x []).
    cbn [fst]. rewrite (balance_unfold s Hb). unfold balanced_lists, with_levels.
    rewrite Erev, (levels_balanced s (rest ++ [q]) (length above) Hnd). reflexivity.
Qed.

Lemma begin_dontBalance (s : Skiplist) : m_dontBalance (begin_ s) = m_balanced s.
Proof.
  unfold begin_, end_, iterator_indexed, is_balanced.
  destruct (m_head s); reflexivity.
Qed.

(** X9: on a container that is not empty and has the invariants on its
    structure, a cursor taken from [begin()] and incremented [size()]
    times, or taken from [end()] and decremented [size()] times, leaves
    the container exactly as [balance()] does, with the flag set and the
    elements the same in the same order.  If the flag was not set before,
    the element at 1-based index [i] then has a node in [1 + v2 i] lists;
    if it was set, the cursor does not balance and the container is left
    as it was, whatever its heights. *)
Theorem full_sweep_is_balance (s : Skiplist) :
  wf_structure MULTIMAP cmp s -> 0 < size s ->
  let forward := fst (incr_n (size s) s (begin_ s)) in
  let backward := fst (decr_n (size s) s (end_ s)) in
  forward = balance s /\ backward = balance s /\
  is_balanced forward = true /\ is_balanced backward = true /\
  bottom (m_head forward) = bottom (m_head s) /\
  bottom (m_head backward) = bottom (m_head s) /\
  (is_balanced s = false ->
   forall i p, nth_error (bottom (m_head s)) i = Some p ->
               column_height p (m_head forward) = 1 + v2 (S i) /\
               column_height p (m_head backward) = 1 + v2 (S i)) /\
  (is_balanced s = true -> forward = s /\ backward = s).
Proof.
  intros Hs Hpos forward backward. unfold size, is_balanced in *.
  destruct (m_balanced s) eqn:Hb.
  - assert (Hf : forward = s).
    { apply incr_n_idle. now rewrite begin_dontBalance. }
    assert (Hk : backward = s) by (now apply decr_n_idle).
    assert (Hbal : balance s = s).
    { unfold balance, balanceWorker. now rewrite Hb. }
    rewrite Hf, Hk, Hbal, Hb.
    split; [reflexivity|]. split; [reflexivity|]. split; [reflexivity|].
    split; [reflexivity|]. split; [reflexivity|]. split; [reflexivity|].
    split; [discriminate|]. intros _. split; reflexivity.
  - pose proof (wf_structure_unflagged s Hs Hb) as Hwf.
    destruct (balance_props s Hwf) as [_ [Hflag [Hbot [_ Hcol]]]].
    assert (Hf : forward = balance s) by (now apply sweep_forward_eq).
    assert (Hk : backward = balance s) by (now apply sweep_backward_eq).
    rewrite Hf, Hk.
    split; [reflexivity|]. split; [reflexivity|]. split; [exact Hflag|].
    split; [exact Hflag|]. split; [exact Hbot|]. split; [exact Hbot|].
    split; [|discriminate].
    intros _ i p Hi. split; exact (Hcol i p Hi).
Qed.

(** X10: [k <= size()] increments of a cursor taken from [begin()] leave
    it on the element at index [k] (past the end for [k = size()]), and
    [k] decrements of a cursor taken from [end()] leave it on the element
    at index [size() - k]; whether or not the cursor balances on its way,
    the sequence of elements and the size stay as they were. *)
Theorem iteration_in_order (s : Skiplist) (k : nat) :
  wf MULTIMAP cmp s -> k <= size s ->
  let l := bottom (m_head s) in
  m_currentNode (snd (incr_n k s (begin_ s))) = nth_error l k /\
  m_currentNode (snd (decr_n k s (end_ s))) = nth_error l (size s - k) /\
  bottom (m_head (fst (incr_n k s (begin_ s)))) = l /\
  bottom (m_head (fst (decr_n k s (end_ s)))) = l /\
  size (fst (incr_n k s (begin_ s))) = size s /\
  size (fst (decr_n k s (end_ s))) = size s.
Proof.
  intros Hwf Hk l. unfold size in *.
  pose proof (wf_ptrs Hwf) as Hnd. pose proof (wf_count Hwf) as Hc. fold l in Hnd, Hc.
  destruct (begin_fields s Hwf) as [Hcur _]. fold l in Hcur.
  destruct (incr_n_visits l Hnd k s (begin_ s) 0 eq_refl) as [I1 [I2 I3]].
  { rewrite Hcur. destruct l; reflexivity. }
  destruct (decr_n_visits l Hnd k s (end_ s) (m_count s) eq_refl (wf_tail Hwf))
    as [D1 [D2 D3]]; try lia.
  { symmetry. apply nth_error_None. cbn [m_currentNode end_ iterator_indexed]. lia. }
  auto 7.
Qed.

(** X11: balancing the column of the current element of a cursor with
    index [i] gives that column [1 + v2 (i + 1)] nodes, or as many as there
    are levels if that is less; the columns of the other elements, the
    bottom list and the vertical consistency of the lists stay. *)
Theorem balance_one_column (s : Skiplist) (p : Pair) (i : nat) db loc :
  wf MULTIMAP cmp s -> In p (bottom (m_head s)) ->
  let s' := iterator_balance s (mkIterator (Some p) i db loc) in
  bottom (m_head s') = bottom (m_head s) /\
  column_height p (m_head s') = Nat.min (1 + v2 (i + 1)) (m_levelCount s) /\
  (forall x, In x (bottom (m_head s)) -> x <> p ->
             column_height x (m_head s') = column_height x (m_head s)) /\
  stacked (m_head s').
Proof.
  intros Hwf Hp s'.
  destruct (rev (m_head s)) as [|base above] eqn:Erev.
  { apply (proj1 (rev_nil_iff _ _)) in Erev. rewrite Erev in Hp. destruct Hp. }
  destruct (wf_with_levels s base above Hwf Erev) as [Hbase [Hlv [_ HL]]].
  destruct (bottom_rev _ _ _ Erev) as [_ Hlists].
  pose proof (wf_ptrs Hwf) as Hnd. rewrite Hbase in Hnd, Hp |- *.
  assert (Hhd : m_head s = rev (base :: levels (fun x => column_height x above)
                                          base 0 (length above))).
  { now rewrite <- Hlv. }
  assert (Hs' : m_head s' =
                rev (base :: levels (fun x => if same x p
                                              then calcBalancedLevel s (i + 1) - 1
                                              else column_height x above)
                               base 0 (length above))).
  { unfold s'. now rewrite (iterator_balance_levels s base _ _ p i db loc Hnd Hp Hhd). }
  rewrite Hs'. split; [apply bottom_rev_cons|]. split; [|split].
  - rewrite (column_height_levels base _ _ p Hnd Hp), same_refl.
    rewrite calcBalancedLevel_v2 by lia. rewrite HL. lia.
  - intros x Hx Hne. rewrite (column_height_levels base _ _ x Hnd Hx).
    rewrite Hhd, (column_height_levels base _ _ x Hnd Hx).
    destruct (same x p) eqn:Es; [|reflexivity].
    elim Hne. exact (same_base base x p Hnd Hx Hp Es).
  - apply tower_stacked.
    rewrite <- (filter_all (fun _ => true) base) at 1
      by (rewrite Forall_forall; reflexivity).
    apply tower_levels_form; auto.
Qed.

(** ** Every reachable container keeps the invariants *)

Lemma new_wf seed : wf MULTIMAP cmp (Skiplist_new KEY VAL seed).
Proof.
  constructor; try reflexivity.
  - simpl. lia.
  - constructor.
  - constructor.
  - constructor.
  - intros _ i p Hi. destruct i; discriminate.
Qed.

Lemma clear_wf seed (s : Skiplist) : wf MULTIMAP cmp (clear seed s).
Proof.
  constructor; try reflexivity.
  - simpl. lia.
  - constructor.
  - constructor.
  - constructor.
  - intros _ i p Hi. destruct i; discriminate.
Qed.

Lemma insertWithHintMultimap_wf (s : Skiplist) (b : option Pair) (p : Pair) :
  MULTIMAP = true -> wf MULTIMAP cmp s -> fresh p s ->
  (forall bn, b = Some bn -> In bn (bottom (m_head s))) ->
  wf MULTIMAP cmp
    (snd (insertWithHintMultimap MULTIMAP cmp s (mkConstIterator b) (first p) p)).
Proof.
  intros Hmulti Hwf Hp Hb.
  destruct (hint_split s b Hwf Hb) as [Hsplit [Hm [HB [HR Hprev]]]].
  unfold insertWithHintMultimap. cbn [c_currentNode].
  set (a := hint_prev s b) in *. set (l := bottom (m_head s)) in *.
  set (k := first p).
  destruct (match b with None => false | Some bn => cmp (first bn) k end) eqn:T1.
  - pose proof (insertTopDown_wf s k (negated_compare cmp) p Hwf Hp eq_refl
                  (or_intror (conj Hmulti eq_refl))) as H.
    destruct (insertTopDown MULTIMAP s k (negated_compare cmp) p) as [[n0 ok] s'].
    exact H.
  - destruct (match a with node an => cmp k (first an) | _ => false end) eqn:T2.
    + pose proof (insertTopDown_wf s k cmp p Hwf Hp eq_refl (or_introl eq_refl)) as H.
      destruct (insertTopDown MULTIMAP s k cmp p) as [[n0 ok] s'].
      exact H.
    + destruct (insertBottomUp_spec s (hint_stop b l) p a Hwf Hp Hm)
        as [s' [Hins [Hwf' _]]].
      * fold l. rewrite HB. intros x Hx.
        assert (Ea : a = node x).
        { destruct Hprev as [E|[Hnil E]]; [congruence|].
          rewrite Hsplit in Hnil. apply app_eq_nil in Hnil. destruct Hnil as [Hnil _].
          rewrite Hnil in Hx. discriminate. }
        rewrite Ea in T2. split; [exact T2|]. intros E. congruence.
      * fold l. rewrite HR. destruct b as [bn|]; cbn [hint_from]; constructor.
        split; [exact T1|]. intros E. congruence.
      * fold l. rewrite HB. exact Hprev.
      * rewrite Hins. exact Hwf'.
Qed.

Lemma insert_hint_wf (s : Skiplist) (b : option Pair) (p : Pair) :
  wf MULTIMAP cmp s -> fresh p s ->
  (forall bn, b = Some bn -> In bn (bottom (m_head s))) ->
  wf MULTIMAP cmp (snd (insert_hint MULTIMAP cmp s (mkConstIterator b) p)).
Proof.
  intros Hwf Hp Hb. unfold insert_hint.
  destruct (Bool.bool_dec MULTIMAP true) as [E|E].
  - match goal with
    | |- wf _ _ (snd (if MULTIMAP then ?A else ?B)) =>
        replace (if MULTIMAP then A else B) with A by (now rewrite E)
    end.
    now apply insertWithHintMultimap_wf.
  - apply Bool.not_true_is_false in E.
    match goal with
    | |- wf _ _ (snd (if MULTIMAP then ?A else ?B)) =>
        replace (if MULTIMAP then A else B) with B by (now rewrite E)
    end.
    now destruct (insertWithHintMap_spec s b p E Hwf Hp Hb) as [H _].
Qed.

Lemma with_levels_wf (s : Skiplist) (base : list Pair) n hgt :
  wf MULTIMAP cmp s -> bottom (m_head s) = base -> m_levelCount s = S n ->
  m_balanced s = false -> wf MULTIMAP cmp (with_levels s base n hgt).
Proof.
  intros Hwf Hb HL Hflag. pose proof (wf_ptrs Hwf) as Hnd. rewrite Hb in Hnd.
  constructor; unfold with_levels;
    cbn [m_head set_head m_levelCount m_count m_countMin m_countMax m_begin m_tail
         m_balanced];
    rewrite ?bottom_rev_cons, <- ?Hb; try apply Hwf.
  - rewrite length_rev. cbn [length]. unfold levels.
    now rewrite length_map, length_seq.
  - apply tower_stacked.
    rewrite <- (filter_all (fun _ => true) (bottom (m_head s))) at 1
      by (rewrite Forall_forall; reflexivity).
    rewrite Hb. apply tower_levels_form; auto.
  - rewrite Hflag. discriminate.
Qed.

Lemma incr_partial (s0 : Skiplist) (base : list Pair) n :
  NoDup (ptrs base) ->
  forall k rest done hgt p,
  base = done ++ p :: rest -> k <= length rest ->
  exists hgt',
    fst (incr_n k (with_levels s0 base n hgt)
           (mkIterator (Some p) (length done) false BEGINNING)) =
    with_levels s0 base n hgt'.
Proof.
  intros Hnd. induction k as [|k IH]; intros rest done hgt p Hb Hk.
  - exists hgt. reflexivity.
  - destruct rest as [|q rest]; [simpl in Hk; lia|].
    cbn [incr_n]. rewrite (st_incr s0 base n Hnd hgt done p (q :: rest) Hb).
    cbv beta iota zeta.
    replace (S (length done)) with (length (done ++ [p]))
      by (rewrite length_app; cbn [length]; lia).
    apply (IH rest).
    + rewrite <- app_assoc. exact Hb.
    + simpl in Hk. lia.
Qed.

Lemma decr_partial (s0 : Skiplist) (base : list Pair) n :
  NoDup (ptrs base) -> m_tail s0 = last_node nullptr base ->
  forall k rest q done hgt,
  base = (rest ++ [q]) ++ done -> k <= length rest ->
  exists hgt',
    fst (decr_n k (with_levels s0 base n hgt)
           (mkIterator (hd_error done) (length (rest ++ [q])) false END)) =
    with_levels s0 base n hgt'.
Proof.
  intros Hnd Ht. induction k as [|k IH]; intros rest q done hgt Hb Hk.
  - exists hgt. reflexivity.
  - destruct rest as [|r0 rs]; [simpl in Hk; lia|].
    destruct (exists_last (l := r0 :: rs)) as [rest' [q' Eq]]; [discriminate|].
    rewrite Eq in *. clear Eq r0 rs.
    cbn [decr_n]. rewrite (st_decr s0 base n Hnd Ht hgt (rest' ++ [q']) q done Hb).
    cbv zeta.
    assert (Hcase : forall (A : Type) (x y : A),
              match rest' ++ [q'] with [] => x | _ :: _ => y end = y).
    { intros A x y. destruct (rest' ++ [q']) eqn:E; [|reflexivity].
      apply app_eq_nil in E. destruct E; discriminate. }
    rewrite Hcase. cbv beta iota.
    change (Some q) with (hd_error (q :: done)).
    apply (IH rest' q' (q :: done)).
    + rewrite Hb. now rewrite <- !app_assoc.
    + rewrite length_app in Hk. cbn [length] in Hk. lia.
Qed.

Lemma incr_n_wf (s : Skiplist) k :
  wf MULTIMAP cmp s -> k <= m_count s ->
  wf MULTIMAP cmp (fst (incr_n k s (begin_ s))).
Proof.
  intros Hwf Hk. destruct (begin_fields s Hwf) as [Hcur [Hdb [Hidx Hloc]]].
  destruct (m_balanced s) eqn:Hb.
  - now rewrite (incr_n_idle k s (begin_ s) Hdb).
  - destruct (Nat.eq_dec k (m_count s)) as [->|Hne].
    + destruct (Nat.eq_dec (m_count s) 0) as [E0|E0].
      * rewrite E0. exact Hwf.
      * rewrite sweep_forward_eq by (auto; lia). now apply balance_props.
    + destruct (rev (m_head s)) as [|base above] eqn:Erev.
      { apply (proj1 (rev_nil_iff _ _)) in Erev. pose proof (wf_count Hwf) as Hc.
        rewrite Erev in Hc. simpl in Hc. lia. }
      destruct (wf_with_levels s base above Hwf Erev) as [Hbase [_ [Hs HL]]].
      pose proof (wf_ptrs Hwf) as Hnd. pose proof (wf_count Hwf) as Hc.
      rewrite Hbase in Hnd, Hc, Hcur, Hloc.
      destruct base as [|a rest]; [simpl in Hc; lia|].
      assert (Hit : begin_ s = mkIterator (Some a) (length (@nil Pair)) false BEGINNING).
      { destruct (begin_ s) as [c i d l]. cbn [m_currentNode m_dontBalance m_index
          m_startLocation] in *. rewrite <- Hc in Hidx. cbn [length Nat.eqb] in Hidx.
        rewrite Hcur, Hdb, Hidx, Hloc by discriminate. reflexivity. }
      rewrite Hit. rewrite Hs at 1.
      destruct (incr_partial s (a :: rest) (length above) Hnd k rest []
                  (fun x => column_height x above) a eq_refl)
        as [hgt' E].
      { simpl in Hc. lia. }
      rewrite E. now apply with_levels_wf.
Qed.

Lemma decr_n_wf (s : Skiplist) k :
  wf MULTIMAP cmp s -> k <= m_count s ->
  wf MULTIMAP cmp (fst (decr_n k s (end_ s))).
Proof.
  intros Hwf Hk.
  destruct (m_balanced s) eqn:Hb.
  - now rewrite (decr_n_idle k s (end_ s)) by exact Hb.
  - destruct (Nat.eq_dec k (m_count s)) as [->|Hne].
    + destruct (Nat.eq_dec (m_count s) 0) as [E0|E0].
      * rewrite E0. exact Hwf.
      * rewrite sweep_backward_eq by (auto; lia). now apply balance_props.
    + destruct (rev (m_head s)) as [|base above] eqn:Erev.
      { apply (proj1 (rev_nil_iff _ _)) in Erev. pose proof (wf_count Hwf) as Hc.
        rewrite Erev in Hc. simpl in Hc. lia. }
      destruct (wf_with_levels s base above Hwf Erev) as [Hbase [_ [Hs HL]]].
      pose proof (wf_ptrs Hwf) as Hnd. pose proof (wf_count Hwf) as Hc.
      pose proof (wf_tail Hwf) as Htl.
      rewrite Hbase in Hnd, Hc, Htl.
      destruct base as [|a0 base0]; [simpl in Hc; lia|].
      destruct (exists_last (l := a0 :: base0)) as [rest [q Eq]]; [discriminate|].
      rewrite Eq in *. clear Eq a0 base0.
      assert (Hit : end_ s = mkIterator (hd_error (@nil Pair))
                               (length (rest ++ [q])) false END).
      { unfold end_, iterator_indexed, is_balanced. now rewrite Hb, Hc. }
      rewrite Hit. rewrite Hs at 1.
      destruct (decr_partial s (rest ++ [q]) (length above) Hnd Htl k rest q []
                  (fun x => column_height x above))
        as [hgt' E].
      { now rewrite app_nil_r. }
      { rewrite length_app in Hc. cbn [length] in Hc. lia. }
      rewrite E. now apply with_levels_wf.
Qed.

(** ** operator[] *)

Lemma lower_bound_node (s : Skiplist) key :
  wf MULTIMAP cmp s ->
  m_currentNode (lower_bound cmp s key) =
  hd_error (filter (fun n => negated_compare cmp key (first n)) (bottom (m_head s))).
Proof.
  intros Hwf. unfold lower_bound. rewrite iterator_at_node.
  rewrite (descent_bound s key (negated_compare cmp) Hwf
             (fun l => sorted_mono_lower key l)).
  apply find_filter.
Qed.

Lemma upper_bound_node (s : Skiplist) key :
  wf MULTIMAP cmp s ->
  m_currentNode (upper_bound cmp s key) =
  hd_error (filter (fun n => cmp key (first n)) (bottom (m_head s))).
Proof.
  intros Hwf. unfold upper_bound. rewrite iterator_at_node.
  rewrite (descent_bound s key cmp Hwf (fun l => sorted_mono_upper key l)).
  apply find_filter.
Qed.

Lemma hd_error_filter_In (f : Pair -> bool) (l : list Pair) x :
  hd_error (filter f l) = Some x -> In x l /\ f x = true.
Proof.
  intros H. apply filter_In. destruct (filter f l) as [|y rest]; [discriminate|].
  injection H as ->. now left.
Qed.

(** X13: for a map, [operator[]] on a key that is present returns the
    mapped value of the element with that key and leaves the container
    exactly as it was (no level is drawn, no field is written); on a key
    that is absent it links the new default pair at its sorted place,
    the size grows by one, and the value returned is the one of the new
    pair, which [at] then finds. *)
Theorem subscript_map (s : Skiplist) (key : KEY) (p : Pair) :
  MULTIMAP = false -> wf MULTIMAP cmp s -> fresh p s -> first p = key ->
  let r := subscript MULTIMAP cmp s key p in
  let l := bottom (m_head s) in
  match at_ cmp s key with
  | inl v => r = (Some v, s)
  | inr _ =>
      fst r = Some (second p) /\
      wf MULTIMAP cmp (snd r) /\
      size (snd r) = size s + 1 /\
      bottom (m_head (snd r)) =
        filter (fun n => negb (cmp key (first n))) l ++
        p :: filter (fun n => cmp key (first n)) l /\
      at_ cmp (snd r) key = inl (second p)
  end.
Proof.
  intros Hmap Hwf Hp Hkey r l. subst key.
  pose proof (Sorted_ordered_le_key _ (wf_sorted Hwf)) as Hso. fold l in Hso.
  pose proof (lower_bound_node s (first p) Hwf) as Hlb. fold l in Hlb.
  rewrite (at_map_char s (first p) Hmap Hwf). fold l.
  destruct (List.find (fun x => equivalent cmp (first p) (first x)) l) as [x|] eqn:E.
  - (* the key is present: the hint is the element itself *)
    apply find_some in E. destruct E as [Hx He].
    destruct (filter (fun n => negated_compare cmp (first p) (first n)) l) as [|n rest] eqn:F.
    { assert (Hin : In x (filter (fun n => negated_compare cmp (first p) (first n)) l)).
      { apply filter_In. split; [exact Hx|]. unfold negated_compare.
        unfold equivalent in He. apply andb_prop in He. destruct He as [_ He].
        exact He. }
      rewrite F in Hin. destruct Hin. }
    pose proof (first_not_less_is_equivalent (first p) l x n rest Hso Hx He F) as Hn1.
    assert (Hn : In n l /\ negated_compare cmp (first p) (first n) = true).
    { apply (hd_error_filter_In (fun n => negated_compare cmp (first p) (first n)) l).
      now rewrite F. }
    destruct Hn as [Hnl Hn2]. unfold negated_compare in Hn2.
    assert (Hen : equivalent cmp (first p) (first n) = true).
    { unfold equivalent. now rewrite Hn1, Hn2. }
    assert (Hxn : x = n)
      by exact (map_equivalent_unique l (first p) x n Hmap (wf_sorted Hwf) Hx Hnl He Hen).
    subst x. unfold r, subscript, try_emplace_hint. rewrite Hmap, Hlb.
    cbn [hd_error]. unfold insertWithHintMap. cbn [c_currentNode].
    rewrite Hn1. apply negb_true_iff in Hn2. rewrite Hn2.
    now rewrite iterator_at_node.
  - (* the key is absent: the hint is the first greater element *)
    assert (Hnone : forall x, In x l -> equivalent cmp (first p) (first x) = false).
    { intros x Hx. exact (find_none _ _ E x Hx). }
    set (b := hd_error (filter (fun n => negated_compare cmp (first p) (first n)) l)) in *.
    assert (Hb : forall bn, b = Some bn -> In bn (bottom (m_head s))).
    { intros bn Hbn. exact (proj1 (hd_error_filter_In _ _ _ Hbn)). }
    destruct (insertWithHintMap_spec s b p Hmap Hwf Hp Hb) as [Hwf' [_ Habs]].
    destruct (Habs Hnone) as [Hbot [Hcnt Hcur]]. clear Habs.
    assert (Hr : r = (option_map (fun q : Pair => second q)
                        (m_currentNode
                           (fst (insertWithHintMap MULTIMAP cmp s (mkConstIterator b)
                                   (first p) p))),
                      snd (insertWithHintMap MULTIMAP cmp s (mkConstIterator b)
                             (first p) p))).
    { unfold r, subscript, try_emplace_hint. rewrite Hmap, Hlb. fold b.
      now destruct (insertWithHintMap false cmp s (mkConstIterator b) (first p) p). }
    rewrite Hr. cbn [fst snd]. rewrite Hcur. cbn [option_map].
    unfold spliced in Hbot. fold l in Hbot.
    split; [reflexivity|]. split; [exact Hwf'|]. split; [unfold size; lia|].
    split; [exact Hbot|].
    rewrite (at_map_char _ (first p) Hmap Hwf').
    rewrite (find_first_unique _ (first p) p Hmap (wf_sorted Hwf')); [reflexivity| |].
    + rewrite Hbot. apply in_or_app. right. now left.
    + apply equivalent_refl.
Qed.

(** ** Range insert *)

(** The bottom list after one insertion of [p] that searches from the
    top: as it was if the duplicate check blocks, else with [p] after the
    last element whose key is not greater. *)
Local Abbreviation put p l :=
  (if blocked MULTIMAP cmp (first p) l then l%list
   else spliced (fun n => cmp (first p) (first n)) p l).

Lemma insertTopDown_bottom (s : Skiplist) (p : Pair) :
  wf MULTIMAP cmp s -> fresh p s ->
  bottom (m_head (snd (insertTopDown MULTIMAP s (first p) cmp p))) =
  put p (bottom (m_head s)).
Proof.
  intros Hwf Hp.
  pose proof (insertTopDown_spec s (first p) cmp p Hwf Hp eq_refl (or_introl eq_refl))
    as Hspec.
  cbv zeta in Hspec.
  destruct (blocked MULTIMAP cmp (first p) (bottom (m_head s))).
  - rewrite Hspec. cbn [snd].
    pose proof (chooseLevel_fields s) as Hfl. cbv zeta in Hfl.
    destruct Hfl as [_ [_ [Hhd _]]]. now rewrite Hhd.
  - destruct Hspec as [s' [E [_ [Hbot _]]]]. rewrite E. exact Hbot.
Qed.

Lemma below_tail_not_greater (l : list Pair) key :
  StronglySorted lek l ->
  match last_node dummy l with node t => cmp key (first t) = false | _ => True end ->
  forall x, In x l -> cmp key (first x) = false.
Proof.
  intros Hso Ht x Hx.
  destruct l as [|a l0]; [destruct Hx|].
  destruct (exists_last (l := a :: l0)) as [front [t E]]; [discriminate|].
  rewrite E in *. rewrite last_node_app_cons in Ht. cbn [last_node] in Ht.
  destruct (cmp key (first x)) eqn:Ex; [|reflexivity].
  apply in_app_or in Hx. destruct Hx as [Hx|[->|[]]]; [|congruence].
  pose proof (StronglySorted_last lek front t x Hso Hx) as Hle. unfold le_key in Hle.
  destruct (swo_neg_trans key (first x) (first t) Ex); congruence.
Qed.

Lemma emplace_hint_end_bottom (s : Skiplist) (p : Pair) :
  wf MULTIMAP cmp s -> fresh p s ->
  bottom (m_head (snd (emplace_hint MULTIMAP cmp s (cend s) p))) =
  put p (bottom (m_head s)).
Proof.
  intros Hwf Hp.
  assert (Hb : forall bn : Pair, @None Pair = Some bn -> In bn (bottom (m_head s)))
    by (intros bn E; discriminate).
  pose proof (Sorted_ordered_le_key _ (wf_sorted Hwf)) as Hso.
  unfold emplace_hint, cend.
  destruct (Bool.bool_dec MULTIMAP true) as [Hmulti|Hmap].
  - (* multimap: at the end, or at the upper bound after a search *)
    assert (Hnb : blocked MULTIMAP cmp (first p) (bottom (m_head s)) = false)
      by (unfold blocked; now rewrite Hmulti).
    rewrite Hnb.
    replace (if MULTIMAP
             then insertWithHintMultimap MULTIMAP cmp s (mkConstIterator None) (first p) p
             else insertWithHintMap MULTIMAP cmp s (mkConstIterator None) (first p) p)
      with (insertWithHintMultimap MULTIMAP cmp s (mkConstIterator None) (first p) p)
      by (now rewrite Hmulti).
    destruct (hint_split s None Hwf Hb) as [_ [Hm [HB [HR Hprev]]]].
    cbn [hint_before hint_from] in HB, HR, Hprev.
    unfold insertWithHintMultimap. cbn [c_currentNode].
    set (a := hint_prev s None) in *. set (l := bottom (m_head s)) in *.
    destruct (match a with node an => cmp (first p) (first an) | _ => false end) eqn:T2.
    + pose proof (insertTopDown_bottom s p Hwf Hp) as H. fold l in H.
      rewrite Hnb in H.
      destruct (insertTopDown MULTIMAP s (first p) cmp p) as [[n0 ok] s'].
      exact H.
    + destruct (insertBottomUp_spec s (hint_stop None l) p a Hwf Hp Hm)
        as [s' [Hins [_ [Hbot _]]]].
      * fold l. rewrite HB. intros x Hx.
        assert (Ea : a = node x).
        { destruct Hprev as [E|[Hnil E]]; [congruence|].
          rewrite Hnil in Hx. discriminate. }
        rewrite Ea in T2. split; [exact T2|]. intros E. congruence.
      * fold l. rewrite HR. constructor.
      * fold l. rewrite HB. exact Hprev.
      * rewrite Hins. cbn [snd]. rewrite Hbot. fold l. unfold spliced.
        rewrite HB, HR.
        assert (Hall : forall x, In x l -> cmp (first p) (first x) = false).
        { apply below_tail_not_greater; [exact Hso|].
          destruct Hprev as [E|[Hnil E]].
          - rewrite <- E. destruct a; auto.
          - rewrite Hnil. exact I. }
        rewrite filter_all, filter_none; [reflexivity| |].
        -- apply Forall_forall. exact Hall.
        -- apply Forall_forall. intros x Hx. now rewrite (Hall x Hx).
  - (* map: the key is present, or the pair goes to its sorted place *)
    apply Bool.not_true_is_false in Hmap.
    replace (if MULTIMAP
             then insertWithHintMultimap MULTIMAP cmp s (mkConstIterator None) (first p) p
             else insertWithHintMap MULTIMAP cmp s (mkConstIterator None) (first p) p)
      with (insertWithHintMap MULTIMAP cmp s (mkConstIterator None) (first p) p)
      by (now rewrite Hmap).
    destruct (insertWithHintMap_spec s None p Hmap Hwf Hp Hb) as [_ [Hpres Habs]].
    destruct (existsb (fun x => equivalent cmp (first p) (first x)) (bottom (m_head s)))
      eqn:E.
    + apply existsb_exists in E. destruct (Hpres E) as [Hhd _].
      destruct E as [x [Hx He]].
      rewrite (blocked_present (first p) _ x Hmap Hso Hx He). now rewrite Hhd.
    + assert (Hnone : forall x, In x (bottom (m_head s)) ->
                                equivalent cmp (first p) (first x) = false).
      { intros x Hx. destruct (equivalent cmp (first p) (first x)) eqn:Ex; [|reflexivity].
        assert (existsb (fun x => equivalent cmp (first p) (first x))
                  (bottom (m_head s)) = true) by (apply existsb_exists; eauto).
        congruence. }
      rewrite (absent_not_blocked (first p) _ Hnone).
      exact (proj1 (Habs Hnone)).
Qed.

Lemma put_keeps (p : Pair) (l : list Pair) x :
  In x l -> In x (put p l).
Proof.
  intros Hx. destruct (blocked MULTIMAP cmp (first p) l); [exact Hx|].
  unfold spliced. apply in_or_app.
  destruct (cmp (first p) (first x)) eqn:E.
  - right. right. apply filter_In. auto.
  - left. apply filter_In. split; [exact Hx|]. now rewrite E.
Qed.

Lemma put_from (p : Pair) (l : list Pair) y :
  In y (put p l) -> y = p \/ In y l.
Proof.
  destruct (blocked MULTIMAP cmp (first p) l); [now right|].
  unfold spliced. intros H. apply in_app_or in H.
  destruct H as [H|[H|H]]; [|now left|]; apply filter_In in H; now right.
Qed.

Lemma put_holds (p : Pair) (l : list Pair) :
  existsb (fun x => equivalent cmp (first p) (first x)) (put p l) = true.
Proof.
  destruct (blocked MULTIMAP cmp (first p) l) eqn:E; apply existsb_exists.
  - destruct (blocked_true (first p) l E) as [q [_ [Hq He]]]. eauto.
  - exists p. split; [|apply equivalent_refl].
    unfold spliced. apply in_or_app. right. now left.
Qed.

Lemma put_fresh (s s' : Skiplist) (p q : Pair) :
  bottom (m_head s') = put p (bottom (m_head s)) ->
  fresh q s -> ptr q <> ptr p -> fresh q s'.
Proof.
  unfold fresh. intros Hbot Hq Hne Hin. rewrite Hbot in Hin.
  apply in_map_iff in Hin. destruct Hin as [y [Hy Hin]].
  destruct (put_from p _ y Hin) as [->|Hy'].
  - now apply Hne.
  - apply Hq. rewrite <- Hy. now apply in_map.
Qed.

Lemma range_tail_fresh (s s' : Skiplist) (p : Pair) (range : list Pair) :
  bottom (m_head s') = put p (bottom (m_head s)) ->
  NoDup (ptrs (p :: range)) -> Forall (fun q => fresh q s) (p :: range) ->
  Forall (fun q => fresh q s') range.
Proof.
  intros Hbot Hnd Hfr. inversion Hnd as [|? ? Hnotin _]. subst.
  inversion Hfr as [|? ? _ Hrest]. subst.
  apply Forall_forall. intros q Hq.
  apply (put_fresh s s' p q Hbot).
  - exact (proj1 (Forall_forall _ _) Hrest q Hq).
  - intros E. apply Hnotin. rewrite <- E. now apply in_map.
Qed.

Lemma insert_range_loop_spec (range : list Pair) : forall s : Skiplist,
  wf MULTIMAP cmp s -> NoDup (ptrs range) -> Forall (fun p => fresh p s) range ->
  wf MULTIMAP cmp (insert_range_loop MULTIMAP cmp (mkConstIterator None) s range) /\
  bottom (m_head (insert_range_loop MULTIMAP cmp (mkConstIterator None) s range)) =
  fold_left (fun l p => put p l) range (bottom (m_head s)).
Proof.
  induction range as [|p range IH]; intros s Hwf Hnd Hfr; cbn [insert_range_loop fold_left].
  - split; [exact Hwf|reflexivity].
  - pose proof (emplace_hint_end_bottom s p Hwf (Forall_inv Hfr)) as Hbot.
    unfold cend in Hbot.
    assert (Hwf' : wf MULTIMAP cmp
                     (snd (emplace_hint MULTIMAP cmp s (mkConstIterator None) p))).
    { apply (insert_hint_wf s None p Hwf (Forall_inv Hfr)). intros bn E. discriminate. }
    destruct (IH _ Hwf') as [H1 H2].
    + now inversion Hnd.
    + exact (range_tail_fresh s _ p range Hbot Hnd Hfr).
    + split; [exact H1|]. rewrite H2. now rewrite Hbot.
Qed.

Lemma insert_fold_spec (range : list Pair) : forall s : Skiplist,
  wf MULTIMAP cmp s -> NoDup (ptrs range) -> Forall (fun p => fresh p s) range ->
  bottom (m_head (fold_left (fun s p => snd (insert MULTIMAP cmp s p)) range s)) =
  fold_left (fun l p => put p l) range (bottom (m_head s)).
Proof.
  induction range as [|p range IH]; intros s Hwf Hnd Hfr; cbn [fold_left]; [reflexivity|].
  pose proof (insertTopDown_bottom s p Hwf (Forall_inv Hfr)) as Hbot.
  rewrite <- insert_snd in Hbot.
  rewrite IH.
  - now rewrite Hbot.
  - exact (insert_wf s p Hwf (Forall_inv Hfr)).
  - now inversion Hnd.
  - exact (range_tail_fresh s _ p range Hbot Hnd Hfr).
Qed.

Lemma fold_put_keeps (range : list Pair) : forall (l : list Pair) x,
  In x l -> In x (fold_left (fun l p => put p l) range l).
Proof.
  induction range as [|p range IH]; intros l x Hx; cbn [fold_left]; [exact Hx|].
  apply IH. now apply put_keeps.
Qed.

Lemma fold_put_holds (range : list Pair) : forall (l : list Pair) p,
  In p range ->
  existsb (fun x => equivalent cmp (first p) (first x))
    (fold_left (fun l p => put p l) range l) = true.
Proof.
  induction range as [|q range IH]; intros l p Hp; [destruct Hp|]. cbn [fold_left].
  destruct Hp as [->|Hp]; [|now apply IH].
  pose proof (put_holds p l) as H. apply existsb_exists in H.
  destruct H as [x [Hx He]]. apply existsb_exists. exists x.
  split; [|exact He]. now apply fold_put_keeps.
Qed.

Lemma length_filter_both (f : Pair -> bool) (l : list Pair) :
  length (filter (fun x => negb (f x)) l) + length (filter f l) = length l.
Proof.
  induction l as [|a l IH]; [reflexivity|]. cbn [filter].
  destruct (f a); cbn [negb length]; lia.
Qed.

Lemma fold_put_length (range : list Pair) : forall l : list Pair,
  MULTIMAP = true ->
  length (fold_left (fun l p => put p l) range l) = length l + length range.
Proof.
  induction range as [|p range IH]; intros l Hmulti; cbn [fold_left length]; [lia|].
  rewrite (IH _ Hmulti).
  assert (Hnb : blocked MULTIMAP cmp (first p) l = false)
    by (unfold blocked; now rewrite Hmulti).
  rewrite Hnb. unfold spliced. rewrite length_app. cbn [length].
  pose proof (length_filter_both (fun n => cmp (first p) (first n)) l). lia.
Qed.

(** X14: [insert(first, last)] (and the initializer-list insert that
    forwards to it) leaves the same sequence of elements as inserting
    the pairs one by one with [insert(value)], although each pair is put
    in with the past-the-end hint; the invariants hold afterwards, no
    old element is lost, every key of the range is contained, and a
    multimap grows by the length of the range. *)
Theorem insert_range_as_inserts (s : Skiplist) (range : list Pair) :
  wf MULTIMAP cmp s -> NoDup (ptrs range) -> Forall (fun p => fresh p s) range ->
  let s' := insert_range MULTIMAP cmp s range in
  let one_by_one := fold_left (fun s p => snd (insert MULTIMAP cmp s p)) range s in
  wf MULTIMAP cmp s' /\
  bottom (m_head s') = bottom (m_head one_by_one) /\
  (forall x, In x (bottom (m_head s)) -> In x (bottom (m_head s'))) /\
  (forall p, In p range -> contains cmp s' (first p) = true) /\
  (MULTIMAP = true -> size s' = size s + length range).
Proof.
  intros Hwf Hnd Hfr s' one_by_one.
  destruct (insert_range_loop_spec range s Hwf Hnd Hfr) as [Hwf' Hbot].
  change (insert_range_loop MULTIMAP cmp (mkConstIterator None) s range) with s'
    in Hwf', Hbot.
  split; [exact Hwf'|]. split; [|split; [|split]].
  - rewrite Hbot. symmetry. exact (insert_fold_spec range s Hwf Hnd Hfr).
  - intros x Hx. rewrite Hbot. now apply fold_put_keeps.
  - intros p Hp. rewrite (contains_char s' (first p) Hwf'), Hbot.
    now apply fold_put_holds.
  - intros Hmulti. unfold size.
    rewrite <- (wf_count Hwf'), <- (wf_count Hwf), Hbot.
    now apply fold_put_length.
Qed.

(** ** equal_range, front and back *)

Lemma greater_not_less key (x : Pair) :
  cmp key (first x) = true -> negated_compare cmp key (first x) = true.
Proof.
  intros H. unfold negated_compare. now rewrite (swo_asym _ _ H).
Qed.

Lemma not_less_split (l : list Pair) key :
  StronglySorted lek l ->
  filter (fun n => negated_compare cmp key (first n)) l =
  filter (fun x => equivalent cmp key (first x)) l ++
  filter (fun n => cmp key (first n)) l.
Proof.
  intros Hso.
  pose proof (StronglySorted_filter lek
                (fun n => negated_compare cmp key (first n)) l Hso) as Hso'.
  rewrite (mono_split _ _ (sorted_mono_upper key _ Hso')) at 1.
  rewrite !filter_twice. f_equal; apply filter_ext; intros x.
  - unfold equivalent, negated_compare. apply andb_comm.
  - destruct (cmp key (first x)) eqn:E.
    + now rewrite (greater_not_less key x E).
    + apply andb_false_r.
Qed.

(** X15: [equal_range(k)] delimits exactly the elements equivalent to
    [k]: the bottom list is the elements less than [k], then those
    equivalent to [k], then those greater; the first iterator is on the
    first element of the last two groups, the second on the first greater
    element (or they are past-the-end), and [count(k)] is the length of
    the middle group. *)
Theorem equal_range_exact (s : Skiplist) (key : KEY) :
  wf MULTIMAP cmp s ->
  let l := bottom (m_head s) in
  let less := filter (fun x => cmp (first x) key) l in
  let same := filter (fun x => equivalent cmp key (first x)) l in
  let greater := filter (fun x => cmp key (first x)) l in
  let r := equal_range cmp s key in
  l = less ++ same ++ greater /\
  m_currentNode (fst r) = hd_error (same ++ greater) /\
  m_currentNode (snd r) = hd_error greater /\
  count cmp s key = length same /\
  (MULTIMAP = false -> length same <= 1).
Proof.
  intros Hwf l less same greater r.
  pose proof (Sorted_ordered_le_key _ (wf_sorted Hwf)) as Hso. fold l in Hso.
  pose proof (not_less_split l key Hso) as Hnl. fold same greater in Hnl.
  split; [|split; [|split; [|split]]].
  - rewrite <- Hnl.
    rewrite (mono_split _ _ (sorted_mono_lower key l Hso)) at 1.
    f_equal. apply filter_ext. intros x. unfold negated_compare.
    apply negb_involutive.
  - unfold r, equal_range. cbn [fst]. rewrite (lower_bound_node s key Hwf).
    fold l. now rewrite Hnl.
  - unfold r, equal_range. cbn [snd]. exact (upper_bound_node s key Hwf).
  - exact (count_spec s key Hwf).
  - intros Hmap. apply length_le_one.
    + intros x y Hx Hy.
      apply filter_In in Hx, Hy. destruct Hx as [Hx Hex], Hy as [Hy Hey].
      exact (map_equivalent_unique l key x y Hmap (wf_sorted Hwf) Hx Hy Hex Hey).
    + apply NoDup_ptrs_filter. exact (wf_ptrs Hwf).
Qed.

Lemma bottom_nonempty_head (lists : list (list Pair)) :
  bottom lists <> [] -> lists <> [].
Proof. intros H E. apply H. now rewrite E. Qed.

(** X16: on an empty container both assertions of [front()] and
    [back()] fail; otherwise [front()] is the first and [back()] the last
    element of the sequence, and no element compares less than the front
    or greater than the back. *)
Theorem front_back_extremes (s : Skiplist) :
  wf MULTIMAP cmp s ->
  match bottom (m_head s) with
  | [] => front s = None /\ back s = None
  | a :: rest =>
      front s = Some a /\ back s = Some (last rest a) /\
      forall x, In x (a :: rest) ->
        cmp (first x) (first a) = false /\
        cmp (first (last rest a)) (first x) = false
  end.
Proof.
  intros Hwf.
  pose proof (Sorted_ordered_le_key _ (wf_sorted Hwf)) as Hso.
  pose proof (wf_begin Hwf) as Hb. pose proof (wf_tail Hwf) as Ht.
  destruct (bottom (m_head s)) as [|a rest] eqn:Hbot.
  - pose proof (wf_empty_head s Hwf Hbot) as Hnil. unfold front, back.
    rewrite Hnil, Ht. now cbn.
  - assert (Hhd : m_head s <> []).
    { apply bottom_nonempty_head. rewrite Hbot. discriminate. }
    destruct (exists_last (l := a :: rest)) as [init [t E]]; [discriminate|].
    assert (Hlast : last rest a = t).
    { assert (Hl : last (a :: rest) a = last rest a) by (destruct rest; reflexivity).
      rewrite <- Hl, E. apply last_last. }
    rewrite Hlast. split; [|split].
    + unfold front, cbegin. destruct (m_head s); [contradiction|].
      cbn [c_currentNode]. exact Hb.
    + unfold back. rewrite Ht, E, last_node_app_cons. reflexivity.
    + intros x Hx. split.
      * destruct Hx as [<-|Hx]; [apply (swo_irrefl cmp_swo)|].
        inversion Hso as [|? ? _ Hall]. subst.
        exact (proj1 (Forall_forall _ _) Hall x Hx).
      * rewrite E in Hx, Hso. apply in_app_or in Hx.
        destruct Hx as [Hx|[<-|[]]]; [|apply (swo_irrefl cmp_swo)].
        exact (StronglySorted_last lek init t x Hso Hx).
Qed.

(** ** Insert, then erase at the returned position *)

Lemma insert_links (s : Skiplist) (p : Pair) :
  wf MULTIMAP cmp s -> fresh p s ->
  MULTIMAP = true \/ contains cmp s (first p) = false ->
  let r := insert MULTIMAP cmp s p in
  let l := bottom (m_head s) in
  fst r = (iterator_at (snd r) (Some p), true) /\
  wf MULTIMAP cmp (snd r) /\
  bottom (m_head (snd r)) = spliced (fun n => cmp (first p) (first n)) p l /\
  m_count (snd r) = S (m_count s).
Proof.
  intros Hwf Hp Hnew r l.
  pose proof (insertTopDown_spec s (first p) cmp p Hwf Hp eq_refl (or_introl eq_refl))
    as Hspec.
  cbv zeta in Hspec. fold l in Hspec.
  assert (Hnb : blocked MULTIMAP cmp (first p) l = false).
  { destruct Hnew as [Hmulti|Hc].
    - unfold blocked. now rewrite Hmulti.
    - apply absent_not_blocked. intros x Hx.
      rewrite (contains_char s (first p) Hwf) in Hc. fold l in Hc.
      destruct (equivalent cmp (first p) (first x)) eqn:Ex; [|reflexivity].
      assert (existsb (fun x => equivalent cmp (first p) (first x)) l = true)
        by (apply existsb_exists; eauto).
      congruence. }
  rewrite Hnb in Hspec. destruct Hspec as [s' [E [Hwf' [Hbot [Hcnt _]]]]].
  unfold r, insert. rewrite E. cbn [fst snd to_node]. auto.
Qed.

(** X17: erasing at the iterator a successful [insert] returned undoes
    the insertion: the sequence of elements and the size are those from
    before, the invariants hold, and the iterator [erase] returns is on the
    first element greater than the inserted key, where [upper_bound]
    pointed before the insertion. *)
Theorem insert_then_erase (s : Skiplist) (p : Pair) :
  wf MULTIMAP cmp s -> fresh p s ->
  MULTIMAP = true \/ contains cmp s (first p) = false ->
  let r := insert MULTIMAP cmp s p in
  let e := erase_pos (snd r) (mkConstIterator (m_currentNode (fst (fst r)))) in
  snd (fst r) = true /\
  bottom (m_head (snd e)) = bottom (m_head s) /\
  size (snd e) = size s /\
  wf MULTIMAP cmp (snd e) /\
  m_currentNode (fst e) = m_currentNode (upper_bound cmp s (first p)).
Proof.
  intros Hwf Hp Hnew r e.
  destruct (insert_links s p Hwf Hp Hnew) as [Hit [Hwf' [Hbot Hcnt]]].
  fold r in Hit, Hwf', Hbot, Hcnt.
  pose proof (Sorted_ordered_le_key _ (wf_sorted Hwf)) as Hso.
  pose proof (mono_split _ _ (sorted_mono_upper (first p) _ Hso)) as Hsplit.
  set (B := filter (fun n => negb (cmp (first p) (first n))) (bottom (m_head s))) in *.
  set (R := filter (fun n => cmp (first p) (first n)) (bottom (m_head s))) in *.
  unfold spliced in Hbot. fold B R in Hbot.
  assert (Hin : In p (bottom (m_head (snd r)))).
  { rewrite Hbot. apply in_or_app. right. now left. }
  assert (HpB : ~ In (ptr p) (ptrs B)).
  { intros H. apply Hp. rewrite Hsplit, map_app. apply in_or_app. now left. }
  assert (He : e = erase_pos (snd r) (mkConstIterator (Some p))).
  { unfold e. rewrite Hit. cbn [fst]. now rewrite iterator_at_node. }
  destruct (erase_pos_spec (snd r) p Hwf' Hin) as [Hwf2 [Hb2 [_ [_ [Hc2 Hret]]]]].
  rewrite <- He in Hwf2, Hb2, Hc2, Hret.
  pose proof (wf_ptrs Hwf') as Hnd. rewrite Hbot in Hnd.
  split; [now rewrite Hit|]. split; [|split; [|split]].
  - rewrite Hb2, Hbot, (unlink_split B R p Hnd). now symmetry.
  - unfold size. lia.
  - exact Hwf2.
  - rewrite Hret, iterator_at_node, Hbot, (right_of_node_app B R p HpB).
    symmetry. exact (upper_bound_node s (first p) Hwf).
Qed.

(** ** for_each *)

Lemma balance_loop_with_spec (A : Type) (functor : A -> Pair -> A) (s : Skiplist)
  (current : list Pair) : forall nc tails acc,
  balance_loop_with functor s current nc tails acc =
  (balance_loop s current nc tails, fold_left functor current acc).
Proof.
  induction current as [|c next IH]; intros nc tails acc;
    cbn [balance_loop_with balance_loop fold_left]; [reflexivity|].
  apply IH.
Qed.

Lemma balanceWorker_with_spec (A : Type) (functor : A -> Pair -> A) (s : Skiplist)
  (acc : A) :
  m_balanced s = false ->
  balanceWorker_with functor s acc =
  (fold_left functor (bottom (m_head s)) acc, balanceWorker s).
Proof.
  intros Hb. unfold balanceWorker_with, balanceWorker. rewrite Hb.
  cbn [m_head set_balanced].
  destruct (rev (m_head s)) as [|lowest uppers] eqn:E.
  - apply (proj1 (rev_nil_iff _ _)) in E. rewrite E. reflexivity.
  - destruct (bottom_rev _ _ _ E) as [Hbot _]. rewrite Hbot.
    now rewrite balance_loop_with_spec.
Qed.

Lemma for_each_loop_spec (A : Type) (functor : A -> Pair -> A) (s : Skiplist)
  (rest : list Pair) : forall fuel pre it acc,
  NoDup (ptrs (bottom (m_head s))) ->
  bottom (m_head s) = pre ++ rest ->
  m_currentNode it = hd_error rest -> m_dontBalance it = true ->
  length rest < fuel ->
  for_each_loop functor fuel s it (end_ s) acc = (fold_left functor rest acc, s).
Proof.
  induction rest as [|p rest IH]; intros fuel pre it acc Hnd Hbot Hcur Hd Hfuel;
    (destruct fuel as [|fuel]; [inversion Hfuel|]);
    cbn [for_each_loop fold_left]; unfold iterator_eq; rewrite Hcur;
    cbn [hd_error end_ iterator_indexed m_currentNode same_opt]; [reflexivity|].
  assert (Hpre : ~ In (ptr p) (ptrs pre)).
  { rewrite Hbot, map_app in Hnd. cbn [map] in Hnd.
    apply NoDup_remove_2 in Hnd. intros H. apply Hnd. apply in_or_app. now left. }
  assert (Hstep : iterator_incr s it =
                  (s, mkIterator (hd_error rest) (S (m_index it)) true
                        (m_startLocation it))).
  { unfold iterator_incr. rewrite Hd, Hcur. cbn [negb hd_error].
    rewrite Hbot, (right_of_node_app pre rest p Hpre).
    now destruct (hd_error rest). }
  rewrite Hstep.
  apply (IH fuel (pre ++ [p])); try reflexivity; try exact Hnd.
  - rewrite Hbot, <- app_assoc. reflexivity.
  - cbn [length] in Hfuel. lia.
Qed.

Lemma for_each_spec (A : Type) (functor : A -> Pair -> A) (s : Skiplist)
  (acc : A) :
  wf MULTIMAP cmp s ->
  for_each functor s acc = (fold_left functor (bottom (m_head s)) acc, balance s) /\
  for_each_no_balance functor s acc = (fold_left functor (bottom (m_head s)) acc, s).
Proof.
  intros Hwf.
  assert (Hwalk : for_each_no_balance functor s acc =
                  (fold_left functor (bottom (m_head s)) acc, s)).
  { unfold for_each_no_balance.
    apply (for_each_loop_spec A functor s (bottom (m_head s)) (S (m_count s)) []).
    - exact (wf_ptrs Hwf).
    - reflexivity.
    - cbn [m_currentNode]. exact (proj1 (begin_fields s Hwf)).
    - reflexivity.
    - rewrite (wf_count Hwf). lia. }
  split; [|exact Hwalk].
  unfold for_each. destruct (m_balanced s) eqn:Hb.
  - rewrite Hwalk. unfold balance, balanceWorker. now rewrite Hb.
  - now apply balanceWorker_with_spec.
Qed.

(** X18: the non-const [for_each] hands every element to the functor
    exactly once, in the order of the sequence, whether it walks with
    the iterator (balanced container) or through [balanceWorker]
    (unbalanced container), and the container it leaves is the one
    [balance()] gives; [for_each_no_balance] makes the same calls and
    leaves the container untouched. *)
Theorem for_each_visits_all (A : Type) (functor : A -> Pair -> A) (s : Skiplist)
  (acc : A) :
  wf MULTIMAP cmp s ->
  for_each functor s acc = (fold_left functor (bottom (m_head s)) acc, balance s) /\
  for_each_no_balance functor s acc = (fold_left functor (bottom (m_head s)) acc, s) /\
  m_balanced (snd (for_each functor s acc)) = true /\
  bottom (m_head (snd (for_each functor s acc))) = bottom (m_head s).
Proof.
  intros Hwf.
  destruct (for_each_spec A functor s acc Hwf) as [Hall Hwalk].
  destruct (balance_props s Hwf) as [_ [Hbal [Hbot _]]].
  split; [exact Hall|]. split; [exact Hwalk|].
  rewrite Hall. cbn [snd]. split; [exact Hbal|exact Hbot].
Qed.

(** ** operator== *)

Lemma walk_from_begin (s : Skiplist) :
  wf MULTIMAP cmp s -> walk_from s (cbegin s) = bottom (m_head s).
Proof.
  intros Hwf. unfold walk_from, cbegin.
  destruct (bottom (m_head s)) as [|a rest] eqn:Hbot.
  - now rewrite (wf_empty_head s Hwf Hbot).
  - pose proof (wf_begin Hwf) as Hb. rewrite Hbot in Hb.
    assert (Hhd : m_head s <> []).
    { apply bottom_nonempty_head. rewrite Hbot. discriminate. }
    destruct (m_head s) as [|top below] eqn:E; [contradiction|].
    cbn [c_currentNode]. rewrite Hb. cbn [hd_error]. f_equal.
    apply (right_of_node_app [] rest a). intros [].
Qed.

Lemma equal_loop_spec (compare : Pair -> Pair -> bool) (left : list Pair) :
  forall right, length left = length right ->
  equal_loop compare left right =
  Some (forallb (fun ab => compare (fst ab) (snd ab)) (combine left right)).
Proof.
  induction left as [|a left IH]; intros [|b right] Hlen;
    try discriminate; cbn [equal_loop combine forallb fst snd]; [reflexivity|].
  destruct (compare a b); cbn [negb andb]; [|reflexivity].
  apply IH. now injection Hlen.
Qed.

Lemma forallb_combine_same (compare : Pair -> Pair -> bool) (l : list Pair) :
  (forall a, compare a a = true) ->
  forallb (fun ab => compare (fst ab) (snd ab)) (combine l l) = true.
Proof.
  intros Hrefl. induction l as [|a l IH]; [reflexivity|].
  cbn [combine forallb fst snd]. now rewrite Hrefl, IH.
Qed.

(** X19: [operator==] of two valid containers never reads past the end
    of the right one, and its answer is decided by the two element
    sequences alone: true exactly if they are equally long and equal
    position by position.  With a reflexive pair equality a container
    therefore equals any container with the same sequence, such as its own
    balanced form, and [operator!=] is the negation. *)
Theorem equal_compares_sequences (compare : Pair -> Pair -> bool)
  (left right : Skiplist) :
  wf MULTIMAP cmp left -> wf MULTIMAP cmp right ->
  let l := bottom (m_head left) in
  let r := bottom (m_head right) in
  let answer := (length l =? length r) &&
                forallb (fun ab => compare (fst ab) (snd ab)) (combine l r) in
  skiplist_equal compare left right = Some answer /\
  skiplist_not_equal compare left right = Some (negb answer) /\
  ((forall a, compare a a = true) -> l = r ->
   skiplist_equal compare left right = Some true) /\
  ((forall a, compare a a = true) ->
   skiplist_equal compare left (balance left) = Some true).
Proof.
  intros Hl Hr l r answer.
  assert (Heq : forall right', wf MULTIMAP cmp right' ->
            skiplist_equal compare left right' =
            Some ((length l =? length (bottom (m_head right'))) &&
                  forallb (fun ab => compare (fst ab) (snd ab))
                    (combine l (bottom (m_head right'))))).
  { intros right' Hr'. unfold skiplist_equal, size.
    rewrite (walk_from_begin left Hl), (walk_from_begin right' Hr').
    rewrite <- (wf_count Hl), <- (wf_count Hr'). fold l.
    destruct (length l =? length (bottom (m_head right'))) eqn:E; cbn [negb andb].
    - apply equal_loop_spec. now apply Nat.eqb_eq.
    - reflexivity. }
  assert (Hsame : (forall a, compare a a = true) ->
            forall right', wf MULTIMAP cmp right' -> l = bottom (m_head right') ->
            skiplist_equal compare left right' = Some true).
  { intros Hrefl right' Hr' E. rewrite (Heq right' Hr'), <- E.
    now rewrite Nat.eqb_refl, forallb_combine_same. }
  split; [exact (Heq right Hr)|]. split; [|split].
  - unfold skiplist_not_equal. now rewrite (Heq right Hr).
  - intros Hrefl E. exact (Hsame Hrefl right Hr E).
  - intros Hrefl. destruct (balance_props left Hl) as [Hwfb [_ [Hbot _]]].
    apply (Hsame Hrefl _ Hwfb). now symmetry.
Qed.

(** ** Every level is used after balance() *)

Lemma v2_pow2 k : v2 (2 ^ k) = k.
Proof.
  induction k as [|k IH].
  - exact (v2_odd 0).
  - rewrite Nat.pow_succ_r'. rewrite v2_even by apply pow2_pos. now rewrite IH.
Qed.

Lemma filter_length_all (A : Type) (f : A -> bool) (l : list A) :
  length (filter f l) = length l -> forall x, In x l -> f x = true.
Proof.
  induction l as [|a l IH]; intros Hlen x Hx; [destruct Hx|].
  cbn [filter] in Hlen. pose proof (filter_length_le f l) as Hle.
  destruct (f a) eqn:Fa; cbn [length] in Hlen; [|lia].
  destruct Hx as [<-|Hx]; [exact Fa|]. apply IH; [lia|exact Hx].
Qed.

Lemma balance_levelCount (s : Skiplist) :
  m_levelCount (balance s) = m_levelCount s.
Proof.
  unfold balance, balanceWorker. destruct (m_balanced s); [reflexivity|].
  cbn [m_head set_balanced]. now destruct (rev (m_head s)).
Qed.

(** X20: for every position of a valid container [calcBalancedLevel]
    stays between 1 and the level count, so [balanceWorker] never
    indexes its array of tails out of range; and [balance()] leaves no
    level unused: the element at position 2^(levels-1) has a node in
    every list. *)
Theorem balance_fills_levels (s : Skiplist) :
  wf MULTIMAP cmp s ->
  (forall i, 1 <= i <= size s -> 1 <= calcBalancedLevel s i <= m_levelCount s) /\
  length (m_head (balance s)) = m_levelCount s /\
  (0 < size s ->
   exists p, nth_error (bottom (m_head s)) (2 ^ (m_levelCount s - 1) - 1) = Some p /\
             forall lst, In lst (m_head (balance s)) -> memb p lst = true) /\
  (forall lst, In lst (m_head (balance s)) -> lst <> []).
Proof.
  intros Hwf.
  destruct (balance_props s Hwf) as [Hwfb [_ [Hbot [_ Hheight]]]].
  pose proof (wf_range Hwf) as Hrange. pose proof (wf_max Hwf) as Hmax.
  pose proof (wf_min Hwf) as Hmin.
  assert (Hlen : length (m_head (balance s)) = m_levelCount s).
  { rewrite (wf_levels Hwfb). apply balance_levelCount. }
  assert (Htop : 0 < size s ->
    exists p, nth_error (bottom (m_head s)) (2 ^ (m_levelCount s - 1) - 1) = Some p /\
              forall lst, In lst (m_head (balance s)) -> memb p lst = true).
  { unfold size. intros Hpos.
    assert (HL : 0 < m_levelCount s).
    { destruct (m_levelCount s); [cbn in Hmax; lia|lia]. }
    assert (Hm : m_countMin s = 2 ^ (m_levelCount s - 1)).
    { rewrite Hmin. destruct (m_levelCount s =? 0) eqn:E; [|reflexivity].
      apply Nat.eqb_eq in E. lia. }
    pose proof (pow2_pos (m_levelCount s - 1)) as Hp2.
    destruct (nth_error (bottom (m_head s)) (2 ^ (m_levelCount s - 1) - 1))
      as [p|] eqn:En.
    - exists p. split; [reflexivity|].
      pose proof (Hheight _ p En) as Hh.
      replace (S (2 ^ (m_levelCount s - 1) - 1)) with (2 ^ (m_levelCount s - 1))
        in Hh by lia.
      rewrite v2_pow2 in Hh. unfold column_height in Hh.
      apply filter_length_all. rewrite Hh, Hlen. lia.
    - apply nth_error_None in En. rewrite (wf_count Hwf) in En. lia. }
  split; [|split; [exact Hlen|split; [exact Htop|]]].
  - unfold size. intros i Hi. split.
    + apply calcBalancedLevel_pos. lia.
    + apply balanced_level_fits; lia.
  - intros lst Hin E.
    destruct (Nat.eq_dec (size s) 0) as [Hz|Hnz].
    + unfold size in Hz. rewrite <- (wf_count Hwf), <- Hbot in Hz.
      apply length_zero_nil in Hz.
      rewrite (wf_empty_head _ Hwfb Hz) in Hin. destruct Hin.
    + destruct Htop as [p [_ Hall]]; [lia|].
      specialize (Hall lst Hin). rewrite E in Hall. discriminate.
Qed.

(** ** Iterators that start inside the sequence *)

(** X21: an iterator made by [iterator(container, node)] (what [find],
    the bounds, [insert] and [erase] return) on an element other than the
    first never balances: however far it is moved forwards or backwards
    inside the sequence, the container stays exactly as it was, and the
    iterator is on the element that many positions away. *)
Theorem middle_iterator_idle (s : Skiplist) (i k : nat) (p : Pair) :
  wf MULTIMAP cmp s -> 0 < i -> nth_error (bottom (m_head s)) i = Some p ->
  let it := iterator_at s (Some p) in
  m_dontBalance it = true /\
  m_startLocation it = UNKNOWN /\
  fst (incr_n k s it) = s /\
  fst (decr_n k s it) = s /\
  (i + k <= size s ->
   m_currentNode (snd (incr_n k s it)) = nth_error (bottom (m_head s)) (i + k)) /\
  (k <= i ->
   m_currentNode (snd (decr_n k s it)) = nth_error (bottom (m_head s)) (i - k)).
Proof.
  intros Hwf Hi Hp it.
  pose proof (wf_ptrs Hwf) as Hnd.
  assert (Hit : it = mkIterator (Some p) 0 true UNKNOWN).
  { unfold it, iterator_at, is_first. destruct i as [|i]; [lia|].
    destruct (nth_prev _ i p Hnd Hp) as [q [Hq _]]. now rewrite Hq. }
  assert (Hcur : m_currentNode it = nth_error (bottom (m_head s)) i)
    by (now rewrite Hit, Hp).
  assert (Hd : m_dontBalance it = true) by (now rewrite Hit).
  split; [exact Hd|]. split; [now rewrite Hit|]. split; [|split; [|split]].
  - exact (incr_n_idle k s it Hd).
  - exact (decr_n_idle k s it Hd).
  - intros _.
    exact (proj2 (proj2 (incr_n_visits _ Hnd k s it i eq_refl Hcur))).
  - intros Hk.
    assert (Hlen : i <= length (bottom (m_head s))).
    { apply Nat.lt_le_incl. apply nth_error_Some. rewrite Hp. discriminate. }
    exact (proj2 (proj2 (decr_n_visits _ Hnd k s it i eq_refl (wf_tail Hwf)
                           Hcur Hk Hlen))).
Qed.

(** ** A cursor whose index is ahead of its position

    [erase(pos)] builds the iterator it returns before it lowers the
    count, so the past-the-end iterator returned for the last element
    carries the old size as its index. *)

Section StaleCursor.

Variable s0 : Skiplist.
Variable base : list Pair.
Variable n d : nat.
Hypothesis base_nodup : NoDup (ptrs base).
Hypothesis s0_tail : m_tail s0 = last_node nullptr base.

Local Abbreviation st := (with_levels s0 base n).
Local Abbreviation shifted := (shifted_height s0 base d).

Lemma shifted_height_here (rest done : list Pair) q :
  base = (rest ++ [q]) ++ done ->
  shifted q = calcBalancedLevel s0 (length rest + d + 1) - 1.
Proof.
  intros Hb. unfold shifted_height.
  assert (Hb' : base = rest ++ q :: done) by (rewrite Hb; now rewrite <- app_assoc).
  rewrite Hb' at 1. rewrite before_node_app.
  - f_equal. f_equal. lia.
  - eapply NoDup_map_app_notin. rewrite <- Hb'. exact base_nodup.
Qed.

Lemma st_decr_at (hgt : Pair -> nat) rest q done idx :
  base = (rest ++ [q]) ++ done ->
  iterator_decr (st hgt) (mkIterator (hd_error done) idx false END) =
  let s' := st (fun x => if same x q
                         then calcBalancedLevel s0 (idx - 1 + 1) - 1
                         else hgt x) in
  match rest with
  | [] => (set_balanced true s', mkIterator (Some q) (idx - 1) true END)
  | _ :: _ => (s', mkIterator (Some q) (idx - 1) false END)
  end.
Proof.
  intros Hb.
  assert (Hq : In q base).
  { rewrite Hb. apply in_or_app. left. apply in_or_app. right. now left. }
  assert (Hnq : ~ In (ptr q) (ptrs rest)).
  { rewrite <- app_assoc in Hb. cbn [app] in Hb.
    eapply NoDup_map_app_notin. rewrite <- Hb. exact base_nodup. }
  assert (Hfirst : forall h, is_first (st h) q =
                             match rest with [] => true | _ :: _ => false end).
  { intros h. unfold is_first. rewrite (st_bottom s0 base n). unfold Prev_of.
    rewrite Hb at 1. rewrite <- app_assoc. cbn [app].
    rewrite before_node_app by exact Hnq.
    destruct rest as [|r0 rest'] using rev_ind; [reflexivity|].
    rewrite last_node_app. destruct (rest' ++ [r0]) eqn:E; [|reflexivity].
    apply app_eq_nil in E. destruct E; discriminate. }
  assert (Hmove : (match hd_error done with
                   | None => to_node (m_tail (st hgt))
                   | Some c =>
                       match Prev_of c (bottom (m_head (st hgt))) with
                       | node q' => Some q'
                       | _ => None
                       end
                   end) = Some q).
  { rewrite (st_bottom s0 base n). destruct done as [|c done']; cbn [hd_error].
    - unfold with_levels. cbn [m_tail set_head].
      rewrite s0_tail. rewrite Hb at 1. rewrite app_nil_r, last_node_app. reflexivity.
    - unfold Prev_of. rewrite Hb at 1. rewrite before_node_app.
      + rewrite last_node_app. reflexivity.
      + eapply NoDup_map_app_notin. rewrite <- Hb. exact base_nodup. }
  unfold iterator_decr. cbn [m_currentNode m_index m_dontBalance m_startLocation].
  destruct done as [|c done']; cbn [hd_error] in Hmove |- *.
  - rewrite Hmove. cbn [m_dontBalance negb m_currentNode m_startLocation m_index].
    rewrite (st_balance s0 base n base_nodup hgt q (idx - 1) false END Hq), Hfirst.
    destruct rest; reflexivity.
  - destruct (Prev_of c (bottom (m_head (st hgt)))) as [| |q'];
      try discriminate Hmove. injection Hmove as ->.
    cbn [m_dontBalance negb m_currentNode m_startLocation m_index].
    rewrite (st_balance s0 base n base_nodup hgt q (idx - 1) false END Hq), Hfirst.
    destruct rest; reflexivity.
Qed.

Lemma step_height_at (hgt : Pair -> nat) rest q done x :
  base = (rest ++ [q]) ++ done -> In x base ->
  (same x q = false -> hgt x = shifted x) ->
  (if same x q
   then calcBalancedLevel s0 (length (rest ++ [q]) + d - 1 + 1) - 1
   else hgt x) = shifted x.
Proof.
  intros Hb Hx Hh. assert (Hq : In q base).
  { rewrite Hb. apply in_or_app. left. apply in_or_app. right. now left. }
  destruct (same x q) eqn:Es; [|now apply Hh].
  rewrite (same_base base x q base_nodup Hx Hq Es).
  rewrite (shifted_height_here rest done q Hb).
  rewrite length_app. cbn [length]. f_equal. f_equal. lia.
Qed.

Lemma decr_sweep_at (rest : list Pair) : forall q done hgt,
  base = (rest ++ [q]) ++ done ->
  (forall x, In x done -> hgt x = shifted x) ->
  decr_n (S (length rest)) (st hgt)
    (mkIterator (hd_error done) (length (rest ++ [q]) + d) false END) =
  (set_balanced true (st shifted), mkIterator (hd_error base) d true END).
Proof.
  induction rest as [|q' rest IH] using rev_ind; intros q done hgt Hb Hh.
  - cbn [length decr_n]. rewrite (st_decr_at hgt [] q done _ Hb). cbv beta iota zeta.
    f_equal.
    + f_equal. apply (st_ext s0 base n). intros x Hx.
      apply (step_height_at hgt [] q done x Hb Hx).
      intros Es. apply Hh. rewrite Hb in Hx. cbn [app] in Hx.
      destruct Hx as [<-|Hx]; [|exact Hx].
      rewrite same_refl in Es. discriminate.
    + rewrite Hb. cbn [app length hd_error]. f_equal. lia.
  - replace (S (length (rest ++ [q']))) with (S (S (length rest)))
      by (rewrite length_app; cbn [length]; lia).
    cbn [decr_n]. rewrite (st_decr_at hgt (rest ++ [q']) q done _ Hb). cbv zeta.
    assert (Hcase : forall (A : Type) (x y : A),
              match rest ++ [q'] with [] => x | _ :: _ => y end = y).
    { intros A x y. destruct (rest ++ [q']) eqn:E; [|reflexivity].
      apply app_eq_nil in E. destruct E; discriminate. }
    rewrite Hcase. cbv beta iota.
    assert (Hb' : base = (rest ++ [q']) ++ q :: done).
    { rewrite Hb. now rewrite <- !app_assoc. }
    replace (length ((rest ++ [q']) ++ [q]) + d - 1)
      with (length (rest ++ [q']) + d)
      by (rewrite !length_app; cbn [length]; lia).
    change (Some q) with (hd_error (q :: done)).
    apply (IH q' (q :: done)).
    + exact Hb'.
    + intros x Hx.
      assert (Hxb : In x base) by (rewrite Hb'; apply in_or_app; now right).
      replace (length (rest ++ [q']) + d)
        with (length ((rest ++ [q']) ++ [q]) + d - 1)
        by (rewrite !length_app; cbn [length]; lia).
      replace (length ((rest ++ [q']) ++ [q]) + d - 1)
        with (length ((rest ++ [q']) ++ [q]) + d - 1 + 1 - 1) by lia.
      replace (length ((rest ++ [q']) ++ [q]) + d - 1 + 1 - 1 + 1)
        with (length ((rest ++ [q']) ++ [q]) + d - 1 + 1) by lia.
      apply (step_height_at hgt (rest ++ [q']) q done x Hb Hxb).
      intros Es. apply Hh. destruct Hx as [<-|Hx]; [|exact Hx].
      rewrite same_refl in Es. discriminate.
Qed.

End StaleCursor.

(** X22: erasing the last element returns a past-the-end iterator whose
    index is the size from before the erasure, one more than the size
    now.  Moved back to the first element it balances every column for the
    position after its own (the element at 0-based position [i] gets
    min(1 + v2(i + 2), levels) nodes, the first element two) and then
    sets is_balanced: the flag is true on a container that is not in
    balanced shape, and [balance()] no longer changes it. *)
Theorem erase_last_stale_cursor (s : Skiplist) (init : list Pair) (t : Pair) :
  wf MULTIMAP cmp s -> bottom (m_head s) = init ++ [t] -> 2 <= length init ->
  let r := erase_pos s (mkConstIterator (Some t)) in
  let s1 := snd r in
  let s2 := fst (decr_n (size s1) s1 (fst r)) in
  m_currentNode (fst r) = None /\ m_index (fst r) = size s1 + 1 /\
  bottom (m_head s2) = init /\
  is_balanced s2 = true /\
  balance s2 = s2 /\
  (forall i p, nth_error init i = Some p ->
     column_height p (m_head s2) = Nat.min (1 + v2 (i + 2)) (m_levelCount s1)) /\
  ~ balanced_shape s2 /\
  ~ wf MULTIMAP cmp s2.
Proof.
  intros Hwf Hbot Hlen r s1 s2.
  pose proof (wf_ptrs Hwf) as Hnd. rewrite Hbot in Hnd.
  assert (Hnt : ~ In (ptr t) (ptrs init)) by exact (NoDup_map_app_notin _ _ _ Hnd).
  assert (Hin : In t (bottom (m_head s))).
  { rewrite Hbot. apply in_or_app. right. now left. }
  destruct (erase_pos_spec s t Hwf Hin) as [Hwf1 [Hb1 [_ [Hunl [Hc Hret]]]]].
  fold r in Hwf1, Hb1, Hc, Hret. fold s1 in Hwf1, Hb1, Hc.
  rewrite Hunl, Hbot, (before_node_app init [] t Hnt),
    (right_of_node_app init [] t Hnt), app_nil_r in Hb1.
  rewrite Hbot, (right_of_node_app init [] t Hnt) in Hret. cbn [hd_error] in Hret.
  unfold iterator_at in Hret.
  pose proof (wf_count Hwf1) as Hcount. rewrite Hb1 in Hcount.
  pose proof (NoDup_map_app_l _ _ Hnd) as Hndi.
  (* the lists of [s1] by column heights *)
  destruct (rev (m_head s1)) as [|base above] eqn:Erev.
  { apply (proj1 (rev_nil_iff _ _)) in Erev. rewrite Erev in Hb1.
    rewrite <- Hb1 in Hlen. cbn in Hlen. lia. }
  destruct (wf_with_levels s1 base above Hwf1 Erev) as [Hbase [_ [Hst Hlev]]].
  rewrite Hb1 in Hbase. subst base.
  set (n := length above) in *.
  assert (Hn : 1 <= n).
  { pose proof (wf_range Hwf1) as Hr. pose proof (wf_max Hwf1) as Hm.
    rewrite Hlev in Hm. destruct n as [|n']; [|lia].
    cbn in Hm. lia. }
  destruct (exists_last (l := init)) as [rest [q Einit]].
  { intros E. rewrite E in Hlen. cbn in Hlen. lia. }
  assert (Hsweep : decr_n (size s1) s1 (fst r) =
                   (set_balanced true
                      (with_levels s1 init n (shifted_height s1 init 1)),
                    mkIterator (hd_error init) 1 true END)).
  { rewrite Hret. unfold size. rewrite <- Hc, <- Hcount.
    rewrite Hst at 1.
    assert (Hl : length init = S (length rest)).
    { rewrite Einit, length_app. cbn [length]. lia. }
    rewrite Hl.
    replace (S (length rest) + 1) with (length (rest ++ [q]) + 1)
      by (rewrite length_app; cbn [length]; lia).
    change (@None Pair) with (hd_error (@nil Pair)).
    apply (decr_sweep_at s1 init n 1 Hndi).
    - rewrite (wf_tail Hwf1). now rewrite Hb1.
    - rewrite app_nil_r. exact Einit.
    - intros x []. }
  assert (Hs2 : s2 = set_balanced true
                       (with_levels s1 init n (shifted_height s1 init 1))).
  { unfold s2. now rewrite Hsweep. }
  assert (Hheight : forall i p, nth_error init i = Some p ->
            column_height p (m_head s2) = Nat.min (1 + v2 (i + 2)) (m_levelCount s1)).
  { intros i p Hp. rewrite Hs2. unfold with_levels. cbn [m_head set_balanced set_head].
    rewrite (column_height_levels init _ n p Hndi (nth_error_In _ _ Hp)).
    unfold shifted_height. rewrite (before_node_nth init i p Hndi Hp).
    rewrite calcBalancedLevel_v2 by lia.
    replace (S i + 1) with (i + 2) by lia. rewrite Hlev. lia. }
  assert (Hshape : ~ balanced_shape s2).
  { intros Hsh. destruct init as [|a init']; [cbn in Hlen; lia|].
    pose proof (Hheight 0 a eq_refl) as H0.
    assert (Hb2 : bottom (m_head s2) = a :: init').
    { rewrite Hs2. unfold with_levels. cbn [m_head set_balanced set_head].
      apply bottom_rev_cons. }
    pose proof (Hsh 0 a) as H1. rewrite Hb2 in H1. specialize (H1 eq_refl).
    rewrite calcBalancedLevel_v2 in H1 by lia.
    rewrite H0, Hlev in H1.
    assert (Hv1 : v2 1 = 0) by exact (v2_odd 0).
    assert (Hv2 : v2 (0 + 2) = 1).
    { exact (eq_trans (v2_even 1 (Nat.lt_0_1)) (f_equal S Hv1)). }
    rewrite Hv2, Hv1 in H1. lia. }
  split; [now rewrite Hret|]. split; [rewrite Hret; unfold size; cbn; lia|].
  split; [|split; [|split; [|split; [exact Hheight|split; [exact Hshape|]]]]].
  - rewrite Hs2. unfold with_levels. cbn [m_head set_balanced set_head].
    apply bottom_rev_cons.
  - now rewrite Hs2.
  - unfold balance, balanceWorker. now rewrite Hs2.
  - intros Hwf2. apply Hshape. apply (wf_balanced Hwf2). now rewrite Hs2.
Qed.

(** ** operator[] on a multimap *)

Lemma insertWithHintMultimap_here (s : Skiplist) (b : option Pair) (p : Pair) :
  MULTIMAP = true -> wf MULTIMAP cmp s -> fresh p s ->
  (forall bn, b = Some bn -> In bn (bottom (m_head s))) ->
  good_hint cmp (hint_prev s b) b (first p) = true ->
  let l := bottom (m_head s) in
  let r := insertWithHintMultimap MULTIMAP cmp s (mkConstIterator b) (first p) p in
  wf MULTIMAP cmp (snd r) /\
  m_currentNode (fst r) = Some p /\
  m_count (snd r) = S (m_count s) /\
  bottom (m_head (snd r)) = hint_before b l ++ p :: hint_from b l.
Proof.
  intros Hmulti Hwf Hp Hb Hgood l r.
  destruct (hint_split s b Hwf Hb) as [Hsplit [Hm [HB [HR Hprev]]]].
  fold l in Hsplit, Hm, HB, HR, Hprev.
  unfold good_hint in Hgood. apply andb_prop in Hgood. destruct Hgood as [G1 G2].
  assert (T1 : match b with None => false | Some bn => cmp (first bn) (first p) end
               = false).
  { destruct b as [bn|]; [|reflexivity]. now apply negb_true_iff in G2. }
  assert (T2 : match hint_prev s b with
               | node an => cmp (first p) (first an)
               | _ => false
               end = false).
  { destruct (hint_prev s b) as [| |an]; try reflexivity. now apply negb_true_iff in G1. }
  unfold r, insertWithHintMultimap. cbn [c_currentNode]. rewrite T1, T2.
  destruct (insertBottomUp_spec s (hint_stop b l) p (hint_prev s b) Hwf Hp Hm)
    as [s' [Hins [Hwf' [Hbot' [Hcnt' _]]]]].
  - fold l. rewrite HB. intros x Hx.
    assert (Ea : hint_prev s b = node x).
    { destruct Hprev as [E|[Hnil E]]; [congruence|].
      rewrite Hsplit in Hnil. apply app_eq_nil in Hnil. destruct Hnil as [Hnil _].
      rewrite Hnil in Hx. discriminate. }
    rewrite Ea in T2. split; [exact T2|]. intros E. congruence.
  - fold l. rewrite HR. destruct b as [bn|]; cbn [hint_from]; constructor.
    split; [exact T1|]. intros E. congruence.
  - fold l. rewrite HB. exact Hprev.
  - rewrite Hins. cbn [fst snd]. fold l in Hbot'.
    unfold spliced in Hbot'. rewrite HB, HR in Hbot'.
    split; [exact Hwf'|]. split; [apply iterator_at_node|]. split; assumption.
Qed.

Lemma lower_bound_hint (s : Skiplist) key :
  wf MULTIMAP cmp s ->
  let l := bottom (m_head s) in
  let b := hd_error (filter (fun n => negated_compare cmp key (first n)) l) in
  (forall bn, b = Some bn -> In bn l) /\
  hint_before b l = filter (fun x => cmp (first x) key) l /\
  hint_from b l = filter (fun n => negated_compare cmp key (first n)) l /\
  good_hint cmp (hint_prev s b) b key = true.
Proof.
  intros Hwf l b.
  pose proof (Sorted_ordered_le_key _ (wf_sorted Hwf)) as Hso. fold l in Hso.
  pose proof (mono_split _ _ (sorted_mono_lower key l Hso)) as Hsplit.
  assert (Hless : filter (fun x => negb (negated_compare cmp key (first x))) l =
                  filter (fun x => cmp (first x) key) l).
  { apply filter_ext. intros x. unfold negated_compare. apply negb_involutive. }
  cbv beta in Hsplit. rewrite Hless in Hsplit.
  assert (Hb : forall bn, b = Some bn -> In bn l).
  { intros bn Hbn. exact (proj1 (hd_error_filter_In _ _ _ Hbn)). }
  pose proof (wf_ptrs Hwf) as Hnd. fold l in Hnd.
  assert (Hparts : hint_before b l = filter (fun x => cmp (first x) key) l /\
                   hint_from b l = filter (fun n => negated_compare cmp key (first n)) l).
  { unfold b.
    destruct (filter (fun n => negated_compare cmp key (first n)) l)
      as [|bn rest] eqn:F; cbn [hd_error hint_before hint_from].
    - rewrite app_nil_r in Hsplit. split; [exact Hsplit|reflexivity].
    - assert (Hnot : ~ In (ptr bn) (ptrs (filter (fun x => cmp (first x) key) l))).
      { eapply NoDup_map_app_notin. rewrite <- Hsplit. exact Hnd. }
      rewrite Hsplit at 1 3.
      rewrite (before_node_app _ rest bn Hnot), (right_of_node_app _ rest bn Hnot).
      split; reflexivity. }
  destruct Hparts as [HB HR].
  split; [exact Hb|]. split; [exact HB|]. split; [exact HR|].
  destruct (hint_split s b Hwf Hb) as [_ [_ [_ [_ Hprev]]]]. fold l in Hprev.
  unfold good_hint. apply andb_true_intro. split.
  - destruct (hint_prev s b) as [| |an] eqn:Ea; try reflexivity.
    destruct Hprev as [E|[_ E]]; [|discriminate].
    symmetry in E. apply last_node_In in E. destruct E as [E|E]; [discriminate|].
    rewrite HB in E. apply filter_In in E. destruct E as [_ E].
    now rewrite (swo_asym _ _ E).
  - destruct b as [bn|] eqn:Eb; [|reflexivity].
    pose proof (hd_error_filter_In _ _ _ Eb) as [_ H]. exact H.
Qed.

Lemma length_filter_insert (f : Pair -> bool) (A Z : list Pair) p :
  f p = true ->
  length (filter f (A ++ p :: Z)) = length (filter f (A ++ Z)) + 1.
Proof.
  intros Hp. rewrite !filter_app, !length_app. cbn [filter]. rewrite Hp.
  cbn [length]. lia.
Qed.

(** X23: for a multimap [operator[]] always inserts: the new
    default-valued pair is linked in front of the elements with an
    equivalent key (after the smaller ones), the value returned is the
    one of the new pair and never that of an element already stored, and
    [size()] and [count(k)] grow by one. *)
Theorem subscript_multimap (s : Skiplist) (key : KEY) (p : Pair) :
  MULTIMAP = true -> wf MULTIMAP cmp s -> fresh p s -> first p = key ->
  let r := subscript MULTIMAP cmp s key p in
  let l := bottom (m_head s) in
  fst r = Some (second p) /\
  bottom (m_head (snd r)) =
    filter (fun x => cmp (first x) key) l ++
    p :: filter (fun x => equivalent cmp key (first x)) l ++
         filter (fun x => cmp key (first x)) l /\
  size (snd r) = size s + 1 /\
  count cmp (snd r) key = count cmp s key + 1 /\
  wf MULTIMAP cmp (snd r).
Proof.
  intros Hmulti Hwf Hp Hkey r l. subst key.
  pose proof (Sorted_ordered_le_key _ (wf_sorted Hwf)) as Hso. fold l in Hso.
  destruct (lower_bound_hint s (first p) Hwf) as [Hb [HB [HR Hgood]]].
  fold l in Hb, HB, HR, Hgood.
  set (b := hd_error (filter (fun n => negated_compare cmp (first p) (first n)) l)) in *.
  destruct (insertWithHintMultimap_here s b p Hmulti Hwf Hp Hb Hgood)
    as [Hwf' [Hcur [Hcnt Hbot]]].
  fold l in Hbot. rewrite HB, HR in Hbot.
  assert (Hr : r = (option_map (fun q : Pair => second q)
                      (m_currentNode
                         (fst (insertWithHintMultimap MULTIMAP cmp s
                                 (mkConstIterator b) (first p) p))),
                    snd (insertWithHintMultimap MULTIMAP cmp s (mkConstIterator b)
                           (first p) p))).
  { unfold r, subscript, try_emplace_hint.
    rewrite (lower_bound_node s (first p) Hwf). fold l b. rewrite Hmulti.
    now destruct (insertWithHintMultimap true cmp s (mkConstIterator b) (first p) p). }
  rewrite Hr. cbn [fst snd]. rewrite Hcur. cbn [option_map].
  split; [reflexivity|]. split; [|split; [unfold size; lia|split; [|exact Hwf']]].
  - rewrite Hbot. now rewrite (not_less_split l (first p) Hso).
  - rewrite (count_spec _ (first p) Hwf'), (count_spec s (first p) Hwf), Hbot.
    rewrite length_filter_insert by apply equivalent_refl.
    fold l.
    assert (Hl : l = filter (fun x => cmp (first x) (first p)) l ++
                     filter (fun n => negated_compare cmp (first p) (first n)) l).
    { rewrite (mono_split _ _ (sorted_mono_lower (first p) l Hso)) at 1. cbv beta.
      apply (f_equal (fun z => z ++ _)). apply filter_ext. intros x.
      unfold negated_compare. apply negb_involutive. }
    now rewrite <- Hl.
Qed.

(** ** Every reachable container keeps the invariants, continued *)

Lemma subscript_wf (s : Skiplist) (key : KEY) (p : Pair) :
  wf MULTIMAP cmp s -> fresh p s -> first p = key ->
  wf MULTIMAP cmp (snd (subscript MULTIMAP cmp s key p)).
Proof.
  intros Hwf Hp Hkey. subst key.
  set (b := m_currentNode (lower_bound cmp s (first p))).
  assert (Hb : forall bn, b = Some bn -> In bn (bottom (m_head s))).
  { intros bn Hbn. unfold b in Hbn. rewrite (lower_bound_node s (first p) Hwf) in Hbn.
    exact (proj1 (hd_error_filter_In _ _ _ Hbn)). }
  pose proof (insert_hint_wf s b p Hwf Hp Hb) as H.
  unfold subscript, try_emplace_hint. fold b. unfold insert_hint in H.
  destruct (if MULTIMAP
            then insertWithHintMultimap MULTIMAP cmp s (mkConstIterator b) (first p) p
            else insertWithHintMap MULTIMAP cmp s (mkConstIterator b) (first p) p).
  exact H.
Qed.

Lemma pop_front_wf (s s' : Skiplist) :
  wf MULTIMAP cmp s -> pop_front s = Some s' -> wf MULTIMAP cmp s'.
Proof.
  intros Hwf Hpop. unfold pop_front, cbegin in Hpop.
  destruct (m_head s) as [|u lists] eqn:E; [discriminate|].
  injection Hpop as <-.
  assert (Hne : bottom (m_head s) <> []).
  { apply wf_nonempty; [exact Hwf|]. rewrite E. discriminate. }
  destruct (bottom (m_head s)) as [|a l] eqn:Hbot; [contradiction|].
  pose proof (wf_begin Hwf) as Hb0. rewrite Hbot in Hb0. rewrite Hb0.
  apply erase_pos_spec; [exact Hwf|]. rewrite Hbot. now left.
Qed.

Lemma pop_back_wf (s s' : Skiplist) :
  wf MULTIMAP cmp s -> pop_back s = Some s' -> wf MULTIMAP cmp s'.
Proof.
  intros Hwf Hpop. unfold pop_back in Hpop.
  destruct (m_tail s) as [| |t] eqn:Et; try discriminate.
  injection Hpop as <-.
  apply erase_pos_spec; [exact Hwf|].
  rewrite (wf_tail Hwf) in Et. apply last_node_In in Et.
  destruct Et as [Et|Et]; [discriminate|exact Et].
Qed.

Lemma reachable_wf (s : Skiplist) : reachable MULTIMAP cmp s -> wf MULTIMAP cmp s.
Proof.
  induction 1 as [seed|s p _ IH Hp|s b p _ IH Hp Hb|s key _ IH|s p _ IH Hp
                 |s A M Z _ IH Hb|s s' _ IH Hpop|s s' _ IH Hpop|seed s _ IH|s _ IH
                 |s k _ IH Hk|s k _ IH Hk|s range _ IH Hnd Hfr|s key p _ IH Hp Hkey
                 |A functor s acc _ IH].
  - apply new_wf.
  - now apply insert_wf.
  - now apply insert_hint_wf.
  - now destruct (erase_spec s key IH) as [_ [H _]].
  - now destruct (erase_pos_spec s p IH Hp) as [H _].
  - assert (Hfuel : length M < S (m_count s)).
    { rewrite <- (wf_count IH), Hb, !length_app. lia. }
    destruct (erase_range_loop_spec M s (S (m_count s)) A Z IH Hb Hfuel)
      as [_ [H2 _]].
    cbv zeta in H2. unfold erase_range.
    destruct (erase_range_loop (S (m_count s)) s
                (mkConstIterator (hd_error (M ++ Z))) (mkConstIterator (hd_error Z))).
    exact H2.
  - exact (pop_front_wf s s' IH Hpop).
  - exact (pop_back_wf s s' IH Hpop).
  - apply clear_wf.
  - now apply balance_props.
  - now apply incr_n_wf.
  - now apply decr_n_wf.
  - exact (proj1 (insert_range_loop_spec range s IH Hnd Hfr)).
  - now apply subscript_wf.
  - rewrite (proj1 (for_each_spec A functor s acc IH)). cbn [snd].
    now apply balance_props.
Qed.

(** X12: every container built from an empty one by inserts (plain,
    hinted, ranges, [operator[]]), erases (by key, position and range),
    pops, clears, balance passes, [for_each] and cursor moves has its
    thresholds and size in line:
    [count_max = 2^L - 1] for its level count [L], [count_min = 2^(L-1)]
    unless [L = 0], [count_min <= size <= count_max], as many lists as
    levels, and no level at all exactly when it is empty. *)
Theorem reachable_count_range (s : Skiplist) :
  reachable MULTIMAP cmp s ->
  m_countMin s <= size s <= m_countMax s /\
  m_countMax s = 2 ^ m_levelCount s - 1 /\
  (0 < m_levelCount s -> m_countMin s = 2 ^ (m_levelCount s - 1)) /\
  length (m_head s) = m_levelCount s /\
  (size s = 0 <-> m_levelCount s = 0) /\
  size s = length (bottom (m_head s)).
Proof.
  intros Hr. pose proof (reachable_wf s Hr) as Hwf. unfold size.
  pose proof (wf_range Hwf) as Hrange. pose proof (wf_min Hwf) as Hmin.
  pose proof (wf_max Hwf) as Hmax.
  split; [exact Hrange|]. split; [exact Hmax|]. split; [|split; [|split]].
  - intros HL. rewrite Hmin. destruct (m_levelCount s); [lia|reflexivity].
  - apply (wf_levels Hwf).
  - split; intros H0.
    + destruct (m_levelCount s) as [|L] eqn:E; [reflexivity|].
      rewrite Hmin in Hrange. cbn [Nat.eqb] in Hrange.
      pose proof (pow2_pos (S L - 1)). lia.
    + rewrite Hmax, H0 in Hrange. simpl in Hrange. lia.
  - symmetry. apply (wf_count Hwf).
Qed.


Lemma StronglySorted_nth (R : Pair -> Pair -> Prop) (l : list Pair) :
  StronglySorted R l ->
  forall i j x y, i < j -> nth_error l i = Some x -> nth_error l j = Some y -> R x y.
Proof.
  induction 1 as [|a l Hss IH Hall]; intros i j x y Hij Hx Hy.
  - destruct i; discriminate.
  - destruct j as [|j]; [lia|]. cbn [nth_error] in Hy.
    destruct i as [|i]; cbn [nth_error] in Hx.
    + injection Hx as <-.
      exact (proj1 (Forall_forall _ _) Hall y (nth_error_In _ _ Hy)).
    + apply (IH i j x y); [lia|exact Hx|exact Hy].
Qed.

(** X24: every container built from an empty one by the public mutators
    is sorted: an element never has a key less than that of an element
    before it, and in a map the keys strictly increase, so no two
    elements have equivalent keys.  Every node of an upper list belongs
    to an element of the bottom list, [begin] and the tail are the ends of
    the sequence, and whenever is_balanced() is true the element at
    1-based position [i] has exactly 1 + v2(i) nodes. *)
Theorem reachable_sorted (s : Skiplist) :
  reachable MULTIMAP cmp s ->
  let l := bottom (m_head s) in
  (forall i j x y, i < j -> nth_error l i = Some x -> nth_error l j = Some y ->
     cmp (first y) (first x) = false /\
     (MULTIMAP = false -> cmp (first x) (first y) = true)) /\
  (MULTIMAP = false -> forall x y, In x l -> In y l ->
     equivalent cmp (first x) (first y) = true -> x = y) /\
  (forall u x, In u (m_head s) -> In x u -> In x l) /\
  (m_begin s = hd_error l /\ m_tail s = last_node nullptr l) /\
  (is_balanced s = true ->
   forall i p, nth_error l i = Some p -> column_height p (m_head s) = 1 + v2 (S i)).
Proof.
  intros Hr l. pose proof (reachable_wf s Hr) as Hwf.
  pose proof (Sorted_ordered_strong _ (wf_sorted Hwf)) as Hso. fold l in Hso.
  split; [|split; [|split; [|split]]].
  - intros i j x y Hij Hx Hy.
    exact (StronglySorted_nth (ordered MULTIMAP cmp) l Hso i j x y Hij Hx Hy).
  - intros Hmap x y Hx Hy He.
    exact (map_equivalent_unique l (first x) x y Hmap (wf_sorted Hwf) Hx Hy
             (equivalent_refl (first x)) He).
  - intros u x Hu Hx. exact (stacked_In_bottom (m_head s) (wf_stacked Hwf) u x Hu Hx).
  - split; [exact (wf_begin Hwf)|exact (wf_tail Hwf)].
  - intros Hb i p Hp. unfold is_balanced in Hb.
    pose proof (wf_balanced Hwf Hb) as Hshape.
    rewrite (Hshape i p Hp). apply calcBalancedLevel_v2. lia.
Qed.


(** ** erase(key) and erase over equal_range(key) *)

Lemma three_way_split (l : list Pair) key :
  StronglySorted lek l ->
  l = filter (fun x => cmp (first x) key) l ++
      filter (fun x => equivalent cmp key (first x)) l ++
      filter (fun x => cmp key (first x)) l.
Proof.
  intros Hso. rewrite <- (not_less_split l key Hso).
  rewrite (mono_split _ _ (sorted_mono_lower key l Hso)) at 1. cbv beta.
  apply (f_equal (fun z => z ++ _)). apply filter_ext. intros x.
  unfold negated_compare. apply negb_involutive.
Qed.

Lemma filter_not_equivalent_parts (l : list Pair) key :
  filter (not_equivalent cmp key)
    (filter (fun x => cmp (first x) key) l ++
     filter (fun x => equivalent cmp key (first x)) l ++
     filter (fun x => cmp key (first x)) l) =
  filter (fun x => cmp (first x) key) l ++ filter (fun x => cmp key (first x)) l.
Proof.
  rewrite !filter_app.
  rewrite (filter_all (not_equivalent cmp key) (filter (fun x => cmp (first x) key) l)).
  - rewrite (filter_none (not_equivalent cmp key)
               (filter (fun x => equivalent cmp key (first x)) l)).
    + rewrite (filter_all (not_equivalent cmp key)
                 (filter (fun x => cmp key (first x)) l)); [reflexivity|].
      apply Forall_forall. intros x Hx.
      apply filter_In in Hx. destruct Hx as [_ Hx].
      unfold not_equivalent, equivalent. now rewrite Hx.
    + apply Forall_forall. intros x Hx.
      apply filter_In in Hx. destruct Hx as [_ Hx].
      unfold not_equivalent. now rewrite Hx.
  - apply Forall_forall. intros x Hx.
    apply filter_In in Hx. destruct Hx as [_ Hx].
    unfold not_equivalent, equivalent. rewrite Hx. now rewrite andb_false_r.
Qed.

(** X25: [erase(k)] and the range erase over [equal_range(k)] remove the
    same elements: both leave the elements less than [k] followed by
    those greater, with the same size, which is the old size less the
    number [erase(k)] returns; the iterator the range erase returns is on
    the first element greater than [k]. *)
Theorem erase_key_as_range (s : Skiplist) (key : KEY) :
  wf MULTIMAP cmp s ->
  let er := equal_range cmp s key in
  let by_range := erase_range s (mkConstIterator (m_currentNode (fst er)))
                    (mkConstIterator (m_currentNode (snd er))) in
  let by_key := erase cmp s key in
  let l := bottom (m_head s) in
  bottom (m_head (snd by_range)) = bottom (m_head (snd by_key)) /\
  bottom (m_head (snd by_key)) =
    filter (fun x => cmp (first x) key) l ++ filter (fun x => cmp key (first x)) l /\
  size (snd by_range) = size (snd by_key) /\
  size (snd by_key) + fst by_key = size s /\
  m_currentNode (fst by_range) = m_currentNode (upper_bound cmp s key) /\
  wf MULTIMAP cmp (snd by_range) /\ wf MULTIMAP cmp (snd by_key).
Proof.
  intros Hwf er by_range by_key l.
  pose proof (Sorted_ordered_le_key _ (wf_sorted Hwf)) as Hso. fold l in Hso.
  pose proof (three_way_split l key Hso) as Hsplit.
  set (A := filter (fun x => cmp (first x) key) l) in *.
  set (M := filter (fun x => equivalent cmp key (first x)) l) in *.
  set (Z := filter (fun x => cmp key (first x)) l) in *.
  assert (Hlo : m_currentNode (fst er) = hd_error (M ++ Z)).
  { unfold er, equal_range. cbn [fst]. rewrite (lower_bound_node s key Hwf).
    fold l. now rewrite (not_less_split l key Hso). }
  assert (Hup : m_currentNode (snd er) = hd_error Z).
  { unfold er, equal_range. cbn [snd]. exact (upper_bound_node s key Hwf). }
  assert (Hfuel : length M < S (m_count s)).
  { rewrite <- (wf_count Hwf). fold l.
    assert (Hl : length l = length A + (length M + length Z))
      by (rewrite Hsplit at 1; now rewrite !length_app).
    lia. }
  destruct (erase_range_loop_spec M s (S (m_count s)) A Z Hwf Hsplit Hfuel)
    as [R1 [R2 [R3 R4]]].
  cbv zeta in R1, R2, R3, R4.
  destruct (erase_spec s key Hwf) as [K1 [K2 [K3 [K4 _]]]].
  fold by_key l M in K1, K2, K3, K4.
  assert (Hkey : bottom (m_head (snd by_key)) = A ++ Z).
  { rewrite K3, Hsplit. apply filter_not_equivalent_parts. }
  assert (Hrange : snd by_range =
                   snd (erase_range_loop (S (m_count s)) s
                          (mkConstIterator (hd_error (M ++ Z)))
                          (mkConstIterator (hd_error Z))) /\
                   m_currentNode (fst by_range) = hd_error Z).
  { unfold by_range, erase_range. rewrite Hlo, Hup.
    destruct (erase_range_loop (S (m_count s)) s
                (mkConstIterator (hd_error (M ++ Z))) (mkConstIterator (hd_error Z)))
      as [f s'].
    cbn [fst snd] in *. subst f. cbn [c_currentNode].
    split; [reflexivity|apply iterator_at_node]. }
  destruct Hrange as [Hs Hit]. rewrite <- Hs in R2, R3, R4.
  split; [now rewrite R3, Hkey|]. split; [exact Hkey|].
  split; [unfold size; lia|]. split; [unfold size; rewrite K1; lia|].
  split; [|split; [exact R2|exact K2]].
  rewrite Hit. symmetry. exact (upper_bound_node s key Hwf).
Qed.

End SkiplistProofs.

(** * The theorems at concrete containers *)

Lemma ltb_swo : StrictWeakOrder Nat.ltb.
Proof.
  constructor; unfold equivalent; intros.
  - apply Nat.ltb_irrefl.
  - apply Nat.ltb_lt in H, H0. apply Nat.ltb_lt. lia.
  - apply andb_true_iff in H, H0. destruct H as [H1 H2], H0 as [H3 H4].
    apply negb_true_iff in H1, H2, H3, H4. apply Nat.ltb_ge in H1, H2, H3, H4.
    apply andb_true_iff. split; apply negb_true_iff; apply Nat.ltb_ge; lia.
Qed.

Ltac solve_wf :=
  constructor; simpl;
  [ reflexivity | reflexivity | reflexivity | reflexivity | lia
  | repeat (constructor; [simpl; intuition discriminate|]); constructor
  | repeat (constructor; [|try constructor; split; [reflexivity|reflexivity || (intros; discriminate)]]);
    repeat constructor
  | repeat (constructor; [reflexivity|]); constructor
  | reflexivity | reflexivity | discriminate ].

Lemma map3_wf : wf false Nat.ltb map3.
Proof. solve_wf. Qed.

Lemma multimap4_wf : wf true Nat.ltb multimap4.
Proof. solve_wf. Qed.

Lemma bounds_leftmost_witness :
  m_currentNode (upper_bound Nat.ltb multimap4 20) = Some (P 4 30 300) /\
  m_currentNode (lower_bound Nat.ltb multimap4 20) = Some (P 2 20 200).
Proof. exact (bounds_leftmost nat nat true Nat.ltb ltb_swo multimap4 20 multimap4_wf). Defined.

Ltac solve_shape :=
  let i := fresh "i" in let p := fresh "p" in let H := fresh "H" in
  intros _ i p H;
  repeat (destruct i as [|i]; simpl in H; [injection H as <-; reflexivity|]);
  destruct i; discriminate.

Lemma map3_balanced_wf : wf false Nat.ltb map3_balanced.
Proof.
  constructor; simpl;
  [ reflexivity | reflexivity | reflexivity | reflexivity | lia
  | repeat (constructor; [simpl; intuition discriminate|]); constructor
  | repeat (constructor; [|try constructor; split; [reflexivity|reflexivity]]);
    repeat constructor
  | repeat (constructor; [reflexivity|]); constructor
  | reflexivity | reflexivity | solve_shape ].
Qed.

(** [map3] is what three inserts into an empty map build, and
    [map3_balanced] what [balance()] then makes of it. *)
Example map3_built :
  fold_left (fun s x => snd (insert false Nat.ltb s x))
    [P 1 10 100; P 2 20 200; P 3 30 300] (Skiplist_new nat nat rng0) = map3 /\
  balance map3 = map3_balanced.
Proof. split; reflexivity. Qed.

Lemma at_contains_correct_witness :
  (at_ Nat.ltb map3 20 = inr tt <->
   forall x, In x (bottom (m_head map3)) -> equivalent Nat.ltb 20 (first x) = false) /\
  (forall v, at_ Nat.ltb map3 20 = inl v ->
   exists p, In p (bottom (m_head map3)) /\ equivalent Nat.ltb 20 (first p) = true /\
             v = second p) /\
  (contains Nat.ltb map3 20 = true <->
   exists p, In p (bottom (m_head map3)) /\ equivalent Nat.ltb 20 (first p) = true).
Proof. exact (at_contains_correct nat nat false Nat.ltb ltb_swo map3 20 map3_wf). Defined.

(** C8 as stated fails: inserting the key 20 again into the balanced map
    fails and the flag is still set. *)
Lemma failed_insert_flag_counterexample :
  snd (fst (insert false Nat.ltb map3_balanced (P 9 20 0))) = false /\
  is_balanced (snd (insert false Nat.ltb map3_balanced (P 9 20 0))) <> false.
Proof. split; [reflexivity|discriminate]. Qed.

Lemma failed_insert_keeps_flag_witness :
  is_balanced (snd (insert false Nat.ltb map3_balanced (P 9 20 0))) =
  is_balanced map3_balanced /\
  snd (insert false Nat.ltb map3_balanced (P 9 20 0)) =
  removeLevel (addLevel (snd (chooseLevel map3_balanced))) /\
  snd (insert false Nat.ltb map3_balanced (P 9 20 0)) =
  set_rng (mkRng (fun _ => RandomLog 0) 4) map3_balanced.
Proof.
  destruct (failed_insert_keeps_flag nat nat false Nat.ltb ltb_swo
              map3_balanced (P 9 20 0) eq_refl) as [H1 H2].
  destruct H2 as [_ [_ [H3 H4]]].
  - exact map3_balanced_wf.
  - unfold fresh. simpl. intuition discriminate.
  - split; [exact H1|]. split; [|exact H4].
    apply H3. unfold size. simpl. lia.
Defined.

Lemma map_insert_correct_witness :
  (size (snd (insert false Nat.ltb map3 (P 9 25 250))) = size map3 + 1 /\
   contains Nat.ltb (snd (insert false Nat.ltb map3 (P 9 25 250))) 25 = true) /\
  fst (insert false Nat.ltb map3 (P 8 20 250)) = (find Nat.ltb map3 20, false).
Proof.
  split.
  - destruct (map_insert_correct nat nat false Nat.ltb ltb_swo map3 (P 9 25 250))
      as [_ H]; [reflexivity|exact map3_wf|unfold fresh; simpl; intuition discriminate|].
    destruct H as [H1 [H2 _]]; auto.
    intros x Hx. simpl in Hx. destruct Hx as [<-|[<-|[<-|[]]]]; reflexivity.
  - destruct (map_insert_correct nat nat false Nat.ltb ltb_swo map3 (P 8 20 250))
      as [H _]; [reflexivity|exact map3_wf|unfold fresh; simpl; intuition discriminate|].
    destruct H as [H1 _]; auto.
    exists (P 2 20 200). split; [simpl; auto|reflexivity].
Defined.

Lemma erase_key_count_witness :
  fst (erase Nat.ltb multimap4 20) = 2 /\
  size (snd (erase Nat.ltb multimap4 20)) + 2 = size multimap4 /\
  bottom (m_head (snd (erase Nat.ltb multimap4 20))) = [P 1 10 100; P 4 30 300].
Proof.
  destruct (erase_key_count nat nat true Nat.ltb ltb_swo multimap4 20 multimap4_wf)
    as [H1 [H2 [_ [H3 _]]]].
  split; [exact H1|]. split; [exact H2|exact H3].
Defined.

Lemma stale3_eq :
  stale3 =
  mkSkiplist 2 3
    [[P 1 10 100; P 3 20 201]; [P 1 10 100; P 2 20 200; P 3 20 201]]
    (Some (P 1 10 100)) (node (P 3 20 201)) 2 3 true
    (mkRng (fun _ => RandomLog 0) 4) default_distribution.
Proof. vm_compute. reflexivity. Qed.

Lemma stale3_structure : wf_structure true Nat.ltb stale3.
Proof. unfold wf_structure. rewrite stale3_eq. solve_wf. Qed.



Lemma hinted_insert_multimap_witness :
  bottom (m_head (snd (insert_hint true Nat.ltb multimap4
                         (mkConstIterator (Some (P 4 30 300))) (P 9 20 999)))) =
    [P 1 10 100; P 2 20 200; P 3 20 201; P 9 20 999; P 4 30 300] /\
  bottom (m_head (snd (insert_hint true Nat.ltb multimap4
                         (mkConstIterator (Some (P 2 20 200))) (P 9 25 999)))) =
    [P 1 10 100; P 2 20 200; P 3 20 201; P 9 25 999; P 4 30 300] /\
  bottom (m_head (snd (insert_hint true Nat.ltb multimap4
                         (mkConstIterator None) (P 9 20 999)))) =
    [P 1 10 100; P 2 20 200; P 3 20 201; P 9 20 999; P 4 30 300].
Proof.
  assert (Hfresh : forall k v, fresh (P 9 k v) multimap4).
  { intros k v. unfold fresh. simpl. intuition discriminate. }
  split; [|split].
  - destruct (hinted_insert_multimap nat nat true Nat.ltb ltb_swo multimap4
                (Some (P 4 30 300)) (P 9 20 999) eq_refl multimap4_wf (Hfresh _ _))
      as [_ [_ [_ [Hiff _]]]].
    + intros bn E. injection E as <-. simpl. auto.
    + exact (proj1 Hiff eq_refl).
  - destruct (hinted_insert_multimap nat nat true Nat.ltb ltb_swo multimap4
                (Some (P 2 20 200)) (P 9 25 999) eq_refl multimap4_wf (Hfresh _ _))
      as [_ [_ [_ [_ [Hlow _]]]]].
    + intros bn E. injection E as <-. simpl. auto.
    + apply Hlow. exists (P 2 20 200). split; reflexivity.
  - destruct (hinted_insert_multimap nat nat true Nat.ltb ltb_swo multimap4
                None (P 9 20 999) eq_refl multimap4_wf (Hfresh _ _))
      as [_ [_ [_ [_ [_ Hup]]]]].
    + intros bn E. discriminate.
    + apply Hup. exists (P 4 30 300). split; reflexivity.
Defined.

Lemma insert_multimap_upper_bound_witness :
  bottom (m_head (snd (insert true Nat.ltb multimap4 (P 9 20 999)))) =
    [P 1 10 100; P 2 20 200; P 3 20 201; P 9 20 999; P 4 30 300] /\
  size (snd (insert true Nat.ltb multimap4 (P 9 20 999))) = 5.
Proof.
  destruct (insert_multimap_upper_bound nat nat true Nat.ltb ltb_swo multimap4
              (P 9 20 999) eq_refl multimap4_wf) as [_ [H1 [H2 _]]].
  - unfold fresh. simpl. intuition discriminate.
  - split; [exact H1|exact H2].
Defined.

Lemma erase_at_position_witness :
  bottom (m_head (snd (erase_pos multimap4 (mkConstIterator (Some (P 2 20 200)))))) =
    [P 1 10 100; P 3 20 201; P 4 30 300] /\
  m_currentNode (fst (erase_pos multimap4 (mkConstIterator (Some (P 2 20 200))))) =
    Some (P 3 20 201).
Proof.
  destruct (erase_at_position nat nat true Nat.ltb ltb_swo multimap4 (P 2 20 200) multimap4_wf)
    as [_ [H1 [_ [H2 _]]]].
  - simpl. auto.
  - split; [exact H1|exact H2].
Defined.

Lemma pop_front_back_witness :
  option_map (fun s => bottom (m_head s)) (pop_front map3) =
    Some [P 2 20 200; P 3 30 300] /\
  option_map (fun s => bottom (m_head s)) (pop_back map3) =
    Some [P 1 10 100; P 2 20 200].
Proof.
  pose proof (pop_front_back nat nat false Nat.ltb ltb_swo map3 map3_wf) as H.
  change (bottom (m_head map3)) with [P 1 10 100; P 2 20 200; P 3 30 300] in H.
  cbv beta iota in H.
  destruct H as [sf [sb [Ef [Eb [H1 [H2 _]]]]]].
  rewrite Ef, Eb. cbn [option_map]. rewrite H1, H2. split; reflexivity.
Defined.

Lemma erase_range_removes_witness :
  bottom (m_head (snd (erase_range multimap4
                         (mkConstIterator (Some (P 2 20 200)))
                         (mkConstIterator (Some (P 4 30 300)))))) =
    [P 1 10 100; P 4 30 300] /\
  size (snd (erase_range multimap4
               (mkConstIterator (Some (P 2 20 200)))
               (mkConstIterator (Some (P 4 30 300))))) + 2 = 4.
Proof.
  destruct (erase_range_removes nat nat true Nat.ltb ltb_swo multimap4
              [P 1 10 100] [P 2 20 200; P 3 20 201] [P 4 30 300]
              multimap4_wf eq_refl) as [H1 [H2 _]].
  split; [exact H1|exact H2].
Defined.

Lemma hinted_insert_map_witness :
  contains Nat.ltb
    (snd (insert_hint false Nat.ltb map3 (mkConstIterator (Some (P 3 30 300)))
            (P 9 25 250))) 25 = true /\
  bottom (m_head (snd (insert_hint false Nat.ltb map3
                         (mkConstIterator (Some (P 3 30 300))) (P 9 25 250)))) =
    [P 1 10 100; P 2 20 200; P 9 25 250; P 3 30 300].
Proof.
  destruct (hinted_insert_map nat nat false Nat.ltb ltb_swo map3
              (Some (P 3 30 300)) (P 9 25 250) eq_refl map3_wf)
    as [_ [Hc [_ Habs]]].
  - unfold fresh. simpl. intuition discriminate.
  - intros bn E. injection E as <-. simpl. auto.
  - split; [exact Hc|]. apply Habs.
    intros x Hx. simpl in Hx. destruct Hx as [<-|[<-|[<-|[]]]]; reflexivity.
Defined.

Lemma map_insert_then_lookup_witness :
  at_ Nat.ltb (snd (insert false Nat.ltb map3 (P 9 25 250))) 25 = inl 250 /\
  at_ Nat.ltb (snd (insert false Nat.ltb map3 (P 9 25 250))) 20 = at_ Nat.ltb map3 20.
Proof.
  destruct (map_insert_then_lookup nat nat false Nat.ltb ltb_swo map3 (P 9 25 250)
              eq_refl map3_wf) as [Habs _].
  - unfold fresh. simpl. intuition discriminate.
  - destruct Habs as [H1 H2].
    + intros x Hx. simpl in Hx. destruct Hx as [<-|[<-|[<-|[]]]]; reflexivity.
    + split; [exact H1|]. apply (H2 20). reflexivity.
Defined.

Lemma erase_then_lookup_witness :
  contains Nat.ltb (snd (erase Nat.ltb multimap4 20)) 20 = false /\
  contains Nat.ltb (snd (erase Nat.ltb multimap4 20)) 30 = contains Nat.ltb multimap4 30.
Proof.
  destruct (erase_then_lookup nat nat true Nat.ltb ltb_swo multimap4 20 multimap4_wf)
    as [H1 [_ [H2 _]]].
  split; [exact H1|]. apply H2. reflexivity.
Defined.

Lemma count_equivalent_witness :
  count Nat.ltb multimap4 20 = 2 /\
  fst (erase Nat.ltb multimap4 20) = count Nat.ltb multimap4 20.
Proof.
  destruct (count_equivalent nat nat true Nat.ltb ltb_swo multimap4 20 multimap4_wf)
    as [H1 [H2 _]].
  split; [exact H1|exact H2].
Defined.

Lemma full_sweep_is_balance_witness :
  fst (incr_n 4 multimap4 (begin_ multimap4)) = balance multimap4 /\
  fst (decr_n 4 multimap4 (end_ multimap4)) = balance multimap4 /\
  column_height (P 4 30 300)
    (m_head (fst (incr_n 4 multimap4 (begin_ multimap4)))) = 3 /\
  fst (incr_n 3 stale3 (begin_ stale3)) = stale3 /\
  fst (decr_n 3 stale3 (end_ stale3)) = stale3.
Proof.
  destruct (full_sweep_is_balance nat nat true Nat.ltb multimap4
              (wf_wf_structure nat nat true Nat.ltb multimap4 multimap4_wf))
    as [H1 [H2 [_ [_ [_ [_ [H3 _]]]]]]].
  { unfold size. simpl. lia. }
  destruct (full_sweep_is_balance nat nat true Nat.ltb stale3 stale3_structure)
    as [_ [_ [_ [_ [_ [_ [_ H4]]]]]]].
  { rewrite stale3_eq. unfold size. simpl. lia. }
  split; [exact H1|]. split; [exact H2|].
  split; [exact (proj1 (H3 eq_refl 3 (P 4 30 300) eq_refl))|].
  rewrite stale3_eq in H4 |- *. exact (H4 eq_refl).
Defined.

Lemma iteration_in_order_witness :
  m_currentNode (snd (incr_n 2 multimap4 (begin_ multimap4))) = Some (P 3 20 201) /\
  m_currentNode (snd (decr_n 1 multimap4 (end_ multimap4))) = Some (P 4 30 300).
Proof.
  destruct (iteration_in_order nat nat true Nat.ltb multimap4 2 multimap4_wf)
    as [H1 _]; [unfold size; simpl; lia|].
  destruct (iteration_in_order nat nat true Nat.ltb multimap4 1 multimap4_wf)
    as [_ [H2 _]]; [unfold size; simpl; lia|].
  split; [exact H1|exact H2].
Defined.

Lemma balance_one_column_witness :
  column_height (P 4 30 300)
    (m_head (iterator_balance multimap4
               (mkIterator (Some (P 4 30 300)) 3 false UNKNOWN))) = 3 /\
  column_height (P 2 20 200)
    (m_head (iterator_balance multimap4
               (mkIterator (Some (P 4 30 300)) 3 false UNKNOWN))) = 3.
Proof.
  destruct (balance_one_column nat nat true Nat.ltb multimap4 (P 4 30 300) 3 false
              UNKNOWN multimap4_wf) as [_ [H1 [H2 _]]].
  - simpl. auto.
  - split; [exact H1|]. rewrite H2; [reflexivity|simpl; auto|discriminate].
Defined.

Lemma reachable_count_range_witness :
  let s := snd (insert false Nat.ltb
                  (snd (insert false Nat.ltb (Skiplist_new nat nat rng0) (P 2 20 200)))
                  (P 1 10 100)) in
  m_countMin s <= size s <= m_countMax s /\ m_levelCount s = 2.
Proof.
  intros s.
  destruct (reachable_count_range nat nat false Nat.ltb ltb_swo s) as [H _].
  - unfold s. apply reach_insert; [apply reach_insert; [apply reach_new|]|].
    + unfold fresh. simpl. intuition.
    + unfold fresh. simpl. intuition discriminate.
  - split; [exact H|reflexivity].
Defined.

Lemma subscript_map_witness :
  subscript false Nat.ltb map3 20 (P 9 20 0) = (Some 200, map3) /\
  fst (subscript false Nat.ltb map3 25 (P 9 25 0)) = Some 0 /\
  size (snd (subscript false Nat.ltb map3 25 (P 9 25 0))) = 4.
Proof.
  assert (Hf : forall k, fresh (P 9 k 0) map3).
  { intros k. unfold fresh. simpl. intuition discriminate. }
  split.
  - exact (subscript_map nat nat false Nat.ltb ltb_swo map3 20 (P 9 20 0)
             eq_refl map3_wf (Hf 20) eq_refl).
  - pose proof (subscript_map nat nat false Nat.ltb ltb_swo map3 25 (P 9 25 0)
                  eq_refl map3_wf (Hf 25) eq_refl) as H.
    destruct H as [H1 [_ [H2 _]]]. split; [exact H1|exact H2].
Defined.

Lemma insert_range_as_inserts_witness :
  size (insert_range true Nat.ltb multimap4 [P 8 20 1; P 9 5 2]) = 6 /\
  contains Nat.ltb (insert_range true Nat.ltb multimap4 [P 8 20 1; P 9 5 2]) 5 = true.
Proof.
  destruct (insert_range_as_inserts nat nat true Nat.ltb ltb_swo multimap4
              [P 8 20 1; P 9 5 2] multimap4_wf) as [_ [_ [_ [Hc Hs]]]].
  - simpl. repeat constructor; simpl; intuition discriminate.
  - repeat constructor; unfold fresh; simpl; intuition discriminate.
  - split; [exact (Hs eq_refl)|]. apply (Hc (P 9 5 2)). simpl. auto.
Defined.

Lemma equal_range_exact_witness :
  m_currentNode (fst (equal_range Nat.ltb multimap4 20)) = Some (P 2 20 200) /\
  m_currentNode (snd (equal_range Nat.ltb multimap4 20)) = Some (P 4 30 300) /\
  count Nat.ltb multimap4 20 = 2.
Proof.
  destruct (equal_range_exact nat nat true Nat.ltb ltb_swo multimap4 20 multimap4_wf)
    as [_ [H1 [H2 [H3 _]]]].
  split; [exact H1|]. split; [exact H2|exact H3].
Defined.

Lemma front_back_extremes_witness :
  front map3 = Some (P 1 10 100) /\ back map3 = Some (P 3 30 300).
Proof.
  pose proof (front_back_extremes nat nat false Nat.ltb ltb_swo map3 map3_wf) as H.
  destruct H as [H1 [H2 _]]. split; [exact H1|exact H2].
Defined.

Lemma insert_then_erase_witness :
  bottom (m_head (snd (erase_pos (snd (insert true Nat.ltb multimap4 (P 9 20 999)))
                         (mkConstIterator
                            (m_currentNode
                               (fst (fst (insert true Nat.ltb multimap4 (P 9 20 999)))))))))
  = bottom (m_head multimap4).
Proof.
  destruct (insert_then_erase nat nat true Nat.ltb ltb_swo multimap4 (P 9 20 999)
              multimap4_wf) as [_ [H _]].
  - unfold fresh. simpl. intuition discriminate.
  - now left.
  - exact H.
Defined.

Lemma for_each_visits_all_witness :
  fst (for_each (fun (acc : list nat) (p : Pair nat nat) => second p :: acc)
         multimap4 []) = [300; 201; 200; 100] /\
  is_balanced (snd (for_each (fun (acc : list nat) (p : Pair nat nat) => second p :: acc)
                      multimap4 [])) = true.
Proof.
  destruct (for_each_visits_all nat nat true Nat.ltb (list nat)
              (fun acc p => second p :: acc) multimap4 [] multimap4_wf)
    as [H1 [_ [H2 _]]].
  split; [now rewrite H1|exact H2].
Defined.

Lemma equal_compares_sequences_witness :
  skiplist_equal (fun a b : Pair nat nat =>
                    (first a =? first b) && (second a =? second b))
    map3 map3_balanced = Some true /\
  skiplist_not_equal (fun a b : Pair nat nat =>
                        (first a =? first b) && (second a =? second b))
    map3 map3_balanced = Some false.
Proof.
  destruct (equal_compares_sequences nat nat false Nat.ltb
              (fun a b => (first a =? first b) && (second a =? second b))
              map3 map3_balanced map3_wf map3_balanced_wf) as [H1 [H2 _]].
  split; [exact H1|exact H2].
Defined.

Lemma balance_fills_levels_witness :
  calcBalancedLevel multimap4 4 <= 3 /\
  length (m_head (balance multimap4)) = 3.
Proof.
  destruct (balance_fills_levels nat nat true Nat.ltb multimap4 multimap4_wf)
    as [H1 [H2 _]].
  split; [|exact H2]. apply (H1 4). unfold size. simpl. lia.
Defined.

Lemma middle_iterator_idle_witness :
  fst (incr_n 2 multimap4 (iterator_at multimap4 (Some (P 2 20 200)))) = multimap4 /\
  m_currentNode (snd (incr_n 2 multimap4 (iterator_at multimap4 (Some (P 2 20 200)))))
  = Some (P 4 30 300).
Proof.
  destruct (middle_iterator_idle nat nat true Nat.ltb multimap4 1 2 (P 2 20 200)
              multimap4_wf) as [_ [_ [H1 [_ [H2 _]]]]].
  - lia.
  - reflexivity.
  - split; [exact H1|]. apply H2. unfold size. simpl. lia.
Defined.

Lemma erase_last_stale_cursor_witness :
  let r := erase_pos multimap4 (mkConstIterator (Some (P 4 30 300))) in
  let s2 := fst (decr_n (size (snd r)) (snd r) (fst r)) in
  m_index (fst r) = 4 /\ size (snd r) = 3 /\
  is_balanced s2 = true /\ ~ balanced_shape s2.
Proof.
  intros r s2.
  destruct (erase_last_stale_cursor nat nat true Nat.ltb ltb_swo multimap4
              [P 1 10 100; P 2 20 200; P 3 20 201] (P 4 30 300)
              multimap4_wf eq_refl) as [_ [_ [_ [Hb [_ [_ [Hs _]]]]]]].
  - simpl. lia.
  - split; [reflexivity|]. split; [reflexivity|]. split; [exact Hb|exact Hs].
Defined.

Lemma subscript_multimap_witness :
  fst (subscript true Nat.ltb multimap4 20 (P 9 20 0)) = Some 0 /\
  bottom (m_head (snd (subscript true Nat.ltb multimap4 20 (P 9 20 0)))) =
    [P 1 10 100; P 9 20 0; P 2 20 200; P 3 20 201; P 4 30 300] /\
  count Nat.ltb (snd (subscript true Nat.ltb multimap4 20 (P 9 20 0))) 20 = 3.
Proof.
  destruct (subscript_multimap nat nat true Nat.ltb ltb_swo multimap4 20 (P 9 20 0)
              eq_refl multimap4_wf) as [H1 [H2 [_ [H3 _]]]].
  - unfold fresh. simpl. intuition discriminate.
  - reflexivity.
  - split; [exact H1|]. split; [exact H2|exact H3].
Defined.

Lemma reachable_sorted_witness :
  let s := insert_range false Nat.ltb (Skiplist_new nat nat rng0)
             [P 1 10 100; P 2 5 50] in
  m_begin s = hd_error (bottom (m_head s)) /\
  forall u x, In u (m_head s) -> In x u -> In x (bottom (m_head s)).
Proof.
  intros s.
  destruct (reachable_sorted nat nat false Nat.ltb ltb_swo s) as [_ [_ [H3 [[H4 _] _]]]].
  - unfold s. apply reach_insert_range; [apply reach_new| |].
    + simpl. repeat constructor; simpl; intuition discriminate.
    + repeat constructor; unfold fresh; simpl; intuition.
  - split; [exact H4|exact H3].
Defined.

Lemma erase_key_as_range_witness :
  bottom (m_head (snd (erase Nat.ltb multimap4 20))) = [P 1 10 100; P 4 30 300] /\
  bottom (m_head (snd (erase_range multimap4
                         (mkConstIterator
                            (m_currentNode (fst (equal_range Nat.ltb multimap4 20))))
                         (mkConstIterator
                            (m_currentNode (snd (equal_range Nat.ltb multimap4 20)))))))
  = bottom (m_head (snd (erase Nat.ltb multimap4 20))).
Proof.
  destruct (erase_key_as_range nat nat true Nat.ltb ltb_swo multimap4 20 multimap4_wf)
    as [H1 [H2 _]].
  split; [exact H2|exact H1].
Defined.
